(** * Compute-offload path optimisation: CCN, MPCN, CPEG and CNE

    A shallow embedding of the Python sources

      - [CPEG.py]        three-layer expansion [expand_network]
      - [CNE.py]         replica expansion [expand_network],
                         [load_network_from_yaml], followed by the
                         "CPEG algorithm" script ([d_uv], graph build loop,
                         [nx.dijkstra_path], path weight)
      - [LP_in_CPEG.py]  a second copy of [d_uv], [load_network_from_yaml],
                         [print_selected_path]
      - [MINLP.py]       [load_network_from_yaml], [build_directed_graph],
                         the loop that reads the path out of the solution
      - [CCN.py]         [load_network_from_yaml],
                         [find_closest_compute_node] and its [main]
      - [MPCN.py]        [load_network_from_yaml],
                         [find_max_capacity_compute_node] and its [main]
      - [network_parameters.py]  [generate_random_network]

    with the properties the specification states about them and further
    properties read off the code.

    Conventions of the embedding.

      - Python numbers are exact rationals ([Q]); [==] is equality of
        rationals.  The operations are the ones of the code, in the order
        of the code, but they do not round as IEEE doubles do.  A
        statement that equates or compares two delays is therefore made
        only between sums of the same terms in the same order, or where
        rounding cannot change it; section 20 shows, with the doubles of
        the kernel, what the order of the additions changes.
      - A Python exception is a value [Raise e] of the [result] monad;
        [x / y] raises [ZeroDivisionError] when [y] is zero.
      - Node names are strings, f-strings are string concatenations.
      - Python dicts and the [nx.DiGraph] adjacency are insertion-ordered
        association lists, because [max(...)] over [dict.items()] and the
        loops over edges depend on iteration order.
      - The module-level globals of the scripts ([flow_size], [gamma],
        [omega], [compute_capacities]) are explicit arguments.
      - The shortest-path routines of networkx are modelled by a
        reference search; the lemmas of section 22 prove the contract the
        later proofs use (soundness, optimality, completeness).
      - What the code takes from outside is an argument of the model: the
        parsed YAML document, the values of the solver's variables, the
        results of [random.randint].  The Gurobi models themselves, the
        drivers [compare4.py] to [compare6.py] (subprocesses, parsing of
        floats, CSV files) and [generate_network_parameters] (sampling,
        set iteration order, file output) are not modelled.
      - A [while] loop that may run forever takes a number of iterations
        it is allowed ([fuel]); [None] says that it is still running.

    Sections 1 to 20 hold the definitions, sections 21 to 28 the lemmas
    on the search, the graphs, the strategies and their sums, section 29
    the properties of the specification, each with the concrete inputs
    that witness or refute it, and section 30 further properties of the
    code. *)

From Stdlib Require Import List String Ascii Bool Arith ZArith QArith Lia Lqa.
From Stdlib Require Import DecimalString DecimalNat.
From Stdlib Require DecimalZ.
From Corelib Require PrimFloat.
Import ListNotations.

Set Implicit Arguments.

(* ================================================================== *)
(** * 1. Python values, exceptions and numbers                         *)
(* ================================================================== *)

Inductive exn : Type :=
| KeyError
| ZeroDivisionError
| ValueError
| NodeNotFound
| NetworkXNoPath
| InvalidTopology
| InvalidCapacity.

Inductive result (A : Type) : Type :=
| Ok (a : A)
| Raise (e : exn).
Arguments Ok {A} a.
Arguments Raise {A} e.

Definition bind {A B : Type} (m : result A) (k : A -> result B) : result B :=
  match m with
  | Ok a => k a
  | Raise e => Raise e
  end.

Notation "x <- m ;; k" := (bind m (fun x => k))
  (at level 61, m at next level, right associativity).
Notation "' pat <- m ;; k" := (bind m (fun x => match x with pat => k end))
  (at level 61, pat pattern, m at next level, right associativity).

(** [for x in l: ...] collecting one value per iteration; the first
    exception aborts the loop. *)
Fixpoint mapM {A B : Type} (f : A -> result B) (l : list A) : result (list B) :=
  match l with
  | [] => Ok []
  | x :: r => y <- f x ;; ys <- mapM f r ;; Ok (y :: ys)
  end.

(** Python's [a / b]. *)
Definition truediv (a b : Q) : result Q :=
  if Qeq_bool b 0 then Raise ZeroDivisionError else Ok (a / b).

(** [float('inf')] next to the finite values. *)
Inductive delay : Type :=
| Finite (q : Q)
| Infinity.

Definition delay_le (a b : delay) : Prop :=
  match a, b with
  | Finite x, Finite y => x <= y
  | _, Infinity => True
  | Infinity, Finite _ => False
  end.

Definition delay_eq (a b : delay) : Prop :=
  match a, b with
  | Finite x, Finite y => x == y
  | Infinity, Infinity => True
  | _, _ => False
  end.

(* ================================================================== *)
(** * 2. Data model                                                   *)
(* ================================================================== *)

Definition node := string.

Definition node_eqb (a b : node) : bool := String.eqb a b.

(** The dict that [load_network_from_yaml] attaches to every edge. *)
Record edge_attrs : Type := {
  bandwidth : Q;
  propagation_delay : Q;
  processing_delay : Q;
  queuing_delay : Q;
  jitter : Q
}.

Definition edge : Type := (node * node * edge_attrs)%type.

(** [compute_capacities]: a dict from node name to capacity. *)
Definition capacities : Type := list (node * Q).

Fixpoint caps_lookup (d : capacities) (k : node) : option Q :=
  match d with
  | [] => None
  | (k', c) :: r => if node_eqb k' k then Some c else caps_lookup r k
  end.

(** [d[k]] *)
Definition caps_getitem (d : capacities) (k : node) : result Q :=
  match caps_lookup d k with
  | Some c => Ok c
  | None => Raise KeyError
  end.

(** [d.get(k, default)] *)
Definition caps_get (d : capacities) (k : node) (default : Q) : Q :=
  match caps_lookup d k with
  | Some c => c
  | None => default
  end.

Record Network : Type := {
  nodes : list node;
  edges : list edge;
  compute_nodes : list node;
  compute_capacities : capacities
}.

Record FlowRequest : Type := {
  source_node : node;
  destination_node : node;
  flow_size : Q;
  gamma : Q;
  omega : Q
}.

(** The two shapes of dict that travel on expanded edges, and the
    non-dict payload (the integer [0] of the linking edges). *)
Inductive attr_dict : Type :=
| LinkDict (a : edge_attrs)
| CapacityDict (c : Q).

Inductive edge_data : Type :=
| Dict (d : attr_dict)
| PyInt (n : Z).

(** [edge_data.get(key, default)] *)
Definition dict_get (d : attr_dict) (key : string) (default : Q) : Q :=
  match d with
  | LinkDict a =>
      if String.eqb key "bandwidth" then bandwidth a
      else if String.eqb key "propagation_delay" then propagation_delay a
      else if String.eqb key "processing_delay" then processing_delay a
      else if String.eqb key "queuing_delay" then queuing_delay a
      else if String.eqb key "jitter" then jitter a
      else default
  | CapacityDict c =>
      if String.eqb key "capacity" then c else default
  end.

(** An expanded edge [(u, v, edge_data, layer)]. *)
Definition xedge : Type := (node * node * edge_data * string)%type.

(** [s.split('_')[0]]: the part of [s] before its first underscore. *)
Fixpoint split_head (s : string) : string :=
  match s with
  | EmptyString => EmptyString
  | String c r => if Ascii.eqb c "_"%char then EmptyString else String c (split_head r)
  end.

(** [f"{node}_2"], [f"{node}_3"] and [f"{node}_{i}"]. *)
Definition suffix2 (n : node) : node := (n ++ "_2")%string.
Definition suffix3 (n : node) : node := (n ++ "_3")%string.
Definition str_of_nat (i : nat) : string := NilEmpty.string_of_uint (Nat.to_uint i).
Definition suffix_i (n : node) (i : nat) : node := (n ++ "_" ++ str_of_nat i)%string.

(** The per-edge delays of the delay model, as the spec words them. *)
Definition non_transmission (a : edge_attrs) : Q :=
  propagation_delay a + processing_delay a + queuing_delay a + jitter a.

Definition forward_delay (fl : FlowRequest) (a : edge_attrs) : Q :=
  propagation_delay a + processing_delay a + queuing_delay a + jitter a
  + flow_size fl / bandwidth a.

Definition return_delay (fl : FlowRequest) (a : edge_attrs) : Q :=
  propagation_delay a + processing_delay a + queuing_delay a + jitter a
  + gamma fl * flow_size fl / bandwidth a.

(* ================================================================== *)
(** * 3. CPEG.py: the three-layer expansion                           *)
(* ================================================================== *)

Module CPEG.

Definition expand_network (original_nodes : list node) (original_edges : list edge)
    (compute_nodes : list node) (compute_capacities : capacities)
    (Source_node Dest_node : node) : result (list node * list xedge) :=
  let V_C_UCL := original_nodes in
  let V_C_CL := map suffix2 compute_nodes in
  let V_C_DCL :=
    map suffix3 (filter (fun n => negb (node_eqb n Source_node)) original_nodes) in
  (* edges of the C-UCL layer: drop the edges entering the destination *)
  let ucl :=
    map (fun e : edge => let '(u, v, weight) := e in (u, v, Dict (LinkDict weight), "C-UCL"%string))
        (filter (fun e : edge => let '(u, v, _) := e in negb (node_eqb v Dest_node))
                original_edges) in
  (* edges from C-UCL to C-CL *)
  ucl_cl <- mapM (fun n =>
                    c <- caps_getitem compute_capacities n ;;
                    Ok (n, suffix2 n, Dict (CapacityDict c), "UCL-CL"%string))
                 compute_nodes ;;
  (* edges from C-CL to C-DCL *)
  let cl_dcl :=
    map (fun n => (suffix2 n, suffix3 n, PyInt 0, "CL-DCL"%string)) compute_nodes in
  (* edges of the C-DCL layer *)
  let dcl :=
    map (fun e : edge => let '(u, v, weight) := e in
                         (suffix3 u, suffix3 v, Dict (LinkDict weight), "C-DCL"%string))
        (filter (fun e : edge => let '(u, v, _) := e in
                                 negb (node_eqb u Source_node) && negb (node_eqb v Source_node))
                original_edges) in
  let all_nodes := V_C_UCL ++ V_C_CL ++ V_C_DCL in
  Ok (all_nodes, ucl ++ ucl_cl ++ cl_dcl ++ dcl).

End CPEG.

(* ================================================================== *)
(** * 4. The weight function [d_uv]                                   *)
(* ================================================================== *)

(** [d_uv] reads the module-level globals [flow_size], [gamma], [omega]
    and [compute_capacities]; here they are explicit arguments. *)
Definition d_uv_body (compute_capacities : capacities) (flow_size gamma omega : Q)
    (u v : node) (layer : string) (edge_data : edge_data) : result Q :=
  match edge_data with
  | PyInt _ => Ok 0
  | Dict d =>
      if String.eqb layer "C-UCL" then
        transmission_delay <- truediv flow_size (dict_get d "bandwidth" 1) ;;
        let non_transmission_delay :=
          dict_get d "propagation_delay" 0 + dict_get d "processing_delay" 0
          + dict_get d "queuing_delay" 0 + dict_get d "jitter" 0 in
        Ok (transmission_delay + non_transmission_delay)
      else if String.eqb layer "C-DCL" then
        transmission_delay <- truediv (gamma * flow_size) (dict_get d "bandwidth" 1) ;;
        let non_transmission_delay :=
          dict_get d "propagation_delay" 0 + dict_get d "processing_delay" 0
          + dict_get d "queuing_delay" 0 + dict_get d "jitter" 0 in
        Ok (transmission_delay + non_transmission_delay)
      else if String.eqb layer "UCL-CL" then
        let compute_node := split_head v in
        let compute_capacity := caps_get compute_capacities compute_node 1 in
        computing_delay <- truediv (omega * flow_size) compute_capacity ;;
        Ok computing_delay
      else if String.eqb layer "CL-DCL" then Ok 0
      else Ok 0
  end.

Module CPEG_algorithm.
(** [d_uv] of the script that follows the replica expansion in [CNE.py]. *)
Definition d_uv := d_uv_body.
End CPEG_algorithm.

Module LP_in_CPEG.
(** [d_uv] of [LP_in_CPEG.py]: the same text. *)
Definition d_uv := d_uv_body.
End LP_in_CPEG.

(* ================================================================== *)
(** * 5. [nx.DiGraph] and the shortest-path routines of networkx      *)
(* ================================================================== *)

(** A directed graph keeps its nodes and, per ordered pair of nodes, at
    most one attribute value: adding an edge that is already present
    overwrites its attributes. *)
Record DiGraph (A : Type) : Type := {
  g_nodes : list node;
  g_adj : list (node * node * A)
}.

Definition empty_graph (A : Type) : DiGraph A := {| g_nodes := []; g_adj := [] |}.

Definition has_node {A : Type} (G : DiGraph A) (n : node) : bool :=
  existsb (node_eqb n) (g_nodes G).

Definition add_node {A : Type} (G : DiGraph A) (n : node) : DiGraph A :=
  if has_node G n then G
  else {| g_nodes := g_nodes G ++ [n]; g_adj := g_adj G |}.

Fixpoint set_edge {A : Type} (adj : list (node * node * A)) (u v : node) (a : A)
  : list (node * node * A) :=
  match adj with
  | [] => [(u, v, a)]
  | (u', v', a') :: r =>
      if node_eqb u' u && node_eqb v' v then (u, v, a) :: r
      else (u', v', a') :: set_edge r u v a
  end.

(** [G.add_edge(u, v, **attrs)] *)
Definition add_edge {A : Type} (G : DiGraph A) (u v : node) (a : A) : DiGraph A :=
  let G1 := add_node (add_node G u) v in
  {| g_nodes := g_nodes G1; g_adj := set_edge (g_adj G) u v a |}.

(** [G.add_nodes_from(nodes)] and [G.add_edges_from(edges)] *)
Definition add_nodes_from {A : Type} (G : DiGraph A) (ns : list node) : DiGraph A :=
  fold_left (fun g n => add_node g n) ns G.

Definition add_edges_from {A : Type} (G : DiGraph A) (es : list (node * node * A))
  : DiGraph A :=
  fold_left (fun g e => let '(u, v, a) := e in add_edge g u v a) es G.

Fixpoint get_edge_adj {A : Type} (adj : list (node * node * A)) (u v : node) : option A :=
  match adj with
  | [] => None
  | (u', v', a) :: r =>
      if node_eqb u' u && node_eqb v' v then Some a else get_edge_adj r u v
  end.

(** [G[u][v]] *)
Definition get_edge {A : Type} (G : DiGraph A) (u v : node) : result A :=
  match get_edge_adj (g_adj G) u v with
  | Some a => Ok a
  | None => Raise KeyError
  end.

(** [sum(f(G[p[i]][p[i+1]]) for i in range(len(p)-1))], started at [acc]. *)
Fixpoint sum_along {A : Type} (G : DiGraph A) (f : A -> result Q) (p : list node) (acc : Q)
  : result Q :=
  match p with
  | u :: ((v :: _) as r) =>
      a <- get_edge G u v ;;
      x <- f a ;;
      sum_along G f r (acc + x)
  | _ => Ok acc
  end.

(** ** Shortest-path search

    networkx is not part of the repository.  Its routines are modelled by
    their contract: on a graph with non-negative weights they return a
    path of minimum total weight, and raise [NetworkXNoPath] when the
    target cannot be reached.  The reference search below relaxes every
    edge once per round (Bellman-Ford) and keeps, for every reached node,
    the best distance found and the path that realises it.  Which of
    several minimum-weight paths is returned is left to the library; the
    theorems below rely on the contract only.  On a negative weight the
    searches of networkx can raise [ValueError] when they find a shorter
    way to a node they had settled; the model has no such case. *)

Section Search.
Variable A : Type.
Variable weight : A -> Q.

(** best known distance and the path to the node, last node first *)
Definition label : Type := (Q * list node)%type.
Definition labels : Type := list (node * label).

Fixpoint lab_get (m : labels) (v : node) : option label :=
  match m with
  | [] => None
  | (k, l) :: r => if node_eqb k v then Some l else lab_get r v
  end.

Fixpoint lab_set (m : labels) (v : node) (l : label) : labels :=
  match m with
  | [] => [(v, l)]
  | (k, l') :: r => if node_eqb k v then (k, l) :: r else (k, l') :: lab_set r v l
  end.

Definition relax (m : labels) (e : node * node * A) : labels :=
  let '(u, v, a) := e in
  match lab_get m u with
  | None => m
  | Some (du, pu) =>
      match lab_get m v with
      | None => lab_set m v (du + weight a, v :: pu)
      | Some (dv, _) =>
          if Qlt_le_dec (du + weight a) dv
          then lab_set m v (du + weight a, v :: pu)
          else m
      end
  end.

Definition relax_round (adj : list (node * node * A)) (m : labels) : labels :=
  fold_left relax adj m.

Fixpoint relax_rounds (adj : list (node * node * A)) (n : nat) (m : labels) : labels :=
  match n with
  | O => m
  | S k => relax_rounds adj k (relax_round adj m)
  end.

Definition search (G : DiGraph A) (source target : node) : option label :=
  lab_get (relax_rounds (g_adj G) (List.length (g_adj G)) [(source, (0, [source]))]) target.

(** [nx.dijkstra_path(G, source, target, weight)] *)
Definition dijkstra_path (G : DiGraph A) (source target : node) : result (list node) :=
  if negb (has_node G source) then Raise NodeNotFound
  else match search G source target with
       | Some (_, p) => Ok (rev p)
       | None => Raise NetworkXNoPath
       end.

(** [nx.shortest_path(G, source, target, weight)] with both ends given *)
Definition shortest_path (G : DiGraph A) (source target : node) : result (list node) :=
  if negb (has_node G source) || negb (has_node G target) then Raise NodeNotFound
  else match search G source target with
       | Some (_, p) => Ok (rev p)
       | None => Raise NetworkXNoPath
       end.
End Search.

(* ================================================================== *)
(** * 6. The CPEG script of [CNE.py]                                  *)
(* ================================================================== *)

Module CPEG_script.

(** attributes of an edge of the expanded graph: [weight] and [layer] *)
Definition xattr : Type := (Q * string)%type.

(** [for u, v, edge_data, layer in E: G.add_edge(u, v, weight=d_uv(...), layer=layer)] *)
Fixpoint build_loop (caps : capacities) (flow_size gamma omega : Q)
    (G : DiGraph xattr) (E : list xedge) : result (DiGraph xattr) :=
  match E with
  | [] => Ok G
  | (u, v, edge_data, layer) :: r =>
      weight <- CPEG_algorithm.d_uv caps flow_size gamma omega u v layer edge_data ;;
      build_loop caps flow_size gamma omega (add_edge G u v (weight, layer)) r
  end.

(** the edge one iteration of the loop adds *)
Definition weigh_edge (caps : capacities) (flow_size gamma omega : Q) (e : xedge)
  : result (node * node * xattr) :=
  let '(u, v, edge_data, layer) := e in
  weight <- CPEG_algorithm.d_uv caps flow_size gamma omega u v layer edge_data ;;
  Ok (u, v, (weight, layer)).

Definition build_graph (net : Network) (fl : FlowRequest) : result (DiGraph xattr) :=
  '(V, E) <- CPEG.expand_network (nodes net) (edges net) (compute_nodes net)
                (compute_capacities net) (source_node fl) (destination_node fl) ;;
  build_loop (compute_capacities net) (flow_size fl) (gamma fl) (omega fl)
             (empty_graph xattr) E.

(** The script from the expansion to its two printed results: the
    shortest path and [END_TO_END_DELAY]. *)
Definition run (net : Network) (fl : FlowRequest) : result (list node * Q) :=
  G <- build_graph net fl ;;
  let dest_node_dcl := (destination_node fl ++ "_3")%string in
  shortest_path <- dijkstra_path fst G (source_node fl) dest_node_dcl ;;
  path_weight <- sum_along G (fun a => Ok (fst a)) shortest_path 0 ;;
  Ok (shortest_path, path_weight).

End CPEG_script.

(* ================================================================== *)
(** * 7. CCN.py: nearest compute node by propagation delay            *)
(* ================================================================== *)

(** [omega * flow_size / compute_capacities[node]], the expression both
    greedy strategies evaluate for the node they selected. *)
Definition compute_delay_at (compute_capacities : capacities) (n : node)
    (flow_size omega : Q) : result Q :=
  capacity <- caps_getitem compute_capacities n ;;
  truediv (omega * flow_size) capacity.

(** A strategy result [(node | None, total_delay, path)]. *)
Definition PathResult : Type := (option node * delay * list node)%type.

Definition pr_node (r : PathResult) : option node := fst (fst r).
Definition pr_total_delay (r : PathResult) : delay := snd (fst r).
Definition pr_path (r : PathResult) : list node := snd r.

(** [G = nx.DiGraph(); G.add_nodes_from(nodes); G.add_edges_from(edges)] *)
Definition original_graph (net : Network) : DiGraph edge_attrs :=
  add_edges_from (add_nodes_from (empty_graph edge_attrs) (nodes net)) (edges net).

Module CCN.

(** an entry of [valid_compute_nodes] *)
Definition candidate : Type := (node * Q * list node * list node)%type.

Definition cand_key (x : candidate) : Q := let '(_, d, _, _) := x in d.

(** the body of the [try] of the first loop *)
Definition try_candidate (G : DiGraph edge_attrs) (source_node destination_node : node)
    (compute_node : node) : result candidate :=
  path_to_compute <- shortest_path propagation_delay G source_node compute_node ;;
  path_to_dest <- shortest_path propagation_delay G compute_node destination_node ;;
  delay_to_compute <-
    sum_along G (fun a => Ok (propagation_delay a)) path_to_compute 0 ;;
  Ok (compute_node, delay_to_compute, path_to_compute, path_to_dest).

(** the first loop: [except nx.NetworkXNoPath: continue] *)
Fixpoint collect (G : DiGraph edge_attrs) (source_node destination_node : node)
    (compute_nodes : list node) (valid_compute_nodes : list candidate)
  : result (list candidate) :=
  match compute_nodes with
  | [] => Ok valid_compute_nodes
  | c :: r =>
      match try_candidate G source_node destination_node c with
      | Ok x => collect G source_node destination_node r (valid_compute_nodes ++ [x])
      | Raise NetworkXNoPath => collect G source_node destination_node r valid_compute_nodes
      | Raise e => Raise e
      end
  end.

(** [list.sort(key=lambda x: x[1])]: a stable sort *)
Fixpoint insert_by_key (x : candidate) (l : list candidate) : list candidate :=
  match l with
  | [] => [x]
  | y :: r => if Qle_bool (cand_key x) (cand_key y) then x :: l else y :: insert_by_key x r
  end.

Definition sort_by_key (l : list candidate) : list candidate :=
  fold_right insert_by_key [] l.

Definition find_closest_compute_node (G : DiGraph edge_attrs)
    (source_node destination_node : node) (compute_nodes : list node)
    (compute_capacities : capacities) (flow_size omega gamma : Q) : result PathResult :=
  valid_compute_nodes <- collect G source_node destination_node compute_nodes [] ;;
  match sort_by_key valid_compute_nodes with
  | [] => Ok (None, Infinity, [])
  | (closest_node, _, shortest_path, path_compute_to_destination) :: _ =>
      transmission_delay <-
        sum_along G (fun a => truediv flow_size (bandwidth a)) shortest_path 0 ;;
      processing_delay' <- sum_along G (fun a => Ok (processing_delay a)) shortest_path 0 ;;
      queuing_delay' <- sum_along G (fun a => Ok (queuing_delay a)) shortest_path 0 ;;
      jitter' <- sum_along G (fun a => Ok (jitter a)) shortest_path 0 ;;
      propagation_delay' <- sum_along G (fun a => Ok (propagation_delay a)) shortest_path 0 ;;
      let delay_to_compute_node :=
        propagation_delay' + transmission_delay + processing_delay' + queuing_delay'
        + jitter' in
      delay_compute_to_destination <-
        sum_along G (fun a =>
                       t <- truediv (gamma * flow_size) (bandwidth a) ;;
                       Ok (propagation_delay a + processing_delay a
                           + queuing_delay a + t + jitter a))
                  path_compute_to_destination 0 ;;
      compute_delay <- compute_delay_at compute_capacities closest_node flow_size omega ;;
      let total_delay :=
        delay_to_compute_node + delay_compute_to_destination + compute_delay in
      let full_path := removelast shortest_path ++ path_compute_to_destination in
      Ok (Some closest_node, Finite total_delay, full_path)
  end.

Definition main (net : Network) (fl : FlowRequest) : result PathResult :=
  find_closest_compute_node (original_graph net) (source_node fl) (destination_node fl)
    (compute_nodes net) (compute_capacities net) (flow_size fl) (omega fl) (gamma fl).

End CCN.

(* ================================================================== *)
(** * 8. MPCN.py: compute node of maximum capacity                    *)
(* ================================================================== *)

Module MPCN.

(** [max(compute_capacities.items(), key=lambda x: x[1])]: the first item
    of maximal value; [ValueError] on an empty dict. *)
Definition max_item (d : capacities) : result (node * Q) :=
  match d with
  | [] => Raise ValueError
  | x :: r => Ok (fold_left (fun best y => if Qlt_le_dec (snd best) (snd y) then y else best) r x)
  end.

(** The weight callbacks of the two searches.  A callback raises
    [ZeroDivisionError] on an edge of bandwidth zero; the model evaluates
    it on every edge before the search starts (networkx calls it on the
    edges it explores), so on a graph without such an edge the two
    coincide. *)
Definition forward_weight (flow_size : Q) (d : edge_attrs) : result Q :=
  t <- truediv flow_size (bandwidth d) ;;
  Ok (propagation_delay d + processing_delay d + queuing_delay d + t + jitter d).

Definition return_weight (flow_size gamma : Q) (d : edge_attrs) : result Q :=
  t <- truediv (gamma * flow_size) (bandwidth d) ;;
  Ok (propagation_delay d + processing_delay d + queuing_delay d + t + jitter d).

Definition eval_weights (G : DiGraph edge_attrs) (f : edge_attrs -> result Q)
  : result (DiGraph (edge_attrs * Q)) :=
  adj <- mapM (fun e : node * node * edge_attrs =>
                 let '(u, v, d) := e in x <- f d ;; Ok (u, v, (d, x)))
              (g_adj G) ;;
  Ok {| g_nodes := g_nodes G; g_adj := adj |}.

(** the body of the [try] *)
Definition try_body (G : DiGraph edge_attrs) (source_node destination_node : node)
    (max_capacity_node : node) (compute_capacities : capacities)
    (flow_size omega gamma : Q) : result PathResult :=
  Gf <- eval_weights G (forward_weight flow_size) ;;
  path_to_compute <- shortest_path snd Gf source_node max_capacity_node ;;
  Gr <- eval_weights G (return_weight flow_size gamma) ;;
  path_to_dest <- shortest_path snd Gr max_capacity_node destination_node ;;
  delay_to_compute <- sum_along G (forward_weight flow_size) path_to_compute 0 ;;
  delay_to_dest <- sum_along G (return_weight flow_size gamma) path_to_dest 0 ;;
  compute_delay <- compute_delay_at compute_capacities max_capacity_node flow_size omega ;;
  let total_delay := delay_to_compute + delay_to_dest + compute_delay in
  let full_path := removelast path_to_compute ++ path_to_dest in
  Ok (Some max_capacity_node, Finite total_delay, full_path).

Definition find_max_capacity_compute_node (G : DiGraph edge_attrs)
    (source_node destination_node : node) (compute_nodes : list node)
    (compute_capacities : capacities) (flow_size omega gamma : Q) : result PathResult :=
  item <- max_item compute_capacities ;;
  let max_capacity_node := fst item in
  match try_body G source_node destination_node max_capacity_node compute_capacities
                 flow_size omega gamma with
  | Raise NetworkXNoPath => Ok (None, Infinity, [])
  | r => r
  end.

Definition main (net : Network) (fl : FlowRequest) : result PathResult :=
  find_max_capacity_compute_node (original_graph net) (source_node fl)
    (destination_node fl) (compute_nodes net) (compute_capacities net)
    (flow_size fl) (omega fl) (gamma fl).

End MPCN.

(* ================================================================== *)
(** * 9. CNE.py: the replica expansion                                *)
(* ================================================================== *)

Module CNE.

Definition super_dest_of (Dest_node : node) : node := (Dest_node ++ "_Super_Dest")%string.

Definition expand_network (original_nodes : list node) (original_edges : list edge)
    (compute_nodes : list node) (compute_capacities : capacities)
    (Source_node Dest_node : node) : result (list node * list xedge * node) :=
  let num_copies := List.length compute_nodes in
  (* original edges *)
  let original :=
    map (fun e : edge => let '(u, v, weight) := e in
                         (u, v, Dict (LinkDict weight), "original"%string))
        original_edges in
  (* copied networks, one per index 1..num_copies *)
  let copy_nodes :=
    flat_map (fun i =>
                map (fun n => suffix_i n i)
                    (filter (fun n => negb (node_eqb n Source_node)) original_nodes))
             (seq 1 num_copies) in
  let copied :=
    flat_map (fun i =>
                map (fun e : edge => let '(u, v, weight) := e in
                                     (suffix_i u i, suffix_i v i, Dict (LinkDict weight),
                                      "copied"%string))
                    (filter (fun e : edge => let '(u, v, _) := e in
                                             negb (node_eqb u Source_node)
                                             && negb (node_eqb v Source_node))
                            original_edges))
             (seq 1 num_copies) in
  (* computing edges: [enumerate(compute_nodes, 1)] *)
  compute <- mapM (fun ic : nat * node =>
                     let '(i, compute_node) := ic in
                     c <- caps_getitem compute_capacities compute_node ;;
                     Ok (compute_node, suffix_i compute_node i, Dict (CapacityDict c),
                         "compute"%string))
                  (combine (seq 1 num_copies) compute_nodes) ;;
  (* super destination *)
  let super_dest := super_dest_of Dest_node in
  let aggregate :=
    map (fun i => (suffix_i Dest_node i, super_dest, PyInt 0, "aggregate"%string))
        (seq 1 num_copies) in
  let expanded_nodes := original_nodes ++ copy_nodes ++ [super_dest] in
  Ok (expanded_nodes, original ++ copied ++ compute ++ aggregate, super_dest).

End CNE.

(** Modelled from the spec: the script [CNE_algorithm.py], which the
    benchmark drivers start next to the CPEG script, is missing from the
    sources; only its expansion ([CNE.expand_network]) is there.  The
    search over the replica expansion follows sections 4.1, 4.4 and 4.5 of
    the spec: edges of the original graph cost the forward delay, edges of
    a replica the return delay, the compute edge of a node its compute
    delay, the edges into the super-destination nothing; a bandwidth or
    capacity that is not positive is an error ([InvalidTopology],
    [InvalidCapacity]); one shortest-path search runs from the source to
    the super-destination, and an unreachable super-destination gives the
    total delay +infinity. *)
Module CNE_algorithm.

Definition weight (caps : capacities) (fl : FlowRequest)
    (u v : node) (layer : string) (edge_data : edge_data) : result Q :=
  match edge_data with
  | PyInt _ => Ok 0
  | Dict (LinkDict a) =>
      if String.eqb layer "original" then
        if Qle_bool (bandwidth a) 0 then Raise InvalidTopology
        else Ok (propagation_delay a + processing_delay a + queuing_delay a + jitter a
                 + flow_size fl / bandwidth a)
      else if String.eqb layer "copied" then
        if Qle_bool (bandwidth a) 0 then Raise InvalidTopology
        else Ok (propagation_delay a + processing_delay a + queuing_delay a + jitter a
                 + gamma fl * flow_size fl / bandwidth a)
      else Ok 0
  | Dict (CapacityDict c) =>
      if String.eqb layer "compute" then
        if Qle_bool c 0 then Raise InvalidCapacity
        else Ok (omega fl * flow_size fl / c)
      else Ok 0
  end.

Fixpoint build_loop (caps : capacities) (fl : FlowRequest)
    (G : DiGraph CPEG_script.xattr) (E : list xedge) : result (DiGraph CPEG_script.xattr) :=
  match E with
  | [] => Ok G
  | (u, v, edge_data, layer) :: r =>
      w <- weight caps fl u v layer edge_data ;;
      build_loop caps fl (add_edge G u v (w, layer)) r
  end.

Definition weigh_edge (caps : capacities) (fl : FlowRequest) (e : xedge)
  : result (node * node * CPEG_script.xattr) :=
  let '(u, v, edge_data, layer) := e in
  w <- weight caps fl u v layer edge_data ;;
  Ok (u, v, (w, layer)).

Definition build_graph (net : Network) (fl : FlowRequest)
  : result (DiGraph CPEG_script.xattr * node) :=
  '(V, E, super_dest) <- CNE.expand_network (nodes net) (edges net) (compute_nodes net)
                           (compute_capacities net) (source_node fl) (destination_node fl) ;;
  G <- build_loop (compute_capacities net) fl (empty_graph CPEG_script.xattr) E ;;
  Ok (G, super_dest).

Definition total_delay (net : Network) (fl : FlowRequest) : result delay :=
  '(G, super_dest) <- build_graph net fl ;;
  match search fst G (source_node fl) super_dest with
  | Some (_, p) =>
      w <- sum_along G (fun a => Ok (fst a)) (rev p) 0 ;;
      Ok (Finite w)
  | None => Ok Infinity
  end.

End CNE_algorithm.

(* ================================================================== *)
(** * 10. Well-formed inputs                                          *)
(* ================================================================== *)

Definition valid_attrs (a : edge_attrs) : Prop :=
  0 < bandwidth a /\ 0 <= propagation_delay a /\ 0 <= processing_delay a
  /\ 0 <= queuing_delay a /\ 0 <= jitter a.

Definition edge_key {A : Type} (e : node * node * A) : node * node :=
  let '(u, v, _) := e in (u, v).

(** The invariants of a Network of the spec: endpoints and compute nodes
    are nodes, no pair of nodes carries two edges, no compute node is
    listed twice, bandwidths are positive, the other delay terms non-negative, and the capacity dict
    has exactly the compute nodes as keys, with positive values. *)
Record valid_network (net : Network) : Prop := {
  vn_endpoints : forall u v a, In (u, v, a) (edges net) ->
                               In u (nodes net) /\ In v (nodes net);
  vn_attrs : forall u v a, In (u, v, a) (edges net) -> valid_attrs a;
  vn_simple : NoDup (map edge_key (edges net));
  vn_compute : forall c, In c (compute_nodes net) -> In c (nodes net);
  vn_compute_set : NoDup (compute_nodes net);
  vn_caps_keys : forall c, In c (compute_nodes net) <->
                           In c (map fst (compute_capacities net));
  vn_caps_dict : NoDup (map fst (compute_capacities net));
  vn_caps_pos : forall c q, In (c, q) (compute_capacities net) -> 0 < q
}.

Record valid_flow (net : Network) (fl : FlowRequest) : Prop := {
  vf_source : In (source_node fl) (nodes net);
  vf_dest : In (destination_node fl) (nodes net);
  vf_source_plain : ~ In (source_node fl) (compute_nodes net);
  vf_dest_plain : ~ In (destination_node fl) (compute_nodes net);
  vf_size : 0 < flow_size fl;
  vf_gamma : 1 <= gamma fl;
  vf_omega : 0 <= omega fl
}.

(** Node names without an underscore, as the integer identifiers of
    [network_parameters.py] are: the suffixed names of the expansions are
    then distinct from every original name. *)
Fixpoint no_underscore (s : string) : bool :=
  match s with
  | EmptyString => true
  | String c r => negb (Ascii.eqb c "_"%char) && no_underscore r
  end.

Definition plain_names (net : Network) : Prop :=
  forall n, In n (nodes net) -> no_underscore n = true.

(* ================================================================== *)
(** * 11. Walks                                                       *)
(* ================================================================== *)

(** [walk adj weight s p t W]: the node list [p] leads from [s] to [t]
    along entries of [adj], and [W] is the sum of their weights. *)
Inductive walk {A : Type} (adj : list (node * node * A)) (weight : A -> Q)
  : node -> list node -> node -> Q -> Prop :=
| walk_nil : forall s, walk adj weight s [s] s 0
| walk_cons : forall u v a p t W,
    In (u, v, a) adj ->
    walk adj weight v p t W ->
    walk adj weight u (u :: p) t (weight a + W).

(** Invariants of the reference search, for the source [s]: every label
    is the weight of a walk from the source; labels only improve; every
    walk of at most [k] edges is matched by a label. *)
Definition labels_sound {A : Type} (adj : list (node * node * A)) (weight : A -> Q)
    (s : node) (m : labels) : Prop :=
  forall v d p, lab_get m v = Some (d, p) ->
                exists W, walk adj weight s (rev p) v W /\ d == W.

Definition improves (m m' : labels) : Prop :=
  forall v d p, lab_get m v = Some (d, p) ->
                exists d' p', lab_get m' v = Some (d', p') /\ d' <= d.

Definition covers {A : Type} (adj : list (node * node * A)) (weight : A -> Q)
    (s : node) (k : nat) (m : labels) : Prop :=
  forall v p W, walk adj weight s p v W -> (List.length p <= S k)%nat ->
                exists d q, lab_get m v = Some (d, q) /\ d <= W.

(** the first entry of a sorted list of candidates has the least key *)
Definition head_least (l : list CCN.candidate) : Prop :=
  match l with
  | [] => True
  | h :: _ => forall y, In y l -> CCN.cand_key h <= CCN.cand_key y
  end.

(** consecutive nodes of [p] are joined by edges of the network *)
Fixpoint contiguous (es : list edge) (p : list node) : Prop :=
  match p with
  | u :: ((v :: _) as r) => (exists a, In (u, v, a) es) /\ contiguous es r
  | _ => True
  end.

Definition well_formed_path (net : Network) (fl : FlowRequest) (p : list node) : Prop :=
  hd_error p = Some (source_node fl)
  /\ (exists q, p = q ++ [destination_node fl])
  /\ contiguous (edges net) p
  /\ (forall n, In n p -> In n (nodes net)).

(* ================================================================== *)
(** * 12. The expanded graph of CPEG, edge by edge                    *)
(* ================================================================== *)

(** The values [d_uv] computes on the four kinds of expanded edge. *)
Definition ucl_weight (fl : FlowRequest) (a : edge_attrs) : Q :=
  flow_size fl / bandwidth a
  + (propagation_delay a + processing_delay a + queuing_delay a + jitter a).

Definition dcl_weight (fl : FlowRequest) (a : edge_attrs) : Q :=
  gamma fl * flow_size fl / bandwidth a
  + (propagation_delay a + processing_delay a + queuing_delay a + jitter a).

Definition cl_weight (net : Network) (fl : FlowRequest) (c : node) : Q :=
  omega fl * flow_size fl / caps_get (compute_capacities net) c 1.

Definition enters (d : node) (e : edge) : bool := let '(_, v, _) := e in node_eqb v d.
Definition touches (s : node) (e : edge) : bool :=
  let '(u, v, _) := e in node_eqb u s || node_eqb v s.

Definition ucl_edges (net : Network) (fl : FlowRequest) : list (node * node * CPEG_script.xattr) :=
  map (fun e : edge => let '(u, v, a) := e in (u, v, (ucl_weight fl a, "C-UCL"%string)))
      (filter (fun e => negb (enters (destination_node fl) e)) (edges net)).

Definition ucl_cl_edges (net : Network) (fl : FlowRequest) : list (node * node * CPEG_script.xattr) :=
  map (fun c => (c, suffix2 c, (cl_weight net fl c, "UCL-CL"%string))) (compute_nodes net).

Definition cl_dcl_edges (net : Network) : list (node * node * CPEG_script.xattr) :=
  map (fun c => (suffix2 c, suffix3 c, (0, "CL-DCL"%string))) (compute_nodes net).

Definition dcl_edges (net : Network) (fl : FlowRequest) : list (node * node * CPEG_script.xattr) :=
  map (fun e : edge => let '(u, v, a) := e in
                       (suffix3 u, suffix3 v, (dcl_weight fl a, "C-DCL"%string)))
      (filter (fun e => negb (touches (source_node fl) e)) (edges net)).

Definition cpeg_adj (net : Network) (fl : FlowRequest) : list (node * node * CPEG_script.xattr) :=
  ucl_edges net fl ++ ucl_cl_edges net fl ++ cl_dcl_edges net ++ dcl_edges net fl.

(** The expanded graph of the replica expansion, edge by edge. *)
Definition cne_original (net : Network) (fl : FlowRequest)
  : list (node * node * CPEG_script.xattr) :=
  map (fun e : edge => let '(u, v, a) := e in (u, v, (forward_delay fl a, "original"%string)))
      (edges net).

Definition cne_replica (net : Network) (fl : FlowRequest) (i : nat)
  : list (node * node * CPEG_script.xattr) :=
  map (fun e : edge => let '(u, v, a) := e in
                       (suffix_i u i, suffix_i v i, (return_delay fl a, "copied"%string)))
      (filter (fun e => negb (touches (source_node fl) e)) (edges net)).

Definition cne_copied (net : Network) (fl : FlowRequest)
  : list (node * node * CPEG_script.xattr) :=
  flat_map (cne_replica net fl) (seq 1 (List.length (compute_nodes net))).

Definition cne_compute (net : Network) (fl : FlowRequest)
  : list (node * node * CPEG_script.xattr) :=
  map (fun ic : nat * node =>
         let '(i, c) := ic in (c, suffix_i c i, (cl_weight net fl c, "compute"%string)))
      (combine (seq 1 (List.length (compute_nodes net))) (compute_nodes net)).

Definition cne_aggregate (net : Network) (fl : FlowRequest)
  : list (node * node * CPEG_script.xattr) :=
  map (fun i => (suffix_i (destination_node fl) i, CNE.super_dest_of (destination_node fl),
                 (0, "aggregate"%string)))
      (seq 1 (List.length (compute_nodes net))).

Definition cne_adj (net : Network) (fl : FlowRequest)
  : list (node * node * CPEG_script.xattr) :=
  cne_original net fl ++ cne_copied net fl ++ cne_compute net fl ++ cne_aggregate net fl.

(** the path meets the source and the destination of the flow at its two
    ends only *)
Definition visits_ends_once (fl : FlowRequest) (path : list node) : Prop :=
  count_occ string_dec path (source_node fl) = 1%nat
  /\ count_occ string_dec path (destination_node fl) = 1%nat.

(* ================================================================== *)
(** * 13. Concrete networks                                           *)
(* ================================================================== *)

Definition mk_attrs (b p pr q j : Q) : edge_attrs :=
  {| bandwidth := b; propagation_delay := p; processing_delay := pr;
     queuing_delay := q; jitter := j |}.

Open Scope string_scope.

(** The scenario of the spec: two compute nodes between [A] and [D]. *)
Definition net_diamond : Network :=
  {| nodes := ["A"; "B"; "C"; "D"];
     edges := [("A", "B", mk_attrs 1000 1 (1 # 10) 0 0);
               ("B", "D", mk_attrs 1000 1 (1 # 10) 0 0);
               ("A", "C", mk_attrs 1000 1 (1 # 10) 0 0);
               ("C", "D", mk_attrs 1000 1 (1 # 10) 0 0)];
     compute_nodes := ["B"; "C"];
     compute_capacities := [("B", 10000); ("C", 50000)] |}.

Definition fl_diamond : FlowRequest :=
  {| source_node := "A"; destination_node := "D";
     flow_size := 100; gamma := 2; omega := 10 |}.

(** The only cheap way from [S] to the compute node [C] leads through
    the destination [D]. *)
Definition net_detour : Network :=
  {| nodes := ["S"; "X"; "C"; "D"];
     edges := [("S", "D", mk_attrs 1000 1 0 0 0);
               ("D", "C", mk_attrs 1000 1 0 0 0);
               ("S", "X", mk_attrs 1000 100 0 0 0);
               ("X", "C", mk_attrs 1000 1 0 0 0);
               ("C", "D", mk_attrs 1000 1 0 0 0)];
     compute_nodes := ["C"];
     compute_capacities := [("C", 1000)] |}.

Definition fl_detour : FlowRequest :=
  {| source_node := "S"; destination_node := "D";
     flow_size := 100; gamma := 2; omega := 10 |}.

(** A network without any compute node. *)
Definition net_no_compute : Network :=
  {| nodes := ["S"; "X"; "D"];
     edges := [("S", "X", mk_attrs 1000 1 0 0 0);
               ("X", "D", mk_attrs 1000 1 0 0 0)];
     compute_nodes := [];
     compute_capacities := [] |}.

Definition fl_no_compute : FlowRequest :=
  {| source_node := "S"; destination_node := "D";
     flow_size := 100; gamma := 2; omega := 10 |}.

(** The direct edge from the compute node [C] to [D] has the least
    propagation delay but almost no bandwidth. *)
Definition net_slow_return : Network :=
  {| nodes := ["S"; "C"; "Y"; "D"];
     edges := [("S", "C", mk_attrs 1000 1 0 0 0);
               ("C", "D", mk_attrs 1 1 0 0 0);
               ("C", "Y", mk_attrs 1000 2 0 0 0);
               ("Y", "D", mk_attrs 1000 2 0 0 0)];
     compute_nodes := ["C"];
     compute_capacities := [("C", 1000)] |}.

Definition fl_slow_return : FlowRequest :=
  {| source_node := "S"; destination_node := "D";
     flow_size := 100; gamma := 2; omega := 10 |}.

(** A compute node whose name contains an underscore. *)
Definition net_underscore : Network :=
  {| nodes := ["s"; "n_1"; "d"];
     edges := [("s", "n_1", mk_attrs 1000 1 0 0 0);
               ("n_1", "d", mk_attrs 1000 1 0 0 0)];
     compute_nodes := ["n_1"];
     compute_capacities := [("n_1", 50)] |}.

Definition fl_underscore : FlowRequest :=
  {| source_node := "s"; destination_node := "d";
     flow_size := 100; gamma := 2; omega := 10 |}.

(** An edge with a negative propagation delay. *)
Definition net_negative : Network :=
  {| nodes := ["S"; "C"; "D"];
     edges := [("S", "C", mk_attrs 1000 (-5) 0 0 0);
               ("C", "D", mk_attrs 1000 1 0 0 0)];
     compute_nodes := ["C"];
     compute_capacities := [("C", 1000)] |}.

Definition fl_negative : FlowRequest :=
  {| source_node := "S"; destination_node := "D";
     flow_size := 100; gamma := 2; omega := 10 |}.

Close Scope string_scope.

(* ================================================================== *)
(** * 14. [load_network_from_yaml]: from the parsed document to the    *)
(**       values of the scripts                                        *)
(* ================================================================== *)

(** The input of the model is the value [yaml.safe_load] returns: a
    mapping whose keys may be absent ([None]).  A node identifier is an
    integer (what [network_parameters.py] writes) or a string; numbers are
    rationals; the value of [compute_node_capacity] is a sequence of
    numbers, a mapping from identifiers to numbers, or anything else. *)
Inductive scalar : Type :=
| YInt (z : Z)
| YStr (s : string).

(** [str(x)] *)
Definition str (x : scalar) : string :=
  match x with
  | YInt z => NilZero.string_of_int (Z.to_int z)
  | YStr s => s
  end.

(** one entry of [data['edges']]; the key [loss] is never read *)
Record yaml_edge : Type := {
  y_source : option scalar;
  y_destination : option scalar;
  y_bandwidth : option Q;
  y_propagation_delay : option Q;
  y_processing_delay : option Q;
  y_queuing_delay : option Q;
  y_jitter : option Q
}.

Inductive yaml_capacity : Type :=
| YList (l : list Q)
| YDict (d : list (scalar * Q))
| YOther.

Record document : Type := {
  y_nodes : option (list scalar);
  y_edges : option (list yaml_edge);
  y_compute_nodes : option (list scalar);
  y_compute_node_capacity : option yaml_capacity;
  y_source_node : option scalar;
  y_destination_node : option scalar;
  y_flow_size : option Q;
  y_gamma : option Q;
  y_omega : option Q
}.

(** [data[key]] and [data.get(key, default)] *)
Definition key_getitem {A : Type} (x : option A) : result A :=
  match x with
  | Some a => Ok a
  | None => Raise KeyError
  end.

Definition key_get {A : Type} (x : option A) (default : A) : A :=
  match x with
  | Some a => a
  | None => default
  end.

(** [d[k] = c] on a dict in insertion order: a key that is present keeps
    its place *)
Fixpoint caps_setitem (d : capacities) (k : node) (c : Q) : capacities :=
  match d with
  | [] => [(k, c)]
  | (k', c') :: r =>
      if node_eqb k' k then (k', c) :: r else (k', c') :: caps_setitem r k c
  end.

(** [{k: v for k, v in items}] *)
Definition dict_of_items (items : list (node * Q)) : capacities :=
  fold_left (fun d kv => caps_setitem d (fst kv) (snd kv)) items [].

(** [{node: 1 for node in compute_nodes}] *)
Definition default_capacities (compute_nodes : list node) : capacities :=
  dict_of_items (map (fun n => (n, 1)) compute_nodes).

(** [{str(node): capacity for node, capacity in d.items()}] *)
Definition capacities_of_mapping (d : list (scalar * Q)) : capacities :=
  dict_of_items (map (fun kv : scalar * Q => (str (fst kv), snd kv)) d).

(** the tuple built for one entry of [data['edges']] *)
Definition load_edge (e : yaml_edge) : result edge :=
  s <- key_getitem (y_source e) ;;
  d <- key_getitem (y_destination e) ;;
  b <- key_getitem (y_bandwidth e) ;;
  p <- key_getitem (y_propagation_delay e) ;;
  pr <- key_getitem (y_processing_delay e) ;;
  q <- key_getitem (y_queuing_delay e) ;;
  j <- key_getitem (y_jitter e) ;;
  Ok (str s, str d,
      {| bandwidth := b; propagation_delay := p; processing_delay := pr;
         queuing_delay := q; jitter := j |}).

(** The four copies of the loader start and end with the same text: the
    lists [nodes], [edges] and [compute_nodes] first, the flow parameters
    last. *)
Definition load_topology (data : document) : result (list node * list edge * list node) :=
  ns <- key_getitem (y_nodes data) ;;
  es <- key_getitem (y_edges data) ;;
  edges' <- mapM load_edge es ;;
  Ok (map str ns, edges', map str (key_get (y_compute_nodes data) [])).

Definition load_flow (data : document) : result FlowRequest :=
  s <- key_getitem (y_source_node data) ;;
  d <- key_getitem (y_destination_node data) ;;
  Ok {| source_node := str s; destination_node := str d;
        flow_size := key_get (y_flow_size data) 1;
        gamma := key_get (y_gamma data) 2;
        omega := key_get (y_omega data) 10 |}.

Definition pack (ns : list node) (es : list edge) (cs : list node) (caps : capacities)
  : Network :=
  {| nodes := ns; edges := es; compute_nodes := cs; compute_capacities := caps |}.

(** The loader of the CPEG script ([CNE.py]).  It prints a warning when
    it replaces the capacities by 1; the lines printed are the first
    component of the result. *)
Module CPEG_loader.

Definition warning_length : string :=
  "Warning: compute_node_capacity list length doesn't match compute_nodes. Using default capacity 1.".

Definition warning_format : string :=
  "Warning: Invalid compute_node_capacity format. Using default capacity 1.".

Definition load_network_from_yaml (data : document)
  : list string * result (Network * FlowRequest) :=
  match load_topology data with
  | Raise e => ([], Raise e)
  | Ok (ns, es, cs) =>
      let compute_node_capacity := key_get (y_compute_node_capacity data) (YList []) in
      let '(printed, compute_capacities') :=
        match compute_node_capacity with
        | YList l =>
            if Nat.eqb (List.length l) (List.length cs)
            then ([], dict_of_items (combine cs l))
            else ([warning_length], default_capacities cs)
        | YDict d => ([], capacities_of_mapping d)
        | YOther => ([warning_format], default_capacities cs)
        end in
      (printed, fl <- load_flow data ;; Ok (pack ns es cs compute_capacities', fl))
  end.

End CPEG_loader.

(** The loader of [CCN.py] and of [MPCN.py]: no comparison of lengths,
    [zip] stops at the shorter list; the default is an empty mapping. *)
Module CCN_loader.

Definition load_network_from_yaml (data : document) : result (Network * FlowRequest) :=
  '(ns, es, cs) <- load_topology data ;;
  let compute_capacities' :=
    match key_get (y_compute_node_capacity data) (YDict []) with
    | YList l => dict_of_items (combine cs l)
    | YDict d => capacities_of_mapping d
    | YOther => default_capacities cs
    end in
  fl <- load_flow data ;;
  Ok (pack ns es cs compute_capacities', fl).

End CCN_loader.

Module MPCN_loader.
Definition load_network_from_yaml := CCN_loader.load_network_from_yaml.
End MPCN_loader.

(** The loader of [LP_in_CPEG.py] and of [MINLP.py]: two separate [if]s
    and no [else].  When neither assigns, the local name
    [compute_capacities] is unbound and the [return] statement raises
    [UnboundLocalError]. *)
Inductive loaded (A : Type) : Type :=
| Loaded (a : A)
| LoadRaise (e : exn)
| UnboundLocalError.
Arguments Loaded {A} a.
Arguments LoadRaise {A} e.
Arguments UnboundLocalError {A}.

Module LP_loader.

Definition load_network_from_yaml (data : document) : loaded (Network * FlowRequest) :=
  match load_topology data with
  | Raise e => LoadRaise e
  | Ok (ns, es, cs) =>
      let compute_node_capacity := key_get (y_compute_node_capacity data) (YList []) in
      (* [None]: not assigned so far *)
      let after_first_if : option capacities :=
        match compute_node_capacity with
        | YList l =>
            if Nat.eqb (List.length l) (List.length cs)
            then Some (dict_of_items (combine cs l))
            else None
        | _ => None
        end in
      let after_second_if : option capacities :=
        match compute_node_capacity with
        | YDict d => Some (capacities_of_mapping d)
        | _ => after_first_if
        end in
      match load_flow data with
      | Raise e => LoadRaise e
      | Ok fl =>
          match after_second_if with
          | Some compute_capacities' => Loaded (pack ns es cs compute_capacities', fl)
          | None => UnboundLocalError
          end
      end
  end.

End LP_loader.

Module MINLP_loader.
Definition load_network_from_yaml := LP_loader.load_network_from_yaml.
End MINLP_loader.

(* ================================================================== *)
(** * 15. MINLP.py: adjacency lists and the read-out of the path      *)
(* ================================================================== *)

Module MINLP.

(** the value [{'in': [...], 'out': [...]}] kept for a node *)
Record adjacency : Type := {
  adj_in : list (node * edge_attrs);
  adj_out : list (node * edge_attrs)
}.

(** the dict [graph], in insertion order *)
Definition graph : Type := list (node * adjacency).

Fixpoint graph_lookup (g : graph) (n : node) : option adjacency :=
  match g with
  | [] => None
  | (k, a) :: r => if node_eqb k n then Some a else graph_lookup r n
  end.

(** [graph[n]] *)
Definition graph_getitem (g : graph) (n : node) : result adjacency :=
  match graph_lookup g n with
  | Some a => Ok a
  | None => Raise KeyError
  end.

(** [graph[n] = a] *)
Fixpoint graph_setitem (g : graph) (n : node) (a : adjacency) : graph :=
  match g with
  | [] => [(n, a)]
  | (k, a') :: r =>
      if node_eqb k n then (k, a) :: r else (k, a') :: graph_setitem r n a
  end.

(** the loop over the edges; every node owns its two lists, so the two
    [append]s change the entries of [u] and of [v] only *)
Fixpoint add_edges (g : graph) (es : list edge) : result graph :=
  match es with
  | [] => Ok g
  | (u, v, edge_data) :: r =>
      gu <- graph_getitem g u ;;
      let g1 := graph_setitem g u {| adj_in := adj_in gu;
                                     adj_out := adj_out gu ++ [(v, edge_data)] |} in
      gv <- graph_getitem g1 v ;;
      let g2 := graph_setitem g1 v {| adj_in := adj_in gv ++ [(u, edge_data)];
                                      adj_out := adj_out gv |} in
      add_edges g2 r
  end.

Definition build_directed_graph (nodes : list node) (edges : list edge) : result graph :=
  let graph0 :=
    fold_left (fun g n => graph_setitem g n {| adj_in := []; adj_out := [] |}) nodes [] in
  add_edges graph0 edges.

(** ** The read-out of the selected path

    After the solver has run, the script follows, from the source, the
    first outgoing link whose variable [x] is above one half.  The values
    [x[u, v].x] of the solution are an input of the model. *)
Inductive stop : Type :=
| Arrived          (* the [while] condition became false *)
| LoopDetected     (* "Error: Loop detected in path" *)
| NoNextNode.      (* "Error: Cannot find next node" *)

(** [x[u, v].x > 0.5] *)
Definition chosen (x : node -> node -> Q) (u v : node) : bool :=
  negb (Qle_bool (x u v) (1 # 2)).

(** The [while] loop, one iteration per unit of [fuel]; [None] when the
    fuel is used up before the loop ends.  The result holds the cause of
    the stop, [path] and [current_node]. *)
Fixpoint follow (fuel : nat) (g : graph) (x : node -> node -> Q)
    (destination_node current_node : node) (visited : list node)
    (path : list (node * node)) : option (result (stop * list (node * node) * node)) :=
  match fuel with
  | O => None
  | S k =>
      if node_eqb current_node destination_node
      then Some (Ok (Arrived, path, current_node))
      else if existsb (node_eqb current_node) visited
      then Some (Ok (LoopDetected, path, current_node))
      else
        match graph_getitem g current_node with
        | Raise e => Some (Raise e)
        | Ok a =>
            match find (fun vd : node * edge_attrs => chosen x current_node (fst vd))
                       (adj_out a) with
            | Some (v, _) =>
                follow k g x destination_node v (current_node :: visited)
                       (path ++ [(current_node, v)])
            | None => Some (Ok (NoNextNode, path, current_node))
            end
        end
  end.

(** what the script prints after the loop: the nodes of the path when
    the destination was reached, [None] for "Valid path not found" *)
Definition read_out (fuel : nat) (g : graph) (x : node -> node -> Q)
    (source_node destination_node : node) : option (result (option (list node))) :=
  match follow fuel g x destination_node source_node [] [] with
  | None => None
  | Some (Raise e) => Some (Raise e)
  | Some (Ok (_, path, current_node)) =>
      if node_eqb current_node destination_node
      then Some (Ok (Some (source_node :: map snd path)))
      else Some (Ok None)
  end.

End MINLP.

(* ================================================================== *)
(** * 16. LP_in_CPEG.py: [print_selected_path]                        *)
(* ================================================================== *)

(** [x] maps the pairs that have a variable to the value of the
    variable in the solution; [(u, v) in x] is [x u v <> None]. *)
Inductive selection : Type :=
| SelectedPath (path : list node)     (* the links of [path] are printed *)
| NoCompletePath.                     (* the message of the [else] branch *)

(** [(u, v) in x and x[u, v].x > 0.5] *)
Definition selected (x : node -> node -> option Q) (u v : node) : bool :=
  match x u v with
  | Some q => negb (Qle_bool q (1 # 2))
  | None => false
  end.

Fixpoint selected_path_loop (fuel : nat) (x : node -> node -> option Q) (V : list node)
    (dest_node_dcl current_node : node) (path : list node) : option selection :=
  match fuel with
  | O => None
  | S k =>
      if node_eqb current_node dest_node_dcl then Some (SelectedPath path)
      else
        match find (selected x current_node) V with
        | Some v => selected_path_loop k x V dest_node_dcl v (path ++ [v])
        | None => Some NoCompletePath
        end
  end.

(** [None]: the [while] loop is still running after [fuel] iterations *)
Definition print_selected_path (fuel : nat) (x : node -> node -> option Q) (V : list node)
    (source_node dest_node_dcl : node) : option selection :=
  selected_path_loop fuel x V dest_node_dcl source_node [source_node].

(* ================================================================== *)
(** * 17. network_parameters.py: [generate_random_network]            *)
(* ================================================================== *)

Module network_parameters.

(** The results of the successive calls of [random.randint] are an input
    of the model ([draws], two per iteration).  [randint(1, n - 1)] raises
    [ValueError] on an empty range.  [None]: the draws are used up and the
    loop is still running. *)
Definition pair_eqb (a b : Z * Z) : bool := Z.eqb (fst a) (fst b) && Z.eqb (snd a) (snd b).

Fixpoint generate_loop (num_nodes num_edges : Z) (draws : list Z) (edges : list (Z * Z))
  : option (result (list (Z * Z))) :=
  if Z.ltb (Z.of_nat (List.length edges)) num_edges then
    if Z.ltb (num_nodes - 1) 1 then Some (Raise ValueError)
    else
      match draws with
      | source :: dest :: rest =>
          if negb (Z.eqb source dest) && negb (existsb (pair_eqb (source, dest)) edges)
          then generate_loop num_nodes num_edges rest (edges ++ [(source, dest)])
          else generate_loop num_nodes num_edges rest edges
      | _ => None
      end
  else Some (Ok edges).

Definition generate_random_network (num_nodes num_edges : Z) (draws : list Z)
  : option (result (list Z * list Z)) :=
  match generate_loop num_nodes num_edges draws [] with
  | Some (Ok edges) => Some (Ok (map fst edges, map snd edges))
  | Some (Raise e) => Some (Raise e)
  | None => None
  end.

End network_parameters.

(* ================================================================== *)
(** * 18. Further notions used in the statements and proofs           *)
(* ================================================================== *)

(** [len(G.nodes())] and [len(G.edges())], printed by the CPEG script as
    [V_count] and [E_count] *)
Definition V_count {A : Type} (G : DiGraph A) : nat := List.length (g_nodes G).
Definition E_count {A : Type} (G : DiGraph A) : nat := List.length (g_adj G).

(** the links that leave and that enter a node, as the adjacency lists
    of [MINLP.py] hold them: the other end and the attributes, in the
    order of the edge list *)
Definition leaving (n : node) (es : list edge) : list (node * edge_attrs) :=
  map (fun e : edge => let '(u, v, d) := e in (v, d))
      (filter (fun e : edge => let '(u, v, d) := e in node_eqb u n) es).

Definition entering (n : node) (es : list edge) : list (node * edge_attrs) :=
  map (fun e : edge => let '(u, v, d) := e in (u, d))
      (filter (fun e : edge => let '(u, v, d) := e in node_eqb v n) es).

(** every two consecutive nodes of [p] are related by [R] *)
Fixpoint linked (R : node -> node -> Prop) (p : list node) : Prop :=
  match p with
  | u :: ((v :: _) as r) => R u v /\ linked R r
  | _ => True
  end.

(** the link the [for] loop of the read-out takes at [u]: the first
    entry of [graph[u]['out']] whose variable is above one half *)
Definition first_chosen (g : MINLP.graph) (x : node -> node -> Q) (u v : node) : Prop :=
  exists a d, MINLP.graph_lookup g u = Some a
              /\ find (fun vd : node * edge_attrs => MINLP.chosen x u (fst vd))
                      (MINLP.adj_out a) = Some (v, d).

(** the node the [for] loop of [print_selected_path] moves to from [u]:
    the first [v] of [V] with a variable [x[u, v]] above one half *)
Definition next_selected (x : node -> node -> option Q) (V : list node) (u v : node) : Prop :=
  find (selected x u) V = Some v.

(** the values [random.randint(1, k)] can return, and the pairs of two
    different values among them *)
Definition randint_range (k : Z) : list Z := map Z.of_nat (seq 1 (Z.to_nat k)).

Definition distinct_pairs (k : Z) : list (Z * Z) :=
  filter (fun p : Z * Z => negb (Z.eqb (fst p) (snd p)))
         (list_prod (randint_range k) (randint_range k)).

(** the draws that make the loop of [generate_random_network] meet the
    listed pairs one after the other *)
Definition draws_of (pairs : list (Z * Z)) : list Z :=
  flat_map (fun p : Z * Z => [fst p; snd p]) pairs.

(** the entry the first loop of CCN appends for a compute node: none when
    a search raises *)
Definition ccn_entry (G : DiGraph edge_attrs) (source_node destination_node : node)
    (compute_node : node) : list CCN.candidate :=
  match CCN.try_candidate G source_node destination_node compute_node with
  | Ok x => [x]
  | Raise _ => []
  end.

(** a route through the compute node [c]: a walk from the source to [c]
    followed by a walk from [c] to the destination *)
Definition route (net : Network) (fl : FlowRequest) (c : node) (p1 p2 : list node)
    (W1 W2 : Q) : Prop :=
  In c (compute_nodes net)
  /\ walk (edges net) (forward_delay fl) (source_node fl) p1 c W1
  /\ walk (edges net) (return_delay fl) c p2 (destination_node fl) W2.

(** the routes the layered graph of CPEG can express: the forward part
    does not enter the destination, the return part avoids the source *)
Definition layered_route (net : Network) (fl : FlowRequest) (c : node)
    (p1 p2 : list node) (W1 W2 : Q) : Prop :=
  route net fl c p1 p2 W1 W2
  /\ ~ In (destination_node fl) (tl p1)
  /\ ~ In (source_node fl) p2.

(** [p] is a path of the network from [s] to [t]: consecutive nodes are
    joined by edges (no weight is attached to it) *)
Definition leads (net : Network) (s : node) (p : list node) (t : node) : Prop :=
  exists W, walk (edges net) (fun _ : edge_attrs => 0) s p t W.

(** ** Delays of a route, added in the order of the code

    The three scripts add the same terms along a route (a forward path
    [p1] from the source to a compute node [c], a return path [p2] from
    [c] to the destination), each in its own order.  In double precision
    the order matters, so each order has its own notion; all sums start
    from 0 and run in path order, as [sum(...)] and the search do. *)

(** the key under which the first loop of CCN lists the compute node
    [c]: the two searches by propagation delay succeed, and the key is
    the sum of the propagation delays along the path from the source *)
Definition ccn_key (net : Network) (fl : FlowRequest) (c : node) (key : Q) : Prop :=
  let G := original_graph net in
  exists p1 p2,
    shortest_path propagation_delay G (source_node fl) c = Ok p1
    /\ shortest_path propagation_delay G c (destination_node fl) = Ok p2
    /\ sum_along G (fun a => Ok (propagation_delay a)) p1 0 = Ok key.

(** [find_closest_compute_node], from [transmission_delay = ...] to
    [total_delay = ...]: five sums over the forward path, one sum over
    the return path, the compute delay *)
Definition ccn_delay (net : Network) (fl : FlowRequest) (c : node) (p1 p2 : list node)
    (t : Q) : Prop :=
  let G := original_graph net in
  exists transmission processing queuing jit propagation back compute_delay,
    sum_along G (fun a => truediv (flow_size fl) (bandwidth a)) p1 0 = Ok transmission
    /\ sum_along G (fun a => Ok (processing_delay a)) p1 0 = Ok processing
    /\ sum_along G (fun a => Ok (queuing_delay a)) p1 0 = Ok queuing
    /\ sum_along G (fun a => Ok (jitter a)) p1 0 = Ok jit
    /\ sum_along G (fun a => Ok (propagation_delay a)) p1 0 = Ok propagation
    /\ sum_along G (fun a =>
                      x <- truediv (gamma fl * flow_size fl) (bandwidth a) ;;
                      Ok (propagation_delay a + processing_delay a
                          + queuing_delay a + x + jitter a)) p2 0 = Ok back
    /\ compute_delay_at (compute_capacities net) c (flow_size fl) (omega fl)
       = Ok compute_delay
    /\ t = propagation + transmission + processing + queuing + jit + back + compute_delay.

(** [find_max_capacity_compute_node], from [delay_to_compute = ...] to
    [total_delay = ...]: per link the callback's sum, added over each of
    the two paths, then the compute delay *)
Definition mpcn_delay (net : Network) (fl : FlowRequest) (c : node) (p1 p2 : list node)
    (t : Q) : Prop :=
  let G := original_graph net in
  exists delay_to_compute delay_to_dest compute_delay,
    sum_along G (MPCN.forward_weight (flow_size fl)) p1 0 = Ok delay_to_compute
    /\ sum_along G (MPCN.return_weight (flow_size fl) (gamma fl)) p2 0 = Ok delay_to_dest
    /\ compute_delay_at (compute_capacities net) c (flow_size fl) (omega fl)
       = Ok compute_delay
    /\ t = delay_to_compute + delay_to_dest + compute_delay.

(** the CPEG script, [path_weight = sum(...)] over the expanded path of
    the route: the weights [d_uv] gives the links of [p1], the compute
    edge of [c], the zero edge from the middle to the lower layer, the
    weights [d_uv] gives the links of [p2], one running sum *)
Definition cpeg_delay (net : Network) (fl : FlowRequest) (c : node) (p1 p2 : list node)
    (w : Q) : Prop :=
  let G := original_graph net in
  exists up,
    sum_along G (fun a => Ok (ucl_weight fl a)) p1 0 = Ok up
    /\ sum_along G (fun a => Ok (dcl_weight fl a)) p2 (up + cl_weight net fl c + 0) = Ok w.

(* ================================================================== *)
(** * 19. Further concrete inputs                                     *)
(* ================================================================== *)

Open Scope string_scope.

(** A compute node that is neither listed as a node nor met by an edge. *)
Definition net_stray : Network :=
  {| nodes := ["s"; "d"];
     edges := [("s", "d", mk_attrs 1000 1 0 0 0)];
     compute_nodes := ["c"];
     compute_capacities := [("c", 10)] |}.

Definition fl_stray : FlowRequest :=
  {| source_node := "s"; destination_node := "d";
     flow_size := 100; gamma := 2; omega := 10 |}.

Close Scope string_scope.

Definition mk_yaml_edge (s d : Z) (b p pr q j : Q) : yaml_edge :=
  {| y_source := Some (YInt s); y_destination := Some (YInt d);
     y_bandwidth := Some b; y_propagation_delay := Some p;
     y_processing_delay := Some pr; y_queuing_delay := Some q; y_jitter := Some j |}.

(** A document as the generator writes it, but for the capacities, which
    are a parameter: nodes 1 to 4, compute nodes 2 and 3, a flow from 1 to
    4; [gamma] and [omega] are left to their defaults. *)
Definition doc_with (capacity : option yaml_capacity) : document :=
  {| y_nodes := Some [YInt 1; YInt 2; YInt 3; YInt 4];
     y_edges := Some [mk_yaml_edge 1 2 1000 1 (1 # 10) 0 0;
                      mk_yaml_edge 2 4 1000 1 (1 # 10) 0 0;
                      mk_yaml_edge 1 3 1000 1 (1 # 10) 0 0;
                      mk_yaml_edge 3 4 1000 1 (1 # 10) 0 0];
     y_compute_nodes := Some [YInt 2; YInt 3];
     y_compute_node_capacity := capacity;
     y_source_node := Some (YInt 1);
     y_destination_node := Some (YInt 4);
     y_flow_size := Some 100;
     y_gamma := None;
     y_omega := None |}.

(** one capacity per compute node; one capacity short; no capacities *)
(** solver values: one on the listed links, zero on the others *)
Definition on_links (l : list (node * node)) (u v : node) : Q :=
  if existsb (fun e : node * node => node_eqb (fst e) u && node_eqb (snd e) v) l
  then 1 else 0.

(** the variables of the listed links only, all of them set to one *)
Definition vars_on_links (l : list (node * node)) (u v : node) : option Q :=
  if existsb (fun e : node * node => node_eqb (fst e) u && node_eqb (snd e) v) l
  then Some 1 else None.

Definition doc_full : document := doc_with (Some (YList [10000; 50000])).
Definition doc_short : document := doc_with (Some (YList [10000])).
Definition doc_bare : document := doc_with None.

(* ================================================================== *)
(** * 20. The sums in double precision                                *)
(* ================================================================== *)

(** Python's [float] is the IEEE 754 binary64 format, and so is the
    primitive type [float] of the kernel: its operations round to the
    nearest value, ties to even.  The expressions below are the ones of
    the scripts with the same operations in the same order; a decimal
    constant stands for the nearest binary64 value, as it does in Python
    and in YAML.  They show what the exact rationals of the other
    sections leave out. *)
Module Double.
Import PrimFloat.
#[local] Open Scope float_scope.
#[local] Set Warnings "-inexact-float".

(** the attributes of a link *)
Record link : Type := {
  bandwidth : float;
  propagation_delay : float;
  processing_delay : float;
  queuing_delay : float;
  jitter : float
}.

(** the formula of the spec for the forward delay of a link *)
Definition forward_formula (flow_size : float) (d : link) : float :=
  propagation_delay d + processing_delay d + queuing_delay d + jitter d
  + flow_size / bandwidth d.

Definition return_formula (flow_size gamma : float) (d : link) : float :=
  propagation_delay d + processing_delay d + queuing_delay d + jitter d
  + gamma * flow_size / bandwidth d.

(** [d_uv] on a link dict, layers C-UCL and C-DCL *)
Definition d_uv_ucl (flow_size : float) (d : link) : float :=
  let transmission_delay := flow_size / bandwidth d in
  let non_transmission_delay :=
    propagation_delay d + processing_delay d + queuing_delay d + jitter d in
  transmission_delay + non_transmission_delay.

Definition d_uv_dcl (flow_size gamma : float) (d : link) : float :=
  let transmission_delay := gamma * flow_size / bandwidth d in
  let non_transmission_delay :=
    propagation_delay d + processing_delay d + queuing_delay d + jitter d in
  transmission_delay + non_transmission_delay.

(** the two weight callbacks of MPCN, which are also the terms of its
    sums and of the return sum of CCN *)
Definition forward_weight (flow_size : float) (d : link) : float :=
  propagation_delay d + processing_delay d + queuing_delay d + flow_size / bandwidth d
  + jitter d.

Definition return_weight (flow_size gamma : float) (d : link) : float :=
  propagation_delay d + processing_delay d + queuing_delay d
  + gamma * flow_size / bandwidth d + jitter d.

(** [sum(...)]: from 0, left to right *)
Definition sum (xs : list float) : float := fold_left add xs 0.

(** the totals of the three scripts along a route whose forward links
    are [up], whose return links are [down] and whose compute node has
    the capacity [capacity] *)
Definition mpcn_total (flow_size gamma omega capacity : float) (up down : list link) : float :=
  let delay_to_compute := sum (map (forward_weight flow_size) up) in
  let delay_to_dest := sum (map (return_weight flow_size gamma) down) in
  let compute_delay := omega * flow_size / capacity in
  delay_to_compute + delay_to_dest + compute_delay.

Definition ccn_delay_to_compute_node (flow_size : float) (up : list link) : float :=
  let transmission_delay := sum (map (fun d => flow_size / bandwidth d) up) in
  let processing_delay' := sum (map processing_delay up) in
  let queuing_delay' := sum (map queuing_delay up) in
  let jitter' := sum (map jitter up) in
  let propagation_delay' := sum (map propagation_delay up) in
  propagation_delay' + transmission_delay + processing_delay' + queuing_delay' + jitter'.

Definition ccn_total (flow_size gamma omega capacity : float) (up down : list link) : float :=
  let delay_to_compute_node := ccn_delay_to_compute_node flow_size up in
  let delay_compute_to_destination := sum (map (return_weight flow_size gamma) down) in
  let compute_delay := omega * flow_size / capacity in
  delay_to_compute_node + delay_compute_to_destination + compute_delay.

Definition cpeg_total (flow_size gamma omega capacity : float) (up down : list link) : float :=
  sum (map (d_uv_ucl flow_size) up ++ [omega * flow_size / capacity; 0]
       ++ map (d_uv_dcl flow_size gamma) down).

(** a link with the delays 1.1, 0.1, 0 and 1.97 *)
Definition link_r : link :=
  {| bandwidth := 1000; propagation_delay := 1.1; processing_delay := 0.1;
     queuing_delay := 0; jitter := 1.97 |}.

(** the links of [net_diamond] and the values of [fl_diamond] *)
Definition link_diamond : link :=
  {| bandwidth := 1000; propagation_delay := 1; processing_delay := 0.1;
     queuing_delay := 0; jitter := 0 |}.

Definition flow_100 : float := 100.
Definition gamma_2 : float := 2.
Definition omega_10 : float := 10.
Definition capacity_C : float := 50000.

End Double.

(* ================================================================== *)
(** * 21. Basic facts on names, labels and walks                      *)
(* ================================================================== *)

Unset Implicit Arguments.

Lemma node_eqb_refl (n : node) : node_eqb n n = true.
Proof. apply String.eqb_refl. Qed.

Lemma node_eqb_eq (a b : node) : node_eqb a b = true <-> a = b.
Proof. apply String.eqb_eq. Qed.

Lemma node_eqb_neq (a b : node) : node_eqb a b = false <-> a <> b.
Proof. apply String.eqb_neq. Qed.

Lemma key_eqb_true (u' v' u v : node) :
  node_eqb u' u && node_eqb v' v = true <-> (u' = u /\ v' = v).
Proof. rewrite andb_true_iff, !node_eqb_eq. tauto. Qed.

Section WalkFacts.
Variable A : Type.
Variable weight : A -> Q.
Variable adj : list (node * node * A).

Lemma walk_head (s t : node) (p : list node) (W : Q) :
  walk adj weight s p t W -> exists r, p = s :: r.
Proof. destruct 1; eauto. Qed.

Lemma walk_first_edge (s t : node) (p : list node) (W : Q) :
  walk adj weight s p t W -> s = t \/ exists v a, In (s, v, a) adj.
Proof. destruct 1; eauto. Qed.

Lemma walk_last (s t : node) (p : list node) (W : Q) :
  walk adj weight s p t W -> exists q, p = q ++ [t].
Proof.
  induction 1 as [s|u v a p t W Hin Hw [q Hq]].
  - now exists [].
  - exists (u :: q). now rewrite Hq.
Qed.

Lemma walk_snoc (s u v : node) (a : A) (p : list node) (W : Q) :
  walk adj weight s p u W -> In (u, v, a) adj ->
  exists W', walk adj weight s (p ++ [v]) v W' /\ W' == W + weight a.
Proof.
  intros Hw Hin. induction Hw as [s|x y b p t W Hxy Hw IH].
  - exists (weight a + 0). split; [|lra].
    simpl. eapply walk_cons; [exact Hin|apply walk_nil].
  - destruct (IH Hin) as [W' [Hw' HW']].
    exists (weight b + W'). split; [|lra].
    simpl. eapply walk_cons; eauto.
Qed.

Lemma walk_snoc_inv (s t : node) (p : list node) (W : Q) :
  walk adj weight s p t W ->
  (p = [s] /\ t = s /\ W = 0)
  \/ exists p' x a W', walk adj weight s p' x W' /\ In (x, t, a) adj
                       /\ p = p' ++ [t] /\ W == W' + weight a.
Proof.
  induction 1 as [s|u v a p t W Hin Hw IH].
  - now left.
  - right. destruct IH as [[Hp [Ht HW]]|[p' [x [b [W' [Hw' [Hxb [Hp HW]]]]]]]].
    + subst. exists [u], u, a, 0. repeat split; auto.
      * apply walk_nil.
      * lra.
    + exists (u :: p'), x, b, (weight a + W'). repeat split; auto.
      * eapply walk_cons; eauto.
      * now rewrite Hp.
      * lra.
Qed.

Lemma walk_app (s m t : node) (p q : list node) (W1 W2 : Q) :
  walk adj weight s p m W1 -> walk adj weight m (m :: q) t W2 ->
  exists W, walk adj weight s (p ++ q) t W /\ W == W1 + W2.
Proof.
  intros H1 H2. induction H1 as [s|u v a p m W Hin Hw IH].
  - exists W2. split; [exact H2|lra].
  - destruct (IH H2) as [W' [Hw' HW']].
    exists (weight a + W'). split; [|lra].
    simpl. eapply walk_cons; eauto.
Qed.

Lemma walk_targets (s t : node) (p : list node) (W : Q) :
  walk adj weight s p t W ->
  forall x, In x (tl p) -> In x (map (fun e => snd (fst e)) adj).
Proof.
  induction 1 as [s|u v a p t W Hin Hw IH]; simpl; intros x Hx; [contradiction|].
  destruct (walk_head _ _ _ _ Hw) as [r Hr]. subst p. destruct Hx as [Hx|Hx].
  - subst x. apply in_map_iff. now exists (u, v, a).
  - apply IH. exact Hx.
Qed.

Section NonNegative.
Hypothesis weight_nonneg : forall u v a, In (u, v, a) adj -> 0 <= weight a.

(** a walk can be entered at any of its nodes, at no greater cost *)
Lemma walk_suffix (s t u : node) (p : list node) (W : Q) :
  walk adj weight s p t W -> In u p ->
  exists p1 p2 W2, p = p1 ++ p2 /\ walk adj weight u p2 t W2 /\ W2 <= W.
Proof.
  induction 1 as [s|x v a p t W Hin Hw IH]; intros Hu.
  - destruct Hu as [Hu|[]]. subst u.
    exists [], [s], 0. repeat split; [apply walk_nil|lra].
  - destruct Hu as [Hu|Hu].
    + subst x. exists [], (u :: p), (weight a + W). repeat split; [|lra].
      eapply walk_cons; eauto.
    + destruct (IH Hu) as [p1 [p2 [W2 [Hp [Hw2 HW2]]]]].
      exists (x :: p1), p2, W2. repeat split; auto.
      * now rewrite Hp.
      * specialize (weight_nonneg _ _ _ Hin). lra.
Qed.

(** cycles can be cut out of a walk *)
Lemma walk_simplify (s t : node) (p : list node) (W : Q) :
  walk adj weight s p t W ->
  exists p' W', walk adj weight s p' t W' /\ W' <= W /\ NoDup p'.
Proof.
  induction 1 as [s|u v a p t W Hin Hw [p' [W' [Hw' [HW' Hnd]]]]].
  - exists [s], 0. repeat split; [apply walk_nil|lra|].
    constructor; [intros []|constructor].
  - destruct (in_dec string_dec u p') as [Hu|Hu].
    + destruct (walk_suffix _ _ _ _ _ Hw' Hu) as [p1 [p2 [W2 [Hp [Hw2 HW2]]]]].
      exists p2, W2. repeat split; auto.
      * specialize (weight_nonneg _ _ _ Hin). lra.
      * subst p'. eapply NoDup_app_remove_l; eauto.
    + exists (u :: p'), (weight a + W'). repeat split.
      * eapply walk_cons; eauto.
      * lra.
      * now constructor.
Qed.
End NonNegative.

Lemma simple_walk_length (s t : node) (p : list node) (W : Q) :
  walk adj weight s p t W -> NoDup p -> (List.length p <= S (List.length adj))%nat.
Proof.
  intros Hw Hnd. destruct (walk_head _ _ _ _ Hw) as [r Hr].
  assert (Hl : (List.length (tl p) <= List.length (map (fun e : node * node * A => snd (fst e)) adj))%nat).
  { apply NoDup_incl_length.
    - subst p. simpl. now inversion Hnd.
    - intros x Hx. eapply walk_targets; eauto. }
  rewrite length_map in Hl. subst p. simpl in *. lia.
Qed.
End WalkFacts.

(* ================================================================== *)
(** * 22. The contract of the shortest-path search                    *)
(* ================================================================== *)

Section SearchFacts.
Variable A : Type.
Variable weight : A -> Q.
Variable adj : list (node * node * A).
Variable s : node.

Lemma lab_get_set_same (m : labels) (v : node) (l : label) :
  lab_get (lab_set m v l) v = Some l.
Proof.
  induction m as [|[k l'] r IH]; simpl.
  - now rewrite node_eqb_refl.
  - destruct (node_eqb k v) eqn:E; simpl; rewrite E; auto.
Qed.

Lemma lab_get_set_other (m : labels) (v v' : node) (l : label) :
  v' <> v -> lab_get (lab_set m v l) v' = lab_get m v'.
Proof.
  intros Hne. induction m as [|[k l'] r IH]; simpl.
  - destruct (node_eqb v v') eqn:E; auto.
    apply node_eqb_eq in E. congruence.
  - destruct (node_eqb k v) eqn:E; simpl.
    + apply node_eqb_eq in E. subst k.
      destruct (node_eqb v v') eqn:E'; auto.
      apply node_eqb_eq in E'. congruence.
    + now rewrite IH.
Qed.

Local Abbreviation labels_sound := (labels_sound adj weight s).
Local Abbreviation covers := (covers adj weight s).

Lemma improves_refl (m : labels) : improves m m.
Proof. intros v d p H. exists d, p. split; [exact H|lra]. Qed.

Lemma improves_trans (m1 m2 m3 : labels) :
  improves m1 m2 -> improves m2 m3 -> improves m1 m3.
Proof.
  intros H12 H23 v d p H.
  destruct (H12 _ _ _ H) as [d2 [p2 [H2 Hd2]]].
  destruct (H23 _ _ _ H2) as [d3 [p3 [H3 Hd3]]].
  exists d3, p3. split; [exact H3|lra].
Qed.

Lemma lab_set_improves (m : labels) (v : node) (d : Q) (p : list node) :
  (forall d0 p0, lab_get m v = Some (d0, p0) -> d <= d0) ->
  improves m (lab_set m v (d, p)).
Proof.
  intros Hle x dx px Hx. destruct (string_dec x v) as [E|E].
  - subst x. exists d, p. split; [apply lab_get_set_same|eauto].
  - exists dx, px. split; [|lra]. now rewrite lab_get_set_other.
Qed.

Lemma relax_improves (m : labels) (e : node * node * A) : improves m (relax weight m e).
Proof.
  destruct e as [[u v] a]. unfold relax.
  destruct (lab_get m u) as [[du pu]|] eqn:Hu; [|apply improves_refl].
  destruct (lab_get m v) as [[dv pv]|] eqn:Hv.
  - destruct (Qlt_le_dec (du + weight a) dv) as [Hlt|Hge]; [|apply improves_refl].
    apply lab_set_improves. intros d0 p0 H0. rewrite Hv in H0. inversion H0; subst. lra.
  - apply lab_set_improves. intros d0 p0 H0. rewrite Hv in H0. discriminate.
Qed.

Lemma relax_round_improves (es : list (node * node * A)) (m : labels) :
  improves m (relax_round weight es m).
Proof.
  unfold relax_round. revert m. induction es as [|e r IH]; intros m; simpl.
  - apply improves_refl.
  - eapply improves_trans; [apply relax_improves|apply IH].
Qed.

Lemma relax_edge (m : labels) (u v : node) (a : A) (du : Q) (pu : list node) :
  lab_get m u = Some (du, pu) ->
  exists dv pv, lab_get (relax weight m (u, v, a)) v = Some (dv, pv)
                /\ dv <= du + weight a.
Proof.
  intros Hu. unfold relax. rewrite Hu.
  destruct (lab_get m v) as [[dv pv]|] eqn:Hv.
  - destruct (Qlt_le_dec (du + weight a) dv) as [Hlt|Hge].
    + eexists _, _. split; [apply lab_get_set_same|lra].
    + exists dv, pv. split; [exact Hv|exact Hge].
  - eexists _, _. split; [apply lab_get_set_same|lra].
Qed.

Lemma relax_round_edge (es : list (node * node * A)) (m : labels)
      (u v : node) (a : A) (du : Q) (pu : list node) :
  In (u, v, a) es -> lab_get m u = Some (du, pu) ->
  exists dv pv, lab_get (relax_round weight es m) v = Some (dv, pv)
                /\ dv <= du + weight a.
Proof.
  unfold relax_round. revert m du pu.
  induction es as [|e r IH]; intros m du pu Hin Hu; [contradiction|].
  simpl. destruct Hin as [He|Hin].
  - subst e. destruct (relax_edge m u v a du pu Hu) as [dv [pv [Hv Hle]]].
    destruct (relax_round_improves r _ _ _ _ Hv) as [d' [p' [H' Hd']]].
    exists d', p'. split; [exact H'|lra].
  - destruct (relax_improves m e _ _ _ Hu) as [du' [pu' [Hu' Hle]]].
    destruct (IH _ _ _ Hin Hu') as [dv [pv [Hv Hd]]].
    exists dv, pv. split; [exact Hv|lra].
Qed.

Lemma relax_sound (m : labels) (e : node * node * A) :
  In e adj -> labels_sound m -> labels_sound (relax weight m e).
Proof.
  destruct e as [[u v] a]. intros Hin Hs. unfold relax.
  destruct (lab_get m u) as [[du pu]|] eqn:Hu; [|exact Hs].
  assert (Hnew : labels_sound (lab_set m v (du + weight a, v :: pu))).
  { intros x d p Hx. destruct (string_dec x v) as [E|E].
    - subst x. rewrite lab_get_set_same in Hx. inversion Hx; subst.
      destruct (Hs _ _ _ Hu) as [W [Hw HW]].
      destruct (walk_snoc _ _ _ _ _ _ _ _ _ Hw Hin) as [W' [Hw' HW']].
      exists W'. split; [exact Hw'|lra].
    - rewrite lab_get_set_other in Hx by exact E. eauto. }
  destruct (lab_get m v) as [[dv pv]|] eqn:Hv; [|exact Hnew].
  destruct (Qlt_le_dec (du + weight a) dv); [exact Hnew|exact Hs].
Qed.

Lemma relax_round_sound (es : list (node * node * A)) (m : labels) :
  incl es adj -> labels_sound m -> labels_sound (relax_round weight es m).
Proof.
  unfold relax_round. revert m. induction es as [|e r IH]; intros m Hi Hs; simpl; auto.
  apply IH.
  - intros x Hx. apply Hi. now right.
  - apply relax_sound; [apply Hi; now left|exact Hs].
Qed.

Lemma relax_rounds_sound (n : nat) (m : labels) :
  labels_sound m -> labels_sound (relax_rounds weight adj n m).
Proof.
  revert m. induction n as [|n IH]; intros m Hs; simpl; auto.
  apply IH. apply relax_round_sound; [apply incl_refl|exact Hs].
Qed.

Lemma init_sound : labels_sound [(s, (0, [s]))].
Proof.
  intros v d p H. simpl in H. destruct (node_eqb s v) eqn:E; [|discriminate].
  apply node_eqb_eq in E. subst v. inversion H; subst.
  exists 0. split; [apply walk_nil|lra].
Qed.

Lemma init_covers : covers 0 [(s, (0, [s]))].
Proof.
  intros v p W Hw Hlen. destruct Hw as [x|u v' a p t W Hin Hw].
  - simpl. rewrite node_eqb_refl. exists 0, [x]. split; [reflexivity|lra].
  - destruct (walk_head _ _ _ _ _ _ _ Hw) as [r Hr]. subst p. simpl in Hlen. lia.
Qed.

Lemma covers_improves (k : nat) (m m' : labels) :
  covers k m -> improves m m' -> covers k m'.
Proof.
  intros Hc Hi v p W Hw Hlen.
  destruct (Hc _ _ _ Hw Hlen) as [d [q [Hg Hd]]].
  destruct (Hi _ _ _ Hg) as [d' [q' [Hg' Hd']]].
  exists d', q'. split; [exact Hg'|lra].
Qed.

Lemma relax_round_covers (k : nat) (m : labels) :
  covers k m -> covers (S k) (relax_round weight adj m).
Proof.
  intros Hc v p W Hw Hlen.
  destruct (walk_snoc_inv _ _ _ _ _ _ _ Hw)
    as [[Hp [Ht HW]]|[p' [x [a [W' [Hw' [Hin [Hp HW]]]]]]]].
  - apply (covers_improves k m _ Hc (relax_round_improves adj m) v p W Hw).
    subst p. simpl. lia.
  - assert (Hl : (List.length p' <= S k)%nat).
    { subst p. rewrite length_app in Hlen. simpl in Hlen. lia. }
    destruct (Hc _ _ _ Hw' Hl) as [dx [qx [Hx Hdx]]].
    destruct (relax_round_edge adj m x v a dx qx Hin Hx) as [dv [pv [Hv Hdv]]].
    exists dv, pv. split; [exact Hv|lra].
Qed.

Lemma relax_rounds_covers (n k : nat) (m : labels) :
  covers k m -> covers (n + k) (relax_rounds weight adj n m).
Proof.
  revert k m. induction n as [|n IH]; intros k m Hc; simpl; auto.
  replace (S (n + k)) with (n + S k)%nat by lia.
  apply IH. now apply relax_round_covers.
Qed.
End SearchFacts.

(** Soundness: a label returned by the search is the weight of a walk of
    the graph from the source to the target. *)
Lemma search_sound (A : Type) (weight : A -> Q) (G : DiGraph A) (s t : node)
      (d : Q) (q : list node) :
  search weight G s t = Some (d, q) ->
  exists W, walk (g_adj G) weight s (rev q) t W /\ d == W.
Proof.
  unfold search. intros H.
  exact (relax_rounds_sound A weight (g_adj G) s _ _ (init_sound A weight (g_adj G) s)
                            _ _ _ H).
Qed.

(** Optimality and completeness: with non-negative weights, the search
    finds a label for every reachable target, and no walk is cheaper. *)
Lemma search_optimal (A : Type) (weight : A -> Q) (G : DiGraph A) (s t : node)
      (p : list node) (W : Q) :
  (forall u v a, In (u, v, a) (g_adj G) -> 0 <= weight a) ->
  walk (g_adj G) weight s p t W ->
  exists d q, search weight G s t = Some (d, q) /\ d <= W.
Proof.
  intros Hnn Hw.
  destruct (walk_simplify A weight (g_adj G) Hnn _ _ _ _ Hw) as [p' [W' [Hw' [HW' Hnd]]]].
  pose proof (simple_walk_length _ _ _ _ _ _ _ Hw' Hnd) as Hlen.
  pose proof (relax_rounds_covers A weight (g_adj G) s (List.length (g_adj G)) 0 _
                (init_covers A weight (g_adj G) s)) as Hc.
  rewrite Nat.add_0_r in Hc.
  destruct (Hc _ _ _ Hw' Hlen) as [d [q [Hg Hd]]].
  exists d, q. split; [exact Hg|lra].
Qed.

(* ================================================================== *)
(** * 23. Building and reading a [DiGraph]                            *)
(* ================================================================== *)

Section GraphFacts.
Variable A : Type.

Lemma has_node_In (G : DiGraph A) (n : node) :
  has_node G n = true <-> In n (g_nodes G).
Proof.
  unfold has_node. rewrite existsb_exists. split.
  - intros [x [Hx E]]. apply node_eqb_eq in E. now subst.
  - intros H. exists n. split; [exact H|apply node_eqb_refl].
Qed.

Lemma add_node_nodes (G : DiGraph A) (n x : node) :
  In x (g_nodes (add_node G n)) <-> In x (g_nodes G) \/ x = n.
Proof.
  unfold add_node. destruct (has_node G n) eqn:E.
  - apply has_node_In in E. split; [tauto|]. intros [H|H]; [exact H|now subst].
  - simpl. rewrite in_app_iff. simpl. intuition.
Qed.

Lemma add_node_adj (G : DiGraph A) (n : node) : g_adj (add_node G n) = g_adj G.
Proof. unfold add_node. now destruct (has_node G n). Qed.

Lemma add_nodes_from_adj (ns : list node) (G : DiGraph A) :
  g_adj (add_nodes_from G ns) = g_adj G.
Proof.
  unfold add_nodes_from. revert G. induction ns as [|n r IH]; intros G; simpl; auto.
  rewrite IH. apply add_node_adj.
Qed.

Lemma add_nodes_from_nodes (ns : list node) (G : DiGraph A) (x : node) :
  In x (g_nodes (add_nodes_from G ns)) <-> In x (g_nodes G) \/ In x ns.
Proof.
  unfold add_nodes_from. revert G. induction ns as [|n r IH]; intros G; simpl.
  - tauto.
  - rewrite IH, add_node_nodes. intuition.
Qed.

Lemma add_edge_nodes (G : DiGraph A) (u v : node) (a : A) (x : node) :
  In x (g_nodes (add_edge G u v a)) <-> In x (g_nodes G) \/ x = u \/ x = v.
Proof. unfold add_edge. simpl. rewrite !add_node_nodes. tauto. Qed.

Lemma add_edges_from_nodes (es : list (node * node * A)) (G : DiGraph A) (x : node) :
  In x (g_nodes (add_edges_from G es)) <->
  In x (g_nodes G) \/ exists u v a, In (u, v, a) es /\ (x = u \/ x = v).
Proof.
  unfold add_edges_from. revert G. induction es as [|[[u v] a] r IH]; intros G; simpl.
  - split; [tauto|]. intros [H|[u [v [a [[] _]]]]]. exact H.
  - rewrite IH, add_edge_nodes. split.
    + intros [[H|H]|[u' [v' [a' [Hin Hx]]]]].
      * now left.
      * right. exists u, v, a. split; [now left|exact H].
      * right. exists u', v', a'. split; [now right|exact Hx].
    + intros [H|[u' [v' [a' [[He|Hin] Hx]]]]].
      * left. now left.
      * inversion He; subst. left. now right.
      * right. exists u', v', a'. now split.
Qed.

Lemma set_edge_fresh (adj : list (node * node * A)) (u v : node) (a : A) :
  ~ In (u, v) (map edge_key adj) -> set_edge adj u v a = adj ++ [(u, v, a)].
Proof.
  induction adj as [|[[u' v'] a'] r IH]; simpl; intros Hn; auto.
  destruct (node_eqb u' u && node_eqb v' v) eqn:E.
  - apply key_eqb_true in E. destruct E; subst. elim Hn. now left.
  - rewrite IH; auto.
Qed.

(** Without a repeated pair of end points, the adjacency of the built
    graph is the list of edges it was built from. *)
Lemma add_edges_from_adj (es : list (node * node * A)) (G : DiGraph A) :
  NoDup (map edge_key (g_adj G ++ es)) ->
  g_adj (add_edges_from G es) = g_adj G ++ es.
Proof.
  unfold add_edges_from. revert G. induction es as [|[[u v] a] r IH]; intros G Hnd; simpl.
  - now rewrite app_nil_r.
  - assert (Hfresh : ~ In (u, v) (map edge_key (g_adj G))).
    { rewrite map_app in Hnd. simpl in Hnd.
      apply NoDup_remove_2 in Hnd. intros H. apply Hnd.
      apply in_or_app. now left. }
    rewrite IH; simpl; rewrite (set_edge_fresh _ _ _ _ Hfresh).
    + now rewrite <- app_assoc.
    + rewrite <- app_assoc. exact Hnd.
Qed.

Lemma set_edge_In (adj : list (node * node * A)) (u v : node) (a : A)
      (x : node * node * A) :
  In x (set_edge adj u v a) -> x = (u, v, a) \/ In x adj.
Proof.
  induction adj as [|[[u' v'] a'] r IH]; simpl.
  - intros [H|[]]. now left.
  - destruct (node_eqb u' u && node_eqb v' v); simpl.
    + intros [H|H]; auto.
    + intros [H|H]; auto. destruct (IH H); auto.
Qed.

(** every entry of the adjacency was put there by some [add_edge] *)
Lemma add_edges_from_adj_incl (es : list (node * node * A)) (G : DiGraph A)
      (x : node * node * A) :
  In x (g_adj (add_edges_from G es)) -> In x (g_adj G) \/ In x es.
Proof.
  unfold add_edges_from. revert G. induction es as [|[[u v] a] r IH]; intros G; simpl.
  - auto.
  - intros H. destruct (IH _ H) as [H'|H']; [|auto].
    simpl in H'. destruct (set_edge_In _ _ _ _ _ H'); auto.
Qed.

Lemma get_edge_adj_In (adj : list (node * node * A)) (u v : node) (a : A) :
  get_edge_adj adj u v = Some a -> In (u, v, a) adj.
Proof.
  induction adj as [|[[u' v'] a'] r IH]; simpl; [discriminate|].
  destruct (node_eqb u' u && node_eqb v' v) eqn:E.
  - apply key_eqb_true in E. destruct E; subst. intros H. inversion H. now left.
  - intros H. right. auto.
Qed.

Lemma In_get_edge_adj (adj : list (node * node * A)) (u v : node) (a : A) :
  NoDup (map edge_key adj) -> In (u, v, a) adj -> get_edge_adj adj u v = Some a.
Proof.
  induction adj as [|[[u' v'] a'] r IH]; simpl; intros Hnd Hin; [contradiction|].
  inversion Hnd as [|k l Hk Hnd']; subst.
  destruct Hin as [He|Hin].
  - inversion He; subst. now rewrite !node_eqb_refl.
  - destruct (node_eqb u' u && node_eqb v' v) eqn:E; [|auto].
    apply key_eqb_true in E. destruct E; subst. elim Hk.
    apply in_map_iff. now exists (u, v, a).
Qed.

(** The sum the scripts compute along a path is the weight of the walk. *)
Lemma sum_along_walk (G : DiGraph A) (f : A -> result Q) (w : A -> Q)
      (s t : node) (p : list node) (W : Q) :
  NoDup (map edge_key (g_adj G)) ->
  (forall u v a, In (u, v, a) (g_adj G) -> exists x, f a = Ok x /\ x == w a) ->
  walk (g_adj G) w s p t W ->
  forall acc, exists x, sum_along G f p acc = Ok x /\ x == acc + W.
Proof.
  intros Hnd Hf. induction 1 as [s|u v a p t W Hin Hw IH]; intros acc.
  - exists acc. split; [reflexivity|lra].
  - destruct (walk_head _ _ _ _ _ _ _ Hw) as [r Hr]. subst p.
    simpl. unfold get_edge. rewrite (In_get_edge_adj _ _ _ _ Hnd Hin). simpl.
    destruct (Hf _ _ _ Hin) as [x [Hx Hxw]]. rewrite Hx. simpl.
    destruct (IH (acc + x)) as [y [Hy Hyw]].
    exists y. split; [exact Hy|lra].
Qed.

End GraphFacts.

(* ================================================================== *)
(** * 24. Names of the expanded graphs                                *)
(* ================================================================== *)

Lemma no_underscore_app (a b : string) :
  no_underscore (a ++ b) = no_underscore a && no_underscore b.
Proof.
  induction a as [|c a IH]; simpl; auto.
  rewrite IH. now rewrite andb_assoc.
Qed.

(** two names that agree after their first underscore-free part *)
Lemma underscore_split (a b x y : string) :
  no_underscore a = true -> no_underscore b = true ->
  (a ++ String "_" x)%string = (b ++ String "_" y)%string -> a = b /\ x = y.
Proof.
  revert b. induction a as [|c a IH]; intros b Ha Hb E.
  - destruct b as [|c' b]; simpl in *.
    + inversion E. auto.
    + inversion E; subst. simpl in Hb. discriminate.
  - destruct b as [|c' b]; simpl in *.
    + inversion E; subst. simpl in Ha. discriminate.
    + inversion E; subst. apply andb_true_iff in Ha, Hb.
      destruct (IH b (proj2 Ha) (proj2 Hb) H1). subst. auto.
Qed.

Lemma split_head_plain (a x : string) :
  no_underscore a = true -> split_head (a ++ String "_" x) = a.
Proof.
  induction a as [|c a IH]; simpl; intros Ha; auto.
  apply andb_true_iff in Ha. destruct Ha as [Hc Ha].
  apply negb_true_iff in Hc. rewrite Hc. now rewrite IH.
Qed.

Lemma split_head_suffix2 (n : node) :
  no_underscore n = true -> split_head (suffix2 n) = n.
Proof. apply split_head_plain. Qed.

Lemma suffix2_marked (n : node) : no_underscore (suffix2 n) = false.
Proof. unfold suffix2. rewrite no_underscore_app. simpl. apply andb_false_r. Qed.

Lemma suffix3_marked (n : node) : no_underscore (suffix3 n) = false.
Proof. unfold suffix3. rewrite no_underscore_app. simpl. apply andb_false_r. Qed.

Lemma suffix_i_marked (n : node) (i : nat) : no_underscore (suffix_i n i) = false.
Proof. unfold suffix_i. rewrite no_underscore_app. simpl. apply andb_false_r. Qed.

Lemma super_dest_marked (n : node) : no_underscore (CNE.super_dest_of n) = false.
Proof.
  unfold CNE.super_dest_of. rewrite no_underscore_app. simpl. apply andb_false_r.
Qed.

Lemma suffix3_inj (a b : node) :
  no_underscore a = true -> no_underscore b = true -> suffix3 a = suffix3 b -> a = b.
Proof. intros Ha Hb E. now destruct (underscore_split a b "3" "3" Ha Hb E). Qed.

Lemma suffix2_inj (a b : node) :
  no_underscore a = true -> no_underscore b = true -> suffix2 a = suffix2 b -> a = b.
Proof. intros Ha Hb E. now destruct (underscore_split a b "2" "2" Ha Hb E). Qed.

Lemma suffix2_not_suffix3 (a b : node) :
  no_underscore a = true -> no_underscore b = true -> suffix2 a <> suffix3 b.
Proof.
  intros Ha Hb E. destruct (underscore_split a b "2" "3" Ha Hb E) as [_ H].
  discriminate.
Qed.

Lemma str_of_nat_inj (i j : nat) : str_of_nat i = str_of_nat j -> i = j.
Proof.
  unfold str_of_nat. intros E.
  apply DecimalNat.Unsigned.to_uint_inj.
  pose proof (NilEmpty.usu (Nat.to_uint i)) as Hi.
  pose proof (NilEmpty.usu (Nat.to_uint j)) as Hj.
  rewrite E in Hi. rewrite Hi in Hj. now inversion Hj.
Qed.

Lemma suffix_i_inj (a b : node) (i j : nat) :
  no_underscore a = true -> no_underscore b = true ->
  suffix_i a i = suffix_i b j -> a = b /\ i = j.
Proof.
  intros Ha Hb E. destruct (underscore_split a b _ _ Ha Hb E) as [H1 H2].
  split; [exact H1|now apply str_of_nat_inj].
Qed.

Lemma str_of_nat_not_super (i : nat) : str_of_nat i <> "Super_Dest"%string.
Proof.
  unfold str_of_nat. destruct (Nat.to_uint i); simpl; discriminate.
Qed.

Lemma suffix_i_not_super (a b : node) (i : nat) :
  no_underscore a = true -> no_underscore b = true ->
  suffix_i a i <> CNE.super_dest_of b.
Proof.
  intros Ha Hb E. destruct (underscore_split a b _ _ Ha Hb E) as [_ H].
  now apply str_of_nat_not_super in H.
Qed.

(* ================================================================== *)
(** * 25. The graph the CPEG script builds                            *)
(* ================================================================== *)

Lemma mapM_map_ok (A B C : Type) (f : B -> result C) (h : A -> B) (g : A -> C)
      (l : list A) :
  (forall x, In x l -> f (h x) = Ok (g x)) -> mapM f (map h l) = Ok (map g l).
Proof.
  induction l as [|x r IH]; simpl; intros H; auto.
  rewrite (H x (or_introl eq_refl)). simpl. rewrite IH; auto.
Qed.

Lemma mapM_ok (A B : Type) (f : A -> result B) (g : A -> B) (l : list A) :
  (forall x, In x l -> f x = Ok (g x)) -> mapM f l = Ok (map g l).
Proof.
  intros H. rewrite <- (map_id l) at 1. now apply mapM_map_ok.
Qed.

Lemma mapM_app (A B : Type) (f : A -> result B) (l1 l2 : list A) (r1 r2 : list B) :
  mapM f l1 = Ok r1 -> mapM f l2 = Ok r2 -> mapM f (l1 ++ l2) = Ok (r1 ++ r2).
Proof.
  revert r1. induction l1 as [|x l1 IH]; simpl; intros r1 H1 H2.
  - inversion H1. exact H2.
  - destruct (f x) as [y|]; [|discriminate]. simpl in *.
    destruct (mapM f l1) as [ys|]; [|discriminate]. simpl in *.
    inversion H1; subst. now rewrite (IH ys eq_refl H2).
Qed.

Lemma caps_lookup_In (d : capacities) (c : node) (q : Q) :
  caps_lookup d c = Some q -> In (c, q) d.
Proof.
  induction d as [|[k x] r IH]; simpl; [discriminate|].
  destruct (node_eqb k c) eqn:E.
  - apply node_eqb_eq in E. subst. intros H. inversion H. now left.
  - intros H. right. auto.
Qed.

Lemma caps_lookup_key (d : capacities) (c : node) :
  In c (map fst d) -> exists q, caps_lookup d c = Some q.
Proof.
  induction d as [|[k x] r IH]; simpl; [contradiction|].
  intros [H|H].
  - subst. rewrite node_eqb_refl. eauto.
  - destruct (node_eqb k c); eauto.
Qed.

Lemma truediv_ok (a b : Q) : ~ b == 0 -> truediv a b = Ok (a / b).
Proof.
  intros H. unfold truediv. destruct (Qeq_bool b 0) eqn:E; auto.
  apply Qeq_bool_iff in E. contradiction.
Qed.

Lemma truediv_pos (a b : Q) : 0 < b -> truediv a b = Ok (a / b).
Proof. intros H. apply truediv_ok. lra. Qed.

Lemma Qdiv_nonneg (a b : Q) : 0 <= a -> 0 < b -> 0 <= a / b.
Proof.
  intros Ha Hb. unfold Qdiv. apply Qmult_le_0_compat; [exact Ha|].
  apply Qlt_le_weak. now apply Qinv_lt_0_compat.
Qed.

Lemma filter_enters (d : node) (es : list edge) :
  filter (fun e : edge => let '(u, v, _) := e in negb (node_eqb v d)) es
  = filter (fun e => negb (enters d e)) es.
Proof. apply filter_ext. intros [[u v] a]. reflexivity. Qed.

Lemma filter_touches (s : node) (es : list edge) :
  filter (fun e : edge => let '(u, v, _) := e in
                          negb (node_eqb u s) && negb (node_eqb v s)) es
  = filter (fun e => negb (touches s e)) es.
Proof. apply filter_ext. intros [[u v] a]. simpl. now rewrite negb_orb. Qed.

Section CpegGraph.
Variable net : Network.
Variable fl : FlowRequest.
Hypothesis Hnet : valid_network net.

Lemma compute_capacity (c : node) :
  In c (compute_nodes net) ->
  exists q, caps_lookup (compute_capacities net) c = Some q /\ 0 < q.
Proof.
  intros Hc. apply (vn_caps_keys Hnet) in Hc.
  destruct (caps_lookup_key _ _ Hc) as [q Hq]. exists q. split; [exact Hq|].
  eapply (vn_caps_pos Hnet). apply caps_lookup_In. exact Hq.
Qed.

Lemma expand_network_ok :
  CPEG.expand_network (nodes net) (edges net) (compute_nodes net)
    (compute_capacities net) (source_node fl) (destination_node fl)
  = Ok (nodes net ++ map suffix2 (compute_nodes net)
          ++ map suffix3 (filter (fun n => negb (node_eqb n (source_node fl))) (nodes net)),
        map (fun e : edge => let '(u, v, a) := e in
                             (u, v, Dict (LinkDict a), "C-UCL"%string))
            (filter (fun e => negb (enters (destination_node fl) e)) (edges net))
        ++ map (fun c => (c, suffix2 c,
                          Dict (CapacityDict (caps_get (compute_capacities net) c 1)),
                          "UCL-CL"%string)) (compute_nodes net)
        ++ map (fun c => (suffix2 c, suffix3 c, PyInt 0, "CL-DCL"%string))
               (compute_nodes net)
        ++ map (fun e : edge => let '(u, v, a) := e in
                                (suffix3 u, suffix3 v, Dict (LinkDict a), "C-DCL"%string))
               (filter (fun e => negb (touches (source_node fl) e)) (edges net))).
Proof.
  unfold CPEG.expand_network.
  rewrite (mapM_ok _ _ _
             (fun c => (c, suffix2 c,
                        Dict (CapacityDict (caps_get (compute_capacities net) c 1)),
                        "UCL-CL"%string))).
  - simpl. now rewrite filter_enters, filter_touches.
  - intros c Hc. destruct (compute_capacity c Hc) as [q [Hq _]].
    unfold caps_getitem, caps_get. rewrite Hq. reflexivity.
Qed.

Lemma build_loop_mapM (caps : capacities) (f g o : Q) (E : list xedge)
      (es : list (node * node * CPEG_script.xattr)) (G : DiGraph CPEG_script.xattr) :
  mapM (CPEG_script.weigh_edge caps f g o) E = Ok es ->
  CPEG_script.build_loop caps f g o G E = Ok (add_edges_from G es).
Proof.
  revert es G. induction E as [|[[[u v] d] l] r IH]; simpl; intros es G H.
  - inversion H. reflexivity.
  - destruct (CPEG_algorithm.d_uv caps f g o u v l d) as [w|]; [|discriminate].
    simpl in *. destruct (mapM (CPEG_script.weigh_edge caps f g o) r) as [ws|];
      [|discriminate]. simpl in H. inversion H; subst.
    rewrite (IH ws _ eq_refl). reflexivity.
Qed.

Lemma d_uv_ucl (u v : node) (a : edge_attrs) :
  0 < bandwidth a ->
  d_uv_body (compute_capacities net) (flow_size fl) (gamma fl) (omega fl)
            u v "C-UCL" (Dict (LinkDict a)) = Ok (ucl_weight fl a).
Proof. intros Hb. unfold d_uv_body. simpl. now rewrite truediv_pos. Qed.

Lemma d_uv_dcl (u v : node) (a : edge_attrs) :
  0 < bandwidth a ->
  d_uv_body (compute_capacities net) (flow_size fl) (gamma fl) (omega fl)
            u v "C-DCL" (Dict (LinkDict a)) = Ok (dcl_weight fl a).
Proof. intros Hb. unfold d_uv_body. simpl. now rewrite truediv_pos. Qed.

Hypothesis Hplain : plain_names net.

Lemma compute_plain (c : node) : In c (compute_nodes net) -> no_underscore c = true.
Proof. intros Hc. apply Hplain. now apply (vn_compute Hnet). Qed.

Lemma edge_plain (u v : node) (a : edge_attrs) :
  In (u, v, a) (edges net) -> no_underscore u = true /\ no_underscore v = true.
Proof.
  intros H. destruct (vn_endpoints Hnet _ _ _ H). split; now apply Hplain.
Qed.

Lemma d_uv_ucl_cl (c : node) (d : attr_dict) :
  In c (compute_nodes net) ->
  d_uv_body (compute_capacities net) (flow_size fl) (gamma fl) (omega fl)
            c (suffix2 c) "UCL-CL" (Dict d) = Ok (cl_weight net fl c).
Proof.
  intros Hc. unfold d_uv_body. simpl.
  rewrite (split_head_suffix2 c (compute_plain c Hc)).
  destruct (compute_capacity c Hc) as [q [Hq Hpos]].
  unfold cl_weight, caps_get. rewrite Hq. now rewrite truediv_pos.
Qed.

Lemma weigh_expanded :
  forall V E,
    CPEG.expand_network (nodes net) (edges net) (compute_nodes net)
      (compute_capacities net) (source_node fl) (destination_node fl) = Ok (V, E) ->
    mapM (CPEG_script.weigh_edge (compute_capacities net) (flow_size fl) (gamma fl)
                                 (omega fl)) E
    = Ok (cpeg_adj net fl).
Proof.
  intros V E H. rewrite expand_network_ok in H. inversion H; subst. clear H.
  unfold cpeg_adj. repeat apply mapM_app.
  - apply mapM_map_ok. intros [[u v] a] Hin. apply filter_In in Hin.
    destruct Hin as [Hin _]. unfold CPEG_script.weigh_edge, CPEG_algorithm.d_uv.
    rewrite d_uv_ucl; [reflexivity|]. apply (vn_attrs Hnet _ _ _ Hin).
  - apply mapM_map_ok. intros c Hc.
    unfold CPEG_script.weigh_edge, CPEG_algorithm.d_uv.
    now rewrite d_uv_ucl_cl.
  - apply mapM_map_ok. intros c Hc. reflexivity.
  - apply mapM_map_ok. intros [[u v] a] Hin. apply filter_In in Hin.
    destruct Hin as [Hin _]. unfold CPEG_script.weigh_edge, CPEG_algorithm.d_uv.
    rewrite d_uv_dcl; [reflexivity|]. apply (vn_attrs Hnet _ _ _ Hin).
Qed.

Lemma build_graph_ok :
  CPEG_script.build_graph net fl
  = Ok (add_edges_from (empty_graph CPEG_script.xattr) (cpeg_adj net fl)).
Proof.
  unfold CPEG_script.build_graph.
  destruct (CPEG.expand_network (nodes net) (edges net) (compute_nodes net)
              (compute_capacities net) (source_node fl) (destination_node fl))
    as [[V E]|] eqn:HE.
  - simpl. apply build_loop_mapM. eapply weigh_expanded. exact HE.
  - rewrite expand_network_ok in HE. discriminate.
Qed.
End CpegGraph.

(** dropping edges keeps the remaining keys distinct *)
Lemma keys_of_filter_nodup (A K : Type) (keep : A -> bool) (key : A -> K) (es : list A)
      (Hes : NoDup (map key es)) :
  NoDup (map key (filter keep es)).
Proof.
  revert Hes. induction es as [|x r IH]; simpl; intros H; [constructor|].
  inversion H as [|y ys Hx Hr]; subst.
  destruct (keep x); simpl; auto.
  constructor; auto.
  intros Hin. apply Hx. apply in_map_iff in Hin. destruct Hin as [z [Hz Hin]].
  apply filter_In in Hin. apply in_map_iff. exists z. tauto.
Qed.

Section CpegKeys.
Variable net : Network.
Variable fl : FlowRequest.
Hypothesis Hnet : valid_network net.
Hypothesis Hplain : plain_names net.

Lemma in_ucl_edges (u v : node) (x : CPEG_script.xattr) :
  In (u, v, x) (ucl_edges net fl) <->
  exists a, In (u, v, a) (edges net) /\ v <> destination_node fl
            /\ x = (ucl_weight fl a, "C-UCL"%string).
Proof.
  unfold ucl_edges. rewrite in_map_iff. split.
  - intros [[[u' v'] a] [E Hin]]. inversion E; subst.
    apply filter_In in Hin. destruct Hin as [Hin Hp]. exists a.
    repeat split; auto. simpl in Hp. apply negb_true_iff in Hp.
    now apply node_eqb_neq.
  - intros [a [Hin [Hv Hx]]]. subst x. exists (u, v, a). split; [reflexivity|].
    apply filter_In. split; [exact Hin|]. simpl. apply negb_true_iff.
    now apply node_eqb_neq.
Qed.

Lemma in_ucl_cl_edges (u v : node) (x : CPEG_script.xattr) :
  In (u, v, x) (ucl_cl_edges net fl) <->
  In u (compute_nodes net) /\ v = suffix2 u /\ x = (cl_weight net fl u, "UCL-CL"%string).
Proof.
  unfold ucl_cl_edges. rewrite in_map_iff. split.
  - intros [c [E Hin]]. inversion E; subst. auto.
  - intros [Hin [Hv Hx]]. subst. now exists u.
Qed.

Lemma in_cl_dcl_edges (u v : node) (x : CPEG_script.xattr) :
  In (u, v, x) (cl_dcl_edges net) <->
  exists c, In c (compute_nodes net) /\ u = suffix2 c /\ v = suffix3 c
            /\ x = (0, "CL-DCL"%string).
Proof.
  unfold cl_dcl_edges. rewrite in_map_iff. split.
  - intros [c [E Hin]]. inversion E; subst. exists c. auto.
  - intros [c [Hin [Hu [Hv Hx]]]]. subst. now exists c.
Qed.

Lemma in_dcl_edges (u v : node) (x : CPEG_script.xattr) :
  In (u, v, x) (dcl_edges net fl) <->
  exists u0 v0 a, In (u0, v0, a) (edges net) /\ u0 <> source_node fl
                  /\ v0 <> source_node fl /\ u = suffix3 u0 /\ v = suffix3 v0
                  /\ x = (dcl_weight fl a, "C-DCL"%string).
Proof.
  unfold dcl_edges. rewrite in_map_iff. split.
  - intros [[[u' v'] a] [E Hin]]. inversion E; subst.
    apply filter_In in Hin. destruct Hin as [Hin Hp]. exists u', v', a.
    simpl in Hp. apply negb_true_iff, orb_false_iff in Hp.
    destruct Hp as [H1 H2]. apply node_eqb_neq in H1, H2. repeat split; auto.
  - intros [u0 [v0 [a [Hin [H1 [H2 [Hu [Hv Hx]]]]]]]]. subst.
    exists (u0, v0, a). split; [reflexivity|].
    apply filter_In. split; [exact Hin|]. simpl.
    apply negb_true_iff, orb_false_iff. split; now apply node_eqb_neq.
Qed.

(** membership in the expanded graph, kind by kind *)
Lemma in_cpeg_adj (u v : node) (x : CPEG_script.xattr) :
  In (u, v, x) (cpeg_adj net fl) <->
  In (u, v, x) (ucl_edges net fl) \/ In (u, v, x) (ucl_cl_edges net fl)
  \/ In (u, v, x) (cl_dcl_edges net) \/ In (u, v, x) (dcl_edges net fl).
Proof. unfold cpeg_adj. rewrite !in_app_iff. tauto. Qed.

Lemma in_keys (A : Type) (l : list (node * node * A)) (u v : node) :
  In (u, v) (map edge_key l) <-> exists x, In (u, v, x) l.
Proof.
  rewrite in_map_iff. split.
  - intros [[[u' v'] x] [E Hin]]. inversion E; subst. eauto.
  - intros [x Hin]. now exists (u, v, x).
Qed.

Lemma ucl_keys_nodup : NoDup (map edge_key (ucl_edges net fl)).
Proof.
  unfold ucl_edges. rewrite map_map.
  rewrite (map_ext _ (@edge_key edge_attrs)) by (now intros [[u v] a]).
  apply keys_of_filter_nodup. apply (vn_simple Hnet).
Qed.

Lemma ucl_cl_keys_nodup : NoDup (map edge_key (ucl_cl_edges net fl)).
Proof.
  unfold ucl_cl_edges. rewrite map_map. simpl.
  apply NoDup_map_NoDup_ForallPairs; [|apply (vn_compute_set Hnet)].
  intros a b _ _ E. now inversion E.
Qed.

Lemma cl_dcl_keys_nodup : NoDup (map edge_key (cl_dcl_edges net)).
Proof.
  unfold cl_dcl_edges. rewrite map_map. simpl.
  apply NoDup_map_NoDup_ForallPairs; [|apply (vn_compute_set Hnet)].
  intros a b Ha Hb E. inversion E.
  apply suffix2_inj; auto; now apply (compute_plain net Hnet Hplain).
Qed.

Lemma dcl_keys_nodup : NoDup (map edge_key (dcl_edges net fl)).
Proof.
  unfold dcl_edges. rewrite map_map.
  set (k3 := fun k : node * node => (suffix3 (fst k), suffix3 (snd k))).
  rewrite (map_ext _ (fun e : edge => k3 (edge_key e))) by (now intros [[u v] a]).
  rewrite <- (map_map (@edge_key edge_attrs) k3).
  apply NoDup_map_NoDup_ForallPairs;
    [|apply keys_of_filter_nodup; apply (vn_simple Hnet)].
  intros [u v] [u' v'] Hk Hk' E. simpl in E. inversion E.
  apply in_keys in Hk, Hk'. destruct Hk as [a Ha], Hk' as [a' Ha'].
  apply filter_In in Ha, Ha'. destruct Ha as [Ha _], Ha' as [Ha' _].
  destruct (edge_plain net Hnet Hplain _ _ _ Ha).
  destruct (edge_plain net Hnet Hplain _ _ _ Ha').
  f_equal; apply suffix3_inj; auto.
Qed.

Lemma cpeg_keys_nodup : NoDup (map edge_key (cpeg_adj net fl)).
Proof.
  unfold cpeg_adj. rewrite !map_app.
  apply NoDup_app; [apply ucl_keys_nodup| |].
  - apply NoDup_app; [apply ucl_cl_keys_nodup| |].
    + apply NoDup_app; [apply cl_dcl_keys_nodup|apply dcl_keys_nodup|].
      intros [u v] H1 H2. apply in_keys in H1, H2.
      destruct H1 as [x H1], H2 as [y H2].
      apply in_cl_dcl_edges in H1. apply in_dcl_edges in H2.
      destruct H1 as [c [Hc [Hu _]]].
      destruct H2 as [u0 [v0 [a [Hin [_ [_ [Hu' _]]]]]]].
      destruct (edge_plain net Hnet Hplain _ _ _ Hin) as [Hp _].
      apply (suffix2_not_suffix3 c u0 (compute_plain net Hnet Hplain c Hc) Hp).
      congruence.
    + intros [u v] H1 H2. apply in_keys in H1. destruct H1 as [x H1].
      apply in_ucl_cl_edges in H1. destruct H1 as [Hc _].
      pose proof (compute_plain net Hnet Hplain u Hc) as Hp.
      apply in_app_iff in H2. destruct H2 as [H2|H2]; apply in_keys in H2;
        destruct H2 as [y H2].
      * apply in_cl_dcl_edges in H2. destruct H2 as [c [_ [Hu _]]].
        subst u. rewrite suffix2_marked in Hp. discriminate.
      * apply in_dcl_edges in H2. destruct H2 as [u0 [v0 [a [_ [_ [_ [Hu _]]]]]]].
        subst u. rewrite suffix3_marked in Hp. discriminate.
  - intros [u v] H1 H2. apply in_keys in H1. destruct H1 as [x H1].
    apply in_ucl_edges in H1. destruct H1 as [a [Hin _]].
    destruct (edge_plain net Hnet Hplain _ _ _ Hin) as [Hu Hv].
    rewrite !in_app_iff in H2. destruct H2 as [H2|[H2|H2]]; apply in_keys in H2;
      destruct H2 as [y H2].
    + apply in_ucl_cl_edges in H2. destruct H2 as [_ [Hv' _]].
      subst v. rewrite suffix2_marked in Hv. discriminate.
    + apply in_cl_dcl_edges in H2. destruct H2 as [c [_ [Hu' _]]].
      subst u. rewrite suffix2_marked in Hu. discriminate.
    + apply in_dcl_edges in H2. destruct H2 as [u0 [v0 [a' [_ [_ [_ [Hu' _]]]]]]].
      subst u. rewrite suffix3_marked in Hu. discriminate.
Qed.

(** hence the adjacency of the graph the script builds is [cpeg_adj] *)
Lemma cpeg_graph_adj :
  g_adj (add_edges_from (empty_graph CPEG_script.xattr) (cpeg_adj net fl))
  = cpeg_adj net fl.
Proof. rewrite add_edges_from_adj; [reflexivity|]. simpl. apply cpeg_keys_nodup. Qed.
End CpegKeys.

Section CpegWalks.
Variable net : Network.
Variable fl : FlowRequest.
Hypothesis Hnet : valid_network net.
Hypothesis Hfl : valid_flow net fl.

Lemma ucl_weight_nonneg (a : edge_attrs) : valid_attrs a -> 0 <= ucl_weight fl a.
Proof.
  intros [Hb [H1 [H2 [H3 H4]]]]. unfold ucl_weight.
  pose proof (Qdiv_nonneg (flow_size fl) (bandwidth a)
                (Qlt_le_weak _ _ (vf_size Hfl)) Hb). lra.
Qed.

Lemma dcl_weight_nonneg (a : edge_attrs) : valid_attrs a -> 0 <= dcl_weight fl a.
Proof.
  intros [Hb [H1 [H2 [H3 H4]]]]. unfold dcl_weight.
  assert (Hg : 0 <= gamma fl * flow_size fl).
  { apply Qmult_le_0_compat; [pose proof (vf_gamma Hfl); lra|].
    apply Qlt_le_weak, (vf_size Hfl). }
  pose proof (Qdiv_nonneg _ _ Hg Hb). lra.
Qed.

Lemma cl_weight_nonneg (c : node) : In c (compute_nodes net) -> 0 <= cl_weight net fl c.
Proof.
  intros Hc. destruct (compute_capacity net Hnet c Hc) as [q [Hq Hpos]].
  unfold cl_weight, caps_get. rewrite Hq. apply Qdiv_nonneg; [|exact Hpos].
  apply Qmult_le_0_compat; [apply (vf_omega Hfl)|apply Qlt_le_weak, (vf_size Hfl)].
Qed.

Hypothesis Hplain : plain_names net.

Lemma cpeg_weights_nonneg (u v : node) (x : CPEG_script.xattr) :
  In (u, v, x) (cpeg_adj net fl) -> 0 <= fst x.
Proof.
  intros H. apply in_cpeg_adj in H. destruct H as [H|[H|[H|H]]].
  - apply in_ucl_edges in H. destruct H as [a [Hin [_ Hx]]]. subst x. simpl.
    apply ucl_weight_nonneg. apply (vn_attrs Hnet _ _ _ Hin).
  - apply in_ucl_cl_edges in H. destruct H as [Hc [_ Hx]]. subst x. simpl.
    now apply cl_weight_nonneg.
  - apply in_cl_dcl_edges in H. destruct H as [c [_ [_ [_ Hx]]]]. subst x. simpl. lra.
  - apply in_dcl_edges in H. destruct H as [u0 [v0 [a [Hin [_ [_ [_ [_ Hx]]]]]]]].
    subst x. simpl. apply dcl_weight_nonneg. apply (vn_attrs Hnet _ _ _ Hin).
Qed.

(** a forward walk that never enters the destination lives in layer U *)
Lemma embed_forward (s t : node) (p : list node) (W : Q) :
  walk (edges net) (ucl_weight fl) s p t W ->
  ~ In (destination_node fl) (tl p) ->
  walk (cpeg_adj net fl) fst s p t W.
Proof.
  induction 1 as [s|u v a p t W Hin Hw IH]; intros Hd.
  - apply walk_nil.
  - destruct (walk_head _ _ _ _ _ _ _ Hw) as [r Hr]. subst p. simpl in Hd.
    apply walk_cons with (v := v) (a := (ucl_weight fl a, "C-UCL"%string)).
    + apply in_cpeg_adj. left. apply in_ucl_edges. exists a.
      split; [exact Hin|split; [|reflexivity]]. intros E. apply Hd. now left.
    + apply IH. simpl. intros H. apply Hd. now right.
Qed.

(** a return walk that never meets the source lives in layer D *)
Lemma embed_return (s t : node) (p : list node) (W : Q) :
  walk (edges net) (dcl_weight fl) s p t W ->
  ~ In (source_node fl) p ->
  walk (cpeg_adj net fl) fst (suffix3 s) (map suffix3 p) (suffix3 t) W.
Proof.
  induction 1 as [s|u v a p t W Hin Hw IH]; intros Hs.
  - apply walk_nil.
  - destruct (walk_head _ _ _ _ _ _ _ Hw) as [r Hr]. subst p. simpl.
    apply walk_cons with (v := suffix3 v) (a := (dcl_weight fl a, "C-DCL"%string)).
    + apply in_cpeg_adj. right. right. right. apply in_dcl_edges.
      exists u, v, a. split; [exact Hin|].
      split; [intros E; apply Hs; left; now symmetry|].
      split; [intros E; apply Hs; right; left; now symmetry|].
      repeat split.
    + apply IH. intros H. apply Hs. now right.
Qed.

Lemma embed_compute (c : node) :
  In c (compute_nodes net) ->
  walk (cpeg_adj net fl) fst c [c; suffix2 c; suffix3 c] (suffix3 c)
       (cl_weight net fl c + (0 + 0)).
Proof.
  intros Hc.
  apply walk_cons with (v := suffix2 c) (a := (cl_weight net fl c, "UCL-CL"%string)).
  - apply in_cpeg_adj. right. left. now apply in_ucl_cl_edges.
  - apply walk_cons with (v := suffix3 c) (a := (0, "CL-DCL"%string)).
    + apply in_cpeg_adj. right. right. left. apply in_cl_dcl_edges. now exists c.
    + apply walk_nil.
Qed.

(** an offloading route through the compute node [c] is a walk of the
    expanded graph of the same total delay *)
Lemma embed_route (c : node) (p1 p2 : list node) (W1 W2 : Q) :
  In c (compute_nodes net) ->
  walk (edges net) (ucl_weight fl) (source_node fl) p1 c W1 ->
  ~ In (destination_node fl) (tl p1) ->
  walk (edges net) (dcl_weight fl) c p2 (destination_node fl) W2 ->
  ~ In (source_node fl) p2 ->
  exists p W, walk (cpeg_adj net fl) fst (source_node fl) p
                   (suffix3 (destination_node fl)) W
              /\ W == W1 + cl_weight net fl c + W2.
Proof.
  intros Hc H1 Hd H2 Hs.
  pose proof (embed_forward _ _ _ _ H1 Hd) as E1.
  pose proof (embed_return _ _ _ _ H2 Hs) as E2.
  pose proof (embed_compute c Hc) as Ec.
  destruct (walk_head _ _ _ _ _ _ _ H2) as [r Hr]. subst p2. simpl in E2.
  destruct (walk_app _ _ _ _ _ _ _ _ _ _ Ec E2) as [Wa [Ha HWa]].
  destruct (walk_app _ _ _ _ _ _ _ _ _ _ E1 Ha) as [Wb [Hb HWb]].
  eexists _, Wb. split; [exact Hb|lra].
Qed.

(** the CPEG script returns a path that no walk of the expanded graph
    from the source to the downstream destination undercuts *)
Lemma cpeg_run_optimal (p : list node) (W : Q) :
  walk (cpeg_adj net fl) fst (source_node fl) p (suffix3 (destination_node fl)) W ->
  exists q w, CPEG_script.run net fl = Ok (q, w) /\ w <= W.
Proof.
  intros Hw. unfold CPEG_script.run.
  rewrite (build_graph_ok net fl Hnet Hplain). cbn [bind].
  set (G := add_edges_from (empty_graph CPEG_script.xattr) (cpeg_adj net fl)).
  assert (Hadj : g_adj G = cpeg_adj net fl) by (apply cpeg_graph_adj; auto).
  assert (Hsrc : has_node G (source_node fl) = true).
  { apply has_node_In. unfold G. apply add_edges_from_nodes. right.
    destruct (walk_first_edge _ _ _ _ _ _ _ Hw) as [E|[v [a Hin]]].
    - exfalso. pose proof (Hplain _ (vf_source Hfl)) as Hp.
      rewrite E, suffix3_marked in Hp. discriminate.
    - exists (source_node fl), v, a. split; [exact Hin|now left]. }
  change (destination_node fl ++ "_3")%string with (suffix3 (destination_node fl)).
  unfold dijkstra_path. unfold CPEG_script.xattr in *. rewrite Hsrc. cbn [negb].
  assert (Hnn : forall u v a, In (u, v, a) (g_adj G) -> 0 <= fst a).
  { rewrite Hadj. apply cpeg_weights_nonneg. }
  rewrite <- Hadj in Hw.
  destruct (search_optimal _ fst G _ _ _ _ Hnn Hw) as [d [q [Hs Hd]]].
  rewrite Hs. cbn [bind].
  destruct (search_sound _ _ _ _ _ _ _ Hs) as [W' [Hw' HW']].
  assert (Hk : NoDup (map edge_key (g_adj G))).
  { rewrite Hadj. apply cpeg_keys_nodup; auto. }
  assert (Hf : forall u v (a : Q * string), In (u, v, a) (g_adj G) ->
                 exists x, (fun a : Q * string => Ok (fst a)) a = Ok x /\ x == fst a).
  { intros u v a _. exists (fst a). split; [reflexivity|lra]. }
  destruct (sum_along_walk _ G _ fst _ _ _ _ Hk Hf Hw' 0) as [x [Hx Hxw]].
  rewrite Hx. cbn [bind]. exists (rev q), x. split; [reflexivity|lra].
Qed.
End CpegWalks.

(* ================================================================== *)
(** * 26. The greedy strategies on the original graph                 *)
(* ================================================================== *)

Section ShortestPath.
Variable A : Type.
Variable weight : A -> Q.
Variable G : DiGraph A.

Lemma shortest_path_inv (s t : node) (p : list node) :
  shortest_path weight G s t = Ok p ->
  In s (g_nodes G) /\ In t (g_nodes G)
  /\ exists d q, search weight G s t = Some (d, q) /\ p = rev q.
Proof.
  unfold shortest_path.
  destruct (has_node G s) eqn:Hs; [|discriminate].
  destruct (has_node G t) eqn:Ht; [|discriminate]. simpl.
  destruct (search weight G s t) as [[d q]|] eqn:E; [|discriminate].
  intros H. inversion H; subst.
  apply has_node_In in Hs, Ht. eauto 7.
Qed.

Lemma shortest_path_walk (s t : node) (p : list node) :
  shortest_path weight G s t = Ok p ->
  exists W, walk (g_adj G) weight s p t W.
Proof.
  intros H. destruct (shortest_path_inv _ _ _ H) as [_ [_ [d [q [Hs Hp]]]]].
  destruct (search_sound _ _ _ _ _ _ _ Hs) as [W [Hw _]]. subst p. eauto.
Qed.

Hypothesis weight_nonneg : forall u v a, In (u, v, a) (g_adj G) -> 0 <= weight a.

Lemma shortest_path_minimal (s t : node) (p : list node) (W : Q) :
  shortest_path weight G s t = Ok p ->
  walk (g_adj G) weight s p t W ->
  NoDup (map edge_key (g_adj G)) ->
  forall p' W', walk (g_adj G) weight s p' t W' -> W <= W'.
Proof.
  intros H Hw Hk p' W' Hw'.
  destruct (shortest_path_inv _ _ _ H) as [_ [_ [d [q [Hs Hp]]]]].
  destruct (search_sound _ _ _ _ _ _ _ Hs) as [W0 [Hw0 Hd0]].
  destruct (search_optimal _ _ _ _ _ _ _ weight_nonneg Hw') as [d' [q' [Hs' Hd']]].
  rewrite Hs in Hs'. inversion Hs'; subst d' q'. subst p.
  assert (HW : W == W0).
  { destruct (sum_along_walk _ G (fun a => Ok (weight a)) weight _ _ _ _ Hk
                (fun u v a _ => ex_intro _ (weight a) (conj eq_refl (Qeq_refl _)))
                Hw 0) as [x [Hx Hxw]].
    destruct (sum_along_walk _ G (fun a => Ok (weight a)) weight _ _ _ _ Hk
                (fun u v a _ => ex_intro _ (weight a) (conj eq_refl (Qeq_refl _)))
                Hw0 0) as [y [Hy Hyw]].
    rewrite Hx in Hy. inversion Hy; subst. lra. }
  lra.
Qed.

Lemma shortest_path_found (s t : node) (p : list node) (W : Q) :
  In s (g_nodes G) -> In t (g_nodes G) ->
  walk (g_adj G) weight s p t W ->
  exists p', shortest_path weight G s t = Ok p'.
Proof.
  intros Hs Ht Hw. unfold shortest_path.
  apply has_node_In in Hs, Ht. rewrite Hs, Ht. simpl.
  destruct (search_optimal _ _ _ _ _ _ _ weight_nonneg Hw) as [d [q [Hq _]]].
  rewrite Hq. eauto.
Qed.
End ShortestPath.

Lemma forward_delay_ucl (fl : FlowRequest) (a : edge_attrs) :
  forward_delay fl a == ucl_weight fl a.
Proof. unfold forward_delay, ucl_weight. lra. Qed.

Lemma return_delay_dcl (fl : FlowRequest) (a : edge_attrs) :
  return_delay fl a == dcl_weight fl a.
Proof. unfold return_delay, dcl_weight. lra. Qed.

(** walks do not depend on the weights, and re-weighting a walk with an
    equal weight function keeps its total *)
Lemma walk_reweigh (A : Type) (adj : list (node * node * A)) (w w' : A -> Q)
      (s t : node) (p : list node) (W : Q) :
  (forall u v a, In (u, v, a) adj -> w' a == w a) ->
  walk adj w s p t W -> exists W', walk adj w' s p t W' /\ W' == W.
Proof.
  intros He. induction 1 as [s|u v a p t W Hin Hw [W' [Hw' HW']]].
  - exists 0. split; [apply walk_nil|lra].
  - exists (w' a + W'). split; [eapply walk_cons; eauto|].
    specialize (He _ _ _ Hin). lra.
Qed.

Lemma walk_any_weight (A : Type) (adj : list (node * node * A)) (w w' : A -> Q)
      (s t : node) (p : list node) (W : Q) :
  walk adj w s p t W -> exists W', walk adj w' s p t W'.
Proof.
  induction 1 as [s|u v a p t W Hin Hw [W' Hw']].
  - exists 0. apply walk_nil.
  - exists (w' a + W'). eapply walk_cons; eauto.
Qed.

(** walks of a graph whose attributes were mapped *)
Lemma walk_of_map (A B : Type) (g : A -> B) (adj : list (node * node * A))
      (w : B -> Q) (s t : node) (p : list node) (W : Q) :
  walk (map (fun e : node * node * A => let '(u, v, a) := e in (u, v, g a)) adj) w s p t W ->
  walk adj (fun a => w (g a)) s p t W.
Proof.
  induction 1 as [s|u v b p t W Hin Hw IH].
  - apply walk_nil.
  - apply in_map_iff in Hin. destruct Hin as [[[u' v'] a] [E Hin]].
    inversion E; subst. apply walk_cons with (v := v) (a := a); auto.
Qed.

Section OriginalGraph.
Variable net : Network.
Hypothesis Hnet : valid_network net.

Lemma original_adj : g_adj (original_graph net) = edges net.
Proof.
  unfold original_graph. rewrite add_edges_from_adj; rewrite add_nodes_from_adj; simpl.
  - reflexivity.
  - apply (vn_simple Hnet).
Qed.

Lemma original_keys : NoDup (map edge_key (g_adj (original_graph net))).
Proof. rewrite original_adj. apply (vn_simple Hnet). Qed.

Lemma original_nodes (x : node) :
  In x (g_nodes (original_graph net)) <-> In x (nodes net).
Proof.
  unfold original_graph. rewrite add_edges_from_nodes, add_nodes_from_nodes. simpl.
  split; [|tauto].
  intros [[[]|H]|[u [v [a [Hin [E|E]]]]]]; auto;
    subst; now destruct (vn_endpoints Hnet _ _ _ Hin).
Qed.

Lemma walk_nodes (w : edge_attrs -> Q) (s t : node) (p : list node) (W : Q) :
  walk (edges net) w s p t W -> In s (nodes net) ->
  forall x, In x p -> In x (nodes net).
Proof.
  induction 1 as [s|u v a p t W Hin Hw IH]; intros Hs x Hx.
  - destruct Hx as [Hx|[]]. now subst.
  - destruct Hx as [Hx|Hx]; [now subst|].
    apply IH; auto. now destruct (vn_endpoints Hnet _ _ _ Hin).
Qed.

Lemma walk_contiguous (w : edge_attrs -> Q) (s t : node) (p : list node) (W : Q) :
  walk (edges net) w s p t W -> contiguous (edges net) p.
Proof.
  induction 1 as [s|u v a p t W Hin Hw IH]; simpl; auto.
  destruct (walk_head _ _ _ _ _ _ _ Hw) as [r Hr]. subst p. split; eauto.
Qed.
End OriginalGraph.

(** ** CCN *)

Lemma insert_by_key_In (x z : CCN.candidate) (l : list CCN.candidate) :
  In z (CCN.insert_by_key x l) <-> z = x \/ In z l.
Proof.
  induction l as [|y r IH]; simpl.
  - intuition.
  - destruct (Qle_bool (CCN.cand_key x) (CCN.cand_key y)); simpl; [intuition|].
    rewrite IH. intuition.
Qed.

Lemma sort_by_key_In (z : CCN.candidate) (l : list CCN.candidate) :
  In z (CCN.sort_by_key l) <-> In z l.
Proof.
  induction l as [|y r IH]; simpl; [tauto|].
  rewrite insert_by_key_In, IH. intuition.
Qed.

Lemma insert_by_key_head (x : CCN.candidate) (l : list CCN.candidate) :
  head_least l -> head_least (CCN.insert_by_key x l).
Proof.
  destruct l as [|h r]; simpl.
  - intros _ y [Hy|[]]. subst. lra.
  - intros Hl. destruct (Qle_bool (CCN.cand_key x) (CCN.cand_key h)) eqn:E.
    + apply Qle_bool_iff in E. intros y [Hy|Hy]; [subst; lra|].
      specialize (Hl y Hy). lra.
    + assert (Hlt : CCN.cand_key h <= CCN.cand_key x).
      { destruct (Qlt_le_dec (CCN.cand_key h) (CCN.cand_key x)) as [H|H]; [lra|].
        apply Qle_bool_iff in H. congruence. }
      intros y [Hy|Hy]; [subst; lra|].
      apply insert_by_key_In in Hy. destruct Hy as [Hy|Hy]; [subst; exact Hlt|].
      apply Hl. now right.
Qed.

Lemma sort_by_key_head (l : list CCN.candidate) : head_least (CCN.sort_by_key l).
Proof.
  induction l as [|x r IH]; simpl; [exact I|]. now apply insert_by_key_head.
Qed.

Lemma sort_by_key_least (l r : list CCN.candidate) (x : CCN.candidate) :
  CCN.sort_by_key l = x :: r ->
  In x l /\ forall y, In y l -> CCN.cand_key x <= CCN.cand_key y.
Proof.
  intros H. pose proof (sort_by_key_head l) as Hh. rewrite H in Hh.
  split.
  - apply sort_by_key_In. rewrite H. now left.
  - intros y Hy. apply (Hh y). rewrite <- H. now apply sort_by_key_In.
Qed.

Lemma collect_spec (G : DiGraph edge_attrs) (s d : node) (cs : list node) :
  (forall c, In c cs ->
             (exists x, CCN.try_candidate G s d c = Ok x)
             \/ CCN.try_candidate G s d c = Raise NetworkXNoPath) ->
  forall acc, exists l,
      CCN.collect G s d cs acc = Ok l
      /\ forall x, In x l <->
                   In x acc \/ exists c, In c cs /\ CCN.try_candidate G s d c = Ok x.
Proof.
  induction cs as [|c r IH]; intros Hc acc; simpl.
  - exists acc. split; [reflexivity|]. intros x. split; [tauto|].
    intros [H|[c [[] _]]]. exact H.
  - assert (Hr : forall c', In c' r ->
                            (exists x, CCN.try_candidate G s d c' = Ok x)
                            \/ CCN.try_candidate G s d c' = Raise NetworkXNoPath).
    { intros c' H. apply Hc. now right. }
    destruct (Hc c (or_introl eq_refl)) as [[x Hx]|Hx]; rewrite Hx.
    + destruct (IH Hr (acc ++ [x])) as [l [Hl Hin]]. exists l. split; [exact Hl|].
      intros y. rewrite Hin, in_app_iff. simpl. split.
      * intros [[H|[H|[]]]|[c' [Hc' Hy]]]; eauto.
        subst. right. exists c. auto.
      * intros [H|[c' [[E|Hc'] Hy]]]; eauto.
        subst c'. rewrite Hx in Hy. inversion Hy. subst. left. right. now left.
    + destruct (IH Hr acc) as [l [Hl Hin]]. exists l. split; [exact Hl|].
      intros y. rewrite Hin. split.
      * intros [H|[c' [Hc' Hy]]]; eauto.
      * intros [H|[c' [[E|Hc'] Hy]]]; eauto.
        subst c'. rewrite Hx in Hy. discriminate.
Qed.

Section CCNFacts.
Variable net : Network.
Variable fl : FlowRequest.
Hypothesis Hnet : valid_network net.
Hypothesis Hfl : valid_flow net fl.

Local Abbreviation G := (original_graph net).

Lemma prop_nonneg (u v : node) (a : edge_attrs) :
  In (u, v, a) (g_adj G) -> 0 <= propagation_delay a.
Proof.
  rewrite (original_adj net Hnet). intros H.
  now destruct (vn_attrs Hnet _ _ _ H) as [_ [H1 _]].
Qed.

Lemma sum_prop_walk (s t : node) (p : list node) (W : Q) :
  walk (g_adj G) propagation_delay s p t W ->
  exists x, sum_along G (fun a => Ok (propagation_delay a)) p 0 = Ok x /\ x == W.
Proof.
  intros Hw.
  destruct (sum_along_walk _ G (fun a => Ok (propagation_delay a)) propagation_delay
              _ _ _ _ (original_keys net Hnet)
              (fun u v a _ => ex_intro _ _ (conj eq_refl (Qeq_refl _))) Hw 0)
    as [x [Hx Hxw]].
  exists x. split; [exact Hx|lra].
Qed.

Lemma try_candidate_inv (c : node) (x : CCN.candidate) :
  CCN.try_candidate G (source_node fl) (destination_node fl) c = Ok x ->
  exists dl p1 p2 W,
    x = (c, dl, p1, p2)
    /\ shortest_path propagation_delay G (source_node fl) c = Ok p1
    /\ shortest_path propagation_delay G c (destination_node fl) = Ok p2
    /\ walk (g_adj G) propagation_delay (source_node fl) p1 c W /\ dl == W.
Proof.
  unfold CCN.try_candidate.
  destruct (shortest_path propagation_delay G (source_node fl) c) as [p1|] eqn:H1;
    [|discriminate].
  destruct (shortest_path propagation_delay G c (destination_node fl)) as [p2|] eqn:H2;
    [|discriminate].
  cbn [bind].
  destruct (shortest_path_walk _ _ _ _ _ _ H1) as [W Hw].
  destruct (sum_prop_walk _ _ _ _ Hw) as [dl [Hdl HW]]. rewrite Hdl. cbn [bind].
  intros H. inversion H; subst. exists dl, p1, p2, W. auto.
Qed.

Lemma shortest_path_no_path (w : edge_attrs -> Q) (s t : node) (e : exn) :
  In s (nodes net) -> In t (nodes net) ->
  shortest_path w G s t = Raise e -> e = NetworkXNoPath.
Proof.
  intros Hs Ht. unfold shortest_path.
  apply (original_nodes net Hnet), has_node_In in Hs, Ht.
  rewrite Hs, Ht. simpl.
  destruct (search w G s t) as [[? ?]|]; [discriminate|].
  intros H. now inversion H.
Qed.

Lemma try_candidate_cases (c : node) :
  In c (nodes net) ->
  (exists x, CCN.try_candidate G (source_node fl) (destination_node fl) c = Ok x)
  \/ CCN.try_candidate G (source_node fl) (destination_node fl) c = Raise NetworkXNoPath.
Proof.
  intros Hc. unfold CCN.try_candidate.
  destruct (shortest_path propagation_delay G (source_node fl) c) as [p1|e1] eqn:H1.
  - destruct (shortest_path propagation_delay G c (destination_node fl))
      as [p2|e2] eqn:H2; cbn [bind].
    + destruct (shortest_path_walk _ _ _ _ _ _ H1) as [W Hw].
      destruct (sum_prop_walk _ _ _ _ Hw) as [dl [Hdl HW]]. rewrite Hdl. cbn [bind].
      eauto.
    + right. now rewrite (shortest_path_no_path _ _ _ _ Hc (vf_dest Hfl) H2).
  - cbn [bind]. right.
    now rewrite (shortest_path_no_path _ _ _ _ (vf_source Hfl) Hc H1).
Qed.

Lemma attrs_of_adj (u v : node) (a : edge_attrs) :
  In (u, v, a) (g_adj G) -> valid_attrs a.
Proof.
  rewrite (original_adj net Hnet). apply (vn_attrs Hnet).
Qed.

(** the five sums of the forward segment add up to its forward delay *)
Lemma forward_sums (s t : node) (p : list node) (W : Q) :
  walk (g_adj G) (ucl_weight fl) s p t W ->
  forall a1 a2 a3 a4 a5, exists x1 x2 x3 x4 x5,
    sum_along G (fun a => truediv (flow_size fl) (bandwidth a)) p a1 = Ok x1
    /\ sum_along G (fun a => Ok (processing_delay a)) p a2 = Ok x2
    /\ sum_along G (fun a => Ok (queuing_delay a)) p a3 = Ok x3
    /\ sum_along G (fun a => Ok (jitter a)) p a4 = Ok x4
    /\ sum_along G (fun a => Ok (propagation_delay a)) p a5 = Ok x5
    /\ x5 + x1 + x2 + x3 + x4 == a5 + a1 + a2 + a3 + a4 + W.
Proof.
  induction 1 as [s|u v a p t W Hin Hw IH]; intros a1 a2 a3 a4 a5.
  - exists a1, a2, a3, a4, a5. repeat split. lra.
  - destruct (walk_head _ _ _ _ _ _ _ Hw) as [r Hr]. subst p.
    destruct (attrs_of_adj _ _ _ Hin) as [Hb _].
    cbn [sum_along]. unfold get_edge.
    rewrite (In_get_edge_adj _ _ _ _ _ (original_keys net Hnet) Hin).
    cbn [bind]. rewrite (truediv_pos _ _ Hb). cbn [bind].
    destruct (IH (a1 + flow_size fl / bandwidth a) (a2 + processing_delay a)
                 (a3 + queuing_delay a) (a4 + jitter a) (a5 + propagation_delay a))
      as [x1 [x2 [x3 [x4 [x5 [H1 [H2 [H3 [H4 [H5 HW]]]]]]]]]].
    exists x1, x2, x3, x4, x5. repeat split; auto.
    unfold ucl_weight. lra.
Qed.

Lemma return_sum (s t : node) (p : list node) (W : Q) :
  walk (g_adj G) (dcl_weight fl) s p t W ->
  exists x,
    sum_along G (fun a =>
                   t <- truediv (gamma fl * flow_size fl) (bandwidth a) ;;
                   Ok (propagation_delay a + processing_delay a
                       + queuing_delay a + t + jitter a)) p 0 = Ok x
    /\ x == W.
Proof.
  intros Hw.
  assert (Hf : forall u v a, In (u, v, a) (g_adj G) ->
                 exists x, (fun a => t <- truediv (gamma fl * flow_size fl) (bandwidth a) ;;
                                     Ok (propagation_delay a + processing_delay a
                                         + queuing_delay a + t + jitter a)) a = Ok x
                           /\ x == dcl_weight fl a).
  { intros u v a Hin. destruct (attrs_of_adj _ _ _ Hin) as [Hb _].
    rewrite (truediv_pos _ _ Hb). cbn [bind]. eexists. split; [reflexivity|].
    unfold dcl_weight. lra. }
  destruct (sum_along_walk _ G _ (dcl_weight fl) _ _ _ _ (original_keys net Hnet) Hf Hw 0)
    as [x [Hx Hxw]].
  exists x. split; [exact Hx|lra].
Qed.

Lemma compute_delay_ok (c : node) :
  In c (compute_nodes net) ->
  compute_delay_at (compute_capacities net) c (flow_size fl) (omega fl)
  = Ok (cl_weight net fl c).
Proof.
  intros Hc. destruct (compute_capacity net Hnet c Hc) as [q [Hq Hpos]].
  unfold compute_delay_at, caps_getitem, cl_weight, caps_get. rewrite Hq.
  cbn [bind]. now apply truediv_pos.
Qed.

(** What [find_closest_compute_node] returns, from the list of
    candidates its first loop collects. *)
Lemma ccn_main_spec :
  exists l,
    CCN.collect G (source_node fl) (destination_node fl) (compute_nodes net) [] = Ok l
    /\ (forall x, In x l <->
                  exists c, In c (compute_nodes net)
                            /\ CCN.try_candidate G (source_node fl) (destination_node fl) c
                               = Ok x)
    /\ match CCN.sort_by_key l with
       | [] => CCN.main net fl = Ok (None, Infinity, [])
       | (c, dl, p1, p2) :: _ =>
           exists W1 W2 t,
             walk (edges net) (ucl_weight fl) (source_node fl) p1 c W1
             /\ walk (edges net) (dcl_weight fl) c p2 (destination_node fl) W2
             /\ CCN.main net fl = Ok (Some c, Finite t, removelast p1 ++ p2)
             /\ t == W1 + W2 + cl_weight net fl c
       end.
Proof.
  destruct (collect_spec G (source_node fl) (destination_node fl) (compute_nodes net))
    with (acc := @nil CCN.candidate) as [l [Hl Hin]].
  { intros c Hc. apply try_candidate_cases. now apply (vn_compute Hnet). }
  exists l. split; [exact Hl|]. split.
  { intros x. rewrite Hin. simpl. tauto. }
  unfold CCN.main, CCN.find_closest_compute_node. rewrite Hl. cbn [bind].
  destruct (CCN.sort_by_key l) as [|[[[c dl] p1] p2] r] eqn:Hs; [reflexivity|].
  destruct (sort_by_key_least _ _ _ Hs) as [Hx _].
  apply Hin in Hx. destruct Hx as [[]|[c' [Hc' Hx]]].
  destruct (try_candidate_inv _ _ Hx) as [dl' [p1' [p2' [W [E [H1 [H2 [Hw HW]]]]]]]].
  inversion E; subst c' dl' p1' p2'. clear E.
  destruct (shortest_path_walk _ _ _ _ _ _ H2) as [W' Hw'].
  destruct (walk_any_weight _ _ _ (ucl_weight fl) _ _ _ _ Hw) as [W1 Hw1].
  destruct (walk_any_weight _ _ _ (dcl_weight fl) _ _ _ _ Hw') as [W2 Hw2].
  destruct (forward_sums _ _ _ _ Hw1 0 0 0 0 0)
    as [x1 [x2 [x3 [x4 [x5 [E1 [E2 [E3 [E4 [E5 HW1]]]]]]]]]].
  destruct (return_sum _ _ _ _ Hw2) as [y [Ey HW2]].
  rewrite E1, E2, E3, E4, E5. cbn [bind]. rewrite Ey. cbn [bind].
  rewrite (compute_delay_ok c Hc'). cbn [bind].
  rewrite (original_adj net Hnet) in Hw1, Hw2.
  eexists W1, W2, _. repeat split; [exact Hw1|exact Hw2|]. lra.
Qed.
End CCNFacts.

(** ** MPCN *)

Lemma max_item_In (d : capacities) (c : node) (q : Q) :
  MPCN.max_item d = Ok (c, q) -> In (c, q) d.
Proof.
  destruct d as [|x r]; simpl; [discriminate|].
  intros H. injection H as E.
  assert (Hgen : forall l b, In (fold_left (fun best y : node * Q =>
                                            if Qlt_le_dec (snd best) (snd y) then y else best)
                                         l b) (b :: l)).
  { induction l as [|y l IH]; intros b; simpl; [now left|].
    destruct (IH (if Qlt_le_dec (snd b) (snd y) then y else b)) as [H|H].
    - destruct (Qlt_le_dec (snd b) (snd y)); rewrite <- H; auto.
    - right. now right. }
  rewrite <- E. apply Hgen.
Qed.

Section MPCNFacts.
Variable net : Network.
Variable fl : FlowRequest.
Hypothesis Hnet : valid_network net.
Hypothesis Hfl : valid_flow net fl.

Local Abbreviation G := (original_graph net).

Lemma eval_weights_ok (f : edge_attrs -> result Q) (w : edge_attrs -> Q) :
  (forall u v a, In (u, v, a) (g_adj G) -> f a = Ok (w a)) ->
  MPCN.eval_weights G f
  = Ok {| g_nodes := g_nodes G;
          g_adj := map (fun e : node * node * edge_attrs =>
                          let '(u, v, d) := e in (u, v, (d, w d))) (g_adj G) |}.
Proof.
  intros Hf. unfold MPCN.eval_weights.
  rewrite (mapM_ok _ _ _ (fun e : node * node * edge_attrs =>
                            let '(u, v, d) := e in (u, v, (d, w d)))).
  - reflexivity.
  - intros [[u v] a] Hin. now rewrite (Hf _ _ _ Hin).
Qed.

Lemma forward_weight_ok (u v : node) (a : edge_attrs) :
  In (u, v, a) (g_adj G) ->
  MPCN.forward_weight (flow_size fl) a
  = Ok (propagation_delay a + processing_delay a + queuing_delay a
        + flow_size fl / bandwidth a + jitter a).
Proof.
  intros Hin. destruct (attrs_of_adj net Hnet _ _ _ Hin) as [Hb _].
  unfold MPCN.forward_weight. now rewrite (truediv_pos _ _ Hb).
Qed.

Lemma return_weight_ok (u v : node) (a : edge_attrs) :
  In (u, v, a) (g_adj G) ->
  MPCN.return_weight (flow_size fl) (gamma fl) a
  = Ok (propagation_delay a + processing_delay a + queuing_delay a
        + gamma fl * flow_size fl / bandwidth a + jitter a).
Proof.
  intros Hin. destruct (attrs_of_adj net Hnet _ _ _ Hin) as [Hb _].
  unfold MPCN.return_weight. now rewrite (truediv_pos _ _ Hb).
Qed.

Lemma mpcn_try_body_inv (c : node) (r : PathResult) :
  In c (compute_nodes net) ->
  MPCN.try_body G (source_node fl) (destination_node fl) c (compute_capacities net)
                (flow_size fl) (omega fl) (gamma fl) = Ok r ->
  exists p1 p2 W1 W2 t,
    r = (Some c, Finite t, removelast p1 ++ p2)
    /\ walk (edges net) (ucl_weight fl) (source_node fl) p1 c W1
    /\ walk (edges net) (dcl_weight fl) c p2 (destination_node fl) W2
    /\ t == W1 + W2 + cl_weight net fl c.
Proof.
  intros Hc. unfold MPCN.try_body.
  rewrite (eval_weights_ok _ _ forward_weight_ok). cbn [bind].
  match goal with |- context [shortest_path snd ?g _ _] => set (Gf := g) end.
  destruct (shortest_path snd Gf (source_node fl) c) as [p1|] eqn:H1; [|discriminate].
  cbn [bind]. rewrite (eval_weights_ok _ _ return_weight_ok). cbn [bind].
  match goal with |- context [shortest_path snd ?g c _] => set (Gr := g) end.
  destruct (shortest_path snd Gr c (destination_node fl)) as [p2|] eqn:H2; [|discriminate].
  cbn [bind].
  destruct (shortest_path_walk _ _ _ _ _ _ H1) as [A1 Hw1].
  destruct (shortest_path_walk _ _ _ _ _ _ H2) as [A2 Hw2].
  apply walk_of_map in Hw1, Hw2.
  destruct (walk_any_weight _ _ _ (ucl_weight fl) _ _ _ _ Hw1) as [W1 Hu].
  destruct (walk_any_weight _ _ _ (dcl_weight fl) _ _ _ _ Hw2) as [W2 Hd].
  assert (Hf : forall u v a, In (u, v, a) (g_adj G) ->
                 exists x, MPCN.forward_weight (flow_size fl) a = Ok x
                           /\ x == ucl_weight fl a).
  { intros u v a Hin. rewrite (forward_weight_ok _ _ _ Hin). eexists.
    split; [reflexivity|]. unfold ucl_weight. lra. }
  assert (Hr : forall u v a, In (u, v, a) (g_adj G) ->
                 exists x, MPCN.return_weight (flow_size fl) (gamma fl) a = Ok x
                           /\ x == dcl_weight fl a).
  { intros u v a Hin. rewrite (return_weight_ok _ _ _ Hin). eexists.
    split; [reflexivity|]. unfold dcl_weight. lra. }
  destruct (sum_along_walk _ G _ _ _ _ _ _ (original_keys net Hnet) Hf Hu 0)
    as [x [Hx Hxw]].
  destruct (sum_along_walk _ G _ _ _ _ _ _ (original_keys net Hnet) Hr Hd 0)
    as [y [Hy Hyw]].
  rewrite Hx. cbn [bind]. rewrite Hy. cbn [bind].
  rewrite (compute_delay_ok net fl Hnet c Hc). cbn [bind].
  intros E. inversion E; subst r.
  rewrite (original_adj net Hnet) in Hu, Hd.
  eexists p1, p2, W1, W2, _. repeat split; [exact Hu|exact Hd|]. lra.
Qed.

Lemma mpcn_main_inv (c : node) (t : Q) (path : list node) :
  MPCN.main net fl = Ok (Some c, Finite t, path) ->
  exists p1 p2 W1 W2,
    In c (compute_nodes net)
    /\ path = removelast p1 ++ p2
    /\ walk (edges net) (ucl_weight fl) (source_node fl) p1 c W1
    /\ walk (edges net) (dcl_weight fl) c p2 (destination_node fl) W2
    /\ t == W1 + W2 + cl_weight net fl c.
Proof.
  unfold MPCN.main, MPCN.find_max_capacity_compute_node.
  destruct (MPCN.max_item (compute_capacities net)) as [[m q]|] eqn:Hm; [|discriminate].
  cbn [bind fst].
  assert (Hc : In m (compute_nodes net)).
  { apply (vn_caps_keys Hnet). apply in_map_iff. exists (m, q).
    split; [reflexivity|now apply max_item_In]. }
  destruct (MPCN.try_body G (source_node fl) (destination_node fl) m
              (compute_capacities net) (flow_size fl) (omega fl) (gamma fl))
    as [r|e] eqn:Ht.
  - intros E. inversion E; subst r.
    destruct (mpcn_try_body_inv m _ Hc Ht) as [p1 [p2 [W1 [W2 [t' [Er [H1 [H2 HW]]]]]]]].
    inversion Er; subst. exists p1, p2, W1, W2. auto.
  - destruct e; discriminate.
Qed.
End MPCNFacts.

Section CCNInv.
Variable net : Network.
Variable fl : FlowRequest.
Hypothesis Hnet : valid_network net.
Hypothesis Hfl : valid_flow net fl.

Lemma ccn_main_inv (c : node) (t : Q) (path : list node) :
  CCN.main net fl = Ok (Some c, Finite t, path) ->
  exists p1 p2 W1 W2,
    In c (compute_nodes net)
    /\ path = removelast p1 ++ p2
    /\ walk (edges net) (ucl_weight fl) (source_node fl) p1 c W1
    /\ walk (edges net) (dcl_weight fl) c p2 (destination_node fl) W2
    /\ t == W1 + W2 + cl_weight net fl c.
Proof.
  intros H. destruct (ccn_main_spec net fl Hnet Hfl) as [l [Hl [Hin Hm]]].
  destruct (CCN.sort_by_key l) as [|[[[c' dl] p1] p2] r] eqn:Hs.
  - rewrite Hm in H. discriminate.
  - destruct Hm as [W1 [W2 [t' [H1 [H2 [Hr HW]]]]]].
    rewrite Hr in H. inversion H; subst.
    destruct (sort_by_key_least _ _ _ Hs) as [Hx _].
    apply Hin in Hx. destruct Hx as [c0 [Hc0 Hx]].
    destruct (try_candidate_inv net fl Hnet _ _ Hx) as [? [? [? [? [E _]]]]].
    injection E as Ec _ _ _. subst c0. exists p1, p2, W1, W2. auto.
Qed.
End CCNInv.

(** ** The routes the greedy strategies return *)

Lemma route_well_formed (net : Network) (fl : FlowRequest)
      (w1 w2 : edge_attrs -> Q) (c : node) (p1 p2 : list node) (W1 W2 : Q) :
  valid_network net -> valid_flow net fl ->
  walk (edges net) w1 (source_node fl) p1 c W1 ->
  walk (edges net) w2 c p2 (destination_node fl) W2 ->
  well_formed_path net fl (removelast p1 ++ p2).
Proof.
  intros Hnet Hfl H1 H2.
  destruct (walk_any_weight _ _ _ propagation_delay _ _ _ _ H1) as [A1 Ha1].
  destruct (walk_any_weight _ _ _ propagation_delay _ _ _ _ H2) as [A2 Ha2].
  destruct (walk_head _ _ _ _ _ _ _ Ha2) as [r2 Hr2].
  destruct (walk_last _ _ _ _ _ _ _ Ha1) as [q1 Hq1].
  assert (E : removelast p1 ++ p2 = p1 ++ r2).
  { rewrite Hq1, removelast_last, Hr2, <- app_assoc. reflexivity. }
  rewrite E. rewrite Hr2 in Ha2.
  destruct (walk_app _ _ _ _ _ _ _ _ _ _ Ha1 Ha2) as [W [Hw _]].
  destruct (walk_head _ _ _ _ _ _ _ Hw) as [r Hr].
  split; [now rewrite Hr|].
  split; [eapply walk_last; eauto|].
  split; [eapply walk_contiguous; eauto|].
  eapply walk_nodes; eauto. apply (vf_source Hfl).
Qed.

Lemma ccn_main_cases (net : Network) (fl : FlowRequest) (r : PathResult) :
  valid_network net -> valid_flow net fl ->
  CCN.main net fl = Ok r ->
  r = (None, Infinity, []) \/ exists c t path, r = (Some c, Finite t, path).
Proof.
  intros Hnet Hfl H. destruct (ccn_main_spec net fl Hnet Hfl) as [l [_ [_ Hm]]].
  destruct (CCN.sort_by_key l) as [|[[[c dl] p1] p2] rest].
  - rewrite Hm in H. inversion H. now left.
  - destruct Hm as [W1 [W2 [t [_ [_ [Hr _]]]]]]. rewrite Hr in H. inversion H.
    right. eauto.
Qed.

Lemma mpcn_main_cases (net : Network) (fl : FlowRequest) (r : PathResult) :
  valid_network net ->
  MPCN.main net fl = Ok r ->
  r = (None, Infinity, []) \/ exists c t path, r = (Some c, Finite t, path).
Proof.
  intros Hnet. unfold MPCN.main, MPCN.find_max_capacity_compute_node.
  destruct (MPCN.max_item (compute_capacities net)) as [[m q]|] eqn:Hm; [|discriminate].
  cbn [bind fst].
  assert (Hc : In m (compute_nodes net)).
  { apply (vn_caps_keys Hnet). apply in_map_iff. exists (m, q).
    split; [reflexivity|now apply max_item_In]. }
  destruct (MPCN.try_body (original_graph net) (source_node fl) (destination_node fl) m
              (compute_capacities net) (flow_size fl) (omega fl) (gamma fl))
    as [r'|e] eqn:Ht.
  - intros E. inversion E; subst r'.
    destruct (mpcn_try_body_inv net fl Hnet m _ Hc Ht) as [p1 [p2 [W1 [W2 [t [Er _]]]]]].
    right. eauto.
  - destruct e; try discriminate. intros E. inversion E. now left.
Qed.

(* ================================================================== *)
(** * 27. The replica expansion and its search                        *)
(* ================================================================== *)

Lemma mapM_flat_map_ok (A B C : Type) (f : B -> result C) (F : A -> list B)
      (H : A -> list C) (l : list A) :
  (forall i, In i l -> mapM f (F i) = Ok (H i)) ->
  mapM f (flat_map F l) = Ok (flat_map H l).
Proof.
  induction l as [|i l IH]; simpl; intros Hl; [reflexivity|].
  apply mapM_app; [apply Hl; now left|]. apply IH. intros j Hj. apply Hl. now right.
Qed.

Lemma flat_map_nodup (A B : Type) (F : A -> list B) (l : list A) :
  NoDup l ->
  (forall i, In i l -> NoDup (F i)) ->
  (forall i j x, In i l -> In j l -> In x (F i) -> In x (F j) -> i = j) ->
  NoDup (flat_map F l).
Proof.
  induction l as [|i l IH]; simpl; intros Hl Hn Hd; [constructor|].
  inversion Hl as [|y ys Hi Hl']; subst.
  apply NoDup_app.
  - apply Hn. now left.
  - apply IH; auto.
    intros a b x Ha Hb. apply Hd; now right.
  - intros x Hx Hx'. apply in_flat_map in Hx'. destruct Hx' as [j [Hj Hxj]].
    assert (i = j) by (apply (Hd i j x); auto; now right). subst j. contradiction.
Qed.

Lemma in_combine_seq (A : Type) (l : list A) (start i : nat) (x : A) :
  In (i, x) (combine (seq start (List.length l)) l) ->
  (start <= i < start + List.length l)%nat /\ In x l.
Proof.
  revert start. induction l as [|y l IH]; simpl; intros start; [contradiction|].
  intros [H|H].
  - inversion H; subst. split; [lia|now left].
  - destruct (IH _ H) as [Hr Hx]. split; [lia|now right].
Qed.

Lemma combine_seq_In (A : Type) (l : list A) (start : nat) (x : A) :
  In x l -> exists i, In (i, x) (combine (seq start (List.length l)) l).
Proof.
  revert start. induction l as [|y l IH]; simpl; intros start; [contradiction|].
  intros [H|H].
  - subst. exists start. now left.
  - destruct (IH (S start) H) as [i Hi]. exists i. now right.
Qed.

Lemma combine_seq_fst_nodup (A : Type) (l : list A) (start : nat) :
  NoDup (map fst (combine (seq start (List.length l)) l)).
Proof.
  revert start. induction l as [|y l IH]; simpl; intros start; constructor; auto.
  intros H. apply in_map_iff in H. destruct H as [[i x] [E H]]. simpl in E. subst i.
  apply in_combine_seq in H. lia.
Qed.

Section CneGraph.
Variable net : Network.
Variable fl : FlowRequest.
Hypothesis Hnet : valid_network net.

Local Abbreviation k := (List.length (compute_nodes net)).
Local Abbreviation S := (source_node fl).
Local Abbreviation D := (destination_node fl).

Lemma cne_expand_ok :
  CNE.expand_network (nodes net) (edges net) (compute_nodes net)
    (compute_capacities net) S D
  = Ok (nodes net
        ++ flat_map (fun i => map (fun n => suffix_i n i)
                                  (filter (fun n => negb (node_eqb n S)) (nodes net)))
                    (seq 1 k)
        ++ [CNE.super_dest_of D],
        map (fun e : edge => let '(u, v, a) := e in
                             (u, v, Dict (LinkDict a), "original"%string)) (edges net)
        ++ flat_map (fun i =>
                       map (fun e : edge => let '(u, v, a) := e in
                                            (suffix_i u i, suffix_i v i,
                                             Dict (LinkDict a), "copied"%string))
                           (filter (fun e => negb (touches S e)) (edges net)))
                    (seq 1 k)
        ++ map (fun ic : nat * node =>
                  let '(i, c) := ic in
                  (c, suffix_i c i,
                   Dict (CapacityDict (caps_get (compute_capacities net) c 1)),
                   "compute"%string))
               (combine (seq 1 k) (compute_nodes net))
        ++ map (fun i => (suffix_i D i, CNE.super_dest_of D, PyInt 0, "aggregate"%string))
               (seq 1 k),
        CNE.super_dest_of D).
Proof.
  unfold CNE.expand_network.
  rewrite (mapM_ok _ _ _
             (fun ic : nat * node =>
                let '(i, c) := ic in
                (c, suffix_i c i,
                 Dict (CapacityDict (caps_get (compute_capacities net) c 1)),
                 "compute"%string))).
  - cbn [bind]. now rewrite filter_touches.
  - intros [i c] Hin. apply in_combine_r in Hin.
    destruct (compute_capacity net Hnet c Hin) as [q [Hq _]].
    unfold caps_getitem, caps_get. rewrite Hq. reflexivity.
Qed.

Lemma cne_build_loop_mapM (E : list xedge) (es : list (node * node * CPEG_script.xattr))
      (G : DiGraph CPEG_script.xattr) :
  mapM (CNE_algorithm.weigh_edge (compute_capacities net) fl) E = Ok es ->
  CNE_algorithm.build_loop (compute_capacities net) fl G E = Ok (add_edges_from G es).
Proof.
  revert es G. induction E as [|[[[u v] d] l] r IH]; simpl; intros es G H.
  - inversion H. reflexivity.
  - destruct (CNE_algorithm.weight (compute_capacities net) fl u v l d) as [w|];
      [|discriminate].
    simpl in *.
    destruct (mapM (CNE_algorithm.weigh_edge (compute_capacities net) fl) r) as [ws|];
      [|discriminate].
    simpl in H. inversion H; subst. rewrite (IH ws _ eq_refl). reflexivity.
Qed.

Lemma Qle_bool_pos (q : Q) : 0 < q -> Qle_bool q 0 = false.
Proof.
  intros H. destruct (Qle_bool q 0) eqn:E; auto.
  apply Qle_bool_iff in E. lra.
Qed.

Lemma cne_build_graph_ok :
  CNE_algorithm.build_graph net fl
  = Ok (add_edges_from (empty_graph CPEG_script.xattr) (cne_adj net fl),
        CNE.super_dest_of D).
Proof.
  unfold CNE_algorithm.build_graph. rewrite cne_expand_ok. cbn [bind].
  rewrite (cne_build_loop_mapM _ (cne_adj net fl)); [reflexivity|].
  unfold cne_adj. repeat apply mapM_app.
  - apply mapM_map_ok. intros [[u v] a] Hin.
    unfold CNE_algorithm.weigh_edge, CNE_algorithm.weight. simpl.
    destruct (vn_attrs Hnet _ _ _ Hin) as [Hb _].
    now rewrite (Qle_bool_pos _ Hb).
  - apply mapM_flat_map_ok. intros i _. apply mapM_map_ok. intros [[u v] a] Hin.
    apply filter_In in Hin. destruct Hin as [Hin _].
    unfold CNE_algorithm.weigh_edge, CNE_algorithm.weight. simpl.
    destruct (vn_attrs Hnet _ _ _ Hin) as [Hb _].
    now rewrite (Qle_bool_pos _ Hb).
  - apply mapM_map_ok. intros [i c] Hin. apply in_combine_r in Hin.
    unfold CNE_algorithm.weigh_edge, CNE_algorithm.weight. simpl.
    destruct (compute_capacity net Hnet c Hin) as [q [Hq Hpos]].
    unfold cl_weight, caps_get. rewrite Hq. now rewrite (Qle_bool_pos _ Hpos).
  - apply mapM_map_ok. intros i _. reflexivity.
Qed.
End CneGraph.

Section CneKeys.
Variable net : Network.
Variable fl : FlowRequest.
Hypothesis Hnet : valid_network net.
Hypothesis Hfl : valid_flow net fl.
Hypothesis Hplain : plain_names net.

Local Abbreviation k := (List.length (compute_nodes net)).
Local Abbreviation S := (source_node fl).
Local Abbreviation D := (destination_node fl).

Lemma in_cne_original (u v : node) (x : CPEG_script.xattr) :
  In (u, v, x) (cne_original net fl) <->
  exists a, In (u, v, a) (edges net) /\ x = (forward_delay fl a, "original"%string).
Proof.
  unfold cne_original. rewrite in_map_iff. split.
  - intros [[[u' v'] a] [E Hin]]. inversion E; subst. eauto.
  - intros [a [Hin Hx]]. subst. now exists (u, v, a).
Qed.

Lemma in_cne_replica (i : nat) (u v : node) (x : CPEG_script.xattr) :
  In (u, v, x) (cne_replica net fl i) <->
  exists u0 v0 a, In (u0, v0, a) (edges net) /\ u0 <> S /\ v0 <> S
                  /\ u = suffix_i u0 i /\ v = suffix_i v0 i
                  /\ x = (return_delay fl a, "copied"%string).
Proof.
  unfold cne_replica. rewrite in_map_iff. split.
  - intros [[[u' v'] a] [E Hin]]. inversion E; subst.
    apply filter_In in Hin. destruct Hin as [Hin Hp]. exists u', v', a.
    simpl in Hp. apply negb_true_iff, orb_false_iff in Hp.
    destruct Hp as [H1 H2]. apply node_eqb_neq in H1, H2. repeat split; auto.
  - intros [u0 [v0 [a [Hin [H1 [H2 [Hu [Hv Hx]]]]]]]]. subst.
    exists (u0, v0, a). split; [reflexivity|].
    apply filter_In. split; [exact Hin|]. simpl.
    apply negb_true_iff, orb_false_iff. split; now apply node_eqb_neq.
Qed.

Lemma in_cne_copied (u v : node) (x : CPEG_script.xattr) :
  In (u, v, x) (cne_copied net fl) <->
  exists i, (1 <= i <= k)%nat /\ In (u, v, x) (cne_replica net fl i).
Proof.
  unfold cne_copied. rewrite in_flat_map. split.
  - intros [i [Hi H]]. apply in_seq in Hi. exists i. split; [lia|exact H].
  - intros [i [Hi H]]. exists i. split; [apply in_seq; lia|exact H].
Qed.

Lemma in_cne_compute (u v : node) (x : CPEG_script.xattr) :
  In (u, v, x) (cne_compute net fl) <->
  exists i, In (i, u) (combine (seq 1 k) (compute_nodes net))
            /\ v = suffix_i u i /\ x = (cl_weight net fl u, "compute"%string).
Proof.
  unfold cne_compute. rewrite in_map_iff. split.
  - intros [[i c] [E Hin]]. inversion E; subst. eauto.
  - intros [i [Hin [Hv Hx]]]. subst. now exists (i, u).
Qed.

Lemma in_cne_aggregate (u v : node) (x : CPEG_script.xattr) :
  In (u, v, x) (cne_aggregate net fl) <->
  exists i, (1 <= i <= k)%nat /\ u = suffix_i D i /\ v = CNE.super_dest_of D
            /\ x = (0, "aggregate"%string).
Proof.
  unfold cne_aggregate. rewrite in_map_iff. split.
  - intros [i [E Hi]]. inversion E; subst. apply in_seq in Hi.
    exists i. repeat split; lia.
  - intros [i [Hi [Hu [Hv Hx]]]]. subst. exists i. split; [reflexivity|].
    apply in_seq. lia.
Qed.

Lemma in_cne_adj (u v : node) (x : CPEG_script.xattr) :
  In (u, v, x) (cne_adj net fl) <->
  In (u, v, x) (cne_original net fl) \/ In (u, v, x) (cne_copied net fl)
  \/ In (u, v, x) (cne_compute net fl) \/ In (u, v, x) (cne_aggregate net fl).
Proof. unfold cne_adj. rewrite !in_app_iff. tauto. Qed.

Lemma cne_original_keys : NoDup (map edge_key (cne_original net fl)).
Proof.
  unfold cne_original. rewrite map_map.
  rewrite (map_ext _ (@edge_key edge_attrs)) by (now intros [[u v] a]).
  apply (vn_simple Hnet).
Qed.

Lemma cne_replica_keys (i : nat) : NoDup (map edge_key (cne_replica net fl i)).
Proof.
  unfold cne_replica. rewrite map_map.
  set (ki := fun kk : node * node => (suffix_i (fst kk) i, suffix_i (snd kk) i)).
  rewrite (map_ext _ (fun e : edge => ki (edge_key e))) by (now intros [[u v] a]).
  rewrite <- (map_map (@edge_key edge_attrs) ki).
  apply NoDup_map_NoDup_ForallPairs;
    [|apply keys_of_filter_nodup; apply (vn_simple Hnet)].
  intros [u v] [u' v'] Hk Hk' E. simpl in E. inversion E.
  apply in_keys in Hk, Hk'. destruct Hk as [a Ha], Hk' as [a' Ha'].
  apply filter_In in Ha, Ha'. destruct Ha as [Ha _], Ha' as [Ha' _].
  destruct (edge_plain net Hnet Hplain _ _ _ Ha).
  destruct (edge_plain net Hnet Hplain _ _ _ Ha').
  f_equal; eapply suffix_i_inj; eauto.
Qed.

Lemma cne_copied_keys : NoDup (map edge_key (cne_copied net fl)).
Proof.
  unfold cne_copied. rewrite flat_map_concat_map, concat_map, map_map.
  rewrite <- flat_map_concat_map.
  apply flat_map_nodup.
  - apply seq_NoDup.
  - intros i _. apply cne_replica_keys.
  - intros i j [u v] _ _ Hi Hj. apply in_keys in Hi, Hj.
    destruct Hi as [x Hi], Hj as [y Hj].
    apply in_cne_replica in Hi, Hj.
    destruct Hi as [u0 [v0 [a [Hin [_ [_ [Hu _]]]]]]].
    destruct Hj as [u1 [v1 [a' [Hin' [_ [_ [Hu' _]]]]]]].
    destruct (edge_plain net Hnet Hplain _ _ _ Hin) as [Hp _].
    destruct (edge_plain net Hnet Hplain _ _ _ Hin') as [Hp' _].
    rewrite Hu in Hu'. now destruct (suffix_i_inj _ _ _ _ Hp Hp' Hu').
Qed.

Lemma cne_compute_keys : NoDup (map edge_key (cne_compute net fl)).
Proof.
  unfold cne_compute. rewrite map_map.
  apply NoDup_map_NoDup_ForallPairs.
  - intros [i c] [j c'] Hi Hj E. simpl in E. inversion E; subst c'.
    apply in_combine_r in Hi.
    pose proof (compute_plain net Hnet Hplain c Hi) as Hp.
    destruct (suffix_i_inj _ _ _ _ Hp Hp H1). now subst.
  - apply (NoDup_map_inv fst). apply combine_seq_fst_nodup.
Qed.

Lemma cne_aggregate_keys : NoDup (map edge_key (cne_aggregate net fl)).
Proof.
  unfold cne_aggregate. rewrite map_map. simpl.
  apply NoDup_map_NoDup_ForallPairs; [|apply seq_NoDup].
  intros i j _ _ E. inversion E as [E'].
  pose proof (Hplain _ (vf_dest Hfl)) as Hp.
  now destruct (suffix_i_inj _ _ _ _ Hp Hp E').
Qed.

Lemma cne_keys_nodup : NoDup (map edge_key (cne_adj net fl)).
Proof.
  pose proof (Hplain _ (vf_dest Hfl)) as HpD.
  unfold cne_adj. rewrite !map_app.
  apply NoDup_app; [apply cne_original_keys| |].
  - apply NoDup_app; [apply cne_copied_keys| |].
    + apply NoDup_app; [apply cne_compute_keys|apply cne_aggregate_keys|].
      intros [u v] H1 H2. apply in_keys in H1, H2.
      destruct H1 as [x H1], H2 as [y H2].
      apply in_cne_compute in H1. apply in_cne_aggregate in H2.
      destruct H1 as [i [Hi _]]. destruct H2 as [j [_ [Hu _]]].
      apply in_combine_r in Hi.
      pose proof (compute_plain net Hnet Hplain u Hi) as Hp.
      rewrite Hu, suffix_i_marked in Hp. discriminate.
    + intros [u v] H1 H2. apply in_keys in H1. destruct H1 as [x H1].
      apply in_cne_copied in H1. destruct H1 as [i [_ H1]].
      apply in_cne_replica in H1.
      destruct H1 as [u0 [v0 [a [Hin [_ [_ [Hu [Hv _]]]]]]]].
      destruct (edge_plain net Hnet Hplain _ _ _ Hin) as [Hpu Hpv].
      apply in_app_iff in H2. destruct H2 as [H2|H2]; apply in_keys in H2;
        destruct H2 as [y H2].
      * apply in_cne_compute in H2. destruct H2 as [j [Hj _]].
        apply in_combine_r in Hj.
        pose proof (compute_plain net Hnet Hplain u Hj) as Hp.
        rewrite Hu, suffix_i_marked in Hp. discriminate.
      * apply in_cne_aggregate in H2. destruct H2 as [j [_ [_ [Hv' _]]]].
        rewrite Hv in Hv'. now apply (suffix_i_not_super _ _ _ Hpv HpD) in Hv'.
  - intros [u v] H1 H2. apply in_keys in H1. destruct H1 as [x H1].
    apply in_cne_original in H1. destruct H1 as [a [Hin _]].
    destruct (edge_plain net Hnet Hplain _ _ _ Hin) as [Hu Hv].
    rewrite !in_app_iff in H2. destruct H2 as [H2|[H2|H2]]; apply in_keys in H2;
      destruct H2 as [y H2].
    + apply in_cne_copied in H2. destruct H2 as [i [_ H2]].
      apply in_cne_replica in H2.
      destruct H2 as [u0 [v0 [a' [_ [_ [_ [Hu' _]]]]]]].
      rewrite Hu', suffix_i_marked in Hu. discriminate.
    + apply in_cne_compute in H2. destruct H2 as [i [_ [Hv' _]]].
      rewrite Hv', suffix_i_marked in Hv. discriminate.
    + apply in_cne_aggregate in H2. destruct H2 as [i [_ [Hu' _]]].
      rewrite Hu', suffix_i_marked in Hu. discriminate.
Qed.

Lemma cne_graph_adj :
  g_adj (add_edges_from (empty_graph CPEG_script.xattr) (cne_adj net fl))
  = cne_adj net fl.
Proof. rewrite add_edges_from_adj; [reflexivity|]. simpl. apply cne_keys_nodup. Qed.

Lemma cne_weights_nonneg (u v : node) (x : CPEG_script.xattr) :
  In (u, v, x) (cne_adj net fl) -> 0 <= fst x.
Proof.
  intros H. apply in_cne_adj in H. destruct H as [H|[H|[H|H]]].
  - apply in_cne_original in H. destruct H as [a [Hin Hx]]. subst x. simpl.
    rewrite forward_delay_ucl. apply (ucl_weight_nonneg net fl Hfl).
    apply (vn_attrs Hnet _ _ _ Hin).
  - apply in_cne_copied in H. destruct H as [i [_ H]]. apply in_cne_replica in H.
    destruct H as [u0 [v0 [a [Hin [_ [_ [_ [_ Hx]]]]]]]]. subst x. simpl.
    rewrite return_delay_dcl. apply (dcl_weight_nonneg net fl Hfl).
    apply (vn_attrs Hnet _ _ _ Hin).
  - apply in_cne_compute in H. destruct H as [i [Hi [_ Hx]]]. subst x. simpl.
    apply in_combine_r in Hi. now apply (cl_weight_nonneg net fl Hnet Hfl).
  - apply in_cne_aggregate in H. destruct H as [i [_ [_ [_ Hx]]]]. subst x. simpl. lra.
Qed.
End CneKeys.

(** a node of a walk other than its last has an outgoing edge *)
Lemma walk_inner_edge (A : Type) (adj : list (node * node * A)) (w : A -> Q)
      (s t x : node) (p : list node) (W : Q) :
  walk adj w s p t W -> In x p -> x <> t -> exists v a, In (x, v, a) adj.
Proof.
  induction 1 as [s|u v a p t W Hin Hw IH]; intros Hx Hne.
  - destruct Hx as [Hx|[]]. congruence.
  - destruct Hx as [Hx|Hx]; [subst; eauto|auto].
Qed.

Section Routes.
Variable net : Network.
Variable fl : FlowRequest.
Hypothesis Hnet : valid_network net.
Hypothesis Hfl : valid_flow net fl.
Hypothesis Hplain : plain_names net.

Local Abbreviation k := (List.length (compute_nodes net)).
Local Abbreviation S := (source_node fl).
Local Abbreviation D := (destination_node fl).

Lemma compute_not_source (c : node) : In c (compute_nodes net) -> c <> S.
Proof. intros Hc E. subst c. now apply (vf_source_plain Hfl). Qed.

Lemma compute_not_dest (c : node) : In c (compute_nodes net) -> c <> D.
Proof. intros Hc E. subst c. now apply (vf_dest_plain Hfl). Qed.

(** *** Walks of the layered graph are routes *)

Lemma cpeg_downstream_walk (s t : node) (p : list node) (W : Q) :
  walk (cpeg_adj net fl) fst s p t W ->
  forall x, s = suffix3 x -> no_underscore x = true -> x <> S ->
            exists y p2, t = suffix3 y /\ no_underscore y = true
                         /\ walk (edges net) (dcl_weight fl) x p2 y W
                         /\ ~ In S p2.
Proof.
  induction 1 as [s|u v a p t W Hin Hw IH]; intros x Hs Hx HxS.
  - exists x, [x]. repeat split; auto; [apply walk_nil|].
    intros [E|[]]. now elim HxS.
  - subst u. apply in_cpeg_adj in Hin. destruct Hin as [H|[H|[H|H]]].
    + apply in_ucl_edges in H. destruct H as [a0 [Hin _]].
      destruct (edge_plain net Hnet Hplain _ _ _ Hin) as [Hp _].
      rewrite suffix3_marked in Hp. discriminate.
    + apply in_ucl_cl_edges in H. destruct H as [Hc _].
      pose proof (compute_plain net Hnet Hplain _ Hc) as Hp.
      rewrite suffix3_marked in Hp. discriminate.
    + apply in_cl_dcl_edges in H. destruct H as [c [Hc [Hu _]]].
      symmetry in Hu.
      now apply (suffix2_not_suffix3 c x (compute_plain net Hnet Hplain c Hc) Hx) in Hu.
    + apply in_dcl_edges in H.
      destruct H as [u0 [v0 [a0 [Hin [Hu0 [Hv0 [Hu [Hv Ha]]]]]]]].
      destruct (edge_plain net Hnet Hplain _ _ _ Hin) as [Hpu Hpv].
      apply (suffix3_inj _ _ Hx Hpu) in Hu. subst u0 a.
      destruct (IH v0 Hv Hpv Hv0) as [y [p2 [Ht [Hy [Hw2 Hns]]]]].
      exists y, (x :: p2). repeat split; auto.
      * simpl. apply walk_cons with (v := v0) (a := a0); auto.
      * intros [E|E]; [now elim HxS|contradiction].
Qed.

Lemma cpeg_upstream_walk (s t : node) (p : list node) (W : Q) :
  walk (cpeg_adj net fl) fst s p t W ->
  no_underscore s = true -> t = suffix3 D ->
  exists c p1 p2 W1 W2,
    In c (compute_nodes net)
    /\ walk (edges net) (ucl_weight fl) s p1 c W1
    /\ ~ In D (tl p1)
    /\ walk (edges net) (dcl_weight fl) c p2 D W2
    /\ ~ In S p2
    /\ W == W1 + cl_weight net fl c + W2.
Proof.
  pose proof (Hplain _ (vf_dest Hfl)) as HpD.
  induction 1 as [s|u v a p t W Hin Hw IH]; intros Hs Ht.
  - subst s. rewrite suffix3_marked in Hs. discriminate.
  - apply in_cpeg_adj in Hin. destruct Hin as [H|[H|[H|H]]].
    + apply in_ucl_edges in H. destruct H as [a0 [Hin [HvD Ha]]]. subst a.
      destruct (edge_plain net Hnet Hplain _ _ _ Hin) as [_ Hpv].
      destruct (IH Hpv Ht) as [c [p1 [p2 [W1 [W2 [Hc [H1 [Hd [H2 [Hns HW]]]]]]]]]].
      exists c, (u :: p1), p2, (ucl_weight fl a0 + W1), W2.
      repeat split; auto.
      * apply walk_cons with (v := v) (a := a0); auto.
      * simpl. destruct (walk_head _ _ _ _ _ _ _ H1) as [r Hr]. subst p1.
        simpl in Hd. intros [E|E]; [now elim HvD|contradiction].
      * simpl. lra.
    + apply in_ucl_cl_edges in H. destruct H as [Hc [Hv Ha]]. subst v a.
      pose proof (compute_plain net Hnet Hplain u Hc) as Hpu.
      remember (suffix2 u) as m eqn:Hm.
      destruct Hw as [m|m v' a' p' t W' Hin' Hw']; subst m.
      * now apply (suffix2_not_suffix3 u D Hpu HpD) in Ht.
      * apply in_cpeg_adj in Hin'. destruct Hin' as [H|[H|[H|H]]].
        -- apply in_ucl_edges in H. destruct H as [a0 [Hin _]].
           destruct (edge_plain net Hnet Hplain _ _ _ Hin) as [Hp _].
           rewrite suffix2_marked in Hp. discriminate.
        -- apply in_ucl_cl_edges in H. destruct H as [Hc' _].
           pose proof (compute_plain net Hnet Hplain _ Hc') as Hp.
           rewrite suffix2_marked in Hp. discriminate.
        -- apply in_cl_dcl_edges in H. destruct H as [c' [Hc' [Hm [Hv' Ha']]]].
           apply (suffix2_inj _ _ Hpu (compute_plain net Hnet Hplain c' Hc')) in Hm.
           subst c' v' a'.
           destruct (cpeg_downstream_walk _ _ _ _ Hw' u eq_refl Hpu
                       (compute_not_source u Hc)) as [y [p2 [Hy [Hpy [H2 Hns]]]]].
           rewrite Ht in Hy. apply (suffix3_inj _ _ HpD Hpy) in Hy. subst y.
           exists u, [u], p2, 0, W'. repeat split; auto.
           ++ apply walk_nil.
           ++ simpl. lra.
        -- apply in_dcl_edges in H. destruct H as [u0 [v0 [a0 [Hin [_ [_ [Hm _]]]]]]].
           destruct (edge_plain net Hnet Hplain _ _ _ Hin) as [Hp _].
           now apply (suffix2_not_suffix3 u u0 Hpu Hp) in Hm.
    + apply in_cl_dcl_edges in H. destruct H as [c [_ [Hu _]]].
      subst u. rewrite suffix2_marked in Hs. discriminate.
    + apply in_dcl_edges in H. destruct H as [u0 [v0 [a0 [_ [_ [_ [Hu _]]]]]]].
      subst u. rewrite suffix3_marked in Hs. discriminate.
Qed.
End Routes.

Section ReplicaRoutes.
Variable net : Network.
Variable fl : FlowRequest.
Hypothesis Hnet : valid_network net.
Hypothesis Hfl : valid_flow net fl.
Hypothesis Hplain : plain_names net.

Local Abbreviation k := (List.length (compute_nodes net)).
Local Abbreviation S := (source_node fl).
Local Abbreviation D := (destination_node fl).
Local Abbreviation super := (CNE.super_dest_of (destination_node fl)).

(** *** Walks of the replica graph are routes *)

(** nothing leaves the super-destination *)
Lemma cne_super_sink (s t : node) (p : list node) (W : Q) :
  walk (cne_adj net fl) fst s p t W -> s = super -> p = [super] /\ t = super /\ W = 0.
Proof.
  pose proof (Hplain _ (vf_dest Hfl)) as HpD.
  destruct 1 as [s|u v a p t W Hin Hw]; intros Hs; [subst; auto|].
  exfalso. subst u. apply in_cne_adj in Hin. destruct Hin as [H|[H|[H|H]]].
  - apply (in_cne_original net fl) in H. destruct H as [a0 [Hin _]].
    destruct (edge_plain net Hnet Hplain _ _ _ Hin) as [Hp _].
    rewrite super_dest_marked in Hp. discriminate.
  - apply (in_cne_copied net fl) in H. destruct H as [i [_ H]].
    apply (in_cne_replica net fl) in H.
    destruct H as [u0 [v0 [a0 [Hin [_ [_ [Hu _]]]]]]].
    destruct (edge_plain net Hnet Hplain _ _ _ Hin) as [Hp _].
    symmetry in Hu. now apply (suffix_i_not_super _ _ _ Hp HpD) in Hu.
  - apply (in_cne_compute net fl) in H. destruct H as [i [Hi _]].
    apply in_combine_r in Hi.
    pose proof (compute_plain net Hnet Hplain _ Hi) as Hp.
    rewrite super_dest_marked in Hp. discriminate.
  - apply (in_cne_aggregate net fl) in H. destruct H as [i [_ [Hu _]]].
    symmetry in Hu. now apply (suffix_i_not_super _ _ _ HpD HpD) in Hu.
Qed.

Lemma cne_replica_walk (s t : node) (p : list node) (W : Q) :
  walk (cne_adj net fl) fst s p t W ->
  forall x i, s = suffix_i x i -> no_underscore x = true -> x <> S -> t = super ->
              exists p2 W2, walk (edges net) (return_delay fl) x p2 D W2
                            /\ ~ In S p2 /\ W == W2.
Proof.
  pose proof (Hplain _ (vf_dest Hfl)) as HpD.
  induction 1 as [s|u v a p t W Hin Hw IH]; intros x i Hs Hx HxS Ht.
  - subst s. now apply (suffix_i_not_super _ _ _ Hx HpD) in Ht.
  - subst u. apply in_cne_adj in Hin. destruct Hin as [H|[H|[H|H]]].
    + apply (in_cne_original net fl) in H. destruct H as [a0 [Hin _]].
      destruct (edge_plain net Hnet Hplain _ _ _ Hin) as [Hp _].
      rewrite suffix_i_marked in Hp. discriminate.
    + apply (in_cne_copied net fl) in H. destruct H as [j [_ H]].
      apply (in_cne_replica net fl) in H.
      destruct H as [u0 [v0 [a0 [Hin [Hu0 [Hv0 [Hu [Hv Ha]]]]]]]].
      destruct (edge_plain net Hnet Hplain _ _ _ Hin) as [Hpu Hpv].
      destruct (suffix_i_inj _ _ _ _ Hx Hpu Hu) as [E1 E2]. subst u0 j a.
      destruct (IH v0 i Hv Hpv Hv0 Ht) as [p2 [W2 [Hw2 [Hns HW]]]].
      exists (x :: p2), (return_delay fl a0 + W2).
      split; [apply walk_cons with (v := v0) (a := a0); auto|].
      split; [intros [E|E]; [now elim HxS|contradiction]|].
      simpl. lra.
    + apply (in_cne_compute net fl) in H. destruct H as [j [Hj _]].
      apply in_combine_r in Hj.
      pose proof (compute_plain net Hnet Hplain _ Hj) as Hp.
      rewrite suffix_i_marked in Hp. discriminate.
    + apply (in_cne_aggregate net fl) in H. destruct H as [j [_ [Hu [Hv Ha]]]].
      destruct (suffix_i_inj _ _ _ _ Hx HpD Hu) as [E1 E2]. subst x j a.
      destruct (cne_super_sink _ _ _ _ Hw Hv) as [_ [_ HW]]. subst W.
      exists [D], 0.
      split; [apply walk_nil|].
      split; [intros [E|[]]; now elim HxS|].
      simpl. lra.
Qed.

Lemma cne_original_walk (s t : node) (p : list node) (W : Q) :
  walk (cne_adj net fl) fst s p t W ->
  no_underscore s = true -> t = super ->
  exists c p1 p2 W1 W2,
    In c (compute_nodes net)
    /\ walk (edges net) (forward_delay fl) s p1 c W1
    /\ walk (edges net) (return_delay fl) c p2 D W2
    /\ ~ In S p2
    /\ W == W1 + cl_weight net fl c + W2.
Proof.
  induction 1 as [s|u v a p t W Hin Hw IH]; intros Hs Ht.
  - subst s. rewrite super_dest_marked in Hs. discriminate.
  - apply in_cne_adj in Hin. destruct Hin as [H|[H|[H|H]]].
    + apply (in_cne_original net fl) in H. destruct H as [a0 [Hin Ha]]. subst a.
      destruct (edge_plain net Hnet Hplain _ _ _ Hin) as [_ Hpv].
      destruct (IH Hpv Ht) as [c [p1 [p2 [W1 [W2 [Hc [H1 [H2 [Hns HW]]]]]]]]].
      exists c, (u :: p1), p2, (forward_delay fl a0 + W1), W2.
      split; [exact Hc|].
      split; [apply walk_cons with (v := v) (a := a0); auto|].
      split; [exact H2|]. split; [exact Hns|]. simpl. lra.
    + apply (in_cne_copied net fl) in H. destruct H as [i [_ H]].
      apply (in_cne_replica net fl) in H.
      destruct H as [u0 [v0 [a0 [_ [_ [_ [Hu _]]]]]]].
      subst u. rewrite suffix_i_marked in Hs. discriminate.
    + apply (in_cne_compute net fl) in H. destruct H as [i [Hi [Hv Ha]]]. subst v a.
      apply in_combine_r in Hi.
      destruct (cne_replica_walk _ _ _ _ Hw u i eq_refl Hs
                  (compute_not_source net fl Hfl u Hi) Ht) as [p2 [W2 [H2 [Hns HW]]]].
      exists u, [u], p2, 0, W2.
      split; [exact Hi|]. split; [apply walk_nil|].
      split; [exact H2|]. split; [exact Hns|]. simpl. lra.
    + apply (in_cne_aggregate net fl) in H. destruct H as [i [_ [Hu _]]].
      subst u. rewrite suffix_i_marked in Hs. discriminate.
Qed.

(** *** Routes are walks of the replica graph *)

Lemma cne_embed_forward (s t : node) (p : list node) (W : Q) :
  walk (edges net) (forward_delay fl) s p t W -> walk (cne_adj net fl) fst s p t W.
Proof.
  induction 1 as [s|u v a p t W Hin Hw IH]; [apply walk_nil|].
  apply walk_cons with (v := v) (a := (forward_delay fl a, "original"%string)); auto.
  apply in_cne_adj. left. apply (in_cne_original net fl). eauto.
Qed.

Lemma cne_embed_return (i : nat) (s t : node) (p : list node) (W : Q) :
  (1 <= i <= k)%nat ->
  walk (edges net) (return_delay fl) s p t W -> ~ In S p ->
  walk (cne_adj net fl) fst (suffix_i s i) (map (fun n => suffix_i n i) p)
       (suffix_i t i) W.
Proof.
  intros Hi. induction 1 as [s|u v a p t W Hin Hw IH]; intros Hs; [apply walk_nil|].
  destruct (walk_head _ _ _ _ _ _ _ Hw) as [r Hr]. subst p. simpl.
  apply walk_cons with (v := suffix_i v i) (a := (return_delay fl a, "copied"%string)).
  - apply in_cne_adj. right. left. apply (in_cne_copied net fl). exists i.
    split; [exact Hi|]. apply (in_cne_replica net fl). exists u, v, a.
    split; [exact Hin|].
    split; [intros E; apply Hs; left; now symmetry|].
    split; [intros E; apply Hs; right; left; now symmetry|].
    repeat split.
  - apply IH. intros H. apply Hs. now right.
Qed.

Lemma cne_embed_route (c : node) (p1 p2 : list node) (W1 W2 : Q) :
  In c (compute_nodes net) ->
  walk (edges net) (forward_delay fl) S p1 c W1 ->
  walk (edges net) (return_delay fl) c p2 D W2 ->
  ~ In S p2 ->
  exists p W, walk (cne_adj net fl) fst S p super W
              /\ W == W1 + cl_weight net fl c + W2.
Proof.
  intros Hc H1 H2 Hns.
  destruct (combine_seq_In _ (compute_nodes net) 1 c Hc) as [i Hi].
  assert (Hik : (1 <= i <= k)%nat) by (apply in_combine_seq in Hi; lia).
  pose proof (cne_embed_forward _ _ _ _ H1) as E1.
  pose proof (cne_embed_return i _ _ _ _ Hik H2 Hns) as E2.
  assert (Ea : In (suffix_i D i, super, (0, "aggregate"%string)) (cne_adj net fl)).
  { apply in_cne_adj. right. right. right. apply (in_cne_aggregate net fl). exists i. auto. }
  destruct (walk_snoc _ _ _ _ _ _ _ _ _ E2 Ea) as [Wr [Hr HWr]].
  assert (Ec : walk (cne_adj net fl) fst c
                    (c :: map (fun n => suffix_i n i) p2 ++ [super]) super
                    (cl_weight net fl c + Wr)).
  { apply walk_cons with (v := suffix_i c i)
                         (a := (cl_weight net fl c, "compute"%string)); [|exact Hr].
    apply in_cne_adj. right. right. left. apply (in_cne_compute net fl). exists i. auto. }
  destruct (walk_app _ _ _ _ _ _ _ _ _ _ E1 Ec) as [W [Hw HW]].
  eexists _, W. split; [exact Hw|]. simpl in HWr. lra.
Qed.
End ReplicaRoutes.

Section Totals.
Variable net : Network.
Variable fl : FlowRequest.
Hypothesis Hnet : valid_network net.
Hypothesis Hfl : valid_flow net fl.
Hypothesis Hplain : plain_names net.

Local Abbreviation S := (source_node fl).
Local Abbreviation D := (destination_node fl).
Local Abbreviation super := (CNE.super_dest_of (destination_node fl)).

(** the CPEG script either returns a walk of the layered graph with its
    weight, or stops at one of the two exceptions of the search *)
Lemma cpeg_run_cases :
  (exists p w W, CPEG_script.run net fl = Ok (p, w)
                 /\ walk (cpeg_adj net fl) fst S p (suffix3 D) W /\ w == W)
  \/ CPEG_script.run net fl = Raise NodeNotFound
  \/ CPEG_script.run net fl = Raise NetworkXNoPath.
Proof.
  unfold CPEG_script.run.
  rewrite (build_graph_ok net fl Hnet Hplain). cbn [bind].
  set (G := add_edges_from (empty_graph CPEG_script.xattr) (cpeg_adj net fl)).
  assert (Hadj : g_adj G = cpeg_adj net fl) by (apply cpeg_graph_adj; auto).
  change (destination_node fl ++ "_3")%string with (suffix3 D).
  unfold dijkstra_path. unfold CPEG_script.xattr in *.
  destruct (has_node G S); cbn [negb]; [|right; now left].
  destruct (search fst G S (suffix3 D)) as [[d q]|] eqn:Hs; [|right; now right].
  cbn [bind]. left.
  destruct (search_sound _ _ _ _ _ _ _ Hs) as [W [Hw HW]].
  assert (Hk : NoDup (map edge_key (g_adj G))).
  { rewrite Hadj. apply cpeg_keys_nodup; auto. }
  assert (Hf : forall u v (a : Q * string), In (u, v, a) (g_adj G) ->
                 exists x, (fun a : Q * string => Ok (fst a)) a = Ok x /\ x == fst a).
  { intros u v a _. exists (fst a). split; [reflexivity|lra]. }
  destruct (sum_along_walk _ G _ fst _ _ _ _ Hk Hf Hw 0) as [x [Hx Hxw]].
  rewrite Hx. cbn [bind]. rewrite Hadj in Hw.
  exists (rev q), x, W. split; [reflexivity|]. split; [exact Hw|lra].
Qed.

(** the search over the replica graph returns the least weight of a
    walk from the source to the super-destination, or +infinity when
    there is none *)
Lemma cne_total_cases :
  (exists w p W, CNE_algorithm.total_delay net fl = Ok (Finite w)
                 /\ walk (cne_adj net fl) fst S p super W /\ w == W
                 /\ forall p' W', walk (cne_adj net fl) fst S p' super W' -> w <= W')
  \/ (CNE_algorithm.total_delay net fl = Ok Infinity
      /\ forall p' W', ~ walk (cne_adj net fl) fst S p' super W').
Proof.
  unfold CNE_algorithm.total_delay.
  rewrite (cne_build_graph_ok net fl Hnet). cbn [bind].
  set (G := add_edges_from (empty_graph CPEG_script.xattr) (cne_adj net fl)).
  assert (Hadj : g_adj G = cne_adj net fl) by (apply cne_graph_adj; auto).
  unfold CPEG_script.xattr in *.
  assert (Hnn : forall u v (a : Q * string), In (u, v, a) (g_adj G) -> 0 <= fst a).
  { rewrite Hadj. apply (cne_weights_nonneg net fl Hnet Hfl). }
  destruct (search fst G S super) as [[d q]|] eqn:Hs.
  - left.
    destruct (search_sound _ _ _ _ _ _ _ Hs) as [W [Hw HW]].
    assert (Hk : NoDup (map edge_key (g_adj G))).
    { rewrite Hadj. apply cne_keys_nodup; auto. }
    assert (Hf : forall u v (a : Q * string), In (u, v, a) (g_adj G) ->
                   exists x, (fun a : Q * string => Ok (fst a)) a = Ok x /\ x == fst a).
    { intros u v a _. exists (fst a). split; [reflexivity|lra]. }
    destruct (sum_along_walk _ G _ fst _ _ _ _ Hk Hf Hw 0) as [x [Hx Hxw]].
    rewrite Hx. cbn [bind].
    exists x, (rev q), W. split; [reflexivity|].
    split; [now rewrite <- Hadj|]. split; [lra|].
    intros p' W' Hw'. rewrite <- Hadj in Hw'.
    destruct (search_optimal _ fst G _ _ _ _ Hnn Hw') as [d' [q' [Hs' Hd']]].
    rewrite Hs in Hs'. inversion Hs'; subst. lra.
  - right. split; [reflexivity|].
    intros p' W' Hw'. rewrite <- Hadj in Hw'.
    destruct (search_optimal _ fst G _ _ _ _ Hnn Hw') as [d' [q' [Hs' _]]].
    rewrite Hs in Hs'. discriminate.
Qed.

(** every walk of the layered graph has a walk of the replica graph of
    the same weight *)
Lemma cpeg_walk_in_cne (p : list node) (W : Q) :
  walk (cpeg_adj net fl) fst S p (suffix3 D) W ->
  exists p' W', walk (cne_adj net fl) fst S p' super W' /\ W' == W.
Proof.
  intros Hw.
  destruct (cpeg_upstream_walk net fl Hnet Hfl Hplain _ _ _ _ Hw
              (Hplain _ (vf_source Hfl)) eq_refl)
    as [c [p1 [p2 [W1 [W2 [Hc [H1 [_ [H2 [Hns HW]]]]]]]]]].
  destruct (walk_reweigh _ _ (ucl_weight fl) (forward_delay fl) _ _ _ _
              (fun u v a _ => forward_delay_ucl fl a) H1) as [F1 [Hf1 HF1]].
  destruct (walk_reweigh _ _ (dcl_weight fl) (return_delay fl) _ _ _ _
              (fun u v a _ => return_delay_dcl fl a) H2) as [R2 [Hr2 HR2]].
  destruct (cne_embed_route net fl c p1 p2 F1 R2 Hc Hf1 Hr2 Hns) as [p' [W' [Hw' HW']]].
  exists p', W'. split; [exact Hw'|lra].
Qed.

(** and conversely when no edge leaves the destination *)
Lemma cne_walk_in_cpeg (p : list node) (W : Q) :
  (forall u v a, In (u, v, a) (edges net) -> u <> D) ->
  walk (cne_adj net fl) fst S p super W ->
  exists p' W', walk (cpeg_adj net fl) fst S p' (suffix3 D) W' /\ W' == W.
Proof.
  intros Hsink Hw.
  destruct (cne_original_walk net fl Hnet Hfl Hplain _ _ _ _ Hw
              (Hplain _ (vf_source Hfl)) eq_refl)
    as [c [p1 [p2 [W1 [W2 [Hc [H1 [H2 [Hns HW]]]]]]]]].
  assert (Hnd : ~ In D (tl p1)).
  { intros Hin.
    assert (Hin' : In D p1).
    { destruct p1; [contradiction|]. now right. }
    destruct (walk_inner_edge _ _ _ _ _ _ _ _ H1 Hin') as [v [a Ha]].
    - intros E. apply (compute_not_dest net fl Hfl c Hc). now symmetry.
    - now apply (Hsink _ _ _ Ha). }
  destruct (walk_reweigh _ _ (forward_delay fl) (ucl_weight fl) _ _ _ _
              (fun u v a _ => Qeq_sym _ _ (forward_delay_ucl fl a)) H1)
    as [F1 [Hf1 HF1]].
  destruct (walk_reweigh _ _ (return_delay fl) (dcl_weight fl) _ _ _ _
              (fun u v a _ => Qeq_sym _ _ (return_delay_dcl fl a)) H2)
    as [R2 [Hr2 HR2]].
  destruct (embed_route net fl c p1 p2 F1 R2 Hc Hf1 Hnd Hr2 Hns) as [p' [W' [Hw' HW']]].
  exists p', W'. split; [exact Hw'|lra].
Qed.
End Totals.

(* ================================================================== *)
(** * 28. Delays added in the order of the code                       *)
(* ================================================================== *)

(** The three scripts add the same terms in different orders.  The
    lemmas of this section describe each total by the sums the script
    takes, in its order, and relate the search of the CPEG script to the
    running sum along any other route. *)

(** a sum over a path can be cut at any node: the second part goes on
    from the value of the first *)
Lemma sum_along_app (A : Type) (G : DiGraph A) (f : A -> result Q)
      (l : list node) (x : node) (r : list node) (acc : Q) :
  sum_along G f (l ++ x :: r) acc
  = (a <- sum_along G f (l ++ [x]) acc ;; sum_along G f (x :: r) a).
Proof.
  revert acc. induction l as [|u l IH]; intros acc.
  - reflexivity.
  - destruct l as [|h l'].
    + simpl. destruct (get_edge G u x) as [a|e]; [|reflexivity]. cbn [bind].
      destruct (f a) as [y|e]; reflexivity.
    + change ((u :: h :: l') ++ x :: r) with (u :: h :: (l' ++ x :: r)).
      change ((u :: h :: l') ++ [x]) with (u :: h :: (l' ++ [x])).
      cbn [sum_along]. destruct (get_edge G u h) as [a|e]; [|reflexivity]. cbn [bind].
      destruct (f a) as [y|e]; [|reflexivity]. cbn [bind].
      exact (IH (acc + y)).
Qed.

(** the body of the [try] of CCN's first loop, read backwards *)
Lemma try_candidate_eq (G : DiGraph edge_attrs) (s d c c' : node) (key : Q)
      (p1 p2 : list node) :
  CCN.try_candidate G s d c = Ok (c', key, p1, p2)
  <-> c' = c
      /\ shortest_path propagation_delay G s c = Ok p1
      /\ shortest_path propagation_delay G c d = Ok p2
      /\ sum_along G (fun a => Ok (propagation_delay a)) p1 0 = Ok key.
Proof.
  unfold CCN.try_candidate.
  destruct (shortest_path propagation_delay G s c) as [q1|e1]; cbn [bind].
  - destruct (shortest_path propagation_delay G c d) as [q2|e2]; cbn [bind].
    + destruct (sum_along G (fun a => Ok (propagation_delay a)) q1 0) as [k|e3] eqn:Ek;
        cbn [bind].
      * split.
        -- intros H. injection H as <- <- <- <-. auto.
        -- intros [-> [H1 [H2 H3]]]. injection H1 as <-. injection H2 as <-.
           rewrite Ek in H3. injection H3 as <-. reflexivity.
      * split; [discriminate|]. intros [_ [H1 [_ H3]]]. injection H1 as <-.
        rewrite Ek in H3. discriminate.
    + split; [discriminate|]. intros [_ [_ [H2 _]]]. discriminate.
  - split; [discriminate|]. intros [_ [H1 _]]. discriminate.
Qed.

Section RunningSums.
Variable net : Network.
Variable fl : FlowRequest.
Hypothesis Hnet : valid_network net.

Local Abbreviation G := (original_graph net).
Local Abbreviation S := (source_node fl).
Local Abbreviation D := (destination_node fl).

Lemma original_get_edge (u v : node) (a : edge_attrs) :
  In (u, v, a) (edges net) -> get_edge G u v = Ok a.
Proof.
  intros Hin. unfold get_edge.
  rewrite (In_get_edge_adj _ _ u v a (original_keys net Hnet)); [reflexivity|].
  now rewrite (original_adj net Hnet).
Qed.

(** along a walk of the network a sum of a total term exists *)
Lemma sum_along_total_walk (f w : edge_attrs -> Q) (s t : node) (p : list node) (W : Q) :
  walk (edges net) w s p t W ->
  forall acc, exists x, sum_along G (fun a => Ok (f a)) p acc = Ok x.
Proof.
  induction 1 as [s|u v a p t W Hin Hw IH]; intros acc.
  - simpl. eauto.
  - destruct (walk_head _ _ _ _ _ _ _ Hw) as [r Hr]. subst p.
    cbn [sum_along]. rewrite (original_get_edge _ _ _ Hin). cbn [bind].
    apply IH.
Qed.

(** the running sum of the CPEG script along a route exists, and as a
    rational number it is the sum of the three parts *)
Lemma cpeg_delay_exists (c : node) (p1 p2 : list node) (W1 W2 : Q) :
  walk (edges net) (ucl_weight fl) S p1 c W1 ->
  walk (edges net) (dcl_weight fl) c p2 D W2 ->
  exists W, cpeg_delay net fl c p1 p2 W /\ W == W1 + cl_weight net fl c + W2.
Proof.
  intros H1 H2. rewrite <- (original_adj net Hnet) in H1, H2.
  destruct (sum_along_walk _ G (fun a => Ok (ucl_weight fl a)) (ucl_weight fl)
              _ _ _ _ (original_keys net Hnet)
              (fun u v a _ => ex_intro _ _ (conj eq_refl (Qeq_refl _))) H1 0)
    as [up [Hup Eup]].
  destruct (sum_along_walk _ G (fun a => Ok (dcl_weight fl a)) (dcl_weight fl)
              _ _ _ _ (original_keys net Hnet)
              (fun u v a _ => ex_intro _ _ (conj eq_refl (Qeq_refl _))) H2
              (up + cl_weight net fl c + 0))
    as [W [HW EW]].
  exists W. split; [exists up; split; assumption|]. lra.
Qed.

Hypothesis Hfl : valid_flow net fl.
Hypothesis Hplain : plain_names net.

Local Abbreviation Gx :=
  (add_edges_from (empty_graph CPEG_script.xattr) (cpeg_adj net fl)).

Lemma expanded_get_edge (u v : node) (x : CPEG_script.xattr) :
  In (u, v, x) (cpeg_adj net fl) -> get_edge Gx u v = Ok x.
Proof.
  intros Hin. unfold get_edge. rewrite (cpeg_graph_adj net fl Hnet Hplain).
  now rewrite (In_get_edge_adj _ _ u v x (cpeg_keys_nodup net fl Hnet Hplain) Hin).
Qed.

(** in the upper layer the script adds the weights [d_uv] gives the
    links of the network, in path order *)
Lemma sum_along_upper (w : edge_attrs -> Q) (s t : node) (p : list node) (W : Q) :
  walk (edges net) w s p t W -> ~ In D (tl p) ->
  forall acc,
    sum_along Gx (fun a => Ok (fst a)) p acc
    = sum_along G (fun a => Ok (ucl_weight fl a)) p acc.
Proof.
  induction 1 as [s|u v a p t W Hin Hw IH]; intros Hnd acc.
  - reflexivity.
  - destruct (walk_head _ _ _ _ _ _ _ Hw) as [r Hr]. subst p.
    cbn [sum_along].
    assert (Hv : v <> D) by (intros E; apply Hnd; simpl; auto).
    rewrite (expanded_get_edge u v (ucl_weight fl a, "C-UCL"%string)).
    2:{ apply in_cpeg_adj. left. apply in_ucl_edges. eauto. }
    rewrite (original_get_edge _ _ _ Hin). cbn [bind fst].
    apply IH. intros Hd. apply Hnd. simpl. right. exact Hd.
Qed.

(** in the lower layer it adds the weights [d_uv] gives the links of
    the network between the copies *)
Lemma sum_along_lower (w : edge_attrs -> Q) (s t : node) (p : list node) (W : Q) :
  walk (edges net) w s p t W -> ~ In S p ->
  forall acc,
    sum_along Gx (fun a => Ok (fst a)) (map suffix3 p) acc
    = sum_along G (fun a => Ok (dcl_weight fl a)) p acc.
Proof.
  induction 1 as [s|u v a p t W Hin Hw IH]; intros Hns acc.
  - reflexivity.
  - destruct (walk_head _ _ _ _ _ _ _ Hw) as [r Hr]. subst p.
    change (map suffix3 (u :: v :: r)) with (suffix3 u :: suffix3 v :: map suffix3 r).
    cbn [sum_along].
    assert (Hu : u <> S) by (intros E; apply Hns; simpl; auto).
    assert (Hv : v <> S) by (intros E; apply Hns; simpl; auto).
    rewrite (expanded_get_edge (suffix3 u) (suffix3 v) (dcl_weight fl a, "C-DCL"%string)).
    2:{ apply in_cpeg_adj. right. right. right. apply in_dcl_edges.
        exists u, v, a. auto 7. }
    rewrite (original_get_edge _ _ _ Hin). cbn [bind fst].
    apply (IH (fun Hs => Hns (or_intror Hs))).
Qed.

(** the running sum of the script along the expanded path of a route
    is the sum [cpeg_delay] describes, term by term *)
Lemma sum_along_route (c : node) (p1 p2 : list node) (w1 w2 : edge_attrs -> Q)
      (W1 W2 : Q) :
  In c (compute_nodes net) ->
  walk (edges net) w1 S p1 c W1 -> ~ In D (tl p1) ->
  walk (edges net) w2 c p2 D W2 -> ~ In S p2 ->
  forall w,
    sum_along Gx (fun a => Ok (fst a)) (p1 ++ suffix2 c :: map suffix3 p2) 0 = Ok w
    <-> cpeg_delay net fl c p1 p2 w.
Proof.
  intros Hc H1 Hnd H2 Hns w.
  destruct (walk_last _ _ _ _ _ _ _ H1) as [q Hq].
  destruct (walk_head _ _ _ _ _ _ _ H2) as [r2 Hr2].
  destruct (sum_along_total_walk (ucl_weight fl) w1 _ _ _ _ H1 0) as [up Hup].
  assert (E : sum_along Gx (fun a => Ok (fst a)) (p1 ++ suffix2 c :: map suffix3 p2) 0
              = sum_along G (fun a => Ok (dcl_weight fl a)) p2
                          (up + cl_weight net fl c + 0)).
  { subst p1 p2. rewrite <- app_assoc. simpl app.
    rewrite sum_along_app.
    rewrite (sum_along_upper _ _ _ _ _ H1 Hnd 0), Hup. cbn [bind].
    change (map suffix3 (c :: r2)) with (suffix3 c :: map suffix3 r2).
    cbn [sum_along].
    rewrite (expanded_get_edge c (suffix2 c) (cl_weight net fl c, "UCL-CL"%string)).
    2:{ apply in_cpeg_adj. right. left. apply in_ucl_cl_edges. auto. }
    cbn [bind fst].
    rewrite (expanded_get_edge (suffix2 c) (suffix3 c) (0, "CL-DCL"%string)).
    2:{ apply in_cpeg_adj. right. right. left. apply in_cl_dcl_edges. exists c. auto. }
    cbn [bind fst].
    change (suffix3 c :: map suffix3 r2) with (map suffix3 (c :: r2)).
    apply (sum_along_lower _ _ _ _ _ H2 Hns). }
  rewrite E. unfold cpeg_delay. split.
  - intros Hw. exists up. auto.
  - intros [up' [Hup' Hw]]. rewrite Hup in Hup'. injection Hup' as <-. exact Hw.
Qed.

(** the search of the script is not beaten by the running sum along
    any route the layered graph can express *)
Lemma cpeg_run_le_delay (c : node) (p1 p2 : list node) (W1 W2 W : Q) :
  In c (compute_nodes net) ->
  walk (edges net) (ucl_weight fl) S p1 c W1 -> ~ In D (tl p1) ->
  walk (edges net) (dcl_weight fl) c p2 D W2 -> ~ In S p2 ->
  cpeg_delay net fl c p1 p2 W ->
  exists q w, CPEG_script.run net fl = Ok (q, w) /\ w <= W.
Proof.
  intros Hc H1 Hnd H2 Hns HW.
  destruct (embed_route net fl c p1 p2 W1 W2 Hc H1 Hnd H2 Hns) as [p [Wx [Hw HWx]]].
  destruct (cpeg_run_optimal net fl Hnet Hfl Hplain p Wx Hw) as [q [w [Hr Hle]]].
  destruct (cpeg_delay_exists c p1 p2 W1 W2 H1 H2) as [W' [[up' [Hu' Hd']] HW']].
  destruct HW as [up [Hu Hd]]. rewrite Hu in Hu'. injection Hu' as <-.
  rewrite Hd in Hd'. injection Hd' as <-.
  exists q, w. split; [exact Hr|lra].
Qed.

(** the delay the script prints is the running sum along the path it
    prints *)
Lemma cpeg_run_sum (p : list node) (w : Q) :
  CPEG_script.run net fl = Ok (p, w) ->
  sum_along Gx (fun a => Ok (fst a)) p 0 = Ok w.
Proof.
  unfold CPEG_script.run. rewrite (build_graph_ok net fl Hnet Hplain). cbn [bind].
  destruct (dijkstra_path fst Gx S (D ++ "_3")%string) as [q|e]; [|discriminate].
  cbn [bind].
  destruct (sum_along Gx (fun a => Ok (fst a)) q 0) as [x|e] eqn:Ex; [|discriminate].
  cbn [bind]. intros H. injection H as <- <-. exact Ex.
Qed.

(** what CCN returns, with the sums it takes *)
Lemma ccn_main_route (c : node) (t : Q) (path : list node) :
  CCN.main net fl = Ok (Some c, Finite t, path) ->
  exists l key p1 p2 rest W1 W2,
    CCN.collect G S D (compute_nodes net) [] = Ok l
    /\ CCN.sort_by_key l = (c, key, p1, p2) :: rest
    /\ In c (compute_nodes net)
    /\ CCN.try_candidate G S D c = Ok (c, key, p1, p2)
    /\ path = removelast p1 ++ p2
    /\ walk (edges net) (ucl_weight fl) S p1 c W1
    /\ walk (edges net) (dcl_weight fl) c p2 D W2
    /\ ccn_delay net fl c p1 p2 t.
Proof.
  intros H.
  destruct (collect_spec G S D (compute_nodes net)) with (acc := @nil CCN.candidate)
    as [l [Hl Hin]].
  { intros c' Hc'. apply (try_candidate_cases net fl Hnet Hfl).
    now apply (vn_compute Hnet). }
  unfold CCN.main, CCN.find_closest_compute_node in H. rewrite Hl in H. cbn [bind] in H.
  destruct (CCN.sort_by_key l) as [|[[[c' key] p1] p2] rest] eqn:Hs; [discriminate|].
  destruct (sort_by_key_least _ _ _ Hs) as [Hx _].
  apply Hin in Hx. destruct Hx as [[]|[c1 [Hc1 Hx]]].
  destruct (try_candidate_inv net fl Hnet _ _ Hx)
    as [dl' [p1' [p2' [W [E [Hs1 [Hs2 [Hw HW]]]]]]]].
  injection E as Ec Ed Ep1 Ep2. subst c1 dl' p1' p2'.
  destruct (shortest_path_walk _ _ _ _ _ _ Hs2) as [W' Hw'].
  destruct (walk_any_weight _ _ _ (ucl_weight fl) _ _ _ _ Hw) as [W1 Hw1].
  destruct (walk_any_weight _ _ _ (dcl_weight fl) _ _ _ _ Hw') as [W2 Hw2].
  destruct (forward_sums net fl Hnet _ _ _ _ Hw1 0 0 0 0 0)
    as [x1 [x2 [x3 [x4 [x5 [E1 [E2 [E3 [E4 [E5 _]]]]]]]]]].
  destruct (return_sum net fl Hnet _ _ _ _ Hw2) as [y [Ey _]].
  rewrite E1, E2, E3, E4, E5 in H. cbn [bind] in H. rewrite Ey in H. cbn [bind] in H.
  pose proof (compute_delay_ok net fl Hnet c' Hc1) as Ecd.
  rewrite Ecd in H. cbn [bind] in H.
  injection H as Ec Et Ep. subst c'.
  rewrite (original_adj net Hnet) in Hw1, Hw2.
  exists l, key, p1, p2, rest, W1, W2.
  repeat (split; [first [assumption|reflexivity|now symmetry]|]).
  exists x1, x2, x3, x4, x5, y, (cl_weight net fl c).
  repeat (split; [assumption|]). now symmetry.
Qed.

(** what MPCN returns, with the sums it takes *)
Lemma mpcn_main_route (c : node) (t : Q) (path : list node) :
  MPCN.main net fl = Ok (Some c, Finite t, path) ->
  exists cap Gf Gr p1 p2 W1 W2,
    MPCN.max_item (compute_capacities net) = Ok (c, cap)
    /\ In c (compute_nodes net)
    /\ MPCN.eval_weights G (MPCN.forward_weight (flow_size fl)) = Ok Gf
    /\ shortest_path snd Gf S c = Ok p1
    /\ MPCN.eval_weights G (MPCN.return_weight (flow_size fl) (gamma fl)) = Ok Gr
    /\ shortest_path snd Gr c D = Ok p2
    /\ path = removelast p1 ++ p2
    /\ walk (edges net) (ucl_weight fl) S p1 c W1
    /\ walk (edges net) (dcl_weight fl) c p2 D W2
    /\ mpcn_delay net fl c p1 p2 t.
Proof.
  unfold MPCN.main, MPCN.find_max_capacity_compute_node.
  destruct (MPCN.max_item (compute_capacities net)) as [[m q]|] eqn:Hm; [|discriminate].
  cbn [bind fst].
  assert (Hc : In m (compute_nodes net)).
  { apply (vn_caps_keys Hnet). apply in_map_iff. exists (m, q).
    split; [reflexivity|now apply max_item_In]. }
  intros H.
  assert (Ht : MPCN.try_body G S D m (compute_capacities net) (flow_size fl) (omega fl)
                             (gamma fl) = Ok (Some c, Finite t, path)).
  { destruct (MPCN.try_body G S D m (compute_capacities net) (flow_size fl) (omega fl)
                            (gamma fl)) as [r|e]; [exact H|destruct e; discriminate]. }
  clear H. unfold MPCN.try_body in Ht.
  pose proof (eval_weights_ok net _ _ (forward_weight_ok net fl Hnet)) as Ef.
  pose proof (eval_weights_ok net _ _ (return_weight_ok net fl Hnet)) as Er.
  rewrite Ef in Ht. cbn [bind] in Ht.
  match type of Ef with _ = Ok ?g => set (Gf := g) in * end.
  destruct (shortest_path snd Gf S m) as [p1|] eqn:H1; [|discriminate].
  cbn [bind] in Ht. rewrite Er in Ht. cbn [bind] in Ht.
  match type of Er with _ = Ok ?g => set (Gr := g) in * end.
  destruct (shortest_path snd Gr m D) as [p2|] eqn:H2; [|discriminate].
  cbn [bind] in Ht.
  destruct (shortest_path_walk _ _ _ _ _ _ H1) as [A1 Hw1].
  destruct (shortest_path_walk _ _ _ _ _ _ H2) as [A2 Hw2].
  apply walk_of_map in Hw1, Hw2.
  destruct (walk_any_weight _ _ _ (ucl_weight fl) _ _ _ _ Hw1) as [W1 Hu].
  destruct (walk_any_weight _ _ _ (dcl_weight fl) _ _ _ _ Hw2) as [W2 Hd].
  assert (Hf : forall u v a, In (u, v, a) (g_adj G) ->
                 exists x, MPCN.forward_weight (flow_size fl) a = Ok x
                           /\ x == ucl_weight fl a).
  { intros u v a Hin. rewrite (forward_weight_ok net fl Hnet _ _ _ Hin). eexists.
    split; [reflexivity|]. unfold ucl_weight. lra. }
  assert (Hr : forall u v a, In (u, v, a) (g_adj G) ->
                 exists x, MPCN.return_weight (flow_size fl) (gamma fl) a = Ok x
                           /\ x == dcl_weight fl a).
  { intros u v a Hin. rewrite (return_weight_ok net fl Hnet _ _ _ Hin). eexists.
    split; [reflexivity|]. unfold dcl_weight. lra. }
  destruct (sum_along_walk _ G _ _ _ _ _ _ (original_keys net Hnet) Hf Hu 0)
    as [x [Hx _]].
  destruct (sum_along_walk _ G _ _ _ _ _ _ (original_keys net Hnet) Hr Hd 0)
    as [y [Hy _]].
  rewrite Hx in Ht. cbn [bind] in Ht. rewrite Hy in Ht. cbn [bind] in Ht.
  pose proof (compute_delay_ok net fl Hnet m Hc) as Ecd.
  rewrite Ecd in Ht. cbn [bind] in Ht.
  injection Ht as Ec Et Ep. subst m.
  rewrite (original_adj net Hnet) in Hu, Hd.
  exists q, Gf, Gr, p1, p2, W1, W2.
  repeat (split; [first [assumption|reflexivity|now symmetry]|]).
  exists x, y, (cl_weight net fl c).
  repeat (split; [assumption|]). now symmetry.
Qed.
End RunningSums.

(* ================================================================== *)
(** * 29. The claims                                                  *)
(* ================================================================== *)

(** Validity of a concrete network is checked by enumeration. *)
Ltac in_cases H :=
  simpl in H;
  repeat match type of H with
         | _ \/ _ => destruct H as [H|H]
         | False => contradiction
         end.

Ltac nodup_dec :=
  repeat (constructor; [simpl; intros Hnd;
                        repeat (destruct Hnd as [Hnd|Hnd]; [discriminate|]);
                        exact Hnd|]);
  try constructor.

Ltac valid_network_tac :=
  constructor;
  [ intros u v a H; in_cases H; inversion H; subst; simpl; auto 10
  | intros u v a H; in_cases H; inversion H; subst;
    unfold valid_attrs; simpl; repeat split; lra
  | simpl; nodup_dec
  | intros c H; in_cases H; subst; simpl; auto 10
  | simpl; nodup_dec
  | intros c; simpl; tauto
  | simpl; nodup_dec
  | intros c q H; in_cases H; inversion H; subst; lra ].

Ltac valid_flow_tac :=
  constructor;
  [ simpl; auto 10 | simpl; auto 10
  | simpl; intros H; in_cases H; discriminate
  | simpl; intros H; in_cases H; discriminate
  | simpl; lra | simpl; lra | simpl; lra ].

Ltac plain_names_tac :=
  intros n H; in_cases H; subst; reflexivity.

Lemma net_diamond_valid : valid_network net_diamond.
Proof. valid_network_tac. Qed.

Lemma fl_diamond_valid : valid_flow net_diamond fl_diamond.
Proof. valid_flow_tac. Qed.

Lemma net_diamond_plain : plain_names net_diamond.
Proof. plain_names_tac. Qed.

Lemma net_detour_valid : valid_network net_detour.
Proof. valid_network_tac. Qed.

Lemma fl_detour_valid : valid_flow net_detour fl_detour.
Proof. valid_flow_tac. Qed.

Lemma net_detour_plain : plain_names net_detour.
Proof. plain_names_tac. Qed.

(** A route that meets source and destination at its ends only has a
    forward part that stays away from the destination and a return part
    that stays away from the source. *)
Lemma ends_once_split (A : Type) (adj : list (node * node * A)) (w1 w2 : A -> Q)
      (s d c : node) (p1 p2 : list node) (W1 W2 : Q) :
  walk adj w1 s p1 c W1 -> walk adj w2 c p2 d W2 ->
  c <> s -> c <> d ->
  count_occ string_dec (removelast p1 ++ p2) s = 1%nat ->
  count_occ string_dec (removelast p1 ++ p2) d = 1%nat ->
  ~ In d (tl p1) /\ ~ In s p2.
Proof.
  intros H1 H2 Hcs Hcd Hs Hd.
  destruct (walk_head _ _ _ _ _ _ _ H1) as [r1 Hr1].
  destruct (walk_last _ _ _ _ _ _ _ H1) as [q1 Hq1].
  destruct (walk_last _ _ _ _ _ _ _ H2) as [q2 Hq2].
  assert (Hrl : removelast p1 = q1) by (rewrite Hq1; apply removelast_last).
  rewrite Hrl in Hs, Hd. rewrite count_occ_app in Hs, Hd.
  assert (Hq1s : exists q1', q1 = s :: q1').
  { destruct q1 as [|x q1']; rewrite Hq1 in Hr1; simpl in Hr1; inversion Hr1; subst.
    - now elim Hcs.
    - eauto. }
  destruct Hq1s as [q1' Hq1'].
  assert (Hs1 : (count_occ string_dec q1 s >= 1)%nat).
  { rewrite Hq1'. simpl. destruct (string_dec s s); [lia|contradiction]. }
  assert (Hd2 : (count_occ string_dec p2 d >= 1)%nat).
  { apply count_occ_In. rewrite Hq2. apply in_or_app. right. now left. }
  split.
  - intros Hin. assert (Hin' : In d q1).
    { rewrite Hq1 in Hin. rewrite Hq1' in Hin. simpl in Hin.
      apply in_app_or in Hin. destruct Hin as [Hin|[Hin|[]]].
      - rewrite Hq1'. now right.
      - now elim Hcd. }
    apply (count_occ_In string_dec) in Hin'. unfold node in *. lia.
  - intros Hin. apply (count_occ_In string_dec) in Hin. unfold node in *. lia.
Qed.

(** C1 (amended). On a valid network with underscore-free node names,
    whenever CCN, respectively MPCN, returns a route that meets the source
    and the destination at its two ends only (a forward path [p1] to the
    compute node [c], a return path [p2] from it), the CPEG script
    returns a path, and its total delay is at most the delay of that
    greedy route as the CPEG script adds it up: the weights [d_uv] gives
    the links of [p1], the compute step of [c] and the links of [p2], in
    one running sum along the route.  The total the greedy strategy
    reports is made of the same terms added in another order
    ([ccn_delay], [mpcn_delay]); the two orders give the same rational
    number, and in double precision values that can differ in the last
    digit, so the statement compares the search with the running sum
    and not with the reported total. *)
Theorem cpeg_le_greedy (net : Network) (fl : FlowRequest) :
  valid_network net -> valid_flow net fl -> plain_names net ->
  (forall c t path,
      CCN.main net fl = Ok (Some c, Finite t, path) ->
      visits_ends_once fl path ->
      exists p1 p2 W q w,
        path = removelast p1 ++ p2
        /\ leads net (source_node fl) p1 c /\ leads net c p2 (destination_node fl)
        /\ ccn_delay net fl c p1 p2 t
        /\ cpeg_delay net fl c p1 p2 W
        /\ CPEG_script.run net fl = Ok (q, w) /\ w <= W)
  /\ (forall c t path,
         MPCN.main net fl = Ok (Some c, Finite t, path) ->
         visits_ends_once fl path ->
         exists p1 p2 W q w,
           path = removelast p1 ++ p2
           /\ leads net (source_node fl) p1 c /\ leads net c p2 (destination_node fl)
           /\ mpcn_delay net fl c p1 p2 t
           /\ cpeg_delay net fl c p1 p2 W
           /\ CPEG_script.run net fl = Ok (q, w) /\ w <= W).
Proof.
  intros Hnet Hfl Hplain.
  assert (Hroute : forall c path p1 p2 W1 W2,
             In c (compute_nodes net) ->
             path = removelast p1 ++ p2 ->
             walk (edges net) (ucl_weight fl) (source_node fl) p1 c W1 ->
             walk (edges net) (dcl_weight fl) c p2 (destination_node fl) W2 ->
             visits_ends_once fl path ->
             leads net (source_node fl) p1 c /\ leads net c p2 (destination_node fl)
             /\ exists W q w, cpeg_delay net fl c p1 p2 W
                              /\ CPEG_script.run net fl = Ok (q, w) /\ w <= W).
  { intros c path p1 p2 W1 W2 Hc Hp H1 H2 [Hs Hd]. subst path.
    assert (Hcs : c <> source_node fl).
    { intros E. subst c. now apply (vf_source_plain Hfl). }
    assert (Hcd : c <> destination_node fl).
    { intros E. subst c. now apply (vf_dest_plain Hfl). }
    destruct (ends_once_split _ _ _ _ _ _ _ _ _ _ _ H1 H2 Hcs Hcd Hs Hd) as [Hnd Hns].
    split; [exact (walk_any_weight _ _ _ (fun _ => 0) _ _ _ _ H1)|].
    split; [exact (walk_any_weight _ _ _ (fun _ => 0) _ _ _ _ H2)|].
    destruct (cpeg_delay_exists net fl Hnet c p1 p2 W1 W2 H1 H2) as [W [HW _]].
    destruct (cpeg_run_le_delay net fl Hnet Hfl Hplain c p1 p2 W1 W2 W Hc H1 Hnd H2 Hns HW)
      as [q [w [Hr Hle]]].
    exists W, q, w. auto. }
  split; intros c t path Hm Hv.
  - destruct (ccn_main_route net fl Hnet Hfl c t path Hm)
      as [l [key [p1 [p2 [rest [W1 [W2 [_ [_ [Hc [_ [Hp [H1 [H2 Hd]]]]]]]]]]]]]].
    destruct (Hroute c path p1 p2 W1 W2 Hc Hp H1 H2 Hv)
      as [L1 [L2 [W [q [w [HW [Hr Hle]]]]]]].
    exists p1, p2, W, q, w. auto 8.
  - destruct (mpcn_main_route net fl Hnet c t path Hm)
      as [cap [Gf [Gr [p1 [p2 [W1 [W2 [_ [Hc [_ [_ [_ [_ [Hp [H1 [H2 Hd]]]]]]]]]]]]]]]].
    destruct (Hroute c path p1 p2 W1 W2 Hc Hp H1 H2 Hv)
      as [L1 [L2 [W [q [w [HW [Hr Hle]]]]]]].
    exists p1, p2, W, q, w. auto 8.
Qed.

Lemma cpeg_le_greedy_witness :
  exists t1 t2 p1 p2 p1' p2' W W' q w,
    CCN.main net_diamond fl_diamond = Ok (Some "B"%string, Finite t1, ["A"; "B"; "D"]%string)
    /\ MPCN.main net_diamond fl_diamond
       = Ok (Some "C"%string, Finite t2, ["A"; "C"; "D"]%string)
    /\ ccn_delay net_diamond fl_diamond "B"%string p1 p2 t1
    /\ cpeg_delay net_diamond fl_diamond "B"%string p1 p2 W
    /\ mpcn_delay net_diamond fl_diamond "C"%string p1' p2' t2
    /\ cpeg_delay net_diamond fl_diamond "C"%string p1' p2' W'
    /\ CPEG_script.run net_diamond fl_diamond = Ok (q, w) /\ w <= W /\ w <= W'.
Proof.
  destruct (cpeg_le_greedy net_diamond fl_diamond net_diamond_valid fl_diamond_valid
                           net_diamond_plain) as [Hccn Hmpcn].
  assert (H1 : exists t, CCN.main net_diamond fl_diamond
                         = Ok (Some "B"%string, Finite t, ["A"; "B"; "D"]%string))
    by (eexists; vm_compute; reflexivity).
  assert (H2 : exists t, MPCN.main net_diamond fl_diamond
                         = Ok (Some "C"%string, Finite t, ["A"; "C"; "D"]%string))
    by (eexists; vm_compute; reflexivity).
  destruct H1 as [t1 H1], H2 as [t2 H2].
  assert (V1 : visits_ends_once fl_diamond ["A"; "B"; "D"]%string) by (split; reflexivity).
  assert (V2 : visits_ends_once fl_diamond ["A"; "C"; "D"]%string) by (split; reflexivity).
  destruct (Hccn _ _ _ H1 V1) as [p1 [p2 [W [q [w [_ [_ [_ [Hd [HW [Hr Hw]]]]]]]]]]].
  destruct (Hmpcn _ _ _ H2 V2) as [p1' [p2' [W' [q' [w' [_ [_ [_ [Hd' [HW' [Hr' Hw']]]]]]]]]]].
  rewrite Hr in Hr'. injection Hr' as Eq Ew. subst q' w'.
  exists t1, t2, p1, p2, p1', p2', W, W', q, w. auto 10.
Defined.

(** C1 as stated fails: on [net_detour] both greedy strategies reach the
    compute node through the destination, which layer U of the expanded
    graph forbids, and the CPEG script returns a larger total delay. *)
Lemma cpeg_exceeds_greedy_on_detour :
  valid_network net_detour /\ valid_flow net_detour fl_detour
  /\ exists w t1 t2 p q1 q2,
      CPEG_script.run net_detour fl_detour = Ok (p, w)
      /\ CCN.main net_detour fl_detour = Ok (Some "C"%string, Finite t1, q1)
      /\ MPCN.main net_detour fl_detour = Ok (Some "C"%string, Finite t2, q2)
      /\ t1 < w /\ t2 < w.
Proof.
  split; [exact net_detour_valid|]. split; [exact fl_detour_valid|].
  eexists _, _, _, _, _, _.
  split; [vm_compute; reflexivity|].
  split; [vm_compute; reflexivity|].
  split; [vm_compute; reflexivity|].
  split; vm_compute; reflexivity.
Qed.

(** The order of the additions shows in double precision.  Along the
    route of [net_diamond] through [C], which MPCN returns, the total of
    MPCN and the running sum of the CPEG script are the same rational
    number; computed in binary64, with the operations of each script in
    its order, the first is 2.52 and the second 2.5200000000000005. *)
Lemma rounding_separates_cpeg_from_mpcn :
  (exists t W,
      MPCN.main net_diamond fl_diamond
      = Ok (Some "C"%string, Finite t, ["A"; "C"; "D"]%string)
      /\ cpeg_delay net_diamond fl_diamond "C"%string ["A"; "C"]%string
                    ["C"; "D"]%string W
      /\ t == W)
  /\ PrimFloat.ltb
       (Double.mpcn_total Double.flow_100 Double.gamma_2 Double.omega_10 Double.capacity_C
                          [Double.link_diamond] [Double.link_diamond])
       (Double.cpeg_total Double.flow_100 Double.gamma_2 Double.omega_10 Double.capacity_C
                          [Double.link_diamond] [Double.link_diamond])
     = true.
Proof.
  split; [|vm_compute; reflexivity].
  eexists _, _. split; [vm_compute; reflexivity|]. split.
  - eexists. split; vm_compute; reflexivity.
  - vm_compute. reflexivity.
Qed.

Lemma mapM_In (A B : Type) (f : A -> result B) (l : list A) (r : list B) :
  mapM f l = Ok r -> forall y, In y r -> exists x, In x l /\ f x = Ok y.
Proof.
  revert r. induction l as [|x l IH]; simpl; intros r H y Hy.
  - inversion H; subst. contradiction.
  - destruct (f x) as [z|] eqn:Hz; [|discriminate]. simpl in H.
    destruct (mapM f l) as [zs|]; [|discriminate]. simpl in H.
    inversion H; subst. destruct Hy as [Hy|Hy].
    + subst. exists x. auto.
    + destruct (IH zs eq_refl y Hy) as [x' [Hx' Hf]]. exists x'. auto.
Qed.

(** the layer tags of the replica expansion *)
Lemma cne_layers (ns : list node) (es : list edge) (cs : list node) (caps : capacities)
      (S D : node) (V : list node) (E : list xedge) (sd : node) :
  CNE.expand_network ns es cs caps S D = Ok (V, E, sd) ->
  forall u v data layer,
    In (u, v, data, layer) E ->
    layer = "original"%string \/ layer = "copied"%string
    \/ layer = "compute"%string \/ layer = "aggregate"%string.
Proof.
  unfold CNE.expand_network. intros H u v data layer Hin.
  match type of H with
  | bind (mapM ?f ?l) _ = _ => destruct (mapM f l) as [cmp|] eqn:Hc; [|discriminate]
  end.
  cbn [bind] in H. inversion H; subst. clear H.
  rewrite !in_app_iff in Hin. destruct Hin as [Hin|[Hin|[Hin|Hin]]].
  - apply in_map_iff in Hin. destruct Hin as [[[u' v'] a] [E _]]. inversion E. auto.
  - apply in_flat_map in Hin. destruct Hin as [i [_ Hin]].
    apply in_map_iff in Hin. destruct Hin as [[[u' v'] a] [E _]]. inversion E. auto.
  - destruct (mapM_In _ _ _ _ _ Hc _ Hin) as [[i c] [_ Hf]].
    destruct (caps_getitem caps c); [|discriminate]. inversion Hf. auto.
  - apply in_map_iff in Hin. destruct Hin as [i [E _]]. inversion E. auto 6.
Qed.

(** C10. [d_uv] never fails on such edges: it returns 0 for every payload
    that is not a dict, whatever the layer tag, and for every dict payload
    whose layer tag is none of C-UCL, C-DCL, UCL-CL and CL-DCL; in
    particular it returns 0 on every edge the replica expansion of CNE
    produces.  The copy of [d_uv] in [LP_in_CPEG.py] behaves the same. *)
Theorem d_uv_defaults_to_zero (caps : capacities) (f g o : Q) (u v : node)
        (layer : string) :
  (forall n, CPEG_algorithm.d_uv caps f g o u v layer (PyInt n) = Ok 0
             /\ LP_in_CPEG.d_uv caps f g o u v layer (PyInt n) = Ok 0)
  /\ (layer <> "C-UCL"%string -> layer <> "C-DCL"%string ->
      layer <> "UCL-CL"%string -> layer <> "CL-DCL"%string ->
      forall data, CPEG_algorithm.d_uv caps f g o u v layer data = Ok 0
                   /\ LP_in_CPEG.d_uv caps f g o u v layer data = Ok 0)
  /\ (forall ns es cs caps' S D V E sd data,
         CNE.expand_network ns es cs caps' S D = Ok (V, E, sd) ->
         In (u, v, data, layer) E ->
         CPEG_algorithm.d_uv caps f g o u v layer data = Ok 0
         /\ LP_in_CPEG.d_uv caps f g o u v layer data = Ok 0).
Proof.
  unfold CPEG_algorithm.d_uv, LP_in_CPEG.d_uv.
  assert (Hother : layer <> "C-UCL"%string -> layer <> "C-DCL"%string ->
                   layer <> "UCL-CL"%string -> layer <> "CL-DCL"%string ->
                   forall data, d_uv_body caps f g o u v layer data = Ok 0).
  { intros H1 H2 H3 H4 data. unfold d_uv_body. destruct data as [d|n]; [|reflexivity].
    apply String.eqb_neq in H1, H2, H3, H4. now rewrite H1, H2, H3, H4. }
  split; [|split].
  - intros n. split; reflexivity.
  - intros H1 H2 H3 H4 data. split; apply Hother; auto.
  - intros ns es cs caps' S D V E sd data H Hin.
    destruct (cne_layers _ _ _ _ _ _ _ _ _ H _ _ _ _ Hin) as [L|[L|[L|L]]]; subst layer;
      split; apply Hother; discriminate.
Qed.

Lemma d_uv_defaults_to_zero_witness :
  CPEG_algorithm.d_uv [] 100 2 10 "A"%string "B"%string "copied"
                      (Dict (LinkDict (mk_attrs 1000 1 (1 # 10) 0 0))) = Ok 0
  /\ LP_in_CPEG.d_uv [] 100 2 10 "A"%string "B"%string "copied"
                     (Dict (LinkDict (mk_attrs 1000 1 (1 # 10) 0 0))) = Ok 0.
Proof.
  destruct (d_uv_defaults_to_zero [] 100 2 10 "A"%string "B"%string "copied"%string)
    as [_ [H _]].
  apply H; discriminate.
Defined.

(** C5 (amended). For a node [c] without underscore in its name:
    when the capacity dict has an entry [q] for [c] that is not zero, the
    compute delay of the greedy strategies and the weight [d_uv] gives the
    compute edge of [c] are both exactly [omega * flow_size / q] (also
    for a negative [q]), which is 1 when [q = flow_size * omega]; an entry
    of zero raises [ZeroDivisionError] in both; a missing entry raises
    [KeyError] in the greedy strategies, while [d_uv] takes the capacity
    to be 1. *)
Theorem compute_delay_cases (caps : capacities) (c : node) (f g o : Q) (d : attr_dict) :
  no_underscore c = true ->
  match caps_lookup caps c with
  | None =>
      compute_delay_at caps c f o = Raise KeyError
      /\ CPEG_algorithm.d_uv caps f g o c (suffix2 c) "UCL-CL" (Dict d) = Ok (o * f / 1)
  | Some q =>
      if Qeq_bool q 0
      then compute_delay_at caps c f o = Raise ZeroDivisionError
           /\ CPEG_algorithm.d_uv caps f g o c (suffix2 c) "UCL-CL" (Dict d)
              = Raise ZeroDivisionError
      else compute_delay_at caps c f o = Ok (o * f / q)
           /\ CPEG_algorithm.d_uv caps f g o c (suffix2 c) "UCL-CL" (Dict d)
              = Ok (o * f / q)
           /\ (q == f * o -> o * f / q == 1)
  end.
Proof.
  intros Hc.
  unfold compute_delay_at, caps_getitem, CPEG_algorithm.d_uv, d_uv_body, caps_get.
  simpl. rewrite (split_head_suffix2 c Hc).
  destruct (caps_lookup caps c) as [q|] eqn:Hq.
  - destruct (Qeq_bool q 0) eqn:E; unfold truediv; cbn [bind]; rewrite E.
    + split; reflexivity.
    + split; [reflexivity|split; [reflexivity|]].
      intros Hqf. apply Qeq_bool_neq in E.
      assert (Ep : o * f == q) by (rewrite Hqf; ring).
      unfold Qdiv. rewrite Ep. now apply Qmult_inv_r.
  - split; reflexivity.
Qed.

Lemma compute_delay_cases_witness :
  compute_delay_at [("C"%string, 1000)] "C"%string 100 10 = Ok (10 * 100 / 1000)
  /\ CPEG_algorithm.d_uv [("C"%string, 1000)] 100 2 10 "C"%string (suffix2 "C"%string)
                         "UCL-CL" (Dict (CapacityDict 1000)) = Ok (10 * 100 / 1000)
  /\ (1000 == 100 * 10 -> 10 * 100 / 1000 == 1).
Proof.
  exact (compute_delay_cases [("C"%string, 1000)] "C"%string 100 2 10
                             (CapacityDict 1000) eq_refl).
Defined.

(** C5 as stated fails: without an entry for the node, [d_uv] returns a
    delay computed with capacity 1 instead of raising, and a negative
    capacity yields a negative delay instead of an error. *)
Lemma capacity_silently_defaulted :
  caps_lookup [] "C"%string = None
  /\ CPEG_algorithm.d_uv [] 100 2 10 "C"%string "C_2"%string "UCL-CL"
                         (Dict (CapacityDict 7)) = Ok (10 * 100 / 1)
  /\ compute_delay_at [("C"%string, -5)] "C"%string 100 10 = Ok (10 * 100 / -5).
Proof. repeat split. Qed.

Lemma mapM_all (A B : Type) (f : A -> result B) (P : B -> Prop) (l : list A) :
  (forall x, In x l -> exists y, f x = Ok y /\ P y) ->
  exists r, mapM f l = Ok r /\ forall y, In y r -> P y.
Proof.
  induction l as [|x l IH]; simpl; intros H.
  - exists []. split; [reflexivity|]. intros y [].
  - destruct (H x (or_introl eq_refl)) as [y [Hy Py]]. rewrite Hy. cbn [bind].
    destruct IH as [r [Hr Pr]]; [intros z Hz; apply H; now right|].
    rewrite Hr. cbn [bind]. exists (y :: r). split; [reflexivity|].
    intros z [Hz|Hz]; [now subst|auto].
Qed.

Lemma caps_get_pos (caps : capacities) (k : node) :
  (forall c q, In (c, q) caps -> 0 < q) -> 0 < caps_get caps k 1.
Proof.
  intros H. unfold caps_get. destruct (caps_lookup caps k) as [q|] eqn:E; [|lra].
  apply (H k). now apply caps_lookup_In.
Qed.

(** C9 (amended). On a valid network and flow request the CPEG script
    builds its expanded graph without error, and every weight stored in
    it (upstream forward delays, downstream return delays, compute-enter
    delays, zero-weight links) is non-negative.  Nothing is asserted while
    the graph is built. *)
Theorem expanded_weights_nonneg (net : Network) (fl : FlowRequest) :
  valid_network net -> valid_flow net fl ->
  exists G, CPEG_script.build_graph net fl = Ok G
            /\ forall u v w layer, In (u, v, (w, layer)) (g_adj G) -> 0 <= w.
Proof.
  intros Hnet Hfl. unfold CPEG_script.build_graph.
  rewrite (expand_network_ok net fl Hnet). cbn [bind].
  match goal with
  | |- context [CPEG_script.build_loop _ _ _ _ _ ?E] =>
      destruct (mapM_all _ _ (CPEG_script.weigh_edge (compute_capacities net) (flow_size fl)
                                                     (gamma fl) (omega fl))
                         (fun x => 0 <= fst (snd x)) E) as [es [Hes Hpos]]
  end.
  - intros [[[u v] data] layer] Hin.
    unfold CPEG_script.weigh_edge, CPEG_algorithm.d_uv.
    rewrite !in_app_iff in Hin. destruct Hin as [Hin|[Hin|[Hin|Hin]]];
      apply in_map_iff in Hin.
    + destruct Hin as [[[u' v'] a] [E Hin]]. inversion E; subst. clear E.
      apply filter_In in Hin. destruct Hin as [Hin _].
      pose proof (vn_attrs Hnet _ _ _ Hin) as Ha.
      rewrite (d_uv_ucl net fl _ _ a (proj1 Ha)). cbn [bind]. eexists.
      split; [reflexivity|]. simpl. now apply (ucl_weight_nonneg net fl Hfl).
    + destruct Hin as [c [E Hin]]. inversion E; subst. clear E.
      unfold d_uv_body. simpl.
      match goal with
      | |- context [caps_get ?cd ?k 1] =>
          pose proof (caps_get_pos cd k (vn_caps_pos Hnet)) as Hq
      end.
      rewrite (truediv_pos _ _ Hq). cbn [bind]. eexists. split; [reflexivity|].
      simpl. apply Qdiv_nonneg; [|exact Hq].
      apply Qmult_le_0_compat; [apply (vf_omega Hfl)|apply Qlt_le_weak, (vf_size Hfl)].
    + destruct Hin as [c [E Hin]]. inversion E; subst. clear E.
      eexists. split; [reflexivity|]. simpl. lra.
    + destruct Hin as [[[u' v'] a] [E Hin]]. inversion E; subst. clear E.
      apply filter_In in Hin. destruct Hin as [Hin _].
      pose proof (vn_attrs Hnet _ _ _ Hin) as Ha.
      rewrite (d_uv_dcl net fl _ _ a (proj1 Ha)). cbn [bind]. eexists.
      split; [reflexivity|]. simpl. now apply (dcl_weight_nonneg net fl Hfl).
  - rewrite (build_loop_mapM _ _ _ _ _ _ _ Hes). eexists. split; [reflexivity|].
    intros u v w layer Hin. apply add_edges_from_adj_incl in Hin.
    destruct Hin as [[]|Hin]. apply (Hpos _ Hin).
Qed.

Lemma expanded_weights_nonneg_witness :
  exists G, CPEG_script.build_graph net_diamond fl_diamond = Ok G
            /\ forall u v w layer, In (u, v, (w, layer)) (g_adj G) -> 0 <= w.
Proof.
  exact (expanded_weights_nonneg net_diamond fl_diamond net_diamond_valid fl_diamond_valid).
Defined.

(** C9 as stated fails: the build loop asserts nothing.  It stores the
    negative weight a negative propagation delay produces and hands the
    graph to the search. *)
Lemma negative_weight_accepted :
  exists G w, CPEG_script.build_graph net_negative fl_negative = Ok G
              /\ get_edge G "S"%string "C"%string = Ok (w, "C-UCL"%string)
              /\ w < 0.
Proof.
  eexists _, _. split; [vm_compute; reflexivity|].
  split; vm_compute; reflexivity.
Qed.

(** Without compute nodes, layer U has no exit: a walk of the expanded
    graph that starts at an original node stays among original nodes. *)
Lemma upstream_is_closed (net : Network) (fl : FlowRequest) :
  valid_network net -> plain_names net -> compute_nodes net = [] ->
  forall s p t W,
    walk (cpeg_adj net fl) fst s p t W -> no_underscore s = true -> no_underscore t = true.
Proof.
  intros Hnet Hplain Hc. induction 1 as [s|u v x p t W Hin Hw IH]; intros Hs; auto.
  apply IH. apply in_cpeg_adj in Hin. destruct Hin as [H|[H|[H|H]]].
  - apply in_ucl_edges in H. destruct H as [a [Hin _]].
    now destruct (edge_plain net Hnet Hplain _ _ _ Hin).
  - apply in_ucl_cl_edges in H. destruct H as [H _]. rewrite Hc in H. contradiction.
  - apply in_cl_dcl_edges in H. destruct H as [c [H _]]. rewrite Hc in H. contradiction.
  - apply in_dcl_edges in H. destruct H as [u0 [v0 [a [_ [_ [_ [Hu _]]]]]]].
    subst u. rewrite suffix3_marked in Hs. discriminate.
Qed.

Lemma net_no_compute_valid : valid_network net_no_compute.
Proof. valid_network_tac. Qed.

Lemma fl_no_compute_valid : valid_flow net_no_compute fl_no_compute.
Proof. valid_flow_tac. Qed.

Lemma net_no_compute_plain : plain_names net_no_compute.
Proof. plain_names_tac. Qed.

(** C6 (amended). On a network without compute nodes CCN returns the
    no-path result [(None, +infinity, [])].  The CPEG script returns no
    result there: on a valid network with underscore-free node names its
    search raises [NodeNotFound] or [NetworkXNoPath]. *)
Theorem empty_compute_set (net : Network) (fl : FlowRequest) :
  compute_nodes net = [] ->
  CCN.main net fl = Ok (None, Infinity, [])
  /\ (valid_network net -> valid_flow net fl -> plain_names net ->
      CPEG_script.run net fl = Raise NodeNotFound
      \/ CPEG_script.run net fl = Raise NetworkXNoPath).
Proof.
  intros Hc. split.
  - unfold CCN.main, CCN.find_closest_compute_node. rewrite Hc. reflexivity.
  - intros Hnet Hfl Hplain. unfold CPEG_script.run.
    rewrite (build_graph_ok net fl Hnet Hplain). cbn [bind].
    set (G := add_edges_from (empty_graph CPEG_script.xattr) (cpeg_adj net fl)).
    assert (Hadj : g_adj G = cpeg_adj net fl) by (apply cpeg_graph_adj; auto).
    unfold dijkstra_path. unfold CPEG_script.xattr in *.
    destruct (has_node G (source_node fl)); cbn [negb]; [|now left].
    destruct (search fst G (source_node fl) (destination_node fl ++ "_3")%string)
      as [[d q]|] eqn:Hs; [|now right].
    exfalso. destruct (search_sound _ _ _ _ _ _ _ Hs) as [W [Hw _]].
    rewrite Hadj in Hw.
    pose proof (upstream_is_closed net fl Hnet Hplain Hc _ _ _ _ Hw
                  (Hplain _ (vf_source Hfl))) as Hd.
    change (destination_node fl ++ "_3")%string with (suffix3 (destination_node fl)) in Hd.
    rewrite suffix3_marked in Hd. discriminate.
Qed.

Lemma empty_compute_set_witness :
  CCN.main net_no_compute fl_no_compute = Ok (None, Infinity, [])
  /\ (CPEG_script.run net_no_compute fl_no_compute = Raise NodeNotFound
      \/ CPEG_script.run net_no_compute fl_no_compute = Raise NetworkXNoPath).
Proof.
  destruct (empty_compute_set net_no_compute fl_no_compute eq_refl) as [H1 H2].
  split; [exact H1|].
  exact (H2 net_no_compute_valid fl_no_compute_valid net_no_compute_plain).
Defined.

(** C6 as stated fails: on a network without compute nodes MPCN raises
    [ValueError] (the maximum of an empty dict), and the search of the CPEG
    script raises [NetworkXNoPath]. *)
Lemma empty_compute_set_raises :
  valid_network net_no_compute /\ compute_nodes net_no_compute = []
  /\ MPCN.main net_no_compute fl_no_compute = Raise ValueError
  /\ CPEG_script.run net_no_compute fl_no_compute = Raise NetworkXNoPath.
Proof.
  split; [exact net_no_compute_valid|]. split; [reflexivity|].
  split; vm_compute; reflexivity.
Qed.

(** C7 (amended). On a valid network a non-empty path returned by CCN or
    by MPCN starts at the source, ends at the destination, joins
    consecutive nodes by edges of the original network and names original
    nodes only.  The CPEG script returns the path of the expanded graph as
    it is: it starts at the source, ends at the downstream copy of the
    destination (its name suffixed with "_3") and is a walk of the
    expanded graph; nothing maps it back to original names. *)
Theorem returned_paths (net : Network) (fl : FlowRequest) :
  valid_network net -> valid_flow net fl ->
  (forall r, CCN.main net fl = Ok r -> pr_path r <> [] ->
             well_formed_path net fl (pr_path r))
  /\ (forall r, MPCN.main net fl = Ok r -> pr_path r <> [] ->
                well_formed_path net fl (pr_path r))
  /\ (forall p w, CPEG_script.run net fl = Ok (p, w) ->
                  hd_error p = Some (source_node fl)
                  /\ (exists q, p = q ++ [(destination_node fl ++ "_3")%string])
                  /\ exists G W, CPEG_script.build_graph net fl = Ok G
                                 /\ walk (g_adj G) fst (source_node fl) p
                                         (destination_node fl ++ "_3")%string W).
Proof.
  intros Hnet Hfl. split; [|split].
  - intros r Hr Hp. destruct (ccn_main_cases net fl r Hnet Hfl Hr) as [E|[c [t [path E]]]];
      subst r; [now elim Hp|].
    destruct (ccn_main_inv net fl Hnet Hfl c t path Hr)
      as [p1 [p2 [W1 [W2 [_ [Epath [H1 [H2 _]]]]]]]].
    simpl. subst path. eapply route_well_formed; eauto.
  - intros r Hr Hp. destruct (mpcn_main_cases net fl r Hnet Hr) as [E|[c [t [path E]]]];
      subst r; [now elim Hp|].
    destruct (mpcn_main_inv net fl Hnet c t path Hr)
      as [p1 [p2 [W1 [W2 [_ [Epath [H1 [H2 _]]]]]]]].
    simpl. subst path. eapply route_well_formed; eauto.
  - intros p w. unfold CPEG_script.run.
    destruct (CPEG_script.build_graph net fl) as [G|] eqn:HG;
      [|cbn [bind]; discriminate].
    cbn [bind]. unfold dijkstra_path. unfold CPEG_script.xattr in *.
    destruct (negb (has_node G (source_node fl))); [cbn [bind]; discriminate|].
    destruct (search fst G (source_node fl) (destination_node fl ++ "_3")%string)
      as [[d q]|] eqn:Hs; [|cbn [bind]; discriminate].
    cbn [bind].
    destruct (sum_along G (fun a => Ok (fst a)) (rev q) 0) as [x|];
      [|cbn [bind]; discriminate].
    cbn [bind]. intros E. inversion E; subst p w.
    destruct (search_sound _ _ _ _ _ _ _ Hs) as [W [Hw _]].
    destruct (walk_head _ _ _ _ _ _ _ Hw) as [r Hr].
    split; [now rewrite Hr|].
    split; [eapply walk_last; eauto|].
    exists G, W. auto.
Qed.

Lemma returned_paths_witness :
  well_formed_path net_diamond fl_diamond ["A"; "B"; "D"]%string
  /\ well_formed_path net_diamond fl_diamond ["A"; "C"; "D"]%string.
Proof.
  destruct (returned_paths net_diamond fl_diamond net_diamond_valid fl_diamond_valid)
    as [Hccn [Hmpcn _]].
  assert (H1 : exists t, CCN.main net_diamond fl_diamond
                         = Ok (Some "B"%string, Finite t, ["A"; "B"; "D"]%string))
    by (eexists; vm_compute; reflexivity).
  assert (H2 : exists t, MPCN.main net_diamond fl_diamond
                         = Ok (Some "C"%string, Finite t, ["A"; "C"; "D"]%string))
    by (eexists; vm_compute; reflexivity).
  destruct H1 as [t1 H1], H2 as [t2 H2].
  split.
  - apply (Hccn _ H1). discriminate.
  - apply (Hmpcn _ H2). discriminate.
Defined.

(** C7 as stated fails for CPEG: the path the script returns on the
    scenario of the spec ends at "D_3" and passes through "C_2" and "C_3",
    which are not nodes of the network. *)
Lemma cpeg_path_keeps_expanded_names :
  exists w, CPEG_script.run net_diamond fl_diamond
            = Ok (["A"; "C"; "C_2"; "C_3"; "D_3"]%string, w)
            /\ ~ well_formed_path net_diamond fl_diamond
                                  ["A"; "C"; "C_2"; "C_3"; "D_3"]%string.
Proof.
  eexists. split; [vm_compute; reflexivity|].
  intros [_ [[q Hq] _]].
  apply (f_equal (fun l => last l EmptyString)) in Hq.
  rewrite last_last in Hq. discriminate.
Qed.

Lemma net_slow_return_valid : valid_network net_slow_return.
Proof. valid_network_tac. Qed.

Lemma fl_slow_return_valid : valid_flow net_slow_return fl_slow_return.
Proof. valid_flow_tac. Qed.

(** a compute node that can be reached and can reach the destination is
    a candidate of the first loop of CCN *)
Lemma try_candidate_found (net : Network) (fl : FlowRequest) (c : node)
      (q1 q2 : list node) (A1 A2 : Q) :
  valid_network net -> valid_flow net fl -> In c (compute_nodes net) ->
  walk (edges net) propagation_delay (source_node fl) q1 c A1 ->
  walk (edges net) propagation_delay c q2 (destination_node fl) A2 ->
  exists x, CCN.try_candidate (original_graph net) (source_node fl)
                              (destination_node fl) c = Ok x.
Proof.
  intros Hnet Hfl Hc H1 H2.
  destruct (try_candidate_cases net fl Hnet Hfl c (vn_compute Hnet c Hc)) as [Hx|Hx];
    [exact Hx|exfalso].
  pose proof (original_nodes net Hnet) as Hn.
  rewrite <- (original_adj net Hnet) in H1, H2.
  destruct (shortest_path_found _ propagation_delay (original_graph net)
              (prop_nonneg net Hnet) _ _ _ _
              (proj2 (Hn _) (vf_source Hfl)) (proj2 (Hn _) (vn_compute Hnet c Hc)) H1)
    as [p1 Hp1].
  destruct (shortest_path_found _ propagation_delay (original_graph net)
              (prop_nonneg net Hnet) _ _ _ _
              (proj2 (Hn _) (vn_compute Hnet c Hc)) (proj2 (Hn _) (vf_dest Hfl)) H2)
    as [p2 Hp2].
  unfold CCN.try_candidate in Hx. rewrite Hp1, Hp2 in Hx. cbn [bind] in Hx.
  destruct (shortest_path_walk _ _ _ _ _ _ Hp1) as [W Hw].
  destruct (sum_prop_walk net Hnet _ _ _ _ Hw) as [dl [Hdl _]].
  rewrite Hdl in Hx. discriminate.
Qed.

(** with a compute node that the source reaches and that reaches the
    destination, CCN returns a route *)
Lemma ccn_returns (net : Network) (fl : FlowRequest) :
  valid_network net -> valid_flow net fl ->
  (exists c q1 q2 A1 A2,
      In c (compute_nodes net)
      /\ walk (edges net) propagation_delay (source_node fl) q1 c A1
      /\ walk (edges net) propagation_delay c q2 (destination_node fl) A2) ->
  exists c t path, CCN.main net fl = Ok (Some c, Finite t, path).
Proof.
  intros Hnet Hfl [c0 [q1 [q2 [A1 [A2 [Hc0 [Hq1 Hq2]]]]]]].
  destruct (ccn_main_spec net fl Hnet Hfl) as [l [_ [Hin Hm]]].
  destruct (try_candidate_found net fl c0 q1 q2 A1 A2 Hnet Hfl Hc0 Hq1 Hq2) as [x0 Hx0].
  assert (Hl0 : In x0 l) by (apply Hin; eauto).
  destruct (CCN.sort_by_key l) as [|[[[c dl] p1] p2] rest] eqn:Hs.
  { apply sort_by_key_In in Hl0. rewrite Hs in Hl0. contradiction. }
  destruct Hm as [W1 [W2 [t [_ [_ [Hr _]]]]]]. eauto.
Qed.

(** the route CCN returns: the two paths the searches by propagation
    delay give for the node of least key, and the total made of the
    sums the code takes *)
Lemma ccn_selection (net : Network) (fl : FlowRequest) (c : node) (t : Q)
      (path : list node) :
  valid_network net -> valid_flow net fl ->
  CCN.main net fl = Ok (Some c, Finite t, path) ->
  let G := original_graph net in
  exists key p1 p2,
    path = removelast p1 ++ p2
    /\ In c (compute_nodes net)
    /\ shortest_path propagation_delay G (source_node fl) c = Ok p1
    /\ shortest_path propagation_delay G c (destination_node fl) = Ok p2
    /\ leads net (source_node fl) p1 c /\ leads net c p2 (destination_node fl)
    /\ sum_along G (fun a => Ok (propagation_delay a)) p1 0 = Ok key
    /\ (forall c' q1 q2 key',
           In c' (compute_nodes net) ->
           shortest_path propagation_delay G (source_node fl) c' = Ok q1 ->
           shortest_path propagation_delay G c' (destination_node fl) = Ok q2 ->
           sum_along G (fun a => Ok (propagation_delay a)) q1 0 = Ok key' ->
           key <= key')
    /\ ccn_delay net fl c p1 p2 t.
Proof.
  intros Hnet Hfl Hm G.
  destruct (ccn_main_route net fl Hnet Hfl c t path Hm)
    as [l [key [p1 [p2 [rest [W1 [W2 [Hl [Hs [Hc [Hx [Hp [H1 [H2 Hd]]]]]]]]]]]]]].
  apply try_candidate_eq in Hx. destruct Hx as [_ [Hs1 [Hs2 Hk]]].
  exists key, p1, p2.
  split; [exact Hp|]. split; [exact Hc|]. split; [exact Hs1|]. split; [exact Hs2|].
  split; [exact (walk_any_weight _ _ _ (fun _ => 0) _ _ _ _ H1)|].
  split; [exact (walk_any_weight _ _ _ (fun _ => 0) _ _ _ _ H2)|].
  split; [exact Hk|]. split; [|exact Hd].
  intros c' q1 q2 key' Hc' Hq1 Hq2 Hk'.
  destruct (ccn_main_spec net fl Hnet Hfl) as [l0 [Hl0 [Hin _]]].
  rewrite Hl in Hl0. injection Hl0 as <-.
  assert (Hy : In (c', key', q1, q2) l).
  { apply Hin. exists c'. split; [exact Hc'|]. apply try_candidate_eq. auto. }
  destruct (sort_by_key_least _ _ _ Hs) as [_ Hleast].
  exact (Hleast _ Hy).
Qed.

(** C4 (amended). On a valid network with at least one compute node that
    the source reaches and that reaches the destination, CCN returns a
    compute node [c], a total delay and a route, where: the forward path
    [p1] and the return path [p2] are the paths [nx.shortest_path] gives
    from the source to [c] and from [c] to the destination, both for the
    weight [propagation_delay] (the return path is the one found when
    reachability was checked, not one chosen by return delay); the key of
    [c], the sum of the propagation delays along [p1], is at most the key
    of every compute node for which the two searches succeed; the total
    delay is made of the sums the code takes along [p1] and [p2] and of
    the compute delay of [c], each added as the code adds it
    ([ccn_delay]); the route is [p1] without its last node followed by
    [p2]. *)
Theorem ccn_algorithm (net : Network) (fl : FlowRequest) :
  valid_network net -> valid_flow net fl ->
  (exists c q1 q2 A1 A2,
      In c (compute_nodes net)
      /\ walk (edges net) propagation_delay (source_node fl) q1 c A1
      /\ walk (edges net) propagation_delay c q2 (destination_node fl) A2) ->
  let G := original_graph net in
  exists c key p1 p2 t,
    CCN.main net fl = Ok (Some c, Finite t, removelast p1 ++ p2)
    /\ In c (compute_nodes net)
    /\ shortest_path propagation_delay G (source_node fl) c = Ok p1
    /\ shortest_path propagation_delay G c (destination_node fl) = Ok p2
    /\ leads net (source_node fl) p1 c /\ leads net c p2 (destination_node fl)
    /\ sum_along G (fun a => Ok (propagation_delay a)) p1 0 = Ok key
    /\ (forall c' q1 q2 key',
           In c' (compute_nodes net) ->
           shortest_path propagation_delay G (source_node fl) c' = Ok q1 ->
           shortest_path propagation_delay G c' (destination_node fl) = Ok q2 ->
           sum_along G (fun a => Ok (propagation_delay a)) q1 0 = Ok key' ->
           key <= key')
    /\ ccn_delay net fl c p1 p2 t.
Proof.
  intros Hnet Hfl Hq G.
  destruct (ccn_returns net fl Hnet Hfl Hq) as [c [t [path Hm]]].
  destruct (ccn_selection net fl c t path Hnet Hfl Hm)
    as [key [p1 [p2 [Hp [Hc [Hs1 [Hs2 [L1 [L2 [Hk [Hmin Hd]]]]]]]]]]].
  subst path. exists c, key, p1, p2, t. auto 10.
Qed.

Lemma ccn_algorithm_witness :
  exists c key p1 p2 t,
    CCN.main net_diamond fl_diamond = Ok (Some c, Finite t, removelast p1 ++ p2)
    /\ In c (compute_nodes net_diamond)
    /\ shortest_path propagation_delay (original_graph net_diamond) "A"%string c = Ok p1
    /\ shortest_path propagation_delay (original_graph net_diamond) c "D"%string = Ok p2
    /\ sum_along (original_graph net_diamond) (fun a => Ok (propagation_delay a)) p1 0
       = Ok key
    /\ ccn_delay net_diamond fl_diamond c p1 p2 t.
Proof.
  destruct (ccn_algorithm net_diamond fl_diamond net_diamond_valid fl_diamond_valid)
    as (c & key & p1 & p2 & t & H1 & H2 & H3 & H4 & _ & _ & H7 & _ & H9).
  - exists "B"%string, ["A"; "B"]%string, ["B"; "D"]%string, (1 + 0), (1 + 0).
    split; [simpl; auto|]. split.
    + apply walk_cons with (v := "B"%string) (a := mk_attrs 1000 1 (1 # 10) 0 0);
        [simpl; auto|apply walk_nil].
    + apply walk_cons with (v := "D"%string) (a := mk_attrs 1000 1 (1 # 10) 0 0);
        [simpl; auto|apply walk_nil].
  - exists c, key, p1, p2, t. auto 10.
Defined.

(** C4 as stated fails on the return path: on [net_slow_return] CCN
    returns through the direct edge from [C] to [D], the shortest by
    propagation delay, although the walk through [Y] has a smaller return
    delay. *)
Lemma ccn_return_path_not_cheapest :
  valid_network net_slow_return /\ valid_flow net_slow_return fl_slow_return
  /\ exists t R R',
      CCN.main net_slow_return fl_slow_return
      = Ok (Some "C"%string, Finite t, removelast ["S"; "C"]%string ++ ["C"; "D"]%string)
      /\ walk (edges net_slow_return) (return_delay fl_slow_return)
              "C"%string ["C"; "D"]%string "D"%string R
      /\ walk (edges net_slow_return) (return_delay fl_slow_return)
              "C"%string ["C"; "Y"; "D"]%string "D"%string R'
      /\ R' < R.
Proof.
  split; [exact net_slow_return_valid|]. split; [exact fl_slow_return_valid|].
  eexists _, _, _. split; [vm_compute; reflexivity|]. split; [|split].
  - apply walk_cons with (v := "D"%string) (a := mk_attrs 1 1 0 0 0);
      [simpl; auto|apply walk_nil].
  - apply walk_cons with (v := "Y"%string) (a := mk_attrs 1000 2 0 0 0); [simpl; auto|].
    apply walk_cons with (v := "D"%string) (a := mk_attrs 1000 2 0 0 0);
      [simpl; auto 6|apply walk_nil].
  - vm_compute. reflexivity.
Qed.

(** C3 (amended). For an edge of positive bandwidth, a positive flow size
    and a gamma of at least one, every strategy adds the same five terms
    (propagation, processing, queuing, jitter and the transmission term,
    [flow_size / bandwidth] forward and [gamma * flow_size / bandwidth] on
    the way back), each in its own order.  [d_uv] adds the transmission
    term to the sum of the four others, which is the formula of the spec
    read from the other side; the weight callbacks of MPCN put the
    transmission term before the jitter; CCN takes five sums over the
    whole forward path and adds them as propagation, transmission,
    processing, queuing, jitter, and adds the return terms per link as
    MPCN does; the weights of the replica search, modelled from the spec,
    are its formula.  The totals CCN and MPCN return are made of these
    sums ([ccn_delay], [mpcn_delay]). *)
Theorem link_delay_formulas (fl : FlowRequest) (a : edge_attrs) (caps : capacities)
        (u v : node) :
  0 < bandwidth a -> 0 < flow_size fl -> 1 <= gamma fl ->
  (CPEG_algorithm.d_uv caps (flow_size fl) (gamma fl) (omega fl) u v "C-UCL"
                       (Dict (LinkDict a))
   = Ok (flow_size fl / bandwidth a
         + (propagation_delay a + processing_delay a + queuing_delay a + jitter a))
   /\ flow_size fl / bandwidth a
      + (propagation_delay a + processing_delay a + queuing_delay a + jitter a)
      == forward_delay fl a)
  /\ (CPEG_algorithm.d_uv caps (flow_size fl) (gamma fl) (omega fl) u v "C-DCL"
                          (Dict (LinkDict a))
      = Ok (gamma fl * flow_size fl / bandwidth a
            + (propagation_delay a + processing_delay a + queuing_delay a + jitter a))
      /\ gamma fl * flow_size fl / bandwidth a
         + (propagation_delay a + processing_delay a + queuing_delay a + jitter a)
         == return_delay fl a)
  /\ MPCN.forward_weight (flow_size fl) a
     = Ok (propagation_delay a + processing_delay a + queuing_delay a
           + flow_size fl / bandwidth a + jitter a)
  /\ MPCN.return_weight (flow_size fl) (gamma fl) a
     = Ok (propagation_delay a + processing_delay a + queuing_delay a
           + gamma fl * flow_size fl / bandwidth a + jitter a)
  /\ CNE_algorithm.weight caps fl u v "original" (Dict (LinkDict a))
     = Ok (propagation_delay a + processing_delay a + queuing_delay a + jitter a
           + flow_size fl / bandwidth a)
  /\ CNE_algorithm.weight caps fl u v "copied" (Dict (LinkDict a))
     = Ok (propagation_delay a + processing_delay a + queuing_delay a + jitter a
           + gamma fl * flow_size fl / bandwidth a)
  /\ (forall net,
         valid_network net -> valid_flow net fl ->
         (exists c q1 q2 A1 A2,
             In c (compute_nodes net)
             /\ walk (edges net) propagation_delay (source_node fl) q1 c A1
             /\ walk (edges net) propagation_delay c q2 (destination_node fl) A2) ->
         exists c p1 p2 t,
           CCN.main net fl = Ok (Some c, Finite t, removelast p1 ++ p2)
           /\ leads net (source_node fl) p1 c /\ leads net c p2 (destination_node fl)
           /\ ccn_delay net fl c p1 p2 t)
  /\ (forall net c t path,
         valid_network net -> valid_flow net fl ->
         MPCN.main net fl = Ok (Some c, Finite t, path) ->
         exists p1 p2,
           path = removelast p1 ++ p2
           /\ leads net (source_node fl) p1 c /\ leads net c p2 (destination_node fl)
           /\ mpcn_delay net fl c p1 p2 t).
Proof.
  intros Hb Hf Hg.
  split; [split|split; [split|]].
  - unfold CPEG_algorithm.d_uv, d_uv_body. simpl. rewrite (truediv_pos _ _ Hb).
    reflexivity.
  - unfold forward_delay. lra.
  - unfold CPEG_algorithm.d_uv, d_uv_body. simpl. rewrite (truediv_pos _ _ Hb).
    reflexivity.
  - unfold return_delay. lra.
  - split; [unfold MPCN.forward_weight; now rewrite (truediv_pos _ _ Hb)|].
    split; [unfold MPCN.return_weight; now rewrite (truediv_pos _ _ Hb)|].
    split; [unfold CNE_algorithm.weight; simpl; now rewrite (Qle_bool_pos _ Hb)|].
    split; [unfold CNE_algorithm.weight; simpl; now rewrite (Qle_bool_pos _ Hb)|].
    split.
    + intros net Hnet Hfl Hq.
      destruct (ccn_returns net fl Hnet Hfl Hq) as [c [t [path Hm]]].
      destruct (ccn_selection net fl c t path Hnet Hfl Hm)
        as [key [p1 [p2 [Hp [_ [_ [_ [L1 [L2 [_ [_ Hd]]]]]]]]]]].
      subst path. exists c, p1, p2, t. auto.
    + intros net c t path Hnet Hfl Hm.
      destruct (mpcn_main_route net fl Hnet c t path Hm)
        as [cap [Gf [Gr [p1 [p2 [W1 [W2 [_ [_ [_ [_ [_ [_ [Hp [H1 [H2 Hd]]]]]]]]]]]]]]]].
      exists p1, p2. split; [exact Hp|].
      split; [exact (walk_any_weight _ _ _ (fun _ => 0) _ _ _ _ H1)|].
      split; [exact (walk_any_weight _ _ _ (fun _ => 0) _ _ _ _ H2)|exact Hd].
Qed.

Lemma link_delay_formulas_witness :
  CPEG_algorithm.d_uv [] 100 2 10 "A"%string "B"%string "C-UCL"
                      (Dict (LinkDict (mk_attrs 1000 1 (1 # 10) 0 0)))
  = Ok (100 / 1000 + (1 + (1 # 10) + 0 + 0))
  /\ MPCN.forward_weight 100 (mk_attrs 1000 1 (1 # 10) 0 0)
     = Ok (1 + (1 # 10) + 0 + 100 / 1000 + 0)
  /\ exists c p1 p2 t,
      CCN.main net_diamond fl_diamond = Ok (Some c, Finite t, removelast p1 ++ p2)
      /\ ccn_delay net_diamond fl_diamond c p1 p2 t.
Proof.
  destruct (link_delay_formulas fl_diamond (mk_attrs 1000 1 (1 # 10) 0 0) []
                                "A"%string "B"%string)
    as [[H1 _] [_ [H3 [_ [_ [_ [H7 _]]]]]]].
  - reflexivity.
  - reflexivity.
  - simpl. lra.
  - split; [exact H1|]. split; [exact H3|].
    destruct (H7 net_diamond net_diamond_valid fl_diamond_valid)
      as [c [p1 [p2 [t [Hm [_ [_ Hd]]]]]]].
    + exists "B"%string, ["A"; "B"]%string, ["B"; "D"]%string, (1 + 0), (1 + 0).
      split; [simpl; auto|]. split.
      * apply walk_cons with (v := "B"%string) (a := mk_attrs 1000 1 (1 # 10) 0 0);
          [simpl; auto|apply walk_nil].
      * apply walk_cons with (v := "D"%string) (a := mk_attrs 1000 1 (1 # 10) 0 0);
          [simpl; auto|apply walk_nil].
    + exists c, p1, p2, t. auto.
Defined.

(** C3 as stated fails in double precision: on a link with the delays
    1.1, 0.1, 0 and 1.97 and a transmission term of 100 / 1000, the
    formula of the spec gives 3.27, and so does [d_uv]; the callback of
    MPCN and the five sums of CCN give 3.2700000000000005. *)
Lemma formulas_differ_in_double_precision :
  PrimFloat.eqb (Double.d_uv_ucl Double.flow_100 Double.link_r)
                (Double.forward_formula Double.flow_100 Double.link_r) = true
  /\ PrimFloat.ltb (Double.forward_formula Double.flow_100 Double.link_r)
                   (Double.forward_weight Double.flow_100 Double.link_r) = true
  /\ PrimFloat.ltb (Double.forward_formula Double.flow_100 Double.link_r)
                   (Double.ccn_delay_to_compute_node Double.flow_100 [Double.link_r])
     = true.
Proof. vm_compute. auto. Qed.

Lemma net_underscore_valid : valid_network net_underscore.
Proof. valid_network_tac. Qed.

Lemma fl_underscore_valid : valid_flow net_underscore fl_underscore.
Proof. valid_flow_tac. Qed.

(** The expanded graph on underscore-free names: the script builds a
    graph whose edges are exactly the upstream copies (forward delay) of
    the edges that do not enter the destination, the downstream copies
    (return delay) of the edges that do not touch the source, and per
    compute node its compute edge and its zero-weight link. *)
Lemma cpeg_graph_edges (net : Network) (fl : FlowRequest) :
  valid_network net -> plain_names net ->
  exists G,
    CPEG_script.build_graph net fl = Ok G
    /\ NoDup (map edge_key (g_adj G))
    /\ forall u v w layer,
        In (u, v, (w, layer)) (g_adj G) <->
        (exists a, In (u, v, a) (edges net) /\ v <> destination_node fl
                   /\ w = ucl_weight fl a /\ layer = "C-UCL"%string)
        \/ (exists u0 v0 a, In (u0, v0, a) (edges net) /\ u0 <> source_node fl
                            /\ v0 <> source_node fl /\ u = suffix3 u0 /\ v = suffix3 v0
                            /\ w = dcl_weight fl a /\ layer = "C-DCL"%string)
        \/ (In u (compute_nodes net) /\ v = suffix2 u
            /\ w = cl_weight net fl u /\ layer = "UCL-CL"%string)
        \/ (exists c, In c (compute_nodes net) /\ u = suffix2 c /\ v = suffix3 c
                      /\ w = 0 /\ layer = "CL-DCL"%string).
Proof.
  intros Hnet Hplain. eexists. split; [apply (build_graph_ok net fl Hnet Hplain)|].
  rewrite (cpeg_graph_adj net fl Hnet Hplain).
  split; [apply (cpeg_keys_nodup net fl Hnet Hplain)|].
  intros u v w layer.
  rewrite in_cpeg_adj, in_ucl_edges, in_ucl_cl_edges, in_cl_dcl_edges, in_dcl_edges.
  split.
  - intros [[a [H1 [H2 E]]]|[[H1 [H2 E]]|[[c [H1 [H2 [H3 E]]]]|H]]]; try inversion E; subst.
    + left. exists a. auto.
    + right. right. left. auto.
    + right. right. right. exists c. auto.
    + destruct H as [u0 [v0 [a [H1 [H2 [H3 [H4 [H5 E]]]]]]]]. inversion E; subst.
      right. left. exists u0, v0, a. auto 10.
  - intros [[a [H1 [H2 [E1 E2]]]]|[[u0 [v0 [a [H1 [H2 [H3 [H4 [H5 [E1 E2]]]]]]]]]
                                   |[[H1 [H2 [E1 E2]]]|[c [H1 [H2 [H3 [E1 E2]]]]]]]]; subst.
    + left. exists a. auto.
    + right. right. right. exists u0, v0, a. auto 10.
    + right. left. auto.
    + right. right. left. exists c. auto.
Qed.

(** C2 fails on a compute node whose name contains an underscore: [d_uv]
    looks the capacity up under the part of the expanded name before its
    first underscore.  On [net_underscore] the compute edge of "n_1"
    (capacity 50) gets the weight [omega * flow_size / 1], not
    [omega * flow_size / 50]. *)
Lemma underscore_name_wrong_capacity :
  valid_network net_underscore /\ valid_flow net_underscore fl_underscore
  /\ caps_lookup (compute_capacities net_underscore) "n_1"%string = Some 50
  /\ exists G w,
      CPEG_script.build_graph net_underscore fl_underscore = Ok G
      /\ get_edge G "n_1"%string "n_1_2"%string = Ok (w, "UCL-CL"%string)
      /\ w == 10 * 100 / 1 /\ ~ w == 10 * 100 / 50.
Proof.
  split; [exact net_underscore_valid|]. split; [exact fl_underscore_valid|].
  split; [reflexivity|].
  eexists _, _. split; [vm_compute; reflexivity|]. split; [vm_compute; reflexivity|].
  split; [reflexivity|]. intros H. vm_compute in H. discriminate.
Qed.

(** C8 (amended). On a valid network with underscore-free node names the
    search over the replica expansion of CNE, with the weights of the
    delay model, returns a total delay (finite or +infinity) that is at
    most the total delay of the CPEG script whenever that script returns
    one; when no edge of the network leaves the destination, the two
    agree: both finite and equal, or CNE +infinity and the CPEG search
    raising [NodeNotFound] or [NetworkXNoPath]. *)
Theorem cne_cpeg_agreement (net : Network) (fl : FlowRequest) :
  valid_network net -> valid_flow net fl -> plain_names net ->
  exists r,
    CNE_algorithm.total_delay net fl = Ok r
    /\ (forall p w, CPEG_script.run net fl = Ok (p, w) -> delay_le r (Finite w))
    /\ ((forall u v a, In (u, v, a) (edges net) -> u <> destination_node fl) ->
        match r with
        | Finite w' => exists p w, CPEG_script.run net fl = Ok (p, w) /\ w == w'
        | Infinity => CPEG_script.run net fl = Raise NodeNotFound
                      \/ CPEG_script.run net fl = Raise NetworkXNoPath
        end).
Proof.
  intros Hnet Hfl Hplain.
  assert (Hrun : forall p w, CPEG_script.run net fl = Ok (p, w) ->
                   exists p' W', walk (cne_adj net fl) fst (source_node fl) p'
                                      (CNE.super_dest_of (destination_node fl)) W'
                                 /\ W' == w).
  { intros p w Hr.
    destruct (cpeg_run_cases net fl Hnet Hplain) as [[p0 [w0 [W0 [Hr0 [Hw0 HW0]]]]]|[He|He]];
      [|rewrite He in Hr; discriminate..].
    rewrite Hr0 in Hr. inversion Hr; subst p0 w0.
    destruct (cpeg_walk_in_cne net fl Hnet Hfl Hplain _ _ Hw0) as [p' [W' [Hw' HW']]].
    exists p', W'. split; [exact Hw'|lra]. }
  destruct (cne_total_cases net fl Hnet Hfl Hplain)
    as [[w' [pc [Wc [Ht [Hwc [HWc Hmin]]]]]]|[Ht Hnone]].
  - exists (Finite w'). split; [exact Ht|]. split.
    + intros p w Hr. destruct (Hrun p w Hr) as [p' [W' [Hw' HW']]].
      simpl. specialize (Hmin _ _ Hw'). lra.
    + intros Hsink.
      destruct (cne_walk_in_cpeg net fl Hnet Hfl Hplain _ _ Hsink Hwc) as [p' [W' [Hw' HW']]].
      destruct (cpeg_run_optimal net fl Hnet Hfl Hplain _ _ Hw') as [q [w [Hr Hle]]].
      exists q, w. split; [exact Hr|].
      destruct (Hrun q w Hr) as [p2 [W2 [Hw2 HW2]]].
      specialize (Hmin _ _ Hw2). lra.
  - exists Infinity. split; [exact Ht|]. split.
    + intros p w Hr. destruct (Hrun p w Hr) as [p' [W' [Hw' _]]].
      now elim (Hnone _ _ Hw').
    + intros _.
      destruct (cpeg_run_cases net fl Hnet Hplain) as [[p0 [w0 [W0 [Hr0 _]]]]|He];
        [|exact He].
      destruct (Hrun _ _ Hr0) as [p' [W' [Hw' _]]]. now elim (Hnone _ _ Hw').
Qed.

Lemma cne_cpeg_agreement_witness :
  exists w' p w,
    CNE_algorithm.total_delay net_diamond fl_diamond = Ok (Finite w')
    /\ CPEG_script.run net_diamond fl_diamond = Ok (p, w)
    /\ w == w'.
Proof.
  destruct (cne_cpeg_agreement net_diamond fl_diamond net_diamond_valid fl_diamond_valid
                               net_diamond_plain) as [r [Ht [_ Heq]]].
  assert (Hc : exists t, CNE_algorithm.total_delay net_diamond fl_diamond = Ok (Finite t))
    by (eexists; vm_compute; reflexivity).
  destruct Hc as [t Hc]. rewrite Hc in Ht. injection Ht as Er. subst r.
  destruct Heq as [p [w [Hr Hw]]].
  - intros u v a H. in_cases H; inversion H; subst; discriminate.
  - exists t, p, w. auto.
Defined.

(** C8 as stated fails: on [net_detour] the replica graph keeps the edge
    into the destination that layer U of CPEG drops, and its search
    returns a smaller total delay than the CPEG script. *)
Lemma cne_cheaper_on_detour :
  valid_network net_detour /\ valid_flow net_detour fl_detour /\ plain_names net_detour
  /\ exists w' p w,
      CNE_algorithm.total_delay net_detour fl_detour = Ok (Finite w')
      /\ CPEG_script.run net_detour fl_detour = Ok (p, w)
      /\ w' < w.
Proof.
  split; [exact net_detour_valid|]. split; [exact fl_detour_valid|].
  split; [exact net_detour_plain|].
  eexists _, _, _. split; [vm_compute; reflexivity|].
  split; vm_compute; reflexivity.
Qed.

(* ================================================================== *)
(** * 30. Further properties of the code                               *)
(* ================================================================== *)

(** ** The two expansions *)

Lemma mapM_ext (A B : Type) (f g : A -> result B) (l : list A) :
  (forall x, In x l -> f x = g x) -> mapM f l = mapM g l.
Proof.
  induction l as [|x r IH]; simpl; intros H; [reflexivity|].
  rewrite (H x (or_introl eq_refl)), IH; auto.
Qed.

Lemma mapM_length (A B : Type) (f : A -> result B) (l : list A) (r : list B) :
  mapM f l = Ok r -> List.length r = List.length l.
Proof.
  revert r. induction l as [|x l IH]; simpl; intros r H.
  - inversion H. reflexivity.
  - destruct (f x) as [y|]; [|discriminate]. cbn [bind] in H.
    destruct (mapM f l) as [ys|]; [|discriminate]. cbn [bind] in H.
    inversion H. simpl. now rewrite (IH ys).
Qed.

Lemma mapM_getitem_ok (A B : Type) (key : A -> node) (g : A -> Q -> B)
      (caps : capacities) (l : list A) :
  (forall x, In x l -> caps_lookup caps (key x) <> None) ->
  exists r, mapM (fun x => c <- caps_getitem caps (key x) ;; Ok (g x c)) l = Ok r.
Proof.
  induction l as [|x l IH]; simpl; intros H; [eauto|].
  unfold caps_getitem at 1.
  destruct (caps_lookup caps (key x)) as [q|] eqn:E;
    [|now elim (H x (or_introl eq_refl))].
  cbn [bind]. destruct IH as [r Hr]; [auto|]. rewrite Hr. cbn [bind]. eauto.
Qed.

Lemma mapM_getitem_missing (A B : Type) (key : A -> node) (g : A -> Q -> B)
      (caps : capacities) (l : list A) :
  (exists x, In x l /\ caps_lookup caps (key x) = None) ->
  mapM (fun x => c <- caps_getitem caps (key x) ;; Ok (g x c)) l = Raise KeyError.
Proof.
  induction l as [|x l IH]; simpl; intros [y [Hy Hn]]; [contradiction|].
  unfold caps_getitem at 1.
  destruct (caps_lookup caps (key x)) as [q|] eqn:E; [|reflexivity].
  cbn [bind]. destruct Hy as [Hy|Hy]; [subst; congruence|].
  rewrite IH; [reflexivity|eauto].
Qed.

(** the loop of [CNE.expand_network] over [enumerate(compute_nodes, 1)] *)
Lemma cne_compute_loop (caps : capacities) (cs : list node) :
  mapM (fun ic : nat * node =>
          let '(i, compute_node) := ic in
          c <- caps_getitem caps compute_node ;;
          Ok (compute_node, suffix_i compute_node i, Dict (CapacityDict c),
              "compute"%string))
       (combine (seq 1 (List.length cs)) cs)
  = mapM (fun ic : nat * node =>
            c <- caps_getitem caps (snd ic) ;;
            Ok (snd ic, suffix_i (snd ic) (fst ic), Dict (CapacityDict c), "compute"%string))
         (combine (seq 1 (List.length cs)) cs).
Proof. apply mapM_ext. now intros [i c] _. Qed.

(** X1. Both expansions read [compute_capacities[node]] for every compute
    node: they return when every compute node has an entry, and raise
    [KeyError] as soon as one has none.  Nothing else can fail in them. *)
Theorem expansions_need_every_capacity (ns : list node) (es : list edge) (cs : list node)
        (caps : capacities) (s d : node) :
  ((forall c, In c cs -> caps_lookup caps c <> None) ->
   (exists V E, CPEG.expand_network ns es cs caps s d = Ok (V, E))
   /\ (exists V E sd, CNE.expand_network ns es cs caps s d = Ok (V, E, sd)))
  /\ ((exists c, In c cs /\ caps_lookup caps c = None) ->
      CPEG.expand_network ns es cs caps s d = Raise KeyError
      /\ CNE.expand_network ns es cs caps s d = Raise KeyError).
Proof.
  split.
  - intros H. split.
    + destruct (mapM_getitem_ok _ _ (fun n : node => n)
                  (fun n c => (n, suffix2 n, Dict (CapacityDict c), "UCL-CL"%string))
                  caps cs H) as [r Hr].
      cbv beta in Hr. unfold CPEG.expand_network. rewrite Hr. cbn [bind]. eauto.
    + destruct (mapM_getitem_ok _ _ (fun ic : nat * node => snd ic)
                  (fun ic c => (snd ic, suffix_i (snd ic) (fst ic), Dict (CapacityDict c),
                                "compute"%string))
                  caps (combine (seq 1 (List.length cs)) cs)) as [r Hr].
      { intros [i c] Hin. apply H. now apply in_combine_r in Hin. }
      cbv beta in Hr. unfold CNE.expand_network.
      rewrite cne_compute_loop, Hr. cbn [bind]. eauto.
  - intros [c [Hc Hn]]. split.
    + unfold CPEG.expand_network.
      rewrite (mapM_getitem_missing _ _ (fun n : node => n)
                 (fun n c => (n, suffix2 n, Dict (CapacityDict c), "UCL-CL"%string))
                 caps cs); [reflexivity|eauto].
    + unfold CNE.expand_network. rewrite cne_compute_loop.
      rewrite (mapM_getitem_missing _ _ (fun ic : nat * node => snd ic)
                 (fun ic c => (snd ic, suffix_i (snd ic) (fst ic), Dict (CapacityDict c),
                               "compute"%string))
                 caps (combine (seq 1 (List.length cs)) cs)); [reflexivity|].
      destruct (combine_seq_In _ cs 1 c Hc) as [i Hi]. exists (i, c). auto.
Qed.

Lemma mapM_getitem_inv (A B : Type) (key : A -> node) (g : A -> Q -> B)
      (caps : capacities) (l : list A) (r : list B) :
  mapM (fun x => c <- caps_getitem caps (key x) ;; Ok (g x c)) l = Ok r ->
  r = map (fun x => g x (caps_get caps (key x) 1)) l.
Proof.
  revert r. induction l as [|x l IH]; simpl; intros r H.
  - now inversion H.
  - unfold caps_getitem at 1 in H. unfold caps_get at 1.
    destruct (caps_lookup caps (key x)) as [q|]; [|discriminate]. cbn [bind] in H.
    destruct (mapM (fun x => c <- caps_getitem caps (key x) ;; Ok (g x c)) l) as [ys|];
      [|discriminate].
    cbn [bind] in H. inversion H. now rewrite (IH ys).
Qed.

(** what [CPEG.expand_network] returns, when it returns *)
Lemma cpeg_expand_inv (ns : list node) (es : list edge) (cs : list node)
      (caps : capacities) (s d : node) (V : list node) (E : list xedge) :
  CPEG.expand_network ns es cs caps s d = Ok (V, E) ->
  V = ns ++ map suffix2 cs ++ map suffix3 (filter (fun n => negb (node_eqb n s)) ns)
  /\ E = map (fun e : edge => let '(u, v, a) := e in (u, v, Dict (LinkDict a), "C-UCL"%string))
             (filter (fun e => negb (enters d e)) es)
         ++ map (fun n => (n, suffix2 n, Dict (CapacityDict (caps_get caps n 1)),
                           "UCL-CL"%string)) cs
         ++ map (fun n => (suffix2 n, suffix3 n, PyInt 0, "CL-DCL"%string)) cs
         ++ map (fun e : edge => let '(u, v, a) := e in
                                 (suffix3 u, suffix3 v, Dict (LinkDict a), "C-DCL"%string))
                (filter (fun e => negb (touches s e)) es).
Proof.
  unfold CPEG.expand_network. rewrite filter_enters, filter_touches.
  destruct (mapM _ cs) as [r|] eqn:Hr; [|discriminate].
  cbn [bind]. intros H. inversion H. split; [reflexivity|].
  now rewrite (mapM_getitem_inv _ _ (fun n : node => n)
                 (fun n c => (n, suffix2 n, Dict (CapacityDict c), "UCL-CL"%string))
                 caps cs r Hr).
Qed.

(** what [CNE.expand_network] returns, when it returns *)
Lemma cne_expand_inv (ns : list node) (es : list edge) (cs : list node)
      (caps : capacities) (s d : node) (V : list node) (E : list xedge) (sd : node) :
  CNE.expand_network ns es cs caps s d = Ok (V, E, sd) ->
  sd = CNE.super_dest_of d
  /\ V = ns
         ++ flat_map (fun i => map (fun n => suffix_i n i)
                                   (filter (fun n => negb (node_eqb n s)) ns))
                     (seq 1 (List.length cs))
         ++ [CNE.super_dest_of d]
  /\ E = map (fun e : edge => let '(u, v, a) := e in
                              (u, v, Dict (LinkDict a), "original"%string)) es
         ++ flat_map (fun i =>
                        map (fun e : edge => let '(u, v, a) := e in
                                             (suffix_i u i, suffix_i v i, Dict (LinkDict a),
                                              "copied"%string))
                            (filter (fun e => negb (touches s e)) es))
                     (seq 1 (List.length cs))
         ++ map (fun ic : nat * node =>
                   (snd ic, suffix_i (snd ic) (fst ic),
                    Dict (CapacityDict (caps_get caps (snd ic) 1)), "compute"%string))
                (combine (seq 1 (List.length cs)) cs)
         ++ map (fun i => (suffix_i d i, CNE.super_dest_of d, PyInt 0, "aggregate"%string))
                (seq 1 (List.length cs)).
Proof.
  unfold CNE.expand_network. rewrite cne_compute_loop, filter_touches.
  destruct (mapM _ (combine _ cs)) as [r|] eqn:Hr; [|discriminate].
  cbn [bind]. intros H. inversion H. split; [reflexivity|]. split; [reflexivity|].
  now rewrite (mapM_getitem_inv _ _ (fun ic : nat * node => snd ic)
                 (fun ic c => (snd ic, suffix_i (snd ic) (fst ic), Dict (CapacityDict c),
                               "compute"%string))
                 caps _ r Hr).
Qed.

Lemma cpeg_expand_lengths (ns : list node) (es : list edge) (cs : list node)
      (caps : capacities) (s d : node) (V : list node) (E : list xedge) :
  CPEG.expand_network ns es cs caps s d = Ok (V, E) ->
  List.length V
  = (List.length ns + List.length cs
     + List.length (filter (fun n => negb (node_eqb n s)) ns))%nat
  /\ List.length E
     = (List.length (filter (fun e => negb (enters d e)) es) + 2 * List.length cs
        + List.length (filter (fun e => negb (touches s e)) es))%nat.
Proof.
  intros H. destruct (cpeg_expand_inv _ _ _ _ _ _ _ _ H) as [HV HE]. subst V E.
  rewrite !length_app, !length_map. lia.
Qed.

(** X2. The size of the layered expansion: the node list holds the
    original nodes, one middle copy per compute node and one downstream
    copy per node other than the source; the edge list holds the edges
    that do not enter the destination, two edges per compute node and the
    edges that do not touch the source.  So it has at most
    [2 |V| + |C|] nodes and [2 |E| + 2 |C|] edges. *)
Theorem cpeg_expansion_size (ns : list node) (es : list edge) (cs : list node)
        (caps : capacities) (s d : node) (V : list node) (E : list xedge) :
  CPEG.expand_network ns es cs caps s d = Ok (V, E) ->
  List.length V
  = (List.length ns + List.length cs
     + List.length (filter (fun n => negb (node_eqb n s)) ns))%nat
  /\ List.length E
     = (List.length (filter (fun e => negb (enters d e)) es) + 2 * List.length cs
        + List.length (filter (fun e => negb (touches s e)) es))%nat
  /\ (List.length V <= 2 * List.length ns + List.length cs)%nat
  /\ (List.length E <= 2 * List.length es + 2 * List.length cs)%nat.
Proof.
  intros H. destruct (cpeg_expand_lengths _ _ _ _ _ _ _ _ H) as [HV HE].
  pose proof (filter_length_le (fun n => negb (node_eqb n s)) ns).
  pose proof (filter_length_le (fun e => negb (enters d e)) es).
  pose proof (filter_length_le (fun e => negb (touches s e)) es).
  repeat split; lia.
Qed.

Lemma cpeg_expansion_size_witness :
  exists V E,
    CPEG.expand_network (nodes net_diamond) (edges net_diamond) (compute_nodes net_diamond)
      (compute_capacities net_diamond) "A"%string "D"%string = Ok (V, E)
    /\ List.length V = 9%nat /\ List.length E = 8%nat.
Proof.
  eexists _, _. split; [reflexivity|].
  destruct (cpeg_expansion_size (nodes net_diamond) (edges net_diamond)
              (compute_nodes net_diamond) (compute_capacities net_diamond)
              "A"%string "D"%string _ _ eq_refl) as [HV [HE _]].
  split; [exact HV|exact HE].
Defined.

(** X3. The size of the replica expansion, with [k] compute nodes: the
    original nodes, [k] copies of every node other than the source and the
    super-destination; the original edges, [k] copies of every edge that
    does not touch the source, [k] compute edges and [k] edges into the
    super-destination.  With at least one compute node the layered
    expansion never has more edges than the replica expansion, and never
    more nodes when some node differs from the source. *)
Theorem cne_expansion_size (ns : list node) (es : list edge) (cs : list node)
        (caps : capacities) (s d : node) (V' : list node) (E' : list xedge) (sd : node) :
  CNE.expand_network ns es cs caps s d = Ok (V', E', sd) ->
  List.length V'
  = (List.length ns
     + List.length cs * List.length (filter (fun n => negb (node_eqb n s)) ns) + 1)%nat
  /\ List.length E'
     = (List.length es
        + List.length cs * List.length (filter (fun e => negb (touches s e)) es)
        + 2 * List.length cs)%nat
  /\ forall V E,
      CPEG.expand_network ns es cs caps s d = Ok (V, E) ->
      (1 <= List.length cs)%nat ->
      (List.length E <= List.length E')%nat
      /\ ((1 <= List.length (filter (fun n => negb (node_eqb n s)) ns))%nat ->
          (List.length V <= List.length V')%nat).
Proof.
  intros H. destruct (cne_expand_inv _ _ _ _ _ _ _ _ _ H) as [_ [HV HE]].
  assert (LV : List.length V'
               = (List.length ns
                  + List.length cs * List.length (filter (fun n => negb (node_eqb n s)) ns)
                  + 1)%nat).
  { subst V'. rewrite !length_app.
    rewrite (flat_map_constant_length
               (c := List.length (filter (fun n => negb (node_eqb n s)) ns)))
      by (intros; apply length_map).
    rewrite length_seq. simpl. lia. }
  assert (LE : List.length E'
               = (List.length es
                  + List.length cs * List.length (filter (fun e => negb (touches s e)) es)
                  + 2 * List.length cs)%nat).
  { subst E'. rewrite !length_app, !length_map.
    rewrite (flat_map_constant_length
               (c := List.length (filter (fun e => negb (touches s e)) es)))
      by (intros; apply length_map).
    rewrite length_combine, !length_seq, Nat.min_id. lia. }
  split; [exact LV|]. split; [exact LE|].
  intros V E HC Hk. destruct (cpeg_expand_lengths _ _ _ _ _ _ _ _ HC) as [HV1 HE1].
  pose proof (filter_length_le (fun e => negb (enters d e)) es).
  split; [nia|]. intros Hm. nia.
Qed.

Lemma cne_expansion_size_witness :
  exists V' E' sd,
    CNE.expand_network (nodes net_diamond) (edges net_diamond) (compute_nodes net_diamond)
      (compute_capacities net_diamond) "A"%string "D"%string = Ok (V', E', sd)
    /\ List.length V' = 11%nat /\ List.length E' = 12%nat.
Proof.
  eexists _, _, _. split; [reflexivity|].
  destruct (cne_expansion_size (nodes net_diamond) (edges net_diamond)
              (compute_nodes net_diamond) (compute_capacities net_diamond)
              "A"%string "D"%string _ _ _ eq_refl) as [HV [HE _]].
  split; [exact HV|exact HE].
Defined.

Lemma in_filter_not (s n : node) (ns : list node) :
  In n (filter (fun n => negb (node_eqb n s)) ns) <-> In n ns /\ n <> s.
Proof.
  rewrite filter_In, negb_true_iff, node_eqb_neq. tauto.
Qed.

Lemma in_filter_untouched (s u v : node) (a : edge_attrs) (es : list edge) :
  In (u, v, a) (filter (fun e => negb (touches s e)) es) <->
  In (u, v, a) es /\ u <> s /\ v <> s.
Proof.
  rewrite filter_In. unfold touches. rewrite negb_true_iff, orb_false_iff, !node_eqb_neq.
  tauto.
Qed.

(** both ends of an expanded edge are expanded nodes *)
Lemma cpeg_expand_closed (ns : list node) (es : list edge) (cs : list node)
      (caps : capacities) (s d : node) (V : list node) (E : list xedge) :
  CPEG.expand_network ns es cs caps s d = Ok (V, E) ->
  (forall u v a, In (u, v, a) es -> In u ns /\ In v ns) ->
  (forall c, In c cs -> In c ns) -> ~ In s cs ->
  forall u v x l, In (u, v, x, l) E -> In u V /\ In v V.
Proof.
  intros H. destruct (cpeg_expand_inv _ _ _ _ _ _ _ _ H) as [HV HE]. subst V E.
  intros Hends Hcs Hs u v x l Hin. rewrite !in_app_iff in Hin. rewrite !in_app_iff.
  destruct Hin as [Hin|[Hin|[Hin|Hin]]]; apply in_map_iff in Hin.
  - destruct Hin as [[[u' v'] a] [E Hin]]. inversion E; subst.
    apply filter_In in Hin. destruct (Hends _ _ _ (proj1 Hin)). auto.
  - destruct Hin as [c [E Hin]]. inversion E; subst. split; [auto|].
    right. left. now apply in_map.
  - destruct Hin as [c [E Hin]]. inversion E; subst. split.
    + right. left. now apply in_map.
    + right. right. apply in_map. apply in_filter_not. split; [auto|].
      intros Hc. subst c. contradiction.
  - destruct Hin as [[[u' v'] a] [E Hin]]. inversion E; subst.
    apply in_filter_untouched in Hin. destruct Hin as [Hin [Hu Hv]].
    destruct (Hends _ _ _ Hin).
    split; right; right; apply in_map; apply in_filter_not; auto.
Qed.

(** X4. The layered expansion is a graph over its own node list, with
    distinct names: when the edges of the network join nodes of the
    network, the compute nodes are nodes and the source is not a compute
    node, both ends of every expanded edge are in the returned node list;
    and when no original name contains an underscore (and none is listed
    twice), no name is listed twice in it. *)
Theorem cpeg_expansion_well_formed (ns : list node) (es : list edge) (cs : list node)
        (caps : capacities) (s d : node) (V : list node) (E : list xedge) :
  CPEG.expand_network ns es cs caps s d = Ok (V, E) ->
  ((forall u v a, In (u, v, a) es -> In u ns /\ In v ns) ->
   (forall c, In c cs -> In c ns) -> ~ In s cs ->
   forall u v x l, In (u, v, x, l) E -> In u V /\ In v V)
  /\ (NoDup ns -> NoDup cs ->
      (forall n, In n ns -> no_underscore n = true) ->
      (forall c, In c cs -> no_underscore c = true) ->
      NoDup V).
Proof.
  intros H. split; [exact (cpeg_expand_closed _ _ _ _ _ _ _ _ H)|].
  destruct (cpeg_expand_inv _ _ _ _ _ _ _ _ H) as [HV HE]. subst V E.
  intros Hns Hcs Hplain Hcplain.
  apply NoDup_app; [exact Hns| |].
  - apply NoDup_app.
    + apply NoDup_map_NoDup_ForallPairs; [|exact Hcs].
      intros a b Ha Hb. apply suffix2_inj; auto.
    + apply NoDup_map_NoDup_ForallPairs; [|now apply NoDup_filter].
      intros a b Ha Hb. apply in_filter_not in Ha, Hb.
      apply suffix3_inj; apply Hplain; tauto.
    + intros x H2 H3. apply in_map_iff in H2, H3.
      destruct H2 as [a [Ea Ha]], H3 as [b [Eb Hb]]. subst x.
      apply in_filter_not in Hb. symmetry in Eb.
      apply (suffix2_not_suffix3 a b); auto. apply Hplain. tauto.
  - intros x Hx Hx'. apply Hplain in Hx. apply in_app_iff in Hx'.
    destruct Hx' as [Hx'|Hx']; apply in_map_iff in Hx'; destruct Hx' as [a [Ea _]];
      subst x.
    + rewrite suffix2_marked in Hx. discriminate.
    + rewrite suffix3_marked in Hx. discriminate.
Qed.

Lemma cpeg_expansion_well_formed_witness :
  exists V E,
    CPEG.expand_network (nodes net_diamond) (edges net_diamond) (compute_nodes net_diamond)
      (compute_capacities net_diamond) "A"%string "D"%string = Ok (V, E)
    /\ (forall u v x l, In (u, v, x, l) E -> In u V /\ In v V)
    /\ NoDup V.
Proof.
  eexists _, _. split; [reflexivity|].
  destruct (cpeg_expansion_well_formed (nodes net_diamond) (edges net_diamond)
              (compute_nodes net_diamond) (compute_capacities net_diamond)
              "A"%string "D"%string _ _ eq_refl) as [Hclosed Hnodup].
  split.
  - apply Hclosed.
    + apply (vn_endpoints net_diamond_valid).
    + apply (vn_compute net_diamond_valid).
    + simpl. intros [H|[H|[]]]; discriminate.
  - apply Hnodup.
    + simpl. nodup_dec.
    + apply (vn_compute_set net_diamond_valid).
    + apply net_diamond_plain.
    + intros c Hc. apply net_diamond_plain. now apply (vn_compute net_diamond_valid).
Defined.

(** X5. The replica expansion is a graph over its own node list, with
    distinct names, under the same conditions and when the destination is
    a node other than the source: both ends of every expanded edge are in
    the returned node list, and no name is listed twice in it. *)
Theorem cne_expansion_well_formed (ns : list node) (es : list edge) (cs : list node)
        (caps : capacities) (s d : node) (V : list node) (E : list xedge) (sd : node) :
  CNE.expand_network ns es cs caps s d = Ok (V, E, sd) ->
  ((forall u v a, In (u, v, a) es -> In u ns /\ In v ns) ->
   (forall c, In c cs -> In c ns) -> ~ In s cs -> In d ns -> d <> s ->
   In sd V /\ forall u v x l, In (u, v, x, l) E -> In u V /\ In v V)
  /\ (NoDup ns -> (forall n, In n ns -> no_underscore n = true) ->
      no_underscore d = true -> NoDup V).
Proof.
  intros H. destruct (cne_expand_inv _ _ _ _ _ _ _ _ _ H) as [Hsd [HV HE]]. subst sd V E.
  assert (Hcopy : forall n i, In n ns -> n <> s -> In i (seq 1 (List.length cs)) ->
                              In (suffix_i n i)
                                 (flat_map (fun i => map (fun n => suffix_i n i)
                                                         (filter (fun n => negb (node_eqb n s))
                                                                 ns))
                                           (seq 1 (List.length cs)))).
  { intros n i Hn Hne Hi. apply in_flat_map. exists i. split; [exact Hi|].
    apply (in_map (fun n => suffix_i n i)). now apply in_filter_not. }
  split.
  - intros Hends Hcs Hs Hd Hds. split; [rewrite !in_app_iff; simpl; auto|].
    intros u v x l Hin. rewrite !in_app_iff in Hin. rewrite !in_app_iff.
    destruct Hin as [Hin|[Hin|[Hin|Hin]]].
    + apply in_map_iff in Hin. destruct Hin as [[[u' v'] a] [E Hin]]. inversion E; subst.
      destruct (Hends _ _ _ Hin). auto.
    + apply in_flat_map in Hin. destruct Hin as [i [Hi Hin]].
      apply in_map_iff in Hin. destruct Hin as [[[u' v'] a] [E Hin]]. inversion E; subst.
      apply in_filter_untouched in Hin. destruct Hin as [Hin [Hu Hv]].
      destruct (Hends _ _ _ Hin). split; right; left; auto.
    + apply in_map_iff in Hin. destruct Hin as [[i c] [E Hin]]. simpl in E.
      injection E as <- <- <- <-. pose proof (in_combine_l _ _ _ _ Hin) as Hi.
      pose proof (in_combine_r _ _ _ _ Hin) as Hc. split; [auto|].
      right. left. apply Hcopy; auto. intros Ec. subst c. contradiction.
    + apply in_map_iff in Hin. destruct Hin as [i [E Hi]]. inversion E; subst.
      split; [right; left; auto|]. right. right. now left.
  - intros Hns Hplain Hd.
    apply NoDup_app; [exact Hns| |].
    + apply NoDup_app.
      * apply flat_map_nodup.
        -- apply seq_NoDup.
        -- intros i _. apply NoDup_map_NoDup_ForallPairs; [|now apply NoDup_filter].
           intros a b Ha Hb E. apply in_filter_not in Ha, Hb.
           apply (suffix_i_inj a b i i); auto; apply Hplain; tauto.
        -- intros i j x _ _ Hi Hj. apply in_map_iff in Hi, Hj.
           destruct Hi as [a [Ea Ha]], Hj as [b [Eb Hb]]. subst x.
           apply in_filter_not in Ha, Hb. symmetry in Eb.
           apply (suffix_i_inj a b i j); auto; apply Hplain; tauto.
      * constructor; [intros []|constructor].
      * intros x Hx [Hx'|[]]. subst x. apply in_flat_map in Hx.
        destruct Hx as [i [_ Hx]]. apply in_map_iff in Hx. destruct Hx as [a [Ea Ha]].
        apply in_filter_not in Ha.
        apply (suffix_i_not_super a d i); auto. apply Hplain. tauto.
    + intros x Hx Hx'. apply Hplain in Hx. apply in_app_iff in Hx'.
      destruct Hx' as [Hx'|[Hx'|[]]].
      * apply in_flat_map in Hx'. destruct Hx' as [i [_ Hx']].
        apply in_map_iff in Hx'. destruct Hx' as [a [Ea _]]. subst x.
        rewrite suffix_i_marked in Hx. discriminate.
      * subst x. rewrite super_dest_marked in Hx. discriminate.
Qed.

Lemma cne_expansion_well_formed_witness :
  exists V E sd,
    CNE.expand_network (nodes net_diamond) (edges net_diamond) (compute_nodes net_diamond)
      (compute_capacities net_diamond) "A"%string "D"%string = Ok (V, E, sd)
    /\ (In sd V /\ forall u v x l, In (u, v, x, l) E -> In u V /\ In v V)
    /\ NoDup V.
Proof.
  eexists _, _, _. split; [reflexivity|].
  destruct (cne_expansion_well_formed (nodes net_diamond) (edges net_diamond)
              (compute_nodes net_diamond) (compute_capacities net_diamond)
              "A"%string "D"%string _ _ _ eq_refl) as [Hclosed Hnodup].
  split.
  - apply Hclosed.
    + apply (vn_endpoints net_diamond_valid).
    + apply (vn_compute net_diamond_valid).
    + simpl. intros [H|[H|[]]]; discriminate.
    + simpl. auto.
    + discriminate.
  - apply Hnodup.
    + simpl. nodup_dec.
    + apply net_diamond_plain.
    + reflexivity.
Defined.

(** ** The CPEG script: what its result means and when it fails *)

Section LayeredRoutes.
Variable net : Network.
Variable fl : FlowRequest.
Hypothesis Hnet : valid_network net.
Hypothesis Hfl : valid_flow net fl.
Hypothesis Hplain : plain_names net.

Local Abbreviation S := (source_node fl).
Local Abbreviation D := (destination_node fl).

(** a walk that starts in layer D stays there: it is the copy of a walk
    of the network that avoids the source *)
Lemma cpeg_downstream_shape (s t : node) (p : list node) (W : Q) :
  walk (cpeg_adj net fl) fst s p t W ->
  forall x, s = suffix3 x -> no_underscore x = true -> x <> S ->
            exists y p2, t = suffix3 y /\ no_underscore y = true
                         /\ walk (edges net) (dcl_weight fl) x p2 y W
                         /\ ~ In S p2 /\ p = map suffix3 p2.
Proof.
  induction 1 as [s|u v a p t W Hin Hw IH]; intros x Hs Hx HxS.
  - exists x, [x]. subst s. repeat split; auto; [apply walk_nil|].
    intros [E|[]]. now elim HxS.
  - subst u. apply in_cpeg_adj in Hin. destruct Hin as [H|[H|[H|H]]].
    + apply in_ucl_edges in H. destruct H as [a0 [Hin _]].
      destruct (edge_plain net Hnet Hplain _ _ _ Hin) as [Hp _].
      rewrite suffix3_marked in Hp. discriminate.
    + apply in_ucl_cl_edges in H. destruct H as [Hc _].
      pose proof (compute_plain net Hnet Hplain _ Hc) as Hp.
      rewrite suffix3_marked in Hp. discriminate.
    + apply in_cl_dcl_edges in H. destruct H as [c [Hc [Hu _]]].
      symmetry in Hu.
      now apply (suffix2_not_suffix3 c x (compute_plain net Hnet Hplain c Hc) Hx) in Hu.
    + apply in_dcl_edges in H.
      destruct H as [u0 [v0 [a0 [Hin [Hu0 [Hv0 [Hu [Hv Ha]]]]]]]].
      destruct (edge_plain net Hnet Hplain _ _ _ Hin) as [Hpu Hpv].
      apply (suffix3_inj _ _ Hx Hpu) in Hu. subst u0 a.
      destruct (IH v0 Hv Hpv Hv0) as [y [p2 [Ht [Hy [Hw2 [Hns Hp]]]]]].
      exists y, (x :: p2). repeat split; auto.
      * simpl. apply walk_cons with (v := v0) (a := a0); auto.
      * intros [E|E]; [now elim HxS|contradiction].
      * simpl. now rewrite Hp.
Qed.

(** a walk from an original node to the downstream copy of the
    destination: a forward part in layer U, the two edges of one compute
    node, a return part in layer D *)
Lemma cpeg_upstream_shape (s t : node) (p : list node) (W : Q) :
  walk (cpeg_adj net fl) fst s p t W ->
  no_underscore s = true -> t = suffix3 D ->
  exists c p1 p2 W1 W2,
    In c (compute_nodes net)
    /\ walk (edges net) (ucl_weight fl) s p1 c W1
    /\ ~ In D (tl p1)
    /\ walk (edges net) (dcl_weight fl) c p2 D W2
    /\ ~ In S p2
    /\ W == W1 + cl_weight net fl c + W2
    /\ p = p1 ++ suffix2 c :: map suffix3 p2.
Proof.
  pose proof (Hplain _ (vf_dest Hfl)) as HpD.
  induction 1 as [s|u v a p t W Hin Hw IH]; intros Hs Ht.
  - subst s. rewrite suffix3_marked in Hs. discriminate.
  - apply in_cpeg_adj in Hin. destruct Hin as [H|[H|[H|H]]].
    + apply in_ucl_edges in H. destruct H as [a0 [Hin [HvD Ha]]]. subst a.
      destruct (edge_plain net Hnet Hplain _ _ _ Hin) as [_ Hpv].
      destruct (IH Hpv Ht) as [c [p1 [p2 [W1 [W2 [Hc [H1 [Hd [H2 [Hns [HW Hp]]]]]]]]]]].
      exists c, (u :: p1), p2, (ucl_weight fl a0 + W1), W2.
      repeat split; auto.
      * apply walk_cons with (v := v) (a := a0); auto.
      * simpl. destruct (walk_head _ _ _ _ _ _ _ H1) as [r Hr]. subst p1.
        simpl in Hd. intros [E|E]; [now elim HvD|contradiction].
      * simpl. lra.
      * simpl. now rewrite Hp.
    + apply in_ucl_cl_edges in H. destruct H as [Hc [Hv Ha]]. subst v a.
      pose proof (compute_plain net Hnet Hplain u Hc) as Hpu.
      remember (suffix2 u) as m eqn:Hm.
      destruct Hw as [m|m v' a' p' t W' Hin' Hw']; subst m.
      * now apply (suffix2_not_suffix3 u D Hpu HpD) in Ht.
      * apply in_cpeg_adj in Hin'. destruct Hin' as [H|[H|[H|H]]].
        -- apply in_ucl_edges in H. destruct H as [a0 [Hin _]].
           destruct (edge_plain net Hnet Hplain _ _ _ Hin) as [Hp _].
           rewrite suffix2_marked in Hp. discriminate.
        -- apply in_ucl_cl_edges in H. destruct H as [Hc' _].
           pose proof (compute_plain net Hnet Hplain _ Hc') as Hp.
           rewrite suffix2_marked in Hp. discriminate.
        -- apply in_cl_dcl_edges in H. destruct H as [c' [Hc' [Hm [Hv' Ha']]]].
           apply (suffix2_inj _ _ Hpu (compute_plain net Hnet Hplain c' Hc')) in Hm.
           subst c' v' a'.
           destruct (cpeg_downstream_shape _ _ _ _ Hw' u eq_refl Hpu
                       (compute_not_source net fl Hfl u Hc))
             as [y [p2 [Hy [Hpy [H2 [Hns Hp]]]]]].
           rewrite Ht in Hy. apply (suffix3_inj _ _ HpD Hpy) in Hy. subst y.
           exists u, [u], p2, 0, W'. repeat split; auto.
           ++ apply walk_nil.
           ++ simpl. lra.
           ++ simpl. now rewrite Hp.
        -- apply in_dcl_edges in H. destruct H as [u0 [v0 [a0 [Hin [_ [_ [Hm _]]]]]]].
           destruct (edge_plain net Hnet Hplain _ _ _ Hin) as [Hp _].
           now apply (suffix2_not_suffix3 u u0 Hpu Hp) in Hm.
    + apply in_cl_dcl_edges in H. destruct H as [c [_ [Hu _]]].
      subst u. rewrite suffix2_marked in Hs. discriminate.
    + apply in_dcl_edges in H. destruct H as [u0 [v0 [a0 [_ [_ [_ [Hu _]]]]]]].
      subst u. rewrite suffix3_marked in Hs. discriminate.
Qed.

Lemma cl_weight_capacity (c : node) (cap : Q) :
  caps_lookup (compute_capacities net) c = Some cap ->
  cl_weight net fl c = omega fl * flow_size fl / cap.
Proof. intros H. unfold cl_weight, caps_get. now rewrite H. Qed.

(** every walk from the source to the downstream copy of the destination
    is a layered route *)
Lemma cpeg_walk_is_route (p : list node) (W : Q) :
  walk (cpeg_adj net fl) fst S p (suffix3 D) W ->
  exists c p1 p2 W1 W2 cap,
    layered_route net fl c p1 p2 W1 W2
    /\ caps_lookup (compute_capacities net) c = Some cap
    /\ p = p1 ++ suffix2 c :: map suffix3 p2
    /\ W == W1 + omega fl * flow_size fl / cap + W2.
Proof.
  intros Hw.
  destruct (cpeg_upstream_shape _ _ _ _ Hw (Hplain _ (vf_source Hfl)) eq_refl)
    as [c [p1 [p2 [W1 [W2 [Hc [H1 [Hd [H2 [Hns [HW Hp]]]]]]]]]]].
  destruct (walk_reweigh _ _ (ucl_weight fl) (forward_delay fl) _ _ _ _
              (fun u v a _ => forward_delay_ucl fl a) H1) as [F1 [Hf1 HF1]].
  destruct (walk_reweigh _ _ (dcl_weight fl) (return_delay fl) _ _ _ _
              (fun u v a _ => return_delay_dcl fl a) H2) as [R2 [Hr2 HR2]].
  destruct (compute_capacity net Hnet c Hc) as [cap [Hcap _]].
  exists c, p1, p2, F1, R2, cap.
  split; [repeat split; auto|]. split; [exact Hcap|]. split; [exact Hp|].
  rewrite <- (cl_weight_capacity c cap Hcap). lra.
Qed.

(** and every layered route is such a walk *)
Lemma layered_route_is_walk (c : node) (p1 p2 : list node) (W1 W2 cap : Q) :
  layered_route net fl c p1 p2 W1 W2 ->
  caps_lookup (compute_capacities net) c = Some cap ->
  exists p W, walk (cpeg_adj net fl) fst S p (suffix3 D) W
              /\ W == W1 + omega fl * flow_size fl / cap + W2.
Proof.
  intros [[Hc [H1 H2]] [Hd Hns]] Hcap.
  destruct (walk_reweigh _ _ (forward_delay fl) (ucl_weight fl) _ _ _ _
              (fun u v a _ => Qeq_sym _ _ (forward_delay_ucl fl a)) H1) as [F1 [Hf1 HF1]].
  destruct (walk_reweigh _ _ (return_delay fl) (dcl_weight fl) _ _ _ _
              (fun u v a _ => Qeq_sym _ _ (return_delay_dcl fl a)) H2) as [R2 [Hr2 HR2]].
  destruct (embed_route net fl c p1 p2 F1 R2 Hc Hf1 Hd Hr2 Hns)
    as [p [W [Hw HW]]].
  exists p, W. split; [exact Hw|].
  rewrite <- (cl_weight_capacity c cap Hcap). lra.
Qed.
End LayeredRoutes.

(** X6. How to read the result of the CPEG script.  On a valid network
    with underscore-free names, a returned path is a forward path of the
    network from the source to one compute node [c] that enters the
    destination nowhere, then the middle copy of [c], then the downstream
    copies of a return path from [c] to the destination that avoids the
    source; the returned delay is the running sum along this route: the
    weights [d_uv] gives the links of the forward path, then the compute
    step of [c], then the zero link, then the weights [d_uv] gives the
    links of the return path, added in this order. *)
Theorem cpeg_result_decoded (net : Network) (fl : FlowRequest) (p : list node) (w : Q) :
  valid_network net -> valid_flow net fl -> plain_names net ->
  CPEG_script.run net fl = Ok (p, w) ->
  exists c p1 p2,
    In c (compute_nodes net)
    /\ leads net (source_node fl) p1 c /\ ~ In (destination_node fl) (tl p1)
    /\ leads net c p2 (destination_node fl) /\ ~ In (source_node fl) p2
    /\ p = p1 ++ suffix2 c :: map suffix3 p2
    /\ cpeg_delay net fl c p1 p2 w.
Proof.
  intros Hnet Hfl Hplain Hr.
  destruct (cpeg_run_cases net fl Hnet Hplain) as [[p0 [w0 [W0 [Hr0 [Hw0 HW0]]]]]|[He|He]];
    [|rewrite He in Hr; discriminate..].
  rewrite Hr0 in Hr. inversion Hr; subst p0 w0.
  destruct (cpeg_upstream_shape net fl Hnet Hfl Hplain _ _ p W0 Hw0
              (Hplain _ (vf_source Hfl)) eq_refl)
    as [c [p1 [p2 [W1 [W2 [Hc [H1 [Hnd [H2 [Hns [_ Hp]]]]]]]]]]].
  exists c, p1, p2. split; [exact Hc|].
  split; [exact (walk_any_weight _ _ _ (fun _ => 0) _ _ _ _ H1)|]. split; [exact Hnd|].
  split; [exact (walk_any_weight _ _ _ (fun _ => 0) _ _ _ _ H2)|]. split; [exact Hns|].
  split; [exact Hp|].
  apply (sum_along_route net fl Hnet Hplain c p1 p2 _ _ W1 W2 Hc H1 Hnd H2 Hns).
  rewrite <- Hp. exact (cpeg_run_sum net fl Hnet Hplain p w Hr0).
Qed.

Lemma cpeg_result_decoded_witness :
  exists p w,
    CPEG_script.run net_diamond fl_diamond = Ok (p, w)
    /\ exists c p1 p2,
        In c (compute_nodes net_diamond)
        /\ p = p1 ++ suffix2 c :: map suffix3 p2
        /\ cpeg_delay net_diamond fl_diamond c p1 p2 w.
Proof.
  assert (H : { x | CPEG_script.run net_diamond fl_diamond = Ok x })
    by (eexists; vm_compute; reflexivity).
  destruct H as [[p w] H]. exists p, w. split; [exact H|].
  destruct (cpeg_result_decoded net_diamond fl_diamond p w
              net_diamond_valid fl_diamond_valid net_diamond_plain H)
    as [c [p1 [p2 [Hc [_ [_ [_ [_ [Hp Hd]]]]]]]]].
  exists c, p1, p2. auto.
Defined.

(** X7. The search of the CPEG script is exact over the layered routes:
    on a valid network with underscore-free names, whenever some compute
    node [c] has a forward path from the source that enters the
    destination nowhere and a return path to the destination that avoids
    the source, the script returns, and its delay is at most the running
    sum along that route (the weights [d_uv] gives its links and the
    compute step of [c], added in path order). *)
Theorem cpeg_exact_over_layered_routes (net : Network) (fl : FlowRequest)
        (c : node) (p1 p2 : list node) :
  valid_network net -> valid_flow net fl -> plain_names net ->
  In c (compute_nodes net) ->
  leads net (source_node fl) p1 c -> ~ In (destination_node fl) (tl p1) ->
  leads net c p2 (destination_node fl) -> ~ In (source_node fl) p2 ->
  exists W p w,
    cpeg_delay net fl c p1 p2 W /\ CPEG_script.run net fl = Ok (p, w) /\ w <= W.
Proof.
  intros Hnet Hfl Hplain Hc [A1 H1] Hnd [A2 H2] Hns.
  destruct (walk_any_weight _ _ _ (ucl_weight fl) _ _ _ _ H1) as [W1 Hw1].
  destruct (walk_any_weight _ _ _ (dcl_weight fl) _ _ _ _ H2) as [W2 Hw2].
  destruct (cpeg_delay_exists net fl Hnet c p1 p2 W1 W2 Hw1 Hw2) as [W [HW _]].
  destruct (cpeg_run_le_delay net fl Hnet Hfl Hplain c p1 p2 W1 W2 W Hc Hw1 Hnd Hw2 Hns HW)
    as [q [w [Hr Hle]]].
  exists W, q, w. auto.
Qed.

Lemma cpeg_exact_over_layered_routes_witness :
  exists W p w,
    cpeg_delay net_diamond fl_diamond "B"%string ["A"; "B"]%string ["B"; "D"]%string W
    /\ CPEG_script.run net_diamond fl_diamond = Ok (p, w) /\ w <= W.
Proof.
  apply (cpeg_exact_over_layered_routes net_diamond fl_diamond "B"%string
           ["A"; "B"]%string ["B"; "D"]%string
           net_diamond_valid fl_diamond_valid net_diamond_plain).
  - simpl. auto.
  - eexists. apply walk_cons with (v := "B"%string) (a := mk_attrs 1000 1 (1 # 10) 0 0);
      [simpl; auto|apply walk_nil].
  - simpl. intros [H|[]]. discriminate.
  - eexists. apply walk_cons with (v := "D"%string) (a := mk_attrs 1000 1 (1 # 10) 0 0);
      [simpl; auto|apply walk_nil].
  - simpl. intros [H|[H|[]]]; discriminate.
Defined.

(** the source is a node of the graph the script builds exactly when
    some edge that survives in layer U starts or ends at it *)
Lemma cpeg_source_in_graph (net : Network) (fl : FlowRequest) :
  valid_network net -> valid_flow net fl -> plain_names net ->
  has_node (add_edges_from (empty_graph CPEG_script.xattr) (cpeg_adj net fl))
           (source_node fl) = true
  <-> exists u v a, In (u, v, a) (edges net) /\ v <> destination_node fl
                    /\ (u = source_node fl \/ v = source_node fl).
Proof.
  intros Hnet Hfl Hplain.
  pose proof (Hplain _ (vf_source Hfl)) as HpS.
  rewrite has_node_In, add_edges_from_nodes. split.
  - intros [[]|[u [v [x [Hin Hs]]]]].
    apply in_cpeg_adj in Hin. destruct Hin as [H|[H|[H|H]]].
    + apply in_ucl_edges in H. destruct H as [a [Hin [Hv _]]].
      exists u, v, a. intuition.
    + apply in_ucl_cl_edges in H. destruct H as [Hc [Hv _]]. exfalso.
      destruct Hs as [Hs|Hs].
      * subst u. now apply (vf_source_plain Hfl).
      * rewrite Hs, Hv, suffix2_marked in HpS. discriminate.
    + apply in_cl_dcl_edges in H. destruct H as [c [_ [Hu [Hv _]]]]. exfalso.
      destruct Hs as [Hs|Hs]; rewrite Hs in HpS.
      * rewrite Hu, suffix2_marked in HpS. discriminate.
      * rewrite Hv, suffix3_marked in HpS. discriminate.
    + apply in_dcl_edges in H. destruct H as [u0 [v0 [a [_ [_ [_ [Hu [Hv _]]]]]]]].
      exfalso. destruct Hs as [Hs|Hs]; rewrite Hs in HpS.
      * rewrite Hu, suffix3_marked in HpS. discriminate.
      * rewrite Hv, suffix3_marked in HpS. discriminate.
  - intros [u [v [a [Hin [Hv Hs]]]]]. right.
    exists u, v, (ucl_weight fl a, "C-UCL"%string). split; [|intuition].
    apply in_cpeg_adj. left. apply in_ucl_edges. exists a. auto.
Qed.

(** the three ways the script ends, told apart by the presence of the
    source in the graph *)
Lemma cpeg_run_by_source (net : Network) (fl : FlowRequest) :
  valid_network net -> plain_names net ->
  let G := add_edges_from (empty_graph CPEG_script.xattr) (cpeg_adj net fl) in
  (has_node G (source_node fl) = false
   /\ CPEG_script.run net fl = Raise NodeNotFound)
  \/ (has_node G (source_node fl) = true
      /\ (CPEG_script.run net fl = Raise NetworkXNoPath
          \/ exists p w W, CPEG_script.run net fl = Ok (p, w)
                           /\ walk (cpeg_adj net fl) fst (source_node fl) p
                                   (suffix3 (destination_node fl)) W
                           /\ w == W)).
Proof.
  intros Hnet Hplain G. unfold CPEG_script.run.
  rewrite (build_graph_ok net fl Hnet Hplain). cbn [bind]. fold G.
  assert (Hadj : g_adj G = cpeg_adj net fl) by (apply cpeg_graph_adj; auto).
  change (destination_node fl ++ "_3")%string with (suffix3 (destination_node fl)).
  unfold dijkstra_path. unfold CPEG_script.xattr in *.
  destruct (has_node G (source_node fl)); cbn [negb]; [right|left; auto].
  split; [reflexivity|].
  destruct (search fst G (source_node fl) (suffix3 (destination_node fl)))
    as [[d q]|] eqn:Hs; [|now left].
  cbn [bind]. right.
  destruct (search_sound _ _ _ _ _ _ _ Hs) as [W [Hw HW]].
  assert (Hk : NoDup (map edge_key (g_adj G))).
  { rewrite Hadj. apply cpeg_keys_nodup; auto. }
  assert (Hf : forall u v (a : Q * string), In (u, v, a) (g_adj G) ->
                 exists x, (fun a : Q * string => Ok (fst a)) a = Ok x /\ x == fst a).
  { intros u v a _. exists (fst a). split; [reflexivity|lra]. }
  destruct (sum_along_walk _ G _ fst _ _ _ _ Hk Hf Hw 0) as [x [Hx Hxw]].
  rewrite Hx. cbn [bind]. rewrite Hadj in Hw.
  exists (rev q), x, W. split; [reflexivity|]. split; [exact Hw|lra].
Qed.

(** X8. The two ways the CPEG script fails, on a valid network with
    underscore-free names.  The search raises [NodeNotFound] exactly when
    no edge that survives in layer U (an edge that does not enter the
    destination) starts or ends at the source: such a source is not a node
    of the graph, which is built from edges only.  It raises
    [NetworkXNoPath] exactly when the source has such an edge but no
    compute node has a layered route.  The script raises nothing else,
    and catches neither. *)
Theorem cpeg_failure_modes (net : Network) (fl : FlowRequest) :
  valid_network net -> valid_flow net fl -> plain_names net ->
  (CPEG_script.run net fl = Raise NodeNotFound
   <-> forall u v a, In (u, v, a) (edges net) -> v <> destination_node fl ->
                     u <> source_node fl /\ v <> source_node fl)
  /\ (CPEG_script.run net fl = Raise NetworkXNoPath
      <-> (exists u v a, In (u, v, a) (edges net) /\ v <> destination_node fl
                         /\ (u = source_node fl \/ v = source_node fl))
          /\ forall c p1 p2 W1 W2, ~ layered_route net fl c p1 p2 W1 W2)
  /\ forall e, CPEG_script.run net fl = Raise e -> e = NodeNotFound \/ e = NetworkXNoPath.
Proof.
  intros Hnet Hfl Hplain.
  pose proof (cpeg_source_in_graph net fl Hnet Hfl Hplain) as Hsrc.
  pose proof (cpeg_run_by_source net fl Hnet Hplain) as Hrun. cbv zeta in Hrun.
  set (G := add_edges_from (empty_graph CPEG_script.xattr) (cpeg_adj net fl)) in *.
  split; [|split].
  - split.
    + intros He u v a Hin Hv.
      assert (Hno : has_node G (source_node fl) = false).
      { destruct Hrun as [[Hn _]|[_ [H|[p [w [W [H _]]]]]]]; [exact Hn| |];
          rewrite H in He; discriminate. }
      split; intros E; assert (Ht : has_node G (source_node fl) = true)
        by (apply Hsrc; exists u, v, a; auto); congruence.
    + intros Hall. destruct Hrun as [[_ H]|[Hn _]]; [exact H|].
      apply Hsrc in Hn. destruct Hn as [u [v [a [Hin [Hv Hs]]]]].
      destruct (Hall u v a Hin Hv). tauto.
  - split.
    + intros He. split.
      * apply Hsrc. destruct Hrun as [[_ H]|[Hn _]]; [|exact Hn].
        rewrite H in He. discriminate.
      * intros c p1 p2 W1 W2 Hroute.
        destruct Hroute as [[Hc [H1 H2]] [Hd Hns]].
        destruct (compute_capacity net Hnet c Hc) as [cap [Hcap _]].
        destruct (layered_route_is_walk net fl c p1 p2 W1 W2 cap
                    (conj (conj Hc (conj H1 H2)) (conj Hd Hns)) Hcap) as [p [W [Hw _]]].
        destruct (cpeg_run_optimal net fl Hnet Hfl Hplain p W Hw) as [q [w [Hr _]]].
        rewrite Hr in He. discriminate.
    + intros [Hedge Hnone]. apply Hsrc in Hedge.
      destruct Hrun as [[Hn _]|[_ [H|[p [w [W [_ [Hw _]]]]]]]]; [congruence|exact H|].
      exfalso.
      destruct (cpeg_walk_is_route net fl Hnet Hfl Hplain p W Hw)
        as [c [p1 [p2 [W1 [W2 [cap [Hroute _]]]]]]].
      exact (Hnone _ _ _ _ _ Hroute).
  - intros e He.
    destruct Hrun as [[_ H]|[_ [H|[p [w [W [H _]]]]]]]; rewrite H in He;
      inversion He; auto.
Qed.

Lemma cpeg_failure_modes_witness :
  (CPEG_script.run net_no_compute fl_no_compute = Raise NetworkXNoPath
   <-> (exists u v a, In (u, v, a) (edges net_no_compute)
                      /\ v <> destination_node fl_no_compute
                      /\ (u = source_node fl_no_compute \/ v = source_node fl_no_compute))
       /\ forall c p1 p2 W1 W2, ~ layered_route net_no_compute fl_no_compute c p1 p2 W1 W2).
Proof.
  exact (proj1 (proj2 (cpeg_failure_modes net_no_compute fl_no_compute
                         net_no_compute_valid fl_no_compute_valid net_no_compute_plain))).
Defined.

(** ** The graph object of the CPEG script *)

Lemma mapM_In_rev (A B : Type) (f : A -> result B) (l : list A) (r : list B) :
  mapM f l = Ok r -> forall x, In x l -> exists y, In y r /\ f x = Ok y.
Proof.
  revert r. induction l as [|x l IH]; simpl; intros r H z Hz; [contradiction|].
  destruct (f x) as [y|] eqn:Hy; [|discriminate]. cbn [bind] in H.
  destruct (mapM f l) as [ys|]; [|discriminate]. cbn [bind] in H.
  inversion H; subst. destruct Hz as [Hz|Hz].
  - subst. exists y. split; [now left|exact Hy].
  - destruct (IH ys eq_refl z Hz) as [y' [Hy' Hf]]. exists y'. split; [now right|exact Hf].
Qed.

Lemma add_node_nodup (A : Type) (G : DiGraph A) (n : node) :
  NoDup (g_nodes G) -> NoDup (g_nodes (add_node G n)).
Proof.
  intros H. unfold add_node. destruct (has_node G n) eqn:E; [exact H|]. simpl.
  apply NoDup_app; [exact H|constructor; [intros []|constructor]|].
  intros x Hx [Hn|[]]. subst x. apply has_node_In in Hx. congruence.
Qed.

Lemma add_edges_from_nodup (A : Type) (es : list (node * node * A)) (G : DiGraph A) :
  NoDup (g_nodes G) -> NoDup (g_nodes (add_edges_from G es)).
Proof.
  unfold add_edges_from. revert G. induction es as [|[[u v] a] r IH]; intros G H; simpl.
  - exact H.
  - apply IH. unfold add_edge. simpl. now apply add_node_nodup, add_node_nodup.
Qed.

Lemma weigh_edge_ends (caps : capacities) (f g o : Q) (u v : node) (d : edge_data)
      (l : string) (y : node * node * CPEG_script.xattr) :
  CPEG_script.weigh_edge caps f g o (u, v, d, l) = Ok y ->
  exists w, y = (u, v, (w, l)).
Proof.
  unfold CPEG_script.weigh_edge.
  destruct (CPEG_algorithm.d_uv caps f g o u v l d) as [w|]; [|discriminate].
  cbn [bind]. intros H. inversion H. eauto.
Qed.

(** X9. The counts the CPEG script prints.  On a valid network with
    underscore-free names no two expanded edges join the same pair of
    nodes, so [E_count] is the length of the expanded edge list.  The
    graph is built from the edges alone (the node list the expansion
    returns is never added to it): its nodes are exactly the ends of the
    expanded edges, and [V_count] is at most the length of the expanded
    node list. *)
Theorem cpeg_graph_counts (net : Network) (fl : FlowRequest) :
  valid_network net -> valid_flow net fl -> plain_names net ->
  exists G V E,
    CPEG_script.build_graph net fl = Ok G
    /\ CPEG.expand_network (nodes net) (edges net) (compute_nodes net)
         (compute_capacities net) (source_node fl) (destination_node fl) = Ok (V, E)
    /\ E_count G = List.length E
    /\ (V_count G <= List.length V)%nat
    /\ forall n, In n (g_nodes G)
                 <-> exists u v x l, In (u, v, x, l) E /\ (n = u \/ n = v).
Proof.
  intros Hnet Hfl Hplain.
  destruct (CPEG.expand_network (nodes net) (edges net) (compute_nodes net)
              (compute_capacities net) (source_node fl) (destination_node fl))
    as [[V E]|] eqn:HE; [|rewrite (expand_network_ok net fl Hnet) in HE; discriminate].
  pose proof (weigh_expanded net fl Hnet Hplain V E HE) as Hw.
  exists (add_edges_from (empty_graph CPEG_script.xattr) (cpeg_adj net fl)), V, E.
  assert (Hnodes : forall n,
             In n (g_nodes (add_edges_from (empty_graph CPEG_script.xattr)
                                           (cpeg_adj net fl)))
             <-> exists u v x l, In (u, v, x, l) E /\ (n = u \/ n = v)).
  { intros n. rewrite add_edges_from_nodes. split.
    - intros [[]|[u [v [a [Hin Hn]]]]].
      destruct (mapM_In _ _ _ _ _ Hw _ Hin) as [[[[u' v'] d] l] [Hin' Hf]].
      destruct (weigh_edge_ends _ _ _ _ _ _ _ _ _ Hf) as [w Ew]. inversion Ew; subst.
      exists u', v', d, l. auto.
    - intros [u [v [x [l [Hin Hn]]]]]. right.
      destruct (mapM_In_rev _ _ _ _ _ Hw _ Hin) as [y [Hy Hf]].
      destruct (weigh_edge_ends _ _ _ _ _ _ _ _ _ Hf) as [w Ew]. subst y.
      exists u, v, (w, l). auto. }
  split; [apply (build_graph_ok net fl Hnet Hplain)|]. split; [reflexivity|].
  split; [|split; [|exact Hnodes]].
  - unfold E_count. rewrite (cpeg_graph_adj net fl Hnet Hplain).
    apply (mapM_length _ _ _ _ _ Hw).
  - unfold V_count. apply NoDup_incl_length.
    + apply add_edges_from_nodup. constructor.
    + intros n Hn. apply Hnodes in Hn. destruct Hn as [u [v [x [l [Hin Hn]]]]].
      destruct (cpeg_expand_closed _ _ _ _ _ _ _ _ HE (vn_endpoints Hnet)
                  (vn_compute Hnet) (vf_source_plain Hfl) u v x l Hin).
      destruct Hn; now subst.
Qed.

Lemma cpeg_graph_counts_witness :
  exists G V E,
    CPEG_script.build_graph net_diamond fl_diamond = Ok G
    /\ CPEG.expand_network (nodes net_diamond) (edges net_diamond)
         (compute_nodes net_diamond) (compute_capacities net_diamond)
         (source_node fl_diamond) (destination_node fl_diamond) = Ok (V, E)
    /\ E_count G = List.length E
    /\ (V_count G <= List.length V)%nat
    /\ forall n, In n (g_nodes G)
                 <-> exists u v x l, In (u, v, x, l) E /\ (n = u \/ n = v).
Proof.
  exact (cpeg_graph_counts net_diamond fl_diamond
           net_diamond_valid fl_diamond_valid net_diamond_plain).
Defined.

(** ** MPCN: the node of maximum capacity and the two searches *)

Lemma walk_to_map (A B : Type) (g : A -> B) (adj : list (node * node * A))
      (w : B -> Q) (s t : node) (p : list node) (W : Q) :
  walk adj (fun a => w (g a)) s p t W ->
  walk (map (fun e : node * node * A => let '(u, v, a) := e in (u, v, g a)) adj) w s p t W.
Proof.
  induction 1 as [s|u v a p t W Hin Hw IH].
  - apply walk_nil.
  - apply (@walk_cons _ (map (fun e : node * node * A => let '(u, v, a) := e in (u, v, g a))
                              adj)
                        w u v (g a) p t W); [|exact IH].
    apply in_map_iff. exists (u, v, a). auto.
Qed.

(** [max] keeps the first of the items of greatest value *)
Lemma fold_best_keep (l : list (node * Q)) (b : node * Q) :
  (forall y, In y l -> snd y <= snd b) ->
  fold_left (fun best y : node * Q => if Qlt_le_dec (snd best) (snd y) then y else best) l b
  = b.
Proof.
  induction l as [|y l IH]; simpl; intros H; [reflexivity|].
  destruct (Qlt_le_dec (snd b) (snd y)) as [Hlt|Hle].
  - pose proof (H y (or_introl eq_refl)). lra.
  - apply IH. intros z Hz. apply H. now right.
Qed.

Lemma fold_best_first (l1 l2 : list (node * Q)) (z b : node * Q) :
  snd b < snd z ->
  (forall y, In y l1 -> snd y < snd z) ->
  (forall y, In y l2 -> snd y <= snd z) ->
  fold_left (fun best y : node * Q => if Qlt_le_dec (snd best) (snd y) then y else best)
            (l1 ++ z :: l2) b
  = z.
Proof.
  revert b. induction l1 as [|y l1 IH]; simpl; intros b Hb H1 H2.
  - destruct (Qlt_le_dec (snd b) (snd z)) as [Hlt|Hle]; [|lra].
    now apply fold_best_keep.
  - apply IH; auto. destruct (Qlt_le_dec (snd b) (snd y)); auto.
Qed.

Lemma max_item_first (l1 l2 : capacities) (m : node) (cap : Q) :
  (forall c q, In (c, q) l1 -> q < cap) ->
  (forall c q, In (c, q) l2 -> q <= cap) ->
  MPCN.max_item (l1 ++ (m, cap) :: l2) = Ok (m, cap).
Proof.
  intros H1 H2. unfold MPCN.max_item. destruct l1 as [|[c q] l1]; simpl.
  - f_equal. apply fold_best_keep. intros [c q] Hy. simpl. eauto.
  - f_equal. apply fold_best_first.
    + simpl. apply (H1 c q). now left.
    + intros [c' q'] Hy. simpl. apply (H1 c' q'). now right.
    + intros [c' q'] Hy. simpl. eauto.
Qed.

Lemma fold_best_split (l : list (node * Q)) (b : node * Q) :
  exists l1 z l2,
    b :: l = l1 ++ z :: l2
    /\ fold_left (fun best y : node * Q => if Qlt_le_dec (snd best) (snd y) then y else best)
                 l b = z
    /\ (forall y, In y l1 -> snd y < snd z)
    /\ (forall y, In y l2 -> snd y <= snd z).
Proof.
  induction l as [|y l IH] using rev_ind.
  - exists [], b, []. simpl. repeat split; auto; intros y [].
  - destruct IH as [l1 [z [l2 [E [Hf [H1 H2]]]]]].
    rewrite fold_left_app. simpl. rewrite Hf.
    destruct (Qlt_le_dec (snd z) (snd y)) as [Hlt|Hle].
    + exists (l1 ++ z :: l2), y, []. split; [|split; [reflexivity|split]].
      * rewrite app_comm_cons, E. reflexivity.
      * intros x Hx. apply in_app_iff in Hx. destruct Hx as [Hx|[Hx|Hx]].
        -- specialize (H1 x Hx). lra.
        -- subst x. exact Hlt.
        -- specialize (H2 x Hx). lra.
      * intros x [].
    + exists l1, z, (l2 ++ [y]). split; [|split; [reflexivity|split]].
      * rewrite app_comm_cons, E, <- app_assoc. reflexivity.
      * exact H1.
      * intros x Hx. apply in_app_iff in Hx. destruct Hx as [Hx|[Hx|[]]]; [auto|].
        subst x. exact Hle.
Qed.

Lemma max_item_split (d : capacities) :
  d <> [] ->
  exists l1 m cap l2,
    d = l1 ++ (m, cap) :: l2
    /\ MPCN.max_item d = Ok (m, cap)
    /\ (forall c q, In (c, q) l1 -> q < cap)
    /\ (forall c q, In (c, q) l2 -> q <= cap).
Proof.
  destruct d as [|b l]; [congruence|]. intros _.
  destruct (fold_best_split l b) as [l1 [[m cap] [l2 [E [Hf [H1 H2]]]]]].
  exists l1, m, cap, l2. split; [exact E|]. split; [simpl; now rewrite Hf|].
  split; intros c q Hin; [apply (H1 (c, q) Hin)|apply (H2 (c, q) Hin)].
Qed.

Section WeightedSearch.
Variable net : Network.
Hypothesis Hnet : valid_network net.
Variable w : edge_attrs -> Q.
Hypothesis w_nonneg : forall u v a, In (u, v, a) (edges net) -> 0 <= w a.

Local Abbreviation G := (original_graph net).
Local Abbreviation Gw :=
  {| g_nodes := g_nodes (original_graph net);
     g_adj := map (fun e : node * node * edge_attrs =>
                     let '(u, v, d) := e in (u, v, (d, w d)))
                  (g_adj (original_graph net)) |}.

(** a search over the graph with the weights of a callback filled in:
    it returns a path of least weight, or raises [NetworkXNoPath] when
    the target cannot be reached *)
Lemma weighted_search (s t : node) :
  In s (nodes net) -> In t (nodes net) ->
  (exists p W, shortest_path snd Gw s t = Ok p
               /\ walk (edges net) w s p t W
               /\ forall q A, walk (edges net) w s q t A -> W <= A)
  \/ (shortest_path snd Gw s t = Raise NetworkXNoPath
      /\ forall q A, ~ walk (edges net) w s q t A).
Proof.
  intros Hs Ht.
  assert (Hadj : g_adj Gw
                 = map (fun e : node * node * edge_attrs =>
                          let '(u, v, d) := e in (u, v, (d, w d))) (edges net)).
  { simpl. now rewrite (original_adj net Hnet). }
  assert (Hk : NoDup (map edge_key (g_adj Gw))).
  { rewrite Hadj, map_map.
    rewrite (map_ext _ (@edge_key edge_attrs)) by (now intros [[u v] a]).
    apply (vn_simple Hnet). }
  assert (Hnn : forall u v (a : edge_attrs * Q), In (u, v, a) (g_adj Gw) -> 0 <= snd a).
  { rewrite Hadj. intros u v a Hin. apply in_map_iff in Hin.
    destruct Hin as [[[u' v'] d] [E Hin]]. inversion E; subst. simpl. eauto. }
  assert (Hsn : In s (g_nodes Gw)) by (simpl; now apply (original_nodes net Hnet)).
  assert (Htn : In t (g_nodes Gw)) by (simpl; now apply (original_nodes net Hnet)).
  assert (Hto : forall q A, walk (edges net) w s q t A -> walk (g_adj Gw) snd s q t A).
  { intros q A Hq. rewrite Hadj.
    apply (walk_to_map _ _ (fun d : edge_attrs => (d, w d)) (edges net) snd). exact Hq. }
  assert (Hof : forall q A, walk (g_adj Gw) snd s q t A -> walk (edges net) w s q t A).
  { intros q A Hq. rewrite Hadj in Hq.
    apply (walk_of_map _ _ (fun d : edge_attrs => (d, w d))) in Hq. exact Hq. }
  destruct (shortest_path snd Gw s t) as [p|e] eqn:Hp.
  - left. destruct (shortest_path_walk _ _ _ _ _ _ Hp) as [W HW].
    exists p, W. split; [reflexivity|]. split; [now apply Hof|].
    intros q A Hq.
    exact (shortest_path_minimal _ snd Gw Hnn _ _ _ _ Hp HW Hk _ _ (Hto _ _ Hq)).
  - right.
    assert (Hnone : forall q A, ~ walk (edges net) w s q t A).
    { intros q A Hq.
      destruct (shortest_path_found _ snd Gw Hnn _ _ _ _ Hsn Htn (Hto _ _ Hq)) as [p' Hp'].
      congruence. }
    split; [|exact Hnone].
    unfold shortest_path in Hp. apply has_node_In in Hsn, Htn.
    rewrite Hsn, Htn in Hp. simpl in Hp.
    destruct (search snd Gw s t) as [[d q]|]; [discriminate|now symmetry].
Qed.
End WeightedSearch.

Section MPCNSpec.
Variable net : Network.
Variable fl : FlowRequest.
Hypothesis Hnet : valid_network net.
Hypothesis Hfl : valid_flow net fl.

Local Abbreviation G := (original_graph net).
Local Abbreviation S := (source_node fl).
Local Abbreviation D := (destination_node fl).
(** the values of the two weight callbacks *)
Local Abbreviation wf :=
  (fun a : edge_attrs => propagation_delay a + processing_delay a + queuing_delay a
                         + flow_size fl / bandwidth a + jitter a).
Local Abbreviation wr :=
  (fun a : edge_attrs => propagation_delay a + processing_delay a + queuing_delay a
                         + gamma fl * flow_size fl / bandwidth a + jitter a).

Lemma wf_forward (a : edge_attrs) : wf a == forward_delay fl a.
Proof. unfold forward_delay. lra. Qed.

Lemma wr_return (a : edge_attrs) : wr a == return_delay fl a.
Proof. unfold return_delay. lra. Qed.

Lemma wf_nonneg (u v : node) (a : edge_attrs) : In (u, v, a) (edges net) -> 0 <= wf a.
Proof.
  intros Hin. pose proof (ucl_weight_nonneg net fl Hfl a (vn_attrs Hnet _ _ _ Hin)) as H.
  unfold ucl_weight in H. cbv beta. lra.
Qed.

Lemma wr_nonneg (u v : node) (a : edge_attrs) : In (u, v, a) (edges net) -> 0 <= wr a.
Proof.
  intros Hin. pose proof (dcl_weight_nonneg net fl Hfl a (vn_attrs Hnet _ _ _ Hin)) as H.
  unfold dcl_weight in H. cbv beta. lra.
Qed.

(** the body of the [try] of MPCN for the node [m]: the two searches
    return routes of least forward and least return delay, or one of
    them raises [NetworkXNoPath] *)
Lemma mpcn_try_body_spec (m : node) (cap : Q) :
  In m (compute_nodes net) ->
  caps_lookup (compute_capacities net) m = Some cap ->
  (exists p1 p2 F1 R2 t,
      MPCN.try_body G S D m (compute_capacities net) (flow_size fl) (omega fl) (gamma fl)
      = Ok (Some m, Finite t, removelast p1 ++ p2)
      /\ walk (edges net) (forward_delay fl) S p1 m F1
      /\ (forall q A, walk (edges net) (forward_delay fl) S q m A -> F1 <= A)
      /\ walk (edges net) (return_delay fl) m p2 D R2
      /\ (forall q A, walk (edges net) (return_delay fl) m q D A -> R2 <= A)
      /\ t == F1 + R2 + omega fl * flow_size fl / cap)
  \/ (MPCN.try_body G S D m (compute_capacities net) (flow_size fl) (omega fl) (gamma fl)
      = Raise NetworkXNoPath
      /\ forall q1 A1 q2 A2,
          walk (edges net) (forward_delay fl) S q1 m A1 ->
          walk (edges net) (return_delay fl) m q2 D A2 -> False).
Proof.
  intros Hm Hcap. unfold MPCN.try_body.
  rewrite (eval_weights_ok net _ wf (forward_weight_ok net fl Hnet)). cbn [bind].
  destruct (weighted_search net Hnet wf wf_nonneg S m (vf_source Hfl) (vn_compute Hnet m Hm))
    as [[p1 [W1 [Hp1 [Hw1 Hmin1]]]]|[Hp1 Hnone]].
  - rewrite Hp1. cbn [bind].
    rewrite (eval_weights_ok net _ wr (return_weight_ok net fl Hnet)). cbn [bind].
    destruct (weighted_search net Hnet wr wr_nonneg m D (vn_compute Hnet m Hm) (vf_dest Hfl))
      as [[p2 [W2 [Hp2 [Hw2 Hmin2]]]]|[Hp2 Hnone]].
    + left. rewrite Hp2. cbn [bind].
      assert (Hf : forall u v a, In (u, v, a) (g_adj G) ->
                     exists x, MPCN.forward_weight (flow_size fl) a = Ok x /\ x == wf a).
      { intros u v a Hin. rewrite (forward_weight_ok net fl Hnet _ _ _ Hin). eexists.
        split; [reflexivity|lra]. }
      assert (Hr : forall u v a, In (u, v, a) (g_adj G) ->
                     exists x, MPCN.return_weight (flow_size fl) (gamma fl) a = Ok x
                               /\ x == wr a).
      { intros u v a Hin. rewrite (return_weight_ok net fl Hnet _ _ _ Hin). eexists.
        split; [reflexivity|lra]. }
      pose proof Hw1 as Hg1. pose proof Hw2 as Hg2.
      rewrite <- (original_adj net Hnet) in Hg1, Hg2.
      destruct (sum_along_walk _ G _ _ _ _ _ _ (original_keys net Hnet) Hf Hg1 0)
        as [x [Hx Hxw]].
      destruct (sum_along_walk _ G _ _ _ _ _ _ (original_keys net Hnet) Hr Hg2 0)
        as [y [Hy Hyw]].
      rewrite Hx. cbn [bind]. rewrite Hy. cbn [bind].
      rewrite (compute_delay_ok net fl Hnet m Hm). cbn [bind].
      destruct (walk_reweigh _ _ wf (forward_delay fl) _ _ _ _
                  (fun u v a _ => Qeq_sym _ _ (wf_forward a)) Hw1) as [F1 [Hf1 HF1]].
      destruct (walk_reweigh _ _ wr (return_delay fl) _ _ _ _
                  (fun u v a _ => Qeq_sym _ _ (wr_return a)) Hw2) as [R2 [Hr2 HR2]].
      exists p1, p2, F1, R2, (x + y + cl_weight net fl m).
      split; [reflexivity|]. split; [exact Hf1|]. split; [|split; [exact Hr2|split]].
      * intros q A Hq.
        destruct (walk_reweigh _ _ (forward_delay fl) wf _ _ _ _
                    (fun u v a _ => wf_forward a) Hq) as [A' [Hq' HA']].
        specialize (Hmin1 _ _ Hq'). lra.
      * intros q A Hq.
        destruct (walk_reweigh _ _ (return_delay fl) wr _ _ _ _
                    (fun u v a _ => wr_return a) Hq) as [A' [Hq' HA']].
        specialize (Hmin2 _ _ Hq'). lra.
      * unfold cl_weight, caps_get. rewrite Hcap. lra.
    + right. rewrite Hp2. split; [reflexivity|].
      intros q1 A1 q2 A2 _ Hq.
      destruct (walk_reweigh _ _ (return_delay fl) wr _ _ _ _
                  (fun u v a _ => wr_return a) Hq) as [A' [Hq' _]].
      exact (Hnone _ _ Hq').
  - right. rewrite Hp1. split; [reflexivity|].
    intros q1 A1 q2 A2 Hq _.
    destruct (walk_reweigh _ _ (forward_delay fl) wf _ _ _ _
                (fun u v a _ => wf_forward a) Hq) as [A' [Hq' _]].
    exact (Hnone _ _ Hq').
Qed.
End MPCNSpec.

(** X10. What MPCN computes, on a valid network.  With an empty capacity
    dict it raises [ValueError] (the [max] stands before the [try]).
    Otherwise it looks at one node only: the first entry [(m, cap)] of
    greatest capacity in the dict.  When the source reaches [m] and [m]
    reaches the destination, the result is [m], the path
    [nx.shortest_path] gives from the source to [m] for the forward
    callback joined to the path it gives from [m] to the destination for
    the return callback, and the total made of the sums the code takes
    along them and of the compute delay, added as the code adds them
    ([mpcn_delay]); otherwise the result is the no-path result
    [(None, +infinity, [])], whatever the other compute nodes are. *)
Theorem mpcn_algorithm (net : Network) (fl : FlowRequest) :
  valid_network net -> valid_flow net fl ->
  (compute_capacities net = [] -> MPCN.main net fl = Raise ValueError)
  /\ (compute_capacities net <> [] ->
      exists l1 m cap l2,
        compute_capacities net = l1 ++ (m, cap) :: l2
        /\ (forall c q, In (c, q) l1 -> q < cap)
        /\ (forall c q, In (c, q) l2 -> q <= cap)
        /\ ((exists q1 q2, leads net (source_node fl) q1 m
                           /\ leads net m q2 (destination_node fl)) ->
            exists Gf Gr p1 p2 t,
              MPCN.main net fl = Ok (Some m, Finite t, removelast p1 ++ p2)
              /\ MPCN.eval_weights (original_graph net) (MPCN.forward_weight (flow_size fl))
                 = Ok Gf
              /\ shortest_path snd Gf (source_node fl) m = Ok p1
              /\ MPCN.eval_weights (original_graph net)
                                   (MPCN.return_weight (flow_size fl) (gamma fl))
                 = Ok Gr
              /\ shortest_path snd Gr m (destination_node fl) = Ok p2
              /\ leads net (source_node fl) p1 m /\ leads net m p2 (destination_node fl)
              /\ mpcn_delay net fl m p1 p2 t)
        /\ ((forall q1 q2, leads net (source_node fl) q1 m ->
                           leads net m q2 (destination_node fl) -> False) ->
            MPCN.main net fl = Ok (None, Infinity, []))).
Proof.
  intros Hnet Hfl. split.
  - intros E. unfold MPCN.main, MPCN.find_max_capacity_compute_node. now rewrite E.
  - intros Hne.
    destruct (max_item_split (compute_capacities net) Hne)
      as [l1 [m [cap [l2 [E [Hmax [H1 H2]]]]]]].
    exists l1, m, cap, l2. split; [exact E|]. split; [exact H1|]. split; [exact H2|].
    assert (Hin : In (m, cap) (compute_capacities net)).
    { rewrite E. apply in_app_iff. right. now left. }
    assert (Hm : In m (compute_nodes net)).
    { apply (vn_caps_keys Hnet). apply in_map_iff. now exists (m, cap). }
    assert (Hcap : caps_lookup (compute_capacities net) m = Some cap).
    { destruct (compute_capacity net Hnet m Hm) as [q [Hq _]].
      pose proof (caps_lookup_In _ _ _ Hq) as Hq'.
      assert (q = cap); [|now subst].
      pose proof (vn_caps_dict Hnet) as Hnd. clear - Hq' Hin Hnd.
      induction (compute_capacities net) as [|[k x] r IH]; [contradiction|].
      simpl in Hnd. inversion Hnd as [|? ? Hk Hr]; subst.
      destruct Hq' as [Hq'|Hq'], Hin as [Hin|Hin].
      - congruence.
      - inversion Hq'; subst. elim Hk. apply in_map_iff. now exists (m, cap).
      - inversion Hin; subst. elim Hk. apply in_map_iff. now exists (m, q).
      - auto. }
    assert (Hmain : MPCN.main net fl
                    = match MPCN.try_body (original_graph net) (source_node fl)
                                          (destination_node fl) m (compute_capacities net)
                                          (flow_size fl) (omega fl) (gamma fl) with
                      | Raise NetworkXNoPath => Ok (None, Infinity, [])
                      | r => r
                      end).
    { unfold MPCN.main, MPCN.find_max_capacity_compute_node. rewrite Hmax. reflexivity. }
    destruct (mpcn_try_body_spec net fl Hnet Hfl m cap Hm Hcap)
      as [[p1 [p2 [F1 [R2 [t [Ht [Hw1 [_ [Hw2 _]]]]]]]]]|[Ht Hnone]].
    + rewrite Ht in Hmain. split.
      * intros _.
        destruct (mpcn_main_route net fl Hnet m t _ Hmain)
          as [cap' [Gf [Gr [q1 [q2 [W1 [W2 [_ [_ [Ef [Es1 [Er [Es2 [Hp [Hu [Hd Hdel]
             ]]]]]]]]]]]]]]].
        exists Gf, Gr, q1, q2, t. rewrite <- Hp.
        split; [exact Hmain|]. split; [exact Ef|]. split; [exact Es1|].
        split; [exact Er|]. split; [exact Es2|].
        split; [exact (walk_any_weight _ _ _ (fun _ => 0) _ _ _ _ Hu)|].
        split; [exact (walk_any_weight _ _ _ (fun _ => 0) _ _ _ _ Hd)|exact Hdel].
      * intros Hno. exfalso.
        exact (Hno _ _ (walk_any_weight _ _ _ (fun _ => 0) _ _ _ _ Hw1)
                   (walk_any_weight _ _ _ (fun _ => 0) _ _ _ _ Hw2)).
    + rewrite Ht in Hmain. split.
      * intros [q1 [q2 [[A1 Hq1] [A2 Hq2]]]]. exfalso.
        destruct (walk_any_weight _ _ _ (forward_delay fl) _ _ _ _ Hq1) as [B1 Hb1].
        destruct (walk_any_weight _ _ _ (return_delay fl) _ _ _ _ Hq2) as [B2 Hb2].
        exact (Hnone _ _ _ _ Hb1 Hb2).
      * intros _. exact Hmain.
Qed.

Lemma mpcn_algorithm_witness :
  (compute_capacities net_diamond = [] ->
   MPCN.main net_diamond fl_diamond = Raise ValueError)
  /\ (compute_capacities net_diamond <> [] ->
      exists l1 m cap l2,
        compute_capacities net_diamond = l1 ++ (m, cap) :: l2
        /\ (forall c q, In (c, q) l1 -> q < cap)
        /\ (forall c q, In (c, q) l2 -> q <= cap)
        /\ ((exists q1 q2, leads net_diamond (source_node fl_diamond) q1 m
                           /\ leads net_diamond m q2 (destination_node fl_diamond)) ->
            exists Gf Gr p1 p2 t,
              MPCN.main net_diamond fl_diamond = Ok (Some m, Finite t, removelast p1 ++ p2)
              /\ MPCN.eval_weights (original_graph net_diamond)
                                   (MPCN.forward_weight (flow_size fl_diamond))
                 = Ok Gf
              /\ shortest_path snd Gf (source_node fl_diamond) m = Ok p1
              /\ MPCN.eval_weights (original_graph net_diamond)
                                   (MPCN.return_weight (flow_size fl_diamond)
                                                       (gamma fl_diamond))
                 = Ok Gr
              /\ shortest_path snd Gr m (destination_node fl_diamond) = Ok p2
              /\ leads net_diamond (source_node fl_diamond) p1 m
              /\ leads net_diamond m p2 (destination_node fl_diamond)
              /\ mpcn_delay net_diamond fl_diamond m p1 p2 t)
        /\ ((forall q1 q2, leads net_diamond (source_node fl_diamond) q1 m ->
                           leads net_diamond m q2 (destination_node fl_diamond) -> False) ->
            MPCN.main net_diamond fl_diamond = Ok (None, Infinity, []))).
Proof.
  exact (mpcn_algorithm net_diamond fl_diamond net_diamond_valid fl_diamond_valid).
Defined.

(** ** CCN: ties and failures *)

(** the sort is stable: the head of the sorted list is the first entry
    of least key *)
Lemma sort_by_key_first (l r : list CCN.candidate) (x : CCN.candidate) :
  CCN.sort_by_key l = x :: r ->
  exists l1 l2, l = l1 ++ x :: l2
                /\ (forall y, In y l1 -> CCN.cand_key x < CCN.cand_key y)
                /\ (forall y, In y l2 -> CCN.cand_key x <= CCN.cand_key y).
Proof.
  revert r x. induction l as [|a l IH]; simpl; intros r x H; [discriminate|].
  destruct (CCN.sort_by_key l) as [|h t] eqn:Hs.
  - simpl in H. inversion H; subst.
    assert (l = []) as ->.
    { destruct l as [|b l]; [reflexivity|].
      assert (Hb : In b (CCN.sort_by_key (b :: l))) by (apply sort_by_key_In; now left).
      rewrite Hs in Hb. contradiction. }
    exists [], []. repeat split; auto; intros y [].
  - destruct (IH t h eq_refl) as [m1 [m2 [El [H1 H2]]]].
    simpl in H. destruct (Qle_bool (CCN.cand_key a) (CCN.cand_key h)) eqn:E.
    + inversion H; subst. apply Qle_bool_iff in E.
      exists [], (m1 ++ h :: m2). split; [reflexivity|]. split; [intros y []|].
      intros y Hy. apply in_app_iff in Hy. destruct Hy as [Hy|[Hy|Hy]].
      * specialize (H1 y Hy). lra.
      * subst y. exact E.
      * specialize (H2 y Hy). lra.
    + inversion H; subst.
      assert (Hlt : CCN.cand_key x < CCN.cand_key a).
      { destruct (Qlt_le_dec (CCN.cand_key x) (CCN.cand_key a)) as [Hl|Hl]; [exact Hl|].
        apply Qle_bool_iff in Hl. congruence. }
      exists (a :: m1), m2. split; [reflexivity|]. split; [|exact H2].
      intros y [Hy|Hy]; [now subst|auto].
Qed.

(** the first loop keeps the order of [compute_nodes] *)
Lemma collect_order (G : DiGraph edge_attrs) (s d : node) (cs : list node)
      (acc l : list CCN.candidate) :
  CCN.collect G s d cs acc = Ok l -> l = acc ++ flat_map (ccn_entry G s d) cs.
Proof.
  revert acc. induction cs as [|c cs IH]; simpl; intros acc H.
  - inversion H. now rewrite app_nil_r.
  - unfold ccn_entry at 1.
    destruct (CCN.try_candidate G s d c) as [x|e].
    + rewrite (IH _ H), <- app_assoc. reflexivity.
    + destruct e; try discriminate. exact (IH _ H).
Qed.

Lemma entries_split (G : DiGraph edge_attrs) (s d : node) (cs : list node)
      (l1 l2 : list CCN.candidate) (x : CCN.candidate) :
  flat_map (ccn_entry G s d) cs = l1 ++ x :: l2 ->
  exists cs1 c cs2,
    cs = cs1 ++ c :: cs2
    /\ CCN.try_candidate G s d c = Ok x
    /\ flat_map (ccn_entry G s d) cs1 = l1
    /\ flat_map (ccn_entry G s d) cs2 = l2.
Proof.
  revert l1. induction cs as [|c cs IH]; simpl; intros l1 H.
  - destruct l1; discriminate.
  - unfold ccn_entry at 1 in H.
    destruct (CCN.try_candidate G s d c) as [y|e] eqn:Hc.
    + destruct l1 as [|z l1]; simpl in H.
      * inversion H; subst. exists [], c, cs. simpl. auto.
      * inversion H; subst.
        destruct (IH l1 H2) as [cs1 [c' [cs2 [E [Hx [E1 E2]]]]]].
        exists (c :: cs1), c', cs2. simpl. unfold ccn_entry at 1. rewrite Hc, E1.
        subst cs. auto.
    + simpl in H. destruct (IH l1 H) as [cs1 [c' [cs2 [E [Hx [E1 E2]]]]]].
      exists (c :: cs1), c', cs2. simpl. unfold ccn_entry at 1. rewrite Hc.
      subst cs. auto.
Qed.

(** X11. Ties in CCN.  The first loop lists a compute node when the two
    searches by propagation delay succeed for it, under the key that is
    the sum of the propagation delays along its path from the source
    ([ccn_key]).  On a valid network, when CCN returns the compute node
    [c], its key is at most the key of every listed compute node, and
    strictly less than the key of every one that stands before [c] in
    [compute_nodes]: among the nodes of least key the first of the list
    is taken (the sort is stable and only its head is used). *)
Theorem ccn_takes_first_nearest (net : Network) (fl : FlowRequest)
        (c : node) (t : Q) (path : list node) :
  valid_network net -> valid_flow net fl ->
  CCN.main net fl = Ok (Some c, Finite t, path) ->
  exists cs1 cs2 key,
    compute_nodes net = cs1 ++ c :: cs2
    /\ ccn_key net fl c key
    /\ (forall c' key', In c' cs1 -> ccn_key net fl c' key' -> key < key')
    /\ (forall c' key', In c' cs2 -> ccn_key net fl c' key' -> key <= key').
Proof.
  intros Hnet Hfl Hmain.
  destruct (ccn_main_route net fl Hnet Hfl c t path Hmain)
    as [l [key [p1 [p2 [rest [W1 [W2 [Hl [Hs [Hc [Hx _]]]]]]]]]]].
  destruct (sort_by_key_first _ _ _ Hs) as [l1 [l2 [El [H1 H2]]]].
  apply collect_order in Hl. simpl in Hl. rewrite El in Hl. symmetry in Hl.
  destruct (entries_split _ _ _ _ _ _ _ Hl) as [cs1 [c' [cs2 [Ecs [Hx' [E1 E2]]]]]].
  assert (c' = c) as ->.
  { apply try_candidate_eq in Hx'. now destruct Hx' as [-> _]. }
  assert (Hentry : forall c' key' cs,
             In c' cs -> ccn_key net fl c' key' ->
             exists q1 q2, In (c', key', q1, q2)
                              (flat_map (ccn_entry (original_graph net) (source_node fl)
                                                   (destination_node fl)) cs)).
  { intros c' key' cs Hin [q1 [q2 [Hq1 [Hq2 Hk]]]]. exists q1, q2.
    apply in_flat_map. exists c'. split; [exact Hin|].
    unfold ccn_entry.
    rewrite (proj2 (try_candidate_eq _ _ _ c' c' key' q1 q2)); [now left|auto]. }
  exists cs1, cs2, key. split; [exact Ecs|]. split.
  { apply try_candidate_eq in Hx. destruct Hx as [_ [Hs1 [Hs2 Hk]]].
    exists p1, p2. auto. }
  split.
  - intros c' key' Hin Hk. destruct (Hentry c' key' cs1 Hin Hk) as [q1 [q2 Hy]].
    rewrite E1 in Hy. exact (H1 _ Hy).
  - intros c' key' Hin Hk. destruct (Hentry c' key' cs2 Hin Hk) as [q1 [q2 Hy]].
    rewrite E2 in Hy. exact (H2 _ Hy).
Qed.

Lemma ccn_takes_first_nearest_witness :
  exists c t path,
    CCN.main net_diamond fl_diamond = Ok (Some c, Finite t, path)
    /\ exists cs1 cs2 key,
        compute_nodes net_diamond = cs1 ++ c :: cs2
        /\ ccn_key net_diamond fl_diamond c key
        /\ (forall c' key', In c' cs1 -> ccn_key net_diamond fl_diamond c' key' ->
                            key < key')
        /\ (forall c' key', In c' cs2 -> ccn_key net_diamond fl_diamond c' key' ->
                            key <= key').
Proof.
  assert (H : { x | CCN.main net_diamond fl_diamond
                    = Ok (Some (fst (fst x)), Finite (snd (fst x)), snd x) }).
  { eexists (_, _, _). vm_compute. reflexivity. }
  destruct H as [[[c t] path] H]. simpl in H. exists c, t, path. split; [exact H|].
  exact (ccn_takes_first_nearest net_diamond fl_diamond c t path
           net_diamond_valid fl_diamond_valid H).
Defined.

Lemma get_edge_adj_some (A : Type) (adj : list (node * node * A)) (u v : node) (a : A) :
  In (u, v, a) adj -> exists a', get_edge_adj adj u v = Some a'.
Proof.
  induction adj as [|[[u' v'] a'] r IH]; simpl; [contradiction|].
  intros [H|H].
  - inversion H; subst. rewrite !node_eqb_refl. simpl. eauto.
  - destruct (node_eqb u' u && node_eqb v' v); eauto.
Qed.

(** a sum along a walk of the graph finds all its edges *)
Lemma sum_along_total (A : Type) (G : DiGraph A) (g : A -> Q) (w : A -> Q)
      (s t : node) (p : list node) (W : Q) :
  walk (g_adj G) w s p t W ->
  forall acc, exists x, sum_along G (fun a => Ok (g a)) p acc = Ok x.
Proof.
  induction 1 as [s|u v a p t W Hin Hw IH]; intros acc; simpl; [eauto|].
  destruct (walk_head _ _ _ _ _ _ _ Hw) as [r Hr]. subst p.
  unfold get_edge. destruct (get_edge_adj_some _ _ _ _ _ Hin) as [a' Ha]. rewrite Ha.
  cbn [bind]. apply IH.
Qed.

(** the body of the [try] of CCN ends in a candidate or in one of the two
    exceptions of the searches, on any graph *)
Lemma try_candidate_outcomes (G : DiGraph edge_attrs) (s d c : node) :
  (exists x, CCN.try_candidate G s d c = Ok x)
  \/ CCN.try_candidate G s d c = Raise NetworkXNoPath
  \/ CCN.try_candidate G s d c = Raise NodeNotFound.
Proof.
  unfold CCN.try_candidate, shortest_path.
  destruct (negb (has_node G s) || negb (has_node G c)); [right; now right|].
  destruct (search propagation_delay G s c) as [[d1 q1]|] eqn:H1; [|right; now left].
  cbn [bind].
  destruct (negb (has_node G c) || negb (has_node G d)); [right; now right|].
  destruct (search propagation_delay G c d) as [[d2 q2]|] eqn:H2; [|right; now left].
  cbn [bind]. left.
  destruct (search_sound _ _ _ _ _ _ _ H1) as [W [Hw _]].
  destruct (sum_along_total _ G propagation_delay _ _ _ _ _ Hw 0) as [x Hx].
  rewrite Hx. cbn [bind]. eauto.
Qed.

Lemma collect_node_not_found (G : DiGraph edge_attrs) (s d : node) (cs : list node)
      (acc : list CCN.candidate) :
  (exists c, In c cs /\ CCN.try_candidate G s d c = Raise NodeNotFound) ->
  CCN.collect G s d cs acc = Raise NodeNotFound.
Proof.
  revert acc. induction cs as [|c cs IH]; simpl; intros acc [c0 [Hin Hc0]]; [contradiction|].
  destruct (try_candidate_outcomes G s d c) as [[x Hx]|[Hx|Hx]]; rewrite Hx.
  - apply IH. destruct Hin as [Hin|Hin]; [subst; congruence|eauto].
  - apply IH. destruct Hin as [Hin|Hin]; [subst; congruence|eauto].
  - reflexivity.
Qed.

(** X12. Failures of CCN.  On a valid network and flow request CCN
    always returns a result.  Without that, on a network whose
    propagation delays are not negative (the searches of networkx raise
    [ValueError] when they meet a negative weight), a compute node that is
    not a node of the graph (it is not listed in [nodes] and no edge
    starts or ends at it) makes CCN raise [NodeNotFound], whatever the
    other compute nodes are: the handler of the first loop catches
    [NetworkXNoPath] only. *)
Theorem ccn_failures (net : Network) (fl : FlowRequest) :
  (valid_network net -> valid_flow net fl -> exists r, CCN.main net fl = Ok r)
  /\ ((forall u v a, In (u, v, a) (edges net) -> 0 <= propagation_delay a) ->
      (exists c, In c (compute_nodes net) /\ ~ In c (nodes net)
                 /\ forall u v a, In (u, v, a) (edges net) -> c <> u /\ c <> v) ->
      CCN.main net fl = Raise NodeNotFound).
Proof.
  split.
  - intros Hnet Hfl. destruct (ccn_main_spec net fl Hnet Hfl) as [l [_ [_ Hm]]].
    destruct (CCN.sort_by_key l) as [|[[[c dl] p1] p2] rest]; [eauto|].
    destruct Hm as [W1 [W2 [t [_ [_ [Hr _]]]]]]. eauto.
  - intros _ [c [Hc [Hn He]]].
    unfold CCN.main, CCN.find_closest_compute_node.
    rewrite (collect_node_not_found (original_graph net) (source_node fl)
               (destination_node fl) (compute_nodes net) []); [reflexivity|].
    exists c. split; [exact Hc|].
    assert (Hno : has_node (original_graph net) c = false).
    { destruct (has_node (original_graph net) c) eqn:E; [|reflexivity].
      apply has_node_In in E. unfold original_graph in E.
      rewrite add_edges_from_nodes, add_nodes_from_nodes in E. simpl in E.
      destruct E as [[[]|E]|[u [v [a [Hin [E|E]]]]]]; [contradiction| |];
        destruct (He _ _ _ Hin); contradiction. }
    unfold CCN.try_candidate, shortest_path. rewrite Hno.
    rewrite orb_true_r. reflexivity.
Qed.

Lemma ccn_failures_witness :
  (exists r, CCN.main net_diamond fl_diamond = Ok r)
  /\ CCN.main net_stray fl_stray = Raise NodeNotFound.
Proof.
  split.
  - exact (proj1 (ccn_failures net_diamond fl_diamond) net_diamond_valid fl_diamond_valid).
  - apply (proj2 (ccn_failures net_stray fl_stray)).
    + intros u v a [H|[]]. inversion H; subst. simpl. lra.
    + exists "c"%string. simpl. split; [auto|]. split.
      * intros [H|[H|[]]]; discriminate.
      * intros u v a [H|[]]. inversion H; subst. split; discriminate.
Defined.

(** ** The weight function *)

(** X13. [d_uv] fails in one way only: the division by a bandwidth or by
    a capacity that is zero.  It raises [ZeroDivisionError] exactly on a
    link dict of bandwidth zero in layer C-UCL or C-DCL, and on a dict in
    layer UCL-CL when the capacity found for the name before the first
    underscore of [v] (1 when there is none) is zero.  The copy of
    [LP_in_CPEG.py] is the same function. *)
Theorem d_uv_failures (caps : capacities) (f g o : Q) (u v : node) (layer : string)
        (data : edge_data) :
  (forall e, CPEG_algorithm.d_uv caps f g o u v layer data = Raise e ->
             e = ZeroDivisionError)
  /\ (CPEG_algorithm.d_uv caps f g o u v layer data = Raise ZeroDivisionError
      <-> (exists a, data = Dict (LinkDict a)
                     /\ (layer = "C-UCL"%string \/ layer = "C-DCL"%string)
                     /\ bandwidth a == 0)
          \/ (exists d, data = Dict d /\ layer = "UCL-CL"%string
                        /\ caps_get caps (split_head v) 1 == 0))
  /\ LP_in_CPEG.d_uv caps f g o u v layer data
     = CPEG_algorithm.d_uv caps f g o u v layer data.
Proof.
  assert (Hdiv : forall a b, (forall e, truediv a b = Raise e -> e = ZeroDivisionError)
                             /\ (truediv a b = Raise ZeroDivisionError <-> b == 0)).
  { intros a b. unfold truediv. destruct (Qeq_bool b 0) eqn:E.
    - apply Qeq_bool_iff in E. split; [intros e H; now inversion H|tauto].
    - split; [intros e H; discriminate|]. split; [discriminate|].
      intros H. apply Qeq_bool_iff in H. congruence. }
  unfold LP_in_CPEG.d_uv, CPEG_algorithm.d_uv, d_uv_body.
  split; [|split; [|reflexivity]].
  - intros e. destruct data as [d|n]; [|discriminate].
    destruct (String.eqb layer "C-UCL").
    { destruct (truediv f (dict_get d "bandwidth" 1)) eqn:E; [discriminate|].
      cbn [bind]. intros H. inversion H; subst. now apply (proj1 (Hdiv _ _)) in E. }
    destruct (String.eqb layer "C-DCL").
    { destruct (truediv (g * f) (dict_get d "bandwidth" 1)) eqn:E; [discriminate|].
      cbn [bind]. intros H. inversion H; subst. now apply (proj1 (Hdiv _ _)) in E. }
    destruct (String.eqb layer "UCL-CL").
    { destruct (truediv (o * f) (caps_get caps (split_head v) 1)) eqn:E; [discriminate|].
      cbn [bind]. intros H. inversion H; subst. now apply (proj1 (Hdiv _ _)) in E. }
    destruct (String.eqb layer "CL-DCL"); discriminate.
  - destruct data as [d|n].
    2:{ split; [discriminate|]. intros [[a [H _]]|[d [H _]]]; discriminate. }
    destruct (String.eqb layer "C-UCL") eqn:E1.
    { apply String.eqb_eq in E1. subst layer.
      destruct (truediv f (dict_get d "bandwidth" 1)) as [x|e] eqn:E; cbn [bind].
      - split; [discriminate|]. intros [[a [Hd [_ Hb]]]|[d' [_ [Hl _]]]]; [|discriminate].
        inversion Hd; subst d. simpl in E.
        apply (proj2 (Hdiv f (bandwidth a))) in Hb. congruence.
      - pose proof (proj1 (Hdiv _ _) _ E). subst e. split; [intros _|reflexivity].
        apply (proj2 (Hdiv _ _)) in E. left. destruct d as [a|c]; simpl in E.
        + exists a. auto.
        + exfalso. revert E. clear. intros E. vm_compute in E. discriminate. }
    destruct (String.eqb layer "C-DCL") eqn:E2.
    { apply String.eqb_eq in E2. subst layer.
      destruct (truediv (g * f) (dict_get d "bandwidth" 1)) as [x|e] eqn:E; cbn [bind].
      - split; [discriminate|]. intros [[a [Hd [_ Hb]]]|[d' [_ [Hl _]]]]; [|discriminate].
        inversion Hd; subst d. simpl in E.
        apply (proj2 (Hdiv (g * f) (bandwidth a))) in Hb. congruence.
      - pose proof (proj1 (Hdiv _ _) _ E). subst e. split; [intros _|reflexivity].
        apply (proj2 (Hdiv _ _)) in E. left. destruct d as [a|c]; simpl in E.
        + exists a. auto.
        + exfalso. revert E. clear. intros E. vm_compute in E. discriminate. }
    destruct (String.eqb layer "UCL-CL") eqn:E3.
    { apply String.eqb_eq in E3. subst layer.
      destruct (truediv (o * f) (caps_get caps (split_head v) 1)) as [x|e] eqn:E;
        cbn [bind].
      - split; [discriminate|].
        intros [[a [_ [[Hl|Hl] _]]]|[d' [_ [_ Hb]]]]; [discriminate..|].
        apply (proj2 (Hdiv (o * f) _)) in Hb. congruence.
      - pose proof (proj1 (Hdiv _ _) _ E). subst e. split; [intros _|reflexivity].
        apply (proj2 (Hdiv _ _)) in E. right. exists d. auto. }
    apply String.eqb_neq in E1, E2, E3.
    assert (Hz : (if String.eqb layer "CL-DCL" then Ok 0 else Ok 0) = @Ok Q 0)
      by (now destruct (String.eqb layer "CL-DCL")).
    rewrite Hz. split; [discriminate|].
    intros [[a [_ [[Hl|Hl] _]]]|[d' [_ [Hl _]]]]; congruence.
Qed.

(** ** The loaders *)

Lemma caps_lookup_setitem (d : capacities) (k k' : node) (c : Q) :
  caps_lookup (caps_setitem d k c) k'
  = if node_eqb k k' then Some c else caps_lookup d k'.
Proof.
  induction d as [|[k0 c0] r IH]; simpl.
  - reflexivity.
  - destruct (node_eqb k0 k) eqn:E; simpl.
    + apply node_eqb_eq in E. subst k0. now destruct (node_eqb k k').
    + rewrite IH. destruct (node_eqb k0 k') eqn:E'; [|reflexivity].
      apply node_eqb_eq in E'. subst k'. destruct (node_eqb k k0) eqn:E2; [|reflexivity].
      apply node_eqb_eq in E2. subst k0. rewrite node_eqb_refl in E. discriminate.
Qed.

Lemma caps_setitem_keys (d : capacities) (k k' : node) (c : Q) :
  In k' (map fst (caps_setitem d k c)) <-> In k' (map fst d) \/ k' = k.
Proof.
  induction d as [|[k0 c0] r IH]; simpl.
  - intuition.
  - destruct (node_eqb k0 k) eqn:E; simpl.
    + apply node_eqb_eq in E. subst k0. intuition.
    + rewrite IH. intuition.
Qed.

Lemma caps_setitem_fresh (d : capacities) (k : node) (c : Q) :
  ~ In k (map fst d) -> caps_setitem d k c = d ++ [(k, c)].
Proof.
  induction d as [|[k0 c0] r IH]; simpl; intros H; [reflexivity|].
  destruct (node_eqb k0 k) eqn:E.
  - apply node_eqb_eq in E. subst k0. elim H. now left.
  - rewrite IH; auto.
Qed.

Lemma fold_setitem_keys (items : list (node * Q)) (d : capacities) (k : node) :
  In k (map fst (fold_left (fun d kv => caps_setitem d (fst kv) (snd kv)) items d))
  <-> In k (map fst d) \/ In k (map fst items).
Proof.
  revert d. induction items as [|[k0 c0] r IH]; intros d; simpl.
  - tauto.
  - rewrite IH, caps_setitem_keys. intuition.
Qed.

Lemma fold_setitem_nodup (items : list (node * Q)) (d : capacities) :
  NoDup (map fst (d ++ items)) ->
  fold_left (fun d kv => caps_setitem d (fst kv) (snd kv)) items d = d ++ items.
Proof.
  revert d. induction items as [|[k0 c0] r IH]; intros d H; simpl.
  - now rewrite app_nil_r.
  - rewrite map_app in H. simpl in H.
    rewrite caps_setitem_fresh.
    + rewrite IH; rewrite <- app_assoc; [reflexivity|].
      simpl. now rewrite map_app.
    + intros Hin. apply NoDup_remove_2 in H. apply H. apply in_app_iff. now left.
Qed.

(** a dict built from items with distinct keys holds the items, in
    their order *)
Lemma dict_of_items_nodup (items : list (node * Q)) :
  NoDup (map fst items) -> dict_of_items items = items.
Proof. intros H. unfold dict_of_items. now rewrite fold_setitem_nodup. Qed.

Lemma dict_of_items_keys (items : list (node * Q)) (k : node) :
  In k (map fst (dict_of_items items)) <-> In k (map fst items).
Proof. unfold dict_of_items. rewrite fold_setitem_keys. simpl. tauto. Qed.

Lemma caps_lookup_none (d : capacities) (k : node) :
  caps_lookup d k = None <-> ~ In k (map fst d).
Proof.
  split.
  - intros H Hin. destruct (caps_lookup_key _ _ Hin) as [q Hq]. congruence.
  - intros H. destruct (caps_lookup d k) as [q|] eqn:E; [|reflexivity].
    elim H. apply in_map_iff. exists (k, q). split; [reflexivity|].
    now apply caps_lookup_In.
Qed.

Lemma fold_setitem_values (v : Q) (items : list (node * Q)) (d : capacities) (k : node)
      (q : Q) :
  (forall kv, In kv items -> snd kv = v) ->
  caps_lookup (fold_left (fun d kv => caps_setitem d (fst kv) (snd kv)) items d) k = Some q ->
  q = v \/ caps_lookup d k = Some q.
Proof.
  revert d. induction items as [|[k0 c0] r IH]; intros d Hv H; simpl in H; [now right|].
  destruct (IH _ (fun kv Hkv => Hv kv (or_intror Hkv)) H) as [Hq|Hq]; [now left|].
  rewrite caps_lookup_setitem in Hq. destruct (node_eqb k0 k); [|now right].
  inversion Hq; subst. left. exact (Hv (k0, q) (or_introl eq_refl)).
Qed.

(** every compute node has the capacity 1 in the default dict *)
Lemma default_capacities_lookup (cs : list node) (c : node) :
  In c cs -> caps_lookup (default_capacities cs) c = Some 1.
Proof.
  intros Hc. unfold default_capacities.
  assert (Hk : In c (map fst (dict_of_items (map (fun n : node => (n, 1)) cs)))).
  { apply dict_of_items_keys. rewrite map_map. simpl. now rewrite map_id. }
  destruct (caps_lookup_key _ _ Hk) as [q Hq]. rewrite Hq. f_equal.
  unfold dict_of_items in Hq.
  assert (Hv : forall kv, In kv (map (fun n : node => (n, 1)) cs) -> snd kv = 1).
  { intros kv Hkv. apply in_map_iff in Hkv. destruct Hkv as [n [E _]]. now subst kv. }
  destruct (fold_setitem_values 1 _ [] c q Hv Hq) as [H|H]; [exact H|discriminate].
Qed.

Lemma combine_keys (A : Type) (cs : list node) (l : list A) (c : node) :
  List.length l = List.length cs -> In c cs -> In c (map fst (combine cs l)).
Proof.
  revert l. induction cs as [|x cs IH]; intros l Hl Hc; [contradiction|].
  destruct l as [|y l]; [discriminate|]. simpl in *.
  destruct Hc as [Hc|Hc]; [now left|right]. apply IH; auto.
Qed.

Lemma combine_fst_nodup (A : Type) (cs : list node) (l : list A) :
  NoDup cs -> NoDup (map fst (combine cs l)).
Proof.
  revert l. induction cs as [|x cs IH]; intros l H; simpl; [constructor|].
  destruct l as [|y l]; simpl; [constructor|].
  inversion H as [|? ? Hx Hr]; subst. constructor; [|auto].
  intros Hin. apply Hx. apply in_map_iff in Hin. destruct Hin as [[k v] [E Hin]].
  simpl in E. subst k. now apply in_combine_l in Hin.
Qed.

Lemma load_flow_pack (data : document) (ns : list node) (es : list edge) (cs : list node)
      (caps : capacities) (net : Network) (fl : FlowRequest) :
  (fl' <- load_flow data ;; Ok (pack ns es cs caps, fl')) = Ok (net, fl) ->
  net = pack ns es cs caps /\ load_flow data = Ok fl.
Proof.
  destruct (load_flow data) as [fl'|]; [|discriminate]. cbn [bind].
  intros H. inversion H. auto.
Qed.

(** X14. The loader of the CPEG script never leaves a compute node
    without capacity unless the document gives the capacities as a
    mapping: with a sequence (of any length), with no
    [compute_node_capacity] at all or with anything else, every loaded
    compute node has an entry, so that [CPEG.expand_network] returns on
    the loaded values; and whenever the loader printed a warning, every
    capacity is 1, whatever the document said. *)
Theorem cpeg_loader_covers_compute_nodes (data : document) (printed : list string)
        (net : Network) (fl : FlowRequest) :
  CPEG_loader.load_network_from_yaml data = (printed, Ok (net, fl)) ->
  ((forall d, y_compute_node_capacity data <> Some (YDict d)) ->
   (forall c, In c (compute_nodes net) -> caps_lookup (compute_capacities net) c <> None)
   /\ exists V E, CPEG.expand_network (nodes net) (edges net) (compute_nodes net)
                    (compute_capacities net) (source_node fl) (destination_node fl)
                  = Ok (V, E))
  /\ (printed <> [] ->
      forall c, In c (compute_nodes net) -> caps_lookup (compute_capacities net) c = Some 1).
Proof.
  unfold CPEG_loader.load_network_from_yaml.
  destruct (load_topology data) as [[[ns es] cs]|]; [|intros H; inversion H].
  assert (Hcover : forall caps : capacities,
             (forall c, In c cs -> caps_lookup caps c <> None) ->
             forall s d, exists V E, CPEG.expand_network ns es cs caps s d = Ok (V, E)).
  { intros caps Hc s d.
    destruct (mapM_getitem_ok _ _ (fun n : node => n)
                (fun n c => (n, suffix2 n, Dict (CapacityDict c), "UCL-CL"%string))
                caps cs Hc) as [r Hr].
    cbv beta in Hr. unfold CPEG.expand_network. rewrite Hr. cbn [bind]. eauto. }
  assert (Hdef : forall c, In c cs -> caps_lookup (default_capacities cs) c <> None).
  { intros c Hc. rewrite (default_capacities_lookup cs c Hc). discriminate. }
  destruct (y_compute_node_capacity data) as [[l|d|]|] eqn:Hcap; cbn [key_get].
  - destruct (Nat.eqb (List.length l) (List.length cs)) eqn:El;
      intros H; inversion H as [[Hp Hr]]; apply load_flow_pack in Hr;
      destruct Hr as [Hn _]; subst net; simpl.
    + apply Nat.eqb_eq in El. split; [|intros Hne; now elim Hne].
      intros _.
      assert (Hc : forall c, In c cs -> caps_lookup (dict_of_items (combine cs l)) c <> None).
      { intros c Hc Hnone. apply caps_lookup_none in Hnone. apply Hnone.
        apply dict_of_items_keys. now apply combine_keys. }
      split; [exact Hc|now apply Hcover].
    + split; [intros _; split; [exact Hdef|now apply Hcover]|].
      intros _ c Hc. now apply default_capacities_lookup.
  - intros H. inversion H as [[Hp Hr]]. split; [|intros Hne; now elim Hne].
    intros Hd. now elim (Hd d).
  - intros H. inversion H as [[Hp Hr]]. apply load_flow_pack in Hr.
    destruct Hr as [Hn _]. subst net. simpl.
    split; [intros _; split; [exact Hdef|now apply Hcover]|].
    intros _ c Hc. now apply default_capacities_lookup.
  - destruct (Nat.eqb (List.length (@nil Q)) (List.length cs)) eqn:El;
      intros H; inversion H as [[Hp Hr]]; apply load_flow_pack in Hr;
      destruct Hr as [Hn _]; subst net; simpl.
    + apply Nat.eqb_eq in El. destruct cs; [|discriminate].
      split; [|intros Hne; now elim Hne].
      intros _. split; [intros c []|now apply Hcover].
    + split; [intros _; split; [exact Hdef|now apply Hcover]|].
      intros _ c Hc. now apply default_capacities_lookup.
Qed.

Lemma cpeg_loader_covers_compute_nodes_witness :
  exists printed net fl,
    CPEG_loader.load_network_from_yaml doc_short = (printed, Ok (net, fl))
    /\ ((forall c, In c (compute_nodes net) ->
                   caps_lookup (compute_capacities net) c <> None)
        /\ exists V E, CPEG.expand_network (nodes net) (edges net) (compute_nodes net)
                         (compute_capacities net) (source_node fl) (destination_node fl)
                       = Ok (V, E))
    /\ forall c, In c (compute_nodes net) -> caps_lookup (compute_capacities net) c = Some 1.
Proof.
  assert (H : { x | CPEG_loader.load_network_from_yaml doc_short
                    = (fst x, Ok (snd x)) })
    by (eexists (_, _); reflexivity).
  destruct H as [[printed [net fl]] H]. simpl in H.
  exists printed, net, fl. split; [exact H|].
  destruct (cpeg_loader_covers_compute_nodes doc_short printed net fl H) as [H1 H2].
  split.
  - apply H1. intros d. discriminate.
  - apply H2. intros E. rewrite E in H. vm_compute in H. discriminate.
Defined.

(** X15. The four copies of the loader.  Whenever the loader of
    [LP_in_CPEG.py] and [MINLP.py] returns, the loader of the CPEG script
    returns the same values without a warning, and so does the loader of
    [CCN.py] and [MPCN.py].  When it raises [UnboundLocalError] (a
    sequence of capacities of the wrong length, or a value that is
    neither a sequence nor a mapping), the loader of the CPEG script
    returns with one warning and gives every compute node the capacity
    1. *)
Theorem loaders_compared (data : document) :
  (forall x, LP_loader.load_network_from_yaml data = Loaded x ->
             CPEG_loader.load_network_from_yaml data = ([], Ok x)
             /\ CCN_loader.load_network_from_yaml data = Ok x)
  /\ (LP_loader.load_network_from_yaml data = UnboundLocalError ->
      exists w net fl,
        CPEG_loader.load_network_from_yaml data = ([w], Ok (net, fl))
        /\ compute_capacities net = default_capacities (compute_nodes net)
        /\ forall c, In c (compute_nodes net) ->
                     caps_lookup (compute_capacities net) c = Some 1).
Proof.
  unfold LP_loader.load_network_from_yaml, CPEG_loader.load_network_from_yaml,
    CCN_loader.load_network_from_yaml.
  destruct (load_topology data) as [[[ns es] cs]|]; cbn [bind];
    [|split; intros; discriminate].
  destruct (y_compute_node_capacity data) as [[l|d|]|]; cbn [key_get].
  - destruct (Nat.eqb (List.length l) (List.length cs));
      destruct (load_flow data) as [fl|]; cbn [bind]; split; try discriminate.
    + intros x H. inversion H. auto.
    + intros _. exists CPEG_loader.warning_length, (pack ns es cs (default_capacities cs)), fl.
      split; [reflexivity|]. split; [reflexivity|].
      intros c Hc. now apply default_capacities_lookup.
  - destruct (load_flow data) as [fl|]; cbn [bind]; split; try discriminate.
    intros x H. inversion H. auto.
  - destruct (load_flow data) as [fl|]; cbn [bind]; split; try discriminate.
    intros _. exists CPEG_loader.warning_format, (pack ns es cs (default_capacities cs)), fl.
    split; [reflexivity|]. split; [reflexivity|].
    intros c Hc. now apply default_capacities_lookup.
  - destruct (Nat.eqb (List.length (@nil Q)) (List.length cs)) eqn:El;
      destruct (load_flow data) as [fl|]; cbn [bind]; split; try discriminate.
    + intros x H. inversion H. apply Nat.eqb_eq in El. destruct cs; [|discriminate].
      auto.
    + intros _. exists CPEG_loader.warning_length, (pack ns es cs (default_capacities cs)), fl.
      split; [reflexivity|]. split; [reflexivity|].
      intros c Hc. now apply default_capacities_lookup.
Qed.

Lemma loaders_compared_witness :
  (exists x, LP_loader.load_network_from_yaml doc_full = Loaded x
             /\ CPEG_loader.load_network_from_yaml doc_full = ([], Ok x)
             /\ CCN_loader.load_network_from_yaml doc_full = Ok x)
  /\ exists w net fl,
      CPEG_loader.load_network_from_yaml doc_short = ([w], Ok (net, fl))
      /\ compute_capacities net = default_capacities (compute_nodes net)
      /\ forall c, In c (compute_nodes net) ->
                   caps_lookup (compute_capacities net) c = Some 1.
Proof.
  split.
  - eexists. split; [reflexivity|].
    exact (proj1 (loaders_compared doc_full) _ eq_refl).
  - exact (proj2 (loaders_compared doc_short) eq_refl).
Defined.

(** X16. A document without [compute_node_capacity], read by the loader
    of [CCN.py] and [MPCN.py], gives an empty capacity dict (the loader of
    the CPEG script would give every compute node the capacity 1).  On
    the loaded values MPCN raises [ValueError], and CCN never returns a
    route: a result it returns is the no-path result. *)
Theorem greedy_without_capacities (data : document) (net : Network) (fl : FlowRequest) :
  y_compute_node_capacity data = None ->
  CCN_loader.load_network_from_yaml data = Ok (net, fl) ->
  MPCN_loader.load_network_from_yaml data = Ok (net, fl)
  /\ compute_capacities net = []
  /\ MPCN.main net fl = Raise ValueError
  /\ forall r, CCN.main net fl = Ok r -> r = (None, Infinity, []).
Proof.
  intros Hcap Hload. split; [exact Hload|].
  assert (Hc : compute_capacities net = []).
  { unfold CCN_loader.load_network_from_yaml in Hload. rewrite Hcap in Hload.
    destruct (load_topology data) as [[[ns es] cs]|]; [|discriminate].
    cbn [bind key_get] in Hload. apply load_flow_pack in Hload.
    destruct Hload as [Hn _]. now subst net. }
  split; [exact Hc|]. split.
  - unfold MPCN.main, MPCN.find_max_capacity_compute_node. now rewrite Hc.
  - intros r. unfold CCN.main, CCN.find_closest_compute_node. rewrite Hc.
    destruct (CCN.collect _ _ _ _ _) as [l|]; [|discriminate]. cbn [bind].
    destruct (CCN.sort_by_key l) as [|[[[c dl] p1] p2] rest]; [intros H; now inversion H|].
    repeat match goal with
           | |- context [bind ?m _] =>
               lazymatch m with
               | compute_delay_at _ _ _ _ => fail
               | _ => destruct m; cbn [bind]; [|discriminate]
               end
           end.
    unfold compute_delay_at, caps_getitem. simpl. discriminate.
Qed.

Lemma greedy_without_capacities_witness :
  exists net fl,
    CCN_loader.load_network_from_yaml doc_bare = Ok (net, fl)
    /\ MPCN_loader.load_network_from_yaml doc_bare = Ok (net, fl)
    /\ compute_capacities net = []
    /\ MPCN.main net fl = Raise ValueError
    /\ forall r, CCN.main net fl = Ok r -> r = (None, Infinity, []).
Proof.
  eexists _, _. split; [reflexivity|].
  exact (greedy_without_capacities doc_bare _ _ eq_refl eq_refl).
Defined.

Lemma combine_fst_firstn (A : Type) (cs : list node) (l : list A) :
  map fst (combine cs l) = firstn (List.length l) cs.
Proof.
  revert l. induction cs as [|x cs IH]; intros l; simpl.
  - now rewrite firstn_nil.
  - destruct l as [|y l]; simpl; [reflexivity|]. now rewrite IH.
Qed.

Lemma nodup_parts_apart (A : Type) (l1 l2 : list A) (x : A) :
  NoDup (l1 ++ l2) -> In x l1 -> In x l2 -> False.
Proof.
  induction l1 as [|y l1 IH]; simpl; intros H H1 H2; [contradiction|].
  inversion H as [|? ? Hy Hr]; subst. destruct H1 as [H1|H1].
  - subst y. apply Hy. apply in_app_iff. now right.
  - exact (IH Hr H1 H2).
Qed.

(** X17. The loader of [CCN.py] and [MPCN.py] pairs the compute nodes
    with a sequence of capacities by [zip], without comparing the
    lengths: for distinct compute nodes the dict holds the pairs in the
    order of [compute_nodes], cut at the shorter of the two, and every
    compute node beyond the length of the sequence is left without
    capacity; the delay [omega * flow_size / compute_capacities[node]] of
    such a node raises [KeyError]. *)
Theorem ccn_loader_truncates (data : document) (net : Network) (fl : FlowRequest)
        (l : list Q) :
  y_compute_node_capacity data = Some (YList l) ->
  CCN_loader.load_network_from_yaml data = Ok (net, fl) ->
  NoDup (compute_nodes net) ->
  compute_capacities net = combine (compute_nodes net) l
  /\ forall c, In c (skipn (List.length l) (compute_nodes net)) ->
               caps_lookup (compute_capacities net) c = None
               /\ compute_delay_at (compute_capacities net) c (flow_size fl) (omega fl)
                  = Raise KeyError.
Proof.
  intros Hcap Hload Hnd.
  unfold CCN_loader.load_network_from_yaml in Hload. rewrite Hcap in Hload.
  destruct (load_topology data) as [[[ns es] cs]|]; [|discriminate].
  cbn [bind key_get] in Hload. apply load_flow_pack in Hload.
  destruct Hload as [Hn _]. subst net. simpl in *.
  rewrite (dict_of_items_nodup _ (combine_fst_nodup _ cs l Hnd)).
  split; [reflexivity|]. intros c Hc.
  assert (Hnone : caps_lookup (combine cs l) c = None).
  { apply caps_lookup_none. rewrite combine_fst_firstn. intros Hin.
    rewrite <- (firstn_skipn (List.length l) cs) in Hnd.
    exact (nodup_parts_apart _ _ _ c Hnd Hin Hc). }
  split; [exact Hnone|]. unfold compute_delay_at, caps_getitem. now rewrite Hnone.
Qed.

Lemma ccn_loader_truncates_witness :
  exists net fl,
    CCN_loader.load_network_from_yaml doc_short = Ok (net, fl)
    /\ compute_capacities net = combine (compute_nodes net) [10000]
    /\ forall c, In c (skipn 1 (compute_nodes net)) ->
                 caps_lookup (compute_capacities net) c = None
                 /\ compute_delay_at (compute_capacities net) c (flow_size fl) (omega fl)
                    = Raise KeyError.
Proof.
  eexists _, _. split; [reflexivity|].
  apply (ccn_loader_truncates doc_short _ _ [10000] eq_refl eq_refl).
  simpl. nodup_dec.
Defined.

(** the decimal name of an integer has no underscore, and names the
    integer *)
Lemma uint_digits_plain (d : Decimal.uint) :
  no_underscore (NilEmpty.string_of_uint d) = true.
Proof. induction d; simpl; auto. Qed.

Lemma str_int_plain (z : Z) : no_underscore (str (YInt z)) = true.
Proof.
  unfold str, NilZero.string_of_int, NilZero.string_of_uint.
  destruct (Z.to_int z) as [d|d]; destruct d; simpl; auto using uint_digits_plain.
Qed.

Lemma str_int_inj (a b : Z) : str (YInt a) = str (YInt b) -> a = b.
Proof.
  unfold str. intros E. apply DecimalZ.to_int_inj.
  assert (Hnn : forall z, Z.to_int z <> Decimal.Pos Decimal.Nil
                          /\ Z.to_int z <> Decimal.Neg Decimal.Nil).
  { intros [|p|p]; simpl; split; try discriminate; intros H; inversion H as [Hp];
      now apply DecimalPos.Unsigned.to_uint_nonnil in Hp. }
  pose proof (NilZero.isi (Z.to_int a) (proj1 (Hnn a)) (proj2 (Hnn a))) as Ha.
  pose proof (NilZero.isi (Z.to_int b) (proj1 (Hnn b)) (proj2 (Hnn b))) as Hb.
  rewrite E in Ha. rewrite Ha in Hb. now inversion Hb.
Qed.

Lemma load_topology_nodes (data : document) (ns : list node) (es : list edge)
      (cs : list node) :
  load_topology data = Ok (ns, es, cs) ->
  exists ids, y_nodes data = Some ids /\ ns = map str ids.
Proof.
  unfold load_topology. destruct (y_nodes data) as [ids|]; [|discriminate].
  cbn [key_getitem bind]. destruct (y_edges data) as [ys|]; [|discriminate].
  cbn [key_getitem bind]. destruct (mapM load_edge ys) as [es'|]; [|discriminate].
  cbn [bind]. intros H. inversion H. eauto.
Qed.

(** X18. Integer identifiers are safe names.  When the node identifiers
    of a document are integers (what [network_parameters.py] writes), the
    node names the loader of the CPEG script returns contain no
    underscore, so the suffixed names of the expansions cannot clash with
    them, and distinct identifiers give distinct names. *)
Theorem integer_ids_give_plain_names (data : document) (printed : list string)
        (net : Network) (fl : FlowRequest) (ids : list scalar) :
  CPEG_loader.load_network_from_yaml data = (printed, Ok (net, fl)) ->
  y_nodes data = Some ids ->
  (forall x, In x ids -> exists z, x = YInt z) ->
  plain_names net /\ (NoDup ids -> NoDup (nodes net)).
Proof.
  unfold CPEG_loader.load_network_from_yaml. intros Hload Hids Hint.
  destruct (load_topology data) as [[[ns es] cs]|] eqn:Ht; [|inversion Hload].
  destruct (load_topology_nodes _ _ _ _ Ht) as [ids' [Hids' Hns]].
  rewrite Hids in Hids'. inversion Hids'; subst ids'. clear Hids'.
  assert (Hnet : nodes net = map str ids).
  { destruct (match key_get (y_compute_node_capacity data) (YList []) with
              | YList l => _ | YDict d => _ | YOther => _ end) as [pr caps] in Hload.
    inversion Hload as [[Hp Hr]]. apply load_flow_pack in Hr.
    destruct Hr as [Hn _]. subst net. simpl. exact Hns. }
  split.
  - intros n Hn. rewrite Hnet in Hn. apply in_map_iff in Hn.
    destruct Hn as [x [Ex Hx]]. destruct (Hint x Hx) as [z Hz]. subst x n.
    apply str_int_plain.
  - intros Hnd. rewrite Hnet. apply NoDup_map_NoDup_ForallPairs; [|exact Hnd].
    intros a b Ha Hb E. destruct (Hint a Ha) as [za Hza], (Hint b Hb) as [zb Hzb].
    subst a b. f_equal. now apply str_int_inj.
Qed.

Lemma integer_ids_give_plain_names_witness :
  exists printed net fl,
    CPEG_loader.load_network_from_yaml doc_full = (printed, Ok (net, fl))
    /\ plain_names net /\ NoDup (nodes net).
Proof.
  assert (H : { x | CPEG_loader.load_network_from_yaml doc_full = (fst x, Ok (snd x)) })
    by (eexists (_, _); reflexivity).
  destruct H as [[printed [net fl]] H]. simpl in H.
  exists printed, net, fl. split; [exact H|].
  destruct (integer_ids_give_plain_names doc_full printed net fl _ H eq_refl) as [H1 H2].
  - intros x Hx. simpl in Hx.
    repeat (destruct Hx as [Hx|Hx]; [subst x; eexists; reflexivity|]). contradiction.
  - split; [exact H1|]. apply H2. repeat (constructor; [simpl; intuition discriminate|]).
    constructor.
Defined.

(** ** MINLP.py: the adjacency lists *)

Lemma graph_lookup_setitem (g : MINLP.graph) (k k' : node) (a : MINLP.adjacency) :
  MINLP.graph_lookup (MINLP.graph_setitem g k a) k'
  = if node_eqb k k' then Some a else MINLP.graph_lookup g k'.
Proof.
  induction g as [|[k0 a0] r IH]; simpl.
  - reflexivity.
  - destruct (node_eqb k0 k) eqn:E; simpl.
    + apply node_eqb_eq in E. subst k0. now destruct (node_eqb k k').
    + rewrite IH. destruct (node_eqb k0 k') eqn:E'; [|reflexivity].
      apply node_eqb_eq in E'. subst k'. destruct (node_eqb k k0) eqn:E2; [|reflexivity].
      apply node_eqb_eq in E2. subst k0. rewrite node_eqb_refl in E. discriminate.
Qed.

Lemma graph_lookup_key (g : MINLP.graph) (k : node) :
  In k (map fst g) <-> exists a, MINLP.graph_lookup g k = Some a.
Proof.
  induction g as [|[k0 a0] r IH]; simpl.
  - split; [contradiction|intros [a H]; discriminate].
  - destruct (node_eqb k0 k) eqn:E.
    + apply node_eqb_eq in E. split; [eauto|auto].
    + apply node_eqb_neq in E. rewrite IH. split; [intros [H|H]; [contradiction|exact H]|auto].
Qed.

(** overwriting the value of a key that is present keeps the keys *)
Lemma graph_setitem_present (g : MINLP.graph) (k : node) (a : MINLP.adjacency) :
  In k (map fst g) -> map fst (MINLP.graph_setitem g k a) = map fst g.
Proof.
  induction g as [|[k0 a0] r IH]; simpl; intros H; [contradiction|].
  destruct (node_eqb k0 k) eqn:E; simpl; [reflexivity|].
  apply node_eqb_neq in E. f_equal. apply IH. destruct H; [contradiction|auto].
Qed.

Lemma graph_setitem_keys (g : MINLP.graph) (k k' : node) (a : MINLP.adjacency) :
  In k' (map fst (MINLP.graph_setitem g k a)) <-> In k' (map fst g) \/ k' = k.
Proof.
  induction g as [|[k0 a0] r IH]; simpl.
  - intuition.
  - destruct (node_eqb k0 k) eqn:E; simpl.
    + apply node_eqb_eq in E. subst k0. intuition.
    + rewrite IH. intuition.
Qed.

Lemma graph_setitem_nodup (g : MINLP.graph) (k : node) (a : MINLP.adjacency) :
  NoDup (map fst g) -> NoDup (map fst (MINLP.graph_setitem g k a)).
Proof.
  induction g as [|[k0 a0] r IH]; simpl; intros H.
  - constructor; [intros []|constructor].
  - inversion H as [|? ? Hk Hr]; subst.
    destruct (node_eqb k0 k) eqn:E; simpl; [now constructor|].
    constructor; [|auto]. rewrite graph_setitem_keys. apply node_eqb_neq in E.
    intros [Hin|Hin]; [contradiction|congruence].
Qed.

(** the dict the comprehension builds: one entry with two empty lists per
    distinct node *)
Lemma initial_graph (ns : list node) (g0 : MINLP.graph) :
  let g := fold_left (fun g n => MINLP.graph_setitem g n
                                   {| MINLP.adj_in := []; MINLP.adj_out := [] |}) ns g0 in
  (NoDup (map fst g0) -> NoDup (map fst g))
  /\ (forall n, In n (map fst g) <-> In n (map fst g0) \/ In n ns)
  /\ ((forall n a, MINLP.graph_lookup g0 n = Some a ->
                   a = {| MINLP.adj_in := []; MINLP.adj_out := [] |}) ->
      forall n a, MINLP.graph_lookup g n = Some a ->
                  a = {| MINLP.adj_in := []; MINLP.adj_out := [] |}).
Proof.
  revert g0. induction ns as [|x ns IH]; intros g0; simpl.
  - repeat split; auto; tauto.
  - destruct (IH (MINLP.graph_setitem g0 x {| MINLP.adj_in := []; MINLP.adj_out := [] |}))
      as [H1 [H2 H3]].
    split; [|split].
    + intros Hnd. apply H1. now apply graph_setitem_nodup.
    + intros n. rewrite H2, graph_setitem_keys. intuition.
    + intros H0. apply H3. intros n a. rewrite graph_lookup_setitem.
      destruct (node_eqb x n); [intros E; now inversion E|apply H0].
Qed.

Lemma leaving_cons (n u v : node) (d : edge_attrs) (es : list edge) :
  leaving n ((u, v, d) :: es) = (if node_eqb u n then [(v, d)] else []) ++ leaving n es.
Proof. unfold leaving. simpl. now destruct (node_eqb u n). Qed.

Lemma entering_cons (n u v : node) (d : edge_attrs) (es : list edge) :
  entering n ((u, v, d) :: es) = (if node_eqb v n then [(u, d)] else []) ++ entering n es.
Proof. unfold entering. simpl. now destruct (node_eqb v n). Qed.

(** the loop over the edges: it fails on an end that is not a key, keeps
    the keys, and appends to the lists of a node the links that leave and
    enter it *)
Lemma add_edges_spec (es : list edge) (g g' : MINLP.graph) :
  MINLP.add_edges g es = Ok g' ->
  map fst g' = map fst g
  /\ (forall u v d, In (u, v, d) es -> In u (map fst g) /\ In v (map fst g))
  /\ forall n a', MINLP.graph_lookup g' n = Some a' ->
                  exists a, MINLP.graph_lookup g n = Some a
                            /\ MINLP.adj_out a' = MINLP.adj_out a ++ leaving n es
                            /\ MINLP.adj_in a' = MINLP.adj_in a ++ entering n es.
Proof.
  revert g. induction es as [|[[u v] d] r IH]; intros g H; simpl in H.
  - inversion H; subst. split; [reflexivity|]. split; [intros ? ? ? []|].
    intros n a' Ha. exists a'. unfold leaving, entering. simpl.
    now rewrite !app_nil_r.
  - unfold MINLP.graph_getitem at 1 in H.
    destruct (MINLP.graph_lookup g u) as [gu|] eqn:Hu; [|discriminate]. cbn [bind] in H.
    set (g1 := MINLP.graph_setitem g u _) in H.
    unfold MINLP.graph_getitem at 1 in H.
    destruct (MINLP.graph_lookup g1 v) as [gv|] eqn:Hv; [|discriminate]. cbn [bind] in H.
    set (g2 := MINLP.graph_setitem g1 v _) in H.
    assert (Ku : In u (map fst g)) by (apply graph_lookup_key; eauto).
    assert (K1 : map fst g1 = map fst g) by (now apply graph_setitem_present).
    assert (Kv : In v (map fst g1)) by (apply graph_lookup_key; eauto).
    assert (K2 : map fst g2 = map fst g) by (unfold g2; now rewrite graph_setitem_present).
    destruct (IH g2 H) as [Hk [Hin Hl]].
    split; [now rewrite Hk|]. split.
    + intros u' v' d' [E|Hi].
      * inversion E; subst. split; [exact Ku|now rewrite <- K1].
      * rewrite <- K2. eauto.
    + intros n a' Ha. destruct (Hl n a' Ha) as [a2 [Ha2 [Ho Hi]]].
      rewrite leaving_cons, entering_cons, Ho, Hi.
      unfold g2 in Ha2. rewrite graph_lookup_setitem in Ha2.
      unfold g1 in Ha2, Hv. rewrite graph_lookup_setitem in Ha2, Hv.
      destruct (node_eqb v n) eqn:Evn.
      * apply node_eqb_eq in Evn. subst n. inversion Ha2; subst a2. simpl.
        destruct (node_eqb u v) eqn:Euv.
        -- inversion Hv; subst gv. simpl. apply node_eqb_eq in Euv. subst v.
           exists gu. rewrite <- !app_assoc. auto.
        -- exists gv. rewrite <- !app_assoc. auto.
      * destruct (node_eqb u n) eqn:Eun.
        -- apply node_eqb_eq in Eun. subst n. inversion Ha2; subst a2. simpl.
           exists gu. rewrite <- !app_assoc. auto.
        -- exists a2. auto.
Qed.

Lemma add_edges_raises (es : list edge) (g : MINLP.graph) (e : exn) :
  MINLP.add_edges g es = Raise e -> e = KeyError.
Proof.
  revert g. induction es as [|[[u v] d] r IH]; intros g H; simpl in H; [discriminate|].
  unfold MINLP.graph_getitem at 1 in H.
  destruct (MINLP.graph_lookup g u) as [gu|]; [|now inversion H]. cbn [bind] in H.
  unfold MINLP.graph_getitem at 1 in H.
  destruct (MINLP.graph_lookup _ v) as [gv|]; [|now inversion H]. cbn [bind] in H.
  exact (IH _ H).
Qed.

Lemma add_edges_total (es : list edge) (g : MINLP.graph) :
  (forall u v d, In (u, v, d) es -> In u (map fst g) /\ In v (map fst g)) ->
  exists g', MINLP.add_edges g es = Ok g'.
Proof.
  revert g. induction es as [|[[u v] d] r IH]; intros g H; simpl; [eauto|].
  destruct (H u v d (or_introl eq_refl)) as [Hu Hv].
  apply graph_lookup_key in Hu. destruct Hu as [gu Hu].
  unfold MINLP.graph_getitem at 1. rewrite Hu. cbn [bind].
  set (g1 := MINLP.graph_setitem g u _).
  assert (K1 : map fst g1 = map fst g).
  { apply graph_setitem_present. apply graph_lookup_key. eauto. }
  rewrite <- K1 in Hv. pose proof Hv as Hv'.
  apply graph_lookup_key in Hv. destruct Hv as [gv Hv].
  unfold MINLP.graph_getitem at 1. rewrite Hv. cbn [bind].
  apply IH. intros u' v' d' Hi. rewrite graph_setitem_present by exact Hv'.
  rewrite K1. apply (H u' v' d'). now right.
Qed.

(** X19. [build_directed_graph] fails in one way only: it raises
    [KeyError] when an edge starts or ends at a name that is not in
    [nodes], and returns otherwise. *)
Theorem build_directed_graph_failure (ns : list node) (es : list edge) :
  ((forall u v d, In (u, v, d) es -> In u ns /\ In v ns) ->
   exists g, MINLP.build_directed_graph ns es = Ok g)
  /\ ((exists u v d, In (u, v, d) es /\ (~ In u ns \/ ~ In v ns)) ->
      MINLP.build_directed_graph ns es = Raise KeyError).
Proof.
  unfold MINLP.build_directed_graph.
  destruct (initial_graph ns []) as [_ [Hkeys _]]. cbv zeta in Hkeys. simpl in Hkeys.
  split.
  - intros H. apply add_edges_total. intros u v d Hin.
    destruct (H u v d Hin). split; apply Hkeys; auto.
  - intros [u [v [d [Hin Hbad]]]].
    destruct (MINLP.add_edges _ es) as [g'|e] eqn:E.
    + exfalso. destruct (add_edges_spec _ _ _ E) as [_ [Hends _]].
      destruct (Hends u v d Hin) as [Hu Hv]. apply Hkeys in Hu, Hv.
      destruct Hu as [[]|Hu], Hv as [[]|Hv]. tauto.
    + now rewrite (add_edges_raises _ _ _ E).
Qed.

Lemma build_directed_graph_failure_witness :
  MINLP.build_directed_graph ["A"; "B"]%string [("A", "C", mk_attrs 1000 1 0 0 0)]%string
  = Raise KeyError.
Proof.
  apply (proj2 (build_directed_graph_failure _ _)).
  exists "A"%string, "C"%string, (mk_attrs 1000 1 0 0 0). split; [simpl; auto|].
  right. simpl. intros [E|[E|[]]]; discriminate.
Defined.

Lemma build_directed_graph_shape (ns : list node) (es : list edge) (g : MINLP.graph) :
  MINLP.build_directed_graph ns es = Ok g ->
  NoDup (map fst g)
  /\ (forall n, In n (map fst g) <-> In n ns)
  /\ forall n a, MINLP.graph_lookup g n = Some a ->
                 MINLP.adj_out a = leaving n es /\ MINLP.adj_in a = entering n es.
Proof.
  unfold MINLP.build_directed_graph. intros H.
  destruct (initial_graph ns []) as [Hnd [Hkeys Hempty]]. cbv zeta in Hnd, Hkeys, Hempty.
  destruct (add_edges_spec _ _ _ H) as [Hk [_ Hl]].
  split; [rewrite Hk; apply Hnd; constructor|]. split.
  - intros n. rewrite Hk, Hkeys. simpl. tauto.
  - intros n a Ha. destruct (Hl n a Ha) as [a0 [Ha0 [Ho Hi]]].
    rewrite (Hempty (fun n a E => ltac:(discriminate)) n a0 Ha0) in Ho, Hi.
    simpl in Ho, Hi. auto.
Qed.

(** X20. What [build_directed_graph] returns: a dict with one entry per
    distinct name of [nodes], whose [out] list holds exactly the links
    that leave the node and whose [in] list exactly the links that enter
    it, each with the attributes of its edge and in the order of the edge
    list. *)
Theorem build_directed_graph_lists (ns : list node) (es : list edge) (g : MINLP.graph) :
  MINLP.build_directed_graph ns es = Ok g ->
  NoDup (map fst g)
  /\ (forall n, In n (map fst g) <-> In n ns)
  /\ forall n a, MINLP.graph_lookup g n = Some a ->
                 MINLP.adj_out a = leaving n es /\ MINLP.adj_in a = entering n es.
Proof.
  unfold MINLP.build_directed_graph. intros H.
  destruct (initial_graph ns []) as [Hnd [Hkeys Hempty]]. cbv zeta in Hnd, Hkeys, Hempty.
  destruct (add_edges_spec _ _ _ H) as [Hk [_ Hl]].
  split; [rewrite Hk; apply Hnd; constructor|]. split.
  - intros n. rewrite Hk, Hkeys. simpl. tauto.
  - intros n a Ha. destruct (Hl n a Ha) as [a0 [Ha0 [Ho Hi]]].
    rewrite (Hempty (fun n a E => ltac:(discriminate)) n a0 Ha0) in Ho, Hi.
    simpl in Ho, Hi. auto.
Qed.

(** ** MINLP.py: the read-out of the path *)

Lemma linked_snoc (R : node -> node -> Prop) (l : list node) (u v : node) :
  linked R (l ++ [u]) -> R u v -> linked R ((l ++ [u]) ++ [v]).
Proof.
  induction l as [|a l IH]; simpl; intros H Huv.
  - auto.
  - destruct (l ++ [u]) as [|b r] eqn:E.
    + destruct l; discriminate.
    + simpl in *. destruct H as [Hab Hr]. split; [exact Hab|]. apply IH; assumption.
Qed.

Lemma linked_weaken (R R' : node -> node -> Prop) (p : list node) :
  (forall u v, R u v -> R' u v) -> linked R p -> linked R' p.
Proof.
  intros HR. induction p as [|u [|v r] IH]; simpl; auto.
  intros [H1 H2]. split; [auto|]. apply IH. exact H2.
Qed.

Lemma chosen_true (x : node -> node -> Q) (u v : node) :
  MINLP.chosen x u v = true <-> (1 # 2 < x u v)%Q.
Proof.
  unfold MINLP.chosen. rewrite negb_true_iff. split.
  - intros H. apply Qnot_le_lt. intros Hle. apply Qle_bool_iff in Hle. congruence.
  - intros H. destruct (Qle_bool (x u v) (1 # 2)) eqn:E; [|reflexivity].
    apply Qle_bool_iff in E. exfalso. exact (Qlt_not_le _ _ H E).
Qed.

Lemma existsb_node_in (n : node) (l : list node) :
  existsb (node_eqb n) l = true <-> In n l.
Proof.
  rewrite existsb_exists. split.
  - intros [y [Hy E]]. apply node_eqb_eq in E. now subst.
  - intros H. exists n. split; [exact H|apply node_eqb_refl].
Qed.

(** a run of the loop with more iterations allowed ends in the same way *)
Lemma follow_more_fuel (g : MINLP.graph) (x : node -> node -> Q) (t : node) :
  forall fuel cur visited path r,
    MINLP.follow fuel g x t cur visited path = Some r ->
    forall fuel', (fuel <= fuel')%nat ->
                  MINLP.follow fuel' g x t cur visited path = Some r.
Proof.
  induction fuel as [|k IH]; intros cur visited path r H fuel' Hle; [discriminate|].
  destruct fuel' as [|k']; [lia|]. simpl in *.
  destruct (node_eqb cur t); [exact H|].
  destruct (existsb (node_eqb cur) visited); [exact H|].
  destruct (MINLP.graph_getitem g cur) as [a|e]; [|exact H].
  destruct (find _ (MINLP.adj_out a)) as [[v d]|]; [|exact H].
  apply (IH _ _ _ _ H). lia.
Qed.

(** the set [visited] bounds the number of iterations *)
Lemma follow_ends (g : MINLP.graph) (x : node -> node -> Q) (t : node) :
  forall fuel cur visited path,
    NoDup visited -> incl visited (map fst g) ->
    (List.length g < fuel + List.length visited)%nat ->
    exists r, MINLP.follow fuel g x t cur visited path = Some r.
Proof.
  induction fuel as [|k IH]; intros cur visited path Hnd Hinc Hlen.
  - pose proof (NoDup_incl_length Hnd Hinc) as Hl. rewrite length_map in Hl. lia.
  - simpl. destruct (node_eqb cur t); [eauto|].
    destruct (existsb (node_eqb cur) visited) eqn:Ev; [eauto|].
    unfold MINLP.graph_getitem.
    destruct (MINLP.graph_lookup g cur) as [a|] eqn:Ha; [|eauto].
    destruct (find _ (MINLP.adj_out a)) as [[v d]|]; [|eauto].
    apply IH.
    + constructor; [|exact Hnd]. intros Hin. apply existsb_node_in in Hin. congruence.
    + intros n [<-|Hn]; [|auto]. apply graph_lookup_key. eauto.
    + simpl. lia.
Qed.

(** what the loop keeps: the nodes left behind are distinct and differ
    from the destination, and the nodes walked so far are linked by the
    links the loop took *)
Lemma follow_sound (g : MINLP.graph) (x : node -> node -> Q) (s t : node) :
  forall fuel cur visited path r,
    NoDup visited -> (forall n, In n visited -> n <> t) ->
    s :: map snd path = rev visited ++ [cur] ->
    linked (first_chosen g x) (rev visited ++ [cur]) ->
    MINLP.follow fuel g x t cur visited path = Some r ->
    (forall e, r = Raise e -> e = KeyError)
    /\ forall st path' cur', r = Ok (st, path', cur') ->
         (cur' = t <-> st = MINLP.Arrived)
         /\ (st = MINLP.Arrived ->
             let p := s :: map snd path' in
             NoDup p /\ last p s = t /\ linked (first_chosen g x) p).
Proof.
  induction fuel as [|k IH]; intros cur visited path r Hnd Hnt Hp Hl H; [discriminate|].
  simpl in H. destruct (node_eqb cur t) eqn:Et.
  - apply node_eqb_eq in Et. subst cur. inversion H; subst r.
    split; [discriminate|].
    intros st path' cur' E. inversion E; subst. split; [tauto|]. intros _.
    cbv zeta. rewrite Hp. split; [|split].
    + apply NoDup_rev in Hnd. apply NoDup_app; [exact Hnd|constructor; [intros []|constructor]|].
      intros n Hn [<-|[]]. apply in_rev in Hn. exact (Hnt _ Hn eq_refl).
    + now rewrite last_last.
    + exact Hl.
  - apply node_eqb_neq in Et.
    destruct (existsb (node_eqb cur) visited) eqn:Ev.
    { inversion H; subst r. split; [discriminate|].
      intros st path' cur' E. inversion E; subst. split.
      - split; [contradiction|discriminate].
      - discriminate. }
    unfold MINLP.graph_getitem in H.
    destruct (MINLP.graph_lookup g cur) as [a|] eqn:Ha.
    2:{ inversion H; subst r. split; [intros e E; now inversion E|discriminate]. }
    destruct (find _ (MINLP.adj_out a)) as [[v d]|] eqn:Hf.
    2:{ inversion H; subst r. split; [discriminate|].
        intros st path' cur' E. inversion E; subst. split.
        - split; [contradiction|discriminate].
        - discriminate. }
    apply (IH v (cur :: visited) (path ++ [(cur, v)]) r).
    + constructor; [|exact Hnd]. intros Hin. apply existsb_node_in in Hin. congruence.
    + intros n [<-|Hn]; auto.
    + rewrite map_app. simpl. rewrite app_comm_cons, Hp. reflexivity.
    + simpl. apply linked_snoc; [exact Hl|]. exists a, d. auto.
    + exact H.
Qed.

(** on a graph whose links stay inside the graph the loop looks up
    present keys only *)
Lemma follow_no_raise (g : MINLP.graph) (x : node -> node -> Q) (t : node) :
  (forall u a v d, MINLP.graph_lookup g u = Some a -> In (v, d) (MINLP.adj_out a) ->
                   In v (map fst g)) ->
  forall fuel cur visited path e,
    In cur (map fst g) ->
    MINLP.follow fuel g x t cur visited path <> Some (Raise e).
Proof.
  intros Hclosed. induction fuel as [|k IH]; intros cur visited path e Hcur; [discriminate|].
  simpl. destruct (node_eqb cur t); [discriminate|].
  destruct (existsb (node_eqb cur) visited); [discriminate|].
  unfold MINLP.graph_getitem. apply graph_lookup_key in Hcur. destruct Hcur as [a Ha].
  rewrite Ha. destruct (find _ (MINLP.adj_out a)) as [[v d]|] eqn:Hf; [|discriminate].
  apply IH. apply find_some in Hf. exact (Hclosed _ _ _ _ Ha (proj1 Hf)).
Qed.

Lemma in_leaving (n v : node) (d : edge_attrs) (es : list edge) :
  In (v, d) (leaving n es) <-> In (n, v, d) es.
Proof.
  unfold leaving. rewrite in_map_iff. split.
  - intros [[[u v'] d'] [E Hin]]. apply filter_In in Hin. destruct Hin as [Hin Hu].
    apply node_eqb_eq in Hu. inversion E; subst. exact Hin.
  - intros H. exists (n, v, d). split; [reflexivity|]. apply filter_In. split; [exact H|].
    apply node_eqb_refl.
Qed.

Lemma read_out_of_follow (g : MINLP.graph) (x : node -> node -> Q) (s t : node) :
  exists r,
    (forall fuel, (List.length g < fuel)%nat -> MINLP.read_out fuel g x s t = Some r)
    /\ (forall e, r = Raise e ->
                  e = KeyError
                  /\ exists fuel, MINLP.follow fuel g x t s [] [] = Some (Raise e))
    /\ forall o, r = Ok o ->
         (forall p, o = Some p ->
                    hd s p = s /\ last p s = t /\ NoDup p /\ linked (first_chosen g x) p).
Proof.
  destruct (follow_ends g x t (S (List.length g)) s [] []) as [r0 Hr0].
  { constructor. } { intros n []. } { simpl. lia. }
  assert (Hrun : forall fuel, (List.length g < fuel)%nat ->
                              MINLP.follow fuel g x t s [] [] = Some r0).
  { intros fuel Hf. apply (follow_more_fuel _ _ _ _ _ _ _ _ Hr0). lia. }
  destruct (follow_sound g x s t (S (List.length g)) s [] [] r0) as [He Hok].
  { constructor. } { intros n []. } { reflexivity. } { exact I. } { exact Hr0. }
  destruct r0 as [[[st path] cur]|e].
  - destruct (Hok st path cur eq_refl) as [Hiff Harr].
    destruct (node_eqb cur t) eqn:Ect.
    + exists (Ok (Some (s :: map snd path))). split; [|split].
      * intros fuel Hf. unfold MINLP.read_out. rewrite (Hrun fuel Hf), Ect. reflexivity.
      * discriminate.
      * intros o Eo p Ep. subst o. inversion Eo; subst p.
        apply node_eqb_eq in Ect. destruct (Harr (proj1 Hiff Ect)) as [H1 [H2 H3]].
        simpl hd. auto.
    + exists (Ok None). split; [|split].
      * intros fuel Hf. unfold MINLP.read_out. rewrite (Hrun fuel Hf), Ect. reflexivity.
      * discriminate.
      * intros o Eo p Ep. subst o. discriminate.
  - exists (Raise e). split; [|split].
    + intros fuel Hf. unfold MINLP.read_out. now rewrite (Hrun fuel Hf).
    + intros e' E. inversion E; subst e'. split; [exact (He e eq_refl)|eauto].
    + discriminate.
Qed.

(** X21. The read-out loop of [MINLP.py] always ends, whatever values the
    solver left in [x]: after at most [len(graph) + 1] tests of its
    condition.  [KeyError] is the only exception it can raise.  When it
    prints a path, the path starts at the source, ends at the destination,
    visits no node twice, and each of its steps is the first outgoing
    link of the node whose variable is above one half. *)
Theorem read_out_always_ends (g : MINLP.graph) (x : node -> node -> Q) (s t : node) :
  exists r,
    (forall fuel, (List.length g < fuel)%nat -> MINLP.read_out fuel g x s t = Some r)
    /\ (forall e, r = Raise e -> e = KeyError)
    /\ forall p, r = Ok (Some p) ->
         hd s p = s /\ last p s = t /\ NoDup p /\ linked (first_chosen g x) p.
Proof.
  destruct (read_out_of_follow g x s t) as [r [H1 [H2 H3]]].
  exists r. split; [exact H1|]. split.
  - intros e E. exact (proj1 (H2 e E)).
  - intros p E. exact (H3 _ E p eq_refl).
Qed.

(** X22. On the graph [build_directed_graph] returns, with the source
    among [nodes], the read-out raises nothing, and a path it prints is a
    simple path of the network from the source to the destination along
    edges whose variable is above one half.  With a source that is not
    among [nodes] (and differs from the destination) it raises
    [KeyError]. *)
Theorem read_out_on_built_graph (ns : list node) (es : list edge) (g : MINLP.graph)
    (x : node -> node -> Q) (s t : node) :
  MINLP.build_directed_graph ns es = Ok g ->
  (In s ns ->
   exists o,
     (forall fuel, (List.length ns < fuel)%nat ->
                   MINLP.read_out fuel g x s t = Some (Ok o))
     /\ forall p, o = Some p ->
          hd s p = s /\ last p s = t /\ NoDup p
          /\ linked (fun u v => (exists d, In (u, v, d) es) /\ (1 # 2 < x u v)%Q) p)
  /\ (~ In s ns -> s <> t ->
      forall fuel, (0 < fuel)%nat -> MINLP.read_out fuel g x s t = Some (Raise KeyError)).
Proof.
  intros Hb. destruct (build_directed_graph_shape ns es g Hb) as [Hnd [Hkeys Hlists]].
  split.
  - intros Hs.
    assert (Hlen : (List.length g <= List.length ns)%nat).
    { rewrite <- (length_map fst g). apply NoDup_incl_length; [exact Hnd|].
      intros n Hn. now apply Hkeys. }
    assert (Hclosed : forall u a v d, MINLP.graph_lookup g u = Some a ->
                                      In (v, d) (MINLP.adj_out a) -> In v (map fst g)).
    { intros u a v d Ha Hin. destruct (Hlists u a Ha) as [Ho _]. rewrite Ho in Hin.
      apply in_leaving in Hin. unfold MINLP.build_directed_graph in Hb.
      destruct (add_edges_spec _ _ _ Hb) as [Hk [Hends _]]. rewrite Hk.
      exact (proj2 (Hends u v d Hin)). }
    destruct (read_out_of_follow g x s t) as [r [H1 [H2 H3]]].
    destruct r as [o|e].
    + exists o. split.
      * intros fuel Hf. apply H1. lia.
      * intros p Ep. destruct (H3 o eq_refl p Ep) as [Hh [Hl [Hn Hlk]]].
        repeat (split; [assumption|]).
        apply (linked_weaken (first_chosen g x)); [|exact Hlk].
        intros u v [a [d [Ha Hf]]]. apply find_some in Hf. destruct Hf as [Hin Hc].
        destruct (Hlists u a Ha) as [Ho _]. rewrite Ho in Hin. apply in_leaving in Hin.
        split; [eauto|]. now apply chosen_true.
    + exfalso. destruct (H2 e eq_refl) as [_ [fuel Hf]].
      apply (follow_no_raise g x t Hclosed fuel s [] [] e); [now apply Hkeys|exact Hf].
  - intros Hs Hst fuel Hf. destruct fuel as [|k]; [lia|].
    unfold MINLP.read_out. simpl.
    destruct (node_eqb s t) eqn:E; [apply node_eqb_eq in E; contradiction|].
    unfold MINLP.graph_getitem.
    destruct (MINLP.graph_lookup g s) as [a|] eqn:Ha; [|reflexivity].
    exfalso. apply Hs, Hkeys, graph_lookup_key. eauto.
Qed.

Lemma build_directed_graph_lists_witness :
  exists g, MINLP.build_directed_graph (nodes net_diamond) (edges net_diamond) = Ok g
            /\ NoDup (map fst g)
            /\ (forall n, In n (map fst g) <-> In n (nodes net_diamond))
            /\ forall n a, MINLP.graph_lookup g n = Some a ->
                 MINLP.adj_out a = leaving n (edges net_diamond)
                 /\ MINLP.adj_in a = entering n (edges net_diamond).
Proof.
  assert (H : { g | MINLP.build_directed_graph (nodes net_diamond) (edges net_diamond)
                    = Ok g }) by (eexists; vm_compute; reflexivity).
  destruct H as [g H]. exists g. split; [exact H|].
  exact (build_directed_graph_lists _ _ g H).
Defined.

Lemma read_out_on_built_graph_witness :
  exists g, MINLP.build_directed_graph (nodes net_diamond) (edges net_diamond) = Ok g
            /\ MINLP.read_out 5 g (on_links [("A", "C"); ("C", "D")]%string)
                              "A"%string "D"%string
               = Some (Ok (Some ["A"; "C"; "D"]%string)).
Proof.
  assert (H : { g | MINLP.build_directed_graph (nodes net_diamond) (edges net_diamond)
                    = Ok g }) by (eexists; vm_compute; reflexivity).
  destruct H as [g H]. exists g. split; [exact H|].
  destruct (read_out_on_built_graph _ _ g (on_links [("A", "C"); ("C", "D")]%string)
              "A"%string "D"%string H) as [Hin _].
  destruct Hin as [o [Hrun _]]; [simpl; auto|].
  rewrite (Hrun 5%nat) by (simpl; lia).
  assert (E : MINLP.read_out 5 g (on_links [("A", "C"); ("C", "D")]%string)
                             "A"%string "D"%string = Some (Ok o))
    by (apply Hrun; simpl; lia).
  revert E. injection H as <-. vm_compute. intros E. injection E as <-. reflexivity.
Defined.

(** ** LP_in_CPEG.py: [print_selected_path] *)

Lemma last_cons_default (v : node) (q : list node) (d : node) :
  last (v :: q) d = last q v.
Proof.
  revert v d. induction q as [|w q IH]; intros v d; [reflexivity|].
  change (last (v :: w :: q) d) with (last (w :: q) d).
  now rewrite (IH w d), (IH w v).
Qed.

Lemma selected_loop_more_fuel (x : node -> node -> option Q) (V : list node) (t : node) :
  forall fuel cur path r,
    selected_path_loop fuel x V t cur path = Some r ->
    forall fuel', (fuel <= fuel')%nat -> selected_path_loop fuel' x V t cur path = Some r.
Proof.
  induction fuel as [|k IH]; intros cur path r H fuel' Hle; [discriminate|].
  destruct fuel' as [|k']; [lia|]. simpl in *.
  destruct (node_eqb cur t); [exact H|].
  destruct (find (selected x cur) V) as [v|]; [|exact H].
  apply (IH _ _ _ H). lia.
Qed.

(** the loop follows the chain of first selected successors *)
Lemma selected_loop_complete (x : node -> node -> option Q) (V : list node) (t : node) :
  forall q cur path fuel,
    linked (next_selected x V) (cur :: q) ->
    ~ In t (removelast (cur :: q)) ->
    (List.length q < fuel)%nat ->
    selected_path_loop fuel x V t cur path
    = if node_eqb (last q cur) t then Some (SelectedPath (path ++ q))
      else match find (selected x (last q cur)) V with
           | None => Some NoCompletePath
           | Some v => selected_path_loop (fuel - S (List.length q)) x V t v
                                          ((path ++ q) ++ [v])
           end.
Proof.
  induction q as [|v q IH]; intros cur path fuel Hl Hnt Hf.
  - destruct fuel as [|k]; [simpl in Hf; lia|]. simpl.
    rewrite app_nil_r. destruct (node_eqb cur t); [reflexivity|].
    rewrite Nat.sub_0_r. reflexivity.
  - destruct fuel as [|k]; [simpl in Hf; lia|].
    change (removelast (cur :: v :: q)) with (cur :: removelast (v :: q)) in Hnt.
    assert (Hc : node_eqb cur t = false).
    { apply node_eqb_neq. intros E. apply Hnt. now left. }
    destruct Hl as [Hn Hl]. unfold next_selected in Hn.
    cbn [selected_path_loop]. rewrite Hc, Hn.
    rewrite (IH v (path ++ [v]) k Hl).
    + rewrite (last_cons_default v q cur). rewrite <- !app_assoc. simpl.
      replace (S k - S (S (List.length q)))%nat with (k - S (List.length q))%nat by lia.
      reflexivity.
    + intros Hin. apply Hnt. now right.
    + simpl in Hf. lia.
Qed.

(** what a finished run of the loop has walked *)
Lemma selected_loop_sound (x : node -> node -> option Q) (V : list node) (t : node) :
  forall fuel cur path r,
    selected_path_loop fuel x V t cur path = Some r ->
    exists q, linked (next_selected x V) (cur :: q)
              /\ ~ In t (removelast (cur :: q))
              /\ match r with
                 | SelectedPath p => p = path ++ q /\ last q cur = t
                 | NoCompletePath => last q cur <> t
                                     /\ find (selected x (last q cur)) V = None
                 end.
Proof.
  induction fuel as [|k IH]; intros cur path r H; [discriminate|].
  simpl in H. destruct (node_eqb cur t) eqn:Ec.
  - inversion H; subst r. exists []. apply node_eqb_eq in Ec. simpl.
    rewrite app_nil_r. auto.
  - apply node_eqb_neq in Ec. destruct (find (selected x cur) V) as [v|] eqn:Hf.
    + destruct (IH _ _ _ H) as [q [Hl [Hnt Hr]]]. exists (v :: q).
      split; [split; [exact Hf|exact Hl]|]. split.
      * change (removelast (cur :: v :: q)) with (cur :: removelast (v :: q)).
        intros [E|Hin]; [congruence|contradiction].
      * rewrite (last_cons_default v q cur). destruct r as [p|].
        -- destruct Hr as [Hp Hlast]. split; [|exact Hlast].
           rewrite Hp, <- app_assoc. reflexivity.
        -- exact Hr.
    + inversion H; subst r. exists []. simpl. auto.
Qed.

Lemma in_removelast_or_last (t d : node) (l : list node) :
  l <> [] -> (In t l <-> In t (removelast l) \/ last l d = t).
Proof.
  intros Hl. rewrite (app_removelast_last d Hl) at 1. rewrite in_app_iff. simpl.
  intuition.
Qed.

Lemma print_selected_path_spec (x : node -> node -> option Q) (V : list node) (s t : node) :
  (forall p, (exists fuel, print_selected_path fuel x V s t = Some (SelectedPath p))
             <-> exists q, p = s :: q /\ linked (next_selected x V) p
                           /\ last p s = t /\ ~ In t (removelast p))
  /\ ((exists fuel, print_selected_path fuel x V s t = Some NoCompletePath)
      <-> exists q, linked (next_selected x V) (s :: q) /\ ~ In t (s :: q)
                    /\ find (selected x (last q s)) V = None).
Proof.
  unfold print_selected_path. split; [intros p|]; split.
  - intros [fuel H]. destruct (selected_loop_sound x V t _ _ _ _ H) as [q [Hl [Hnt [Hp Hlast]]]].
    exists q. subst p. change ([s] ++ q) with (s :: q).
    rewrite (last_cons_default s q s). auto.
  - intros [q [Hp [Hl [Hlast Hnt]]]]. subst p. exists (S (List.length q)).
    rewrite (selected_loop_complete x V t q s [s] (S (List.length q)) Hl Hnt) by lia.
    rewrite (last_cons_default s q s) in Hlast. rewrite Hlast, node_eqb_refl. reflexivity.
  - intros [fuel H]. destruct (selected_loop_sound x V t _ _ _ _ H) as [q [Hl [Hnt [Hne Hf]]]].
    exists q. split; [exact Hl|]. split; [|exact Hf].
    rewrite (in_removelast_or_last t s (s :: q)) by discriminate.
    rewrite (last_cons_default s q s). tauto.
  - intros [q [Hl [Hnt Hf]]]. exists (S (List.length q)).
    rewrite (in_removelast_or_last t s (s :: q)) in Hnt by discriminate.
    rewrite (last_cons_default s q s) in Hnt.
    rewrite (selected_loop_complete x V t q s [s] (S (List.length q)) Hl) by (tauto || lia).
    destruct (node_eqb (last q s) t) eqn:E; [apply node_eqb_eq in E; tauto|].
    now rewrite Hf.
Qed.

(** X23. What [print_selected_path] prints.  From every node it moves to
    the first node of [V] that has a variable above one half, until it
    stands on the destination: it prints a path [p] exactly when [p] is
    this chain of moves from the source up to the first arrival at the
    destination, and the message of its [else] branch exactly when the
    chain reaches, without meeting the destination, a node from which no
    such move exists.  The outcome does not depend on how long the loop
    is allowed to run beyond that point. *)
Theorem print_selected_path_result (x : node -> node -> option Q) (V : list node)
    (s t : node) :
  (forall p, (exists fuel, print_selected_path fuel x V s t = Some (SelectedPath p))
             <-> exists q, p = s :: q /\ linked (next_selected x V) p
                           /\ last p s = t /\ ~ In t (removelast p))
  /\ ((exists fuel, print_selected_path fuel x V s t = Some NoCompletePath)
      <-> exists q, linked (next_selected x V) (s :: q) /\ ~ In t (s :: q)
                    /\ find (selected x (last q s)) V = None)
  /\ forall fuel fuel' r, print_selected_path fuel x V s t = Some r -> (fuel <= fuel')%nat ->
                          print_selected_path fuel' x V s t = Some r.
Proof.
  destruct (print_selected_path_spec x V s t) as [H1 H2].
  split; [exact H1|]. split; [exact H2|].
  intros fuel fuel' r H Hle. exact (selected_loop_more_fuel x V t _ _ _ _ H _ Hle).
Qed.

Lemma print_selected_path_result_witness :
  exists fuel,
    print_selected_path fuel (vars_on_links [("A", "C"); ("C", "D")]%string)
                        ["A"; "B"; "C"; "D"]%string "A"%string "D"%string
    = Some (SelectedPath ["A"; "C"; "D"]%string).
Proof.
  apply (proj2 (proj1 (print_selected_path_result _ _ _ _) ["A"; "C"; "D"]%string)).
  exists ["C"; "D"]%string. split; [reflexivity|]. split; [|split].
  - simpl. repeat split; reflexivity.
  - reflexivity.
  - simpl. intros [E|[E|[]]]; discriminate.
Defined.

Lemma selected_loop_trapped (x : node -> node -> option Q) (V : list node) (t : node)
    (trap : list node) :
  ~ In t trap ->
  (forall u, In u trap -> exists v, next_selected x V u v /\ In v trap) ->
  forall fuel cur path, In cur trap -> selected_path_loop fuel x V t cur path = None.
Proof.
  intros Ht Hclosed. induction fuel as [|k IH]; intros cur path Hcur; [reflexivity|].
  simpl. destruct (node_eqb cur t) eqn:E.
  - apply node_eqb_eq in E. subst cur. contradiction.
  - destruct (Hclosed cur Hcur) as [v [Hn Hv]]. unfold next_selected in Hn. rewrite Hn.
    now apply IH.
Qed.

(** X24. [print_selected_path] has no guard against loops: when the moves
    it makes stay inside a set of nodes that contains the source and not
    the destination (the selected links close a cycle), its [while] loop
    never ends, however many iterations it is given. *)
Theorem print_selected_path_may_not_return (x : node -> node -> option Q) (V : list node)
    (s t : node) (trap : list node) :
  In s trap -> ~ In t trap ->
  (forall u, In u trap -> exists v, next_selected x V u v /\ In v trap) ->
  forall fuel, print_selected_path fuel x V s t = None.
Proof.
  intros Hs Ht Hclosed fuel. unfold print_selected_path.
  now apply (selected_loop_trapped x V t trap).
Qed.

Lemma print_selected_path_may_not_return_witness :
  print_selected_path 1000 (vars_on_links [("A", "B"); ("B", "A"); ("B", "D")]%string)
                      ["A"; "B"; "D"]%string "A"%string "D"%string = None.
Proof.
  apply (print_selected_path_may_not_return _ _ _ _ ["A"; "B"]%string).
  - simpl. auto.
  - simpl. intros [E|[E|[]]]; discriminate.
  - intros u [<-|[<-|[]]].
    + exists "B"%string. split; [reflexivity|simpl; auto].
    + exists "A"%string. split; [reflexivity|simpl; auto].
Defined.

(** ** network_parameters.py: [generate_random_network] *)

Lemma list_pair_ind (A : Type) (P : list A -> Prop) :
  P [] -> (forall a, P [a]) -> (forall a b l, P l -> P (a :: b :: l)) ->
  forall l, P l.
Proof.
  intros H0 H1 H2.
  assert (H : forall l, P l /\ forall a, P (a :: l)).
  { induction l as [|b l [IH1 IH2]]; split; auto. }
  intros l. exact (proj1 (H l)).
Qed.

Lemma pair_eqb_eq (a b : Z * Z) : network_parameters.pair_eqb a b = true <-> a = b.
Proof.
  unfold network_parameters.pair_eqb. destruct a as [a1 a2], b as [b1 b2]. simpl.
  rewrite andb_true_iff, !Z.eqb_eq. split; [intros [-> ->]; reflexivity|].
  intros E. inversion E. auto.
Qed.

Lemma existsb_pair_in (e : Z * Z) (l : list (Z * Z)) :
  existsb (network_parameters.pair_eqb e) l = true <-> In e l.
Proof.
  rewrite existsb_exists. split.
  - intros [y [Hy E]]. apply pair_eqb_eq in E. now subst.
  - intros H. exists e. split; [exact H|now apply pair_eqb_eq].
Qed.

Lemma generate_loop_equation (n m : Z) (draws : list Z) (edges : list (Z * Z)) :
  network_parameters.generate_loop n m draws edges
  = if Z.ltb (Z.of_nat (List.length edges)) m then
      if Z.ltb (n - 1) 1 then Some (Raise ValueError)
      else
        match draws with
        | source :: dest :: rest =>
            if negb (Z.eqb source dest)
               && negb (existsb (network_parameters.pair_eqb (source, dest)) edges)
            then network_parameters.generate_loop n m rest (edges ++ [(source, dest)])
            else network_parameters.generate_loop n m rest edges
        | _ => None
        end
    else Some (Ok edges).
Proof. destruct draws as [|a [|b l]]; reflexivity. Qed.

(** what the loop keeps about [edges]: a property [P] of pairs that holds
    of the pairs of two different draws is kept, and so is the absence of
    repetitions; at the end the list has [num_edges] entries *)
Lemma generate_loop_invariant (n m : Z) (P : Z * Z -> Prop) :
  forall draws edges es,
    (forall a b, In a draws -> In b draws -> a <> b -> P (a, b)) ->
    NoDup edges -> (forall e, In e edges -> P e) ->
    network_parameters.generate_loop n m draws edges = Some (Ok es) ->
    NoDup es /\ (forall e, In e es -> P e)
    /\ (m <= Z.of_nat (List.length es))%Z
    /\ ((Z.of_nat (List.length edges) <= m)%Z -> Z.of_nat (List.length es) = m).
Proof.
  intros draws. induction draws as [| a | a b l IH] using list_pair_ind;
    intros edges es HP Hnd Hall H; rewrite generate_loop_equation in H.
  - destruct (Z.ltb_spec (Z.of_nat (List.length edges)) m) as [Hlt|Hge].
    + destruct (Z.ltb (n - 1) 1); discriminate.
    + inversion H; subst es. repeat split; auto; lia.
  - destruct (Z.ltb_spec (Z.of_nat (List.length edges)) m) as [Hlt|Hge].
    + destruct (Z.ltb (n - 1) 1); discriminate.
    + inversion H; subst es. repeat split; auto; lia.
  - destruct (Z.ltb_spec (Z.of_nat (List.length edges)) m) as [Hlt|Hge].
    + destruct (Z.ltb (n - 1) 1); [discriminate|].
      assert (HP' : forall a0 b0, In a0 l -> In b0 l -> a0 <> b0 -> P (a0, b0)).
      { intros a0 b0 Ha Hb. apply HP; simpl; auto. }
      destruct (negb (Z.eqb a b) && negb (existsb _ edges)) eqn:Efresh.
      * apply andb_true_iff in Efresh. destruct Efresh as [Hab Hnew].
        apply negb_true_iff in Hab, Hnew. apply Z.eqb_neq in Hab.
        assert (Hnin : ~ In (a, b) edges).
        { intros Hin. apply existsb_pair_in in Hin. congruence. }
        destruct (IH (edges ++ [(a, b)]) es HP') as [H1 [H2 [H3 H4]]].
        -- apply NoDup_app; [exact Hnd|constructor; [intros []|constructor]|].
           intros e He [<-|[]]. contradiction.
        -- intros e He. apply in_app_iff in He. destruct He as [He|[<-|[]]]; [auto|].
           apply HP; simpl; auto.
        -- exact H.
        -- repeat split; auto. intros _. apply H4. rewrite length_app. simpl. lia.
      * destruct (IH edges es HP' Hnd Hall H) as [H1 [H2 [H3 H4]]]. repeat split; auto.
    + inversion H; subst es. repeat split; auto; lia.
Qed.

Lemma combine_fst_snd (A B : Type) (l : list (A * B)) :
  combine (map fst l) (map snd l) = l.
Proof. induction l as [|[a b] l IH]; simpl; [reflexivity|now rewrite IH]. Qed.

Lemma generate_random_network_inv (n m : Z) (draws : list Z) (r : list Z * list Z) :
  network_parameters.generate_random_network n m draws = Some (Ok r) ->
  exists es, network_parameters.generate_loop n m draws [] = Some (Ok es)
             /\ r = (map fst es, map snd es).
Proof.
  unfold network_parameters.generate_random_network.
  destruct (network_parameters.generate_loop n m draws []) as [[es|e]|]; try discriminate.
  intros H. inversion H. eauto.
Qed.

(** X25. The lists [generate_random_network] returns: both have
    [num_edges] entries (none when [num_edges] is negative), no edge joins
    a node to itself, no edge occurs twice, and every end is a value
    [random.randint] returned. *)
Theorem generate_random_network_result (n m : Z) (draws : list Z)
    (source_nodes destination_nodes : list Z) :
  network_parameters.generate_random_network n m draws
  = Some (Ok (source_nodes, destination_nodes)) ->
  Z.of_nat (List.length source_nodes) = Z.max 0 m
  /\ List.length destination_nodes = List.length source_nodes
  /\ NoDup (combine source_nodes destination_nodes)
  /\ forall a b, In (a, b) (combine source_nodes destination_nodes) ->
                 a <> b /\ In a draws /\ In b draws.
Proof.
  intros H. destruct (generate_random_network_inv _ _ _ _ H) as [es [Hes E]].
  inversion E; subst source_nodes destination_nodes. clear E.
  destruct (generate_loop_invariant n m
              (fun e => fst e <> snd e /\ In (fst e) draws /\ In (snd e) draws)
              draws [] es) as [H1 [H2 [H3 H4]]]; auto.
  { constructor. } { intros e []. }
  rewrite combine_fst_snd, !length_map. split; [|split; [reflexivity|split]].
  - destruct (Z.le_gt_cases 0 m) as [Hm|Hm].
    + rewrite Z.max_r by exact Hm. apply H4. simpl. exact Hm.
    + rewrite Z.max_l by lia. rewrite generate_loop_equation in Hes.
      destruct (Z.ltb_spec (Z.of_nat (@List.length (Z * Z) [])) m) as [Hlt|Hge];
        [simpl in Hlt; lia|]. inversion Hes. reflexivity.
  - exact H1.
  - intros a b Hin. exact (H2 (a, b) Hin).
Qed.

Lemma generate_random_network_result_witness :
  exists s d,
    network_parameters.generate_random_network 4 3 [1; 2; 2; 2; 1; 2; 3; 1; 2; 3]%Z
    = Some (Ok (s, d))
    /\ Z.of_nat (List.length s) = 3%Z /\ NoDup (combine s d).
Proof.
  exists [1; 3; 2]%Z, [2; 1; 3]%Z.
  assert (H : network_parameters.generate_random_network
                4 3 [1; 2; 2; 2; 1; 2; 3; 1; 2; 3]%Z
              = Some (Ok ([1; 3; 2]%Z, [2; 1; 3]%Z))) by reflexivity.
  split; [exact H|].
  destruct (generate_random_network_result _ _ _ _ _ H) as [H1 [_ [H2 _]]].
  split; [exact H1|exact H2].
Defined.

(** the loop raises on its first iteration or never *)
Lemma generate_loop_raise (n m : Z) :
  forall draws edges e,
    network_parameters.generate_loop n m draws edges = Some (Raise e) ->
    e = ValueError /\ (n <= 1)%Z /\ (Z.of_nat (List.length edges) < m)%Z.
Proof.
  intros draws. induction draws as [| a | a b l IH] using list_pair_ind;
    intros edges e H; rewrite generate_loop_equation in H;
    destruct (Z.ltb_spec (Z.of_nat (List.length edges)) m) as [Hlt|Hge]; try discriminate;
    destruct (Z.ltb_spec (n - 1) 1) as [Hn|Hn];
    try (inversion H; repeat split; [exact Hlt || lia..]); try discriminate.
  destruct (negb (Z.eqb a b) && negb (existsb _ edges)).
  - destruct (IH _ _ H) as [_ [Hn' _]]. lia.
  - destruct (IH _ _ H) as [_ [Hn' _]]. lia.
Qed.

(** X26. [generate_random_network] raises exactly when an edge is asked
    for ([num_edges > 0]) and [num_nodes <= 1], so that the range of
    [random.randint(1, num_nodes - 1)] is empty; the exception is
    [ValueError], raised whatever the draws would have been. *)
Theorem generate_random_network_value_error (n m : Z) (draws : list Z) :
  ((0 < m)%Z /\ (n <= 1)%Z ->
   network_parameters.generate_random_network n m draws = Some (Raise ValueError))
  /\ forall e, network_parameters.generate_random_network n m draws = Some (Raise e) ->
               e = ValueError /\ (0 < m)%Z /\ (n <= 1)%Z.
Proof.
  unfold network_parameters.generate_random_network. split.
  - intros [Hm Hn]. rewrite generate_loop_equation.
    destruct (Z.ltb_spec (Z.of_nat (@List.length (Z * Z) [])) m) as [Hlt|Hge];
      [|simpl in Hge; lia].
    destruct (Z.ltb_spec (n - 1) 1) as [Hn'|Hn']; [reflexivity|lia].
  - intros e H.
    destruct (network_parameters.generate_loop n m draws []) as [[es|e']|] eqn:E;
      try discriminate.
    inversion H; subst e'. destruct (generate_loop_raise _ _ _ _ _ E) as [H1 [H2 H3]].
    simpl in H3. auto.
Qed.

Lemma generate_random_network_value_error_witness :
  network_parameters.generate_random_network 1 1 [1; 1]%Z = Some (Raise ValueError).
Proof.
  apply (proj1 (generate_random_network_value_error 1 1 [1; 1]%Z)). split; lia.
Defined.

(** *** How many edges can be asked for *)

Lemma filter_map_comm (A B : Type) (f : B -> bool) (g : A -> B) (l : list A) :
  filter f (map g l) = map g (filter (fun a => f (g a)) l).
Proof.
  induction l as [|a l IH]; simpl; [reflexivity|].
  rewrite IH. now destruct (f (g a)).
Qed.

Lemma filter_neq_absent (a : Z) (l : list Z) :
  ~ In a l -> filter (fun b => negb (Z.eqb a b)) l = l.
Proof.
  induction l as [|x l IH]; simpl; intros H; [reflexivity|].
  destruct (Z.eqb_spec a x) as [E|E]; simpl.
  - exfalso. apply H. now left.
  - f_equal. apply IH. tauto.
Qed.

Lemma length_filter_neq (a : Z) (l : list Z) :
  NoDup l -> In a l ->
  List.length (filter (fun b => negb (Z.eqb a b)) l) = (List.length l - 1)%nat.
Proof.
  induction l as [|x l IH]; simpl; intros Hnd Hin; [contradiction|].
  inversion Hnd as [|? ? Hx Hl]; subst.
  destruct (Z.eqb_spec a x) as [E|E]; simpl.
  - subst x. rewrite filter_neq_absent by exact Hx. lia.
  - destruct Hin as [Hin|Hin]; [congruence|]. rewrite (IH Hl Hin).
    destruct l; [contradiction|simpl; lia].
Qed.

Lemma length_distinct_prod (l l' : list Z) :
  NoDup l' -> incl l l' ->
  List.length (filter (fun p : Z * Z => negb (Z.eqb (fst p) (snd p))) (list_prod l l'))
  = (List.length l * (List.length l' - 1))%nat.
Proof.
  intros Hnd. induction l as [|a l IH]; intros Hinc; [reflexivity|].
  simpl list_prod. rewrite filter_app, length_app, filter_map_comm, length_map.
  simpl fst. simpl snd. rewrite length_filter_neq; [|exact Hnd|apply Hinc; now left].
  rewrite IH by (intros z Hz; apply Hinc; now right). simpl. lia.
Qed.

Lemma in_randint_range (k z : Z) : In z (randint_range k) <-> (1 <= z <= k)%Z.
Proof.
  unfold randint_range. rewrite in_map_iff. split.
  - intros [i [<- Hi]]. apply in_seq in Hi. lia.
  - intros H. exists (Z.to_nat z). split; [lia|]. apply in_seq. lia.
Qed.

Lemma nodup_randint_range (k : Z) : NoDup (randint_range k).
Proof.
  unfold randint_range. generalize (seq_NoDup (Z.to_nat k) 1).
  induction (seq 1 (Z.to_nat k)) as [|i l IH]; simpl; intros H; [constructor|].
  inversion H as [|? ? Hi Hl]; subst. constructor; [|auto].
  rewrite in_map_iff. intros [j [E Hj]]. apply Nat2Z.inj in E. now subst j.
Qed.

Lemma nodup_list_prod (l l' : list Z) :
  NoDup l -> NoDup l' -> NoDup (list_prod l l').
Proof.
  intros Hl Hl'. induction l as [|a l IH]; simpl; [constructor|].
  inversion Hl as [|? ? Ha Hr]; subst. apply NoDup_app.
  - clear -Hl'. induction l' as [|b l' IH']; simpl; [constructor|].
    inversion Hl' as [|? ? Hb Hr']; subst. constructor; [|auto].
    rewrite in_map_iff. intros [c [E Hc]]. inversion E. now subst c.
  - auto.
  - intros [x y] Hin Hin'. apply in_map_iff in Hin. destruct Hin as [c [E _]].
    inversion E; subst x y. apply in_prod_iff in Hin'. tauto.
Qed.

Lemma in_distinct_pairs (k a b : Z) :
  In (a, b) (distinct_pairs k) <-> a <> b /\ (1 <= a <= k)%Z /\ (1 <= b <= k)%Z.
Proof.
  unfold distinct_pairs. rewrite filter_In, in_prod_iff, !in_randint_range. simpl.
  rewrite negb_true_iff, Z.eqb_neq. tauto.
Qed.

Lemma nodup_distinct_pairs (k : Z) : NoDup (distinct_pairs k).
Proof.
  unfold distinct_pairs. apply NoDup_filter. apply nodup_list_prod; apply nodup_randint_range.
Qed.

Lemma length_distinct_pairs (k : Z) :
  (0 <= k)%Z -> Z.of_nat (List.length (distinct_pairs k)) = (k * (k - 1))%Z.
Proof.
  intros Hk. unfold distinct_pairs.
  rewrite length_distinct_prod; [|apply nodup_randint_range|apply incl_refl].
  unfold randint_range. rewrite length_map, length_seq.
  destruct (Z.to_nat k) as [|j] eqn:E.
  - assert (k = 0)%Z by lia. subst k. reflexivity.
  - replace k with (Z.of_nat (S j)) by lia. simpl Nat.sub. rewrite Nat.sub_0_r. lia.
Qed.

(** there are [k * (k - 1)] pairs of different values from 1 to [k], so a
    list of such pairs without repetition is not longer *)
Lemma distinct_pairs_bound (k : Z) (l : list (Z * Z)) :
  (0 <= k)%Z -> NoDup l ->
  (forall e, In e l -> fst e <> snd e /\ (1 <= fst e <= k)%Z /\ (1 <= snd e <= k)%Z) ->
  (Z.of_nat (List.length l) <= k * (k - 1))%Z.
Proof.
  intros Hk Hnd Hall. rewrite <- (length_distinct_pairs k Hk). apply inj_le.
  apply NoDup_incl_length; [exact Hnd|]. intros [a b] Hin.
  apply in_distinct_pairs. exact (Hall (a, b) Hin).
Qed.

Lemma generate_loop_never_returns (n m : Z) :
  (2 <= n)%Z -> ((n - 1) * (n - 2) < m)%Z ->
  forall draws edges,
    (forall z, In z draws -> (1 <= z <= n - 1)%Z) ->
    NoDup edges ->
    (forall e, In e edges ->
               fst e <> snd e /\ (1 <= fst e <= n - 1)%Z /\ (1 <= snd e <= n - 1)%Z) ->
    network_parameters.generate_loop n m draws edges = None.
Proof.
  intros Hn Hm draws. induction draws as [| a | a b l IH] using list_pair_ind;
    intros edges Hd Hnd Hall; rewrite generate_loop_equation;
    pose proof (distinct_pairs_bound (n - 1) edges ltac:(lia) Hnd Hall) as Hb;
    replace (n - 1 - 1)%Z with (n - 2)%Z in Hb by lia;
    (destruct (Z.ltb_spec (Z.of_nat (List.length edges)) m) as [Hlt|Hge]; [|lia]);
    (destruct (Z.ltb_spec (n - 1) 1) as [Hn'|Hn']; [lia|]); try reflexivity.
  assert (Hd' : forall z, In z l -> (1 <= z <= n - 1)%Z).
  { intros z Hz. apply Hd. simpl. auto. }
  destruct (negb (Z.eqb a b) && negb (existsb _ edges)) eqn:Efresh.
  - apply andb_true_iff in Efresh. destruct Efresh as [Hab Hnew].
    apply negb_true_iff in Hab, Hnew. apply Z.eqb_neq in Hab.
    apply IH; [exact Hd'| |].
    + apply NoDup_app; [exact Hnd|constructor; [intros []|constructor]|].
      intros e He [<-|[]]. apply existsb_pair_in in He. congruence.
    + intros e He. apply in_app_iff in He. destruct He as [He|[<-|[]]]; [auto|].
      simpl. split; [exact Hab|]. split; apply Hd; simpl; auto.
  - apply IH; assumption.
Qed.

(** draws that bring one new pair per iteration fill the list *)
Lemma generate_loop_fills (n m : Z) :
  (2 <= n)%Z ->
  forall pairs edges,
    NoDup (edges ++ pairs) -> (forall e, In e pairs -> fst e <> snd e) ->
    Z.of_nat (List.length (edges ++ pairs)) = m ->
    network_parameters.generate_loop n m (draws_of pairs) edges = Some (Ok (edges ++ pairs)).
Proof.
  intros Hn pairs. induction pairs as [|[a b] r IH]; intros edges Hnd Hoff Hlen;
    rewrite generate_loop_equation.
  - rewrite app_nil_r in *.
    destruct (Z.ltb_spec (Z.of_nat (List.length edges)) m) as [Hlt|Hge]; [lia|reflexivity].
  - rewrite length_app in Hlen. simpl in Hlen.
    destruct (Z.ltb_spec (Z.of_nat (List.length edges)) m) as [Hlt|Hge]; [|lia].
    destruct (Z.ltb_spec (n - 1) 1) as [Hn'|Hn']; [lia|].
    change (draws_of ((a, b) :: r)) with (a :: b :: draws_of r).
    assert (Hab : Z.eqb a b = false).
    { apply Z.eqb_neq. exact (Hoff (a, b) (or_introl eq_refl)). }
    assert (Hnew : existsb (network_parameters.pair_eqb (a, b)) edges = false).
    { destruct (existsb _ edges) eqn:E; [|reflexivity]. apply existsb_pair_in in E.
      exfalso. apply NoDup_remove_2 in Hnd. apply Hnd. apply in_app_iff. now left. }
    cbv iota beta. rewrite Hab, Hnew. simpl negb. simpl andb.
    replace (edges ++ (a, b) :: r) with ((edges ++ [(a, b)]) ++ r)
      by (now rewrite <- app_assoc).
    apply IH.
    + rewrite <- app_assoc. exact Hnd.
    + intros e He. apply Hoff. now right.
    + rewrite <- app_assoc, length_app. simpl. lia.
Qed.

(** X27. How many edges [generate_random_network] can deliver.  The ends
    are drawn from 1 to [num_nodes - 1], which gives
    [(num_nodes - 1) * (num_nodes - 2)] different edges.  Asked for more,
    the function never returns, whatever [random.randint] draws; asked
    for that many or fewer, it returns for suitable draws. *)
Theorem generate_random_network_capacity (n m : Z) :
  (2 <= n)%Z ->
  (((n - 1) * (n - 2) < m)%Z ->
   forall draws, (forall z, In z draws -> (1 <= z <= n - 1)%Z) ->
                 network_parameters.generate_random_network n m draws = None)
  /\ ((m <= (n - 1) * (n - 2))%Z ->
      exists draws r, (forall z, In z draws -> (1 <= z <= n - 1)%Z)
                      /\ network_parameters.generate_random_network n m draws = Some (Ok r)).
Proof.
  intros Hn. unfold network_parameters.generate_random_network. split.
  - intros Hm draws Hd.
    rewrite (generate_loop_never_returns n m Hn Hm draws []); auto.
    + constructor.
    + intros e [].
  - intros Hm. set (pairs := firstn (Z.to_nat m) (distinct_pairs (n - 1))).
    assert (Hsub : forall e, In e pairs -> In e (distinct_pairs (n - 1))).
    { intros e He. unfold pairs in He.
      rewrite <- (firstn_skipn (Z.to_nat m) (distinct_pairs (n - 1))).
      apply in_app_iff. now left. }
    exists (draws_of pairs), (map fst pairs, map snd pairs). split.
    + intros z Hz. unfold draws_of in Hz. apply in_flat_map in Hz.
      destruct Hz as [[a b] [He Hz]]. apply Hsub, in_distinct_pairs in He.
      simpl in Hz. destruct Hz as [<-|[<-|[]]]; tauto.
    + destruct (Z.le_gt_cases m 0) as [Hneg|Hpos].
      * assert (E : pairs = []).
        { unfold pairs. replace (Z.to_nat m) with 0%nat by lia. reflexivity. }
        rewrite E. simpl draws_of. rewrite generate_loop_equation.
        destruct (Z.ltb_spec (Z.of_nat (@List.length (Z * Z) [])) m) as [Hlt|Hge];
          [simpl in Hlt; lia|reflexivity].
      * rewrite (generate_loop_fills n m Hn pairs []).
        -- reflexivity.
        -- simpl. unfold pairs.
           pose proof (nodup_distinct_pairs (n - 1)) as Hnd.
           rewrite <- (firstn_skipn (Z.to_nat m) (distinct_pairs (n - 1))) in Hnd.
           exact (NoDup_app_remove_r _ _ Hnd).
        -- intros [a b] He. apply Hsub, in_distinct_pairs in He. simpl. tauto.
        -- simpl. unfold pairs. rewrite length_firstn.
           pose proof (length_distinct_pairs (n - 1) ltac:(lia)) as Hl.
           replace (n - 1 - 1)%Z with (n - 2)%Z in Hl by lia. lia.
Qed.

Lemma generate_random_network_capacity_witness :
  network_parameters.generate_random_network 3 3 [1; 2; 2; 1; 1; 2; 2; 2]%Z = None
  /\ exists draws r, (forall z, In z draws -> (1 <= z <= 3 - 1)%Z)
                     /\ network_parameters.generate_random_network 3 2 draws = Some (Ok r).
Proof.
  split.
  - apply (proj1 (generate_random_network_capacity 3 3 ltac:(lia))); [lia|].
    intros z Hz. simpl in Hz. lia.
  - apply (proj2 (generate_random_network_capacity 3 2 ltac:(lia))). lia.
Defined.
